(** * soa-htable: a struct-of-arrays container and the hash table built on it

    A shallow embedding of [soa.hpp] and [htable.hpp] (namespace [hvh]) and
    the properties of the column store and of the hash index.

    Conventions of the embedding:
    - [size_t] values are integers in [0, 2^64); every arithmetic operation
      the source performs on them is followed by [size_t], which writes the
      wrap-around out.  Hash slots are [uint32_t] values.
    - a column (the [mydata] array of one [_soa_base<FT, RTs...>] level) is
      the list of its cells that lie inside the allocated block: all
      [mycapacity] of them, unless the byte count of the allocation has
      wrapped around; a null [mydata] is the empty list.  Cells beyond
      [mysize] hold whatever the memory holds: destructors leave the bytes
      of a cell in place, and fresh memory holds [junk].
    - a cell is its value, and [memcpy] and [memmove] carry the value along.
      That is what the source does for trivially copyable column types, and
      the properties are about such types.  An object that refers to its
      own storage, such as a short [std::string], does not survive the
      bytewise relocation of [erase_shift], of [insert] at a position and
      of a reallocation of a container that holds rows; the examples use
      [int] and [std::string_view] columns.
    - an access outside an array is undefined behaviour in the source; here
      it is the outcome [OutOfBounds].  A [while (1)] loop receives fuel and
      yields [Timeout] when the fuel does not suffice.
    - the allocator is an oracle [alloc : Z -> bool] on the requested number
      of bytes ([_soa_aligned_malloc] returning non-null). *)

From Stdlib Require Import ZArith Lia Bool Ascii String.
From stdpp Require Import base list sorting.

Open Scope Z_scope.

(** ** Machine integers *)

Definition SIZE_MAX : Z := 2 ^ 64 - 1.
Definition UINT_MAX : Z := 2 ^ 32 - 1.

(** Reduction of an integer to [size_t] (64 bits) and to [uint32_t]. *)
Definition size_t (z : Z) : Z := z mod 2 ^ 64.
Definition uint32_t (z : Z) : Z := z mod 2 ^ 32.

Definition PTRDIFF_MAX : Z := 2 ^ 63 - 1.

(** [_soa_aligned_malloc(16, bytes)] returns a block: the allocator [alloc]
    grants the request, and no allocator grants more than [PTRDIFF_MAX]
    bytes. *)
Definition aligned_malloc (alloc : Z -> bool) (bytes : Z) : bool :=
  (bytes <=? PTRDIFF_MAX) && alloc bytes.

(** ** Outcomes of a call *)

Inductive outcome (A : Type) : Type :=
| Done (a : A)
| OutOfBounds
| DivisionByZero
| Timeout.

Arguments Done {A} a.
Arguments OutOfBounds {A}.
Arguments DivisionByZero {A}.
Arguments Timeout {A}.

Global Instance outcome_ret : MRet outcome := fun A a => Done a.
Global Instance outcome_bind : MBind outcome := fun A B k m =>
  match m with
  | Done a => k a
  | OutOfBounds => OutOfBounds
  | DivisionByZero => DivisionByZero
  | Timeout => Timeout
  end.

(** [a[i]] as an rvalue and [a[i] = x]. *)
Definition rd {A : Type} (a : list A) (i : Z) : outcome A :=
  if (0 <=? i) && (i <? Z.of_nat (length a)) then
    match a !! Z.to_nat i with
    | Some x => Done x
    | None => OutOfBounds
    end
  else OutOfBounds.

Definition wr {A : Type} (a : list A) (i : Z) (x : A) : outcome (list A) :=
  if (0 <=? i) && (i <? Z.of_nat (length a)) then Done (<[Z.to_nat i := x]> a)
  else OutOfBounds.

(** [a % b] on [size_t]. *)
Definition modulo (a b : Z) : outcome Z :=
  if b =? 0 then DivisionByZero else Done (a mod b).

(** ** Template parameters

    [Ts] is the list of column types: for each its [sizeof] and the value a
    default construction [FT()] yields.  Cells of all columns live in the
    one type [val].  [val_eqb] is [operator==] on keys and [hash] is
    [std::hash<KeyT>]. *)

Record column_type (val : Type) : Type := {
  sizeof : Z;
  default_value : val
}.
Arguments sizeof {val} _.
Arguments default_value {val} _.

Class Instantiation : Type := {
  val : Type;
  val_eqb : val -> val -> bool;
  hash : val -> Z;
  Ts : list (column_type val);
  junk : val;
  junk_slot : Z
}.

Section Definitions.
Context {I : Instantiation}.

(** ** The column store: [_soa_base] *)

Record soa : Type := mk_soa {
  mysize : Z;
  mycapacity : Z;
  mydata : list (list val)
}.

(** The recursion through [_soa_base<FT, RTs...>]: one action per column. *)
Fixpoint each_column (f : list val -> outcome (list val))
    (cols : list (list val)) : outcome (list (list val)) :=
  match cols with
  | [] => Done []
  | col :: rest =>
      col' ← f col;
      rest' ← each_column f rest;
      Done (col' :: rest')
  end.

(** The same with one argument per column (a parameter pack).  A pack of
    the wrong length does not compile in the source; here the columns
    without an argument are left alone. *)
Fixpoint each_column_with {X : Type} (f : X -> list val -> outcome (list val))
    (args : list X) (cols : list (list val)) : outcome (list (list val)) :=
  match cols, args with
  | col :: rest, x :: args' =>
      col' ← f x col;
      rest' ← each_column_with f args' rest;
      Done (col' :: rest')
  | _, _ => Done cols
  end.

Fixpoint size_per_entry_of (ts : list (column_type val)) : Z :=
  match ts with
  | [] => 0
  | t :: rest => sizeof t + size_per_entry_of rest
  end.

Definition size_per_entry : Z := size_per_entry_of Ts.

Definition nullify (cols : list (list val)) : list (list val) :=
  map (fun _ => []) cols.

(** [for (i = b; i < e; ++i) new (&mydata[i]) FT(v)]. *)
Definition construct_cells (b e : Z) (v : val) (col : list val)
    : outcome (list val) :=
  if b <? e then
    if e <=? Z.of_nat (length col) then
      Done (take (Z.to_nat b) col ++ replicate (Z.to_nat (e - b)) v
              ++ drop (Z.to_nat e) col)
    else OutOfBounds
  else Done col.

Definition construct_range (b e : Z) (cols : list (list val))
    : outcome (list (list val)) :=
  each_column_with (fun t => construct_cells b e (default_value t)) Ts cols.

Definition construct_range_with (b e : Z) (initvals : list val)
    (cols : list (list val)) : outcome (list (list val)) :=
  each_column_with (fun v => construct_cells b e v) initvals cols.

(** Destructors leave the cells as they are. *)
Definition destruct_range (b e : Z) (cols : list (list val))
    : list (list val) := cols.

(** The cells of an array of [cap] cells of [sz] bytes each, at the offset
    [off] of a block of [bytes] bytes, that lie inside the block.  Offsets
    are not reduced modulo [2 ^ 64]: an array that starts past the end of
    the block has no cell inside it. *)
Definition cells_inside (bytes off cap sz : Z) : Z :=
  Z.max 0 (Z.min cap ((bytes - off) / sz)).

(** [memcpy(newmem, mydata, sizeof(FT) * n)] into a fresh array of which
    [room] cells lie inside the block. *)
Definition memcpy_into_fresh (room n : Z) (old : list val) : outcome (list val) :=
  if (n <=? Z.of_nat (length old)) && (n <=? room) then
    Done (take (Z.to_nat n) old ++ replicate (Z.to_nat (room - n)) junk)
  else OutOfBounds.

(** [divy_buffer]: slices the block of [bytes] bytes, from offset [off] on,
    into one array of [cap] cells per column, and copies the old cells.
    [cap] is [mycapacity], which the caller has already overwritten.  The
    source does not compare the arrays with the size of the block: where
    the byte count the caller asked for has wrapped around, the block is
    shorter than the arrays.  An array is modelled by its cells inside the
    block, so that a [memcpy] or a later access beyond the block is out of
    bounds.  The recursion follows the column types; [cols] are the old
    arrays. *)
Fixpoint divy_buffer (bytes off cap size : Z) (ts : list (column_type val))
    (cols : list (list val)) : outcome (list (list val)) :=
  match ts with
  | [] => Done []
  | t :: ts' =>
      let room := cells_inside bytes off cap (sizeof t) in
      col' ← match hd [] cols with
              | [] => Done (replicate (Z.to_nat room) junk)
              | col => memcpy_into_fresh room (Z.min size cap) col
              end;
      rest ← divy_buffer bytes (off + sizeof t * cap) cap size ts' (tl cols);
      Done (col' :: rest)
  end.

(** [memmove(mydata + dst, mydata + src, sizeof(FT) * n)]. *)
Definition memmove (dst src n : Z) (col : list val) : outcome (list val) :=
  if n =? 0 then Done col
  else if (src + n <=? Z.of_nat (length col)) && (dst + n <=? Z.of_nat (length col))
  then Done (take (Z.to_nat dst) col
               ++ take (Z.to_nat n) (drop (Z.to_nat src) col)
               ++ drop (Z.to_nat (dst + n)) col)
  else OutOfBounds.

Definition swap_cells (i j : Z) (col : list val) : outcome (list val) :=
  a ← rd col i;
  b ← rd col j;
  col1 ← wr col i b;
  wr col1 j a.

Definition base_push_back (size : Z) (row : list val) (cols : list (list val))
    : outcome (list (list val)) :=
  each_column_with (fun v col => wr col size v) row cols.

Definition base_emplace_back_default (size : Z) (cols : list (list val))
    : outcome (list (list val)) :=
  each_column_with (fun t col => wr col size (default_value t)) Ts cols.

Definition base_insert (size location : Z) (row : list val)
    (cols : list (list val)) : outcome (list (list val)) :=
  each_column_with
    (fun v col =>
       col1 ← memmove (size_t (location + 1)) location (size_t (size - location)) col;
       wr col1 location v)
    row cols.

Definition base_pop_back (size : Z) (cols : list (list val))
    : outcome (list (list val)) :=
  each_column (fun col => _ ← rd col (size_t (size - 1)); Done col) cols.

Definition base_erase_swap (size location : Z) (cols : list (list val))
    : outcome (list (list val)) :=
  each_column (swap_cells location (size_t (size - 1))) cols.

Definition base_erase_shift (size location : Z) (cols : list (list val))
    : outcome (list (list val)) :=
  each_column
    (fun col =>
       _ ← rd col location;
       memmove location (size_t (location + 1)) (size_t (size - location)) col)
    cols.

Definition base_swap_entries (first second : Z) (cols : list (list val))
    : outcome (list (list val)) :=
  each_column (swap_cells first second) cols.

(** [at<K>(i)]. *)
Definition column (K : nat) (s : soa) : list val :=
  match mydata s !! K with
  | Some col => col
  | None => []
  end.

Definition at_ (K : nat) (i : Z) (s : soa) : outcome val := rd (column K s) i.

(** ** The column store: [soa] *)

Definition soa_new : soa := mk_soa 0 0 (map (fun _ => []) Ts).

Definition size (s : soa) : Z := mysize s.
Definition capacity (s : soa) : Z := mycapacity s.
Definition empty (s : soa) : bool := mysize s =? 0.

Definition clear (s : soa) : soa :=
  mk_soa 0 (mycapacity s) (destruct_range 0 (mysize s) (mydata s)).

(** The rounding both [reserve] and [shrink_to_fit] start with. *)
Definition multiple_of_16 (newsize : Z) : Z :=
  if negb (newsize mod 16 =? 0) then size_t (newsize + (16 - newsize mod 16))
  else newsize.

Definition reserve (alloc : Z -> bool) (newsize : Z) (s : soa)
    : outcome (bool * soa) :=
  let newsize := multiple_of_16 newsize in
  let newsize := if newsize =? 0 then 16 else newsize in
  if newsize <=? mycapacity s then Done (true, s)
  else
    let bytes := size_t (size_per_entry * newsize) in
    if negb (aligned_malloc alloc bytes) then Done (false, s)
    else
      cols ← divy_buffer bytes 0 newsize (mysize s) Ts (mydata s);
      Done (true, mk_soa (mysize s) newsize cols).

Definition shrink_to_fit (alloc : Z -> bool) (s : soa) : outcome (bool * soa) :=
  let newsize := multiple_of_16 (mysize s) in
  if newsize =? mycapacity s then Done (true, s)
  else if 0 <? newsize then
    let bytes := size_t (size_per_entry * newsize) in
    if negb (aligned_malloc alloc bytes) then Done (false, s)
    else
      cols ← divy_buffer bytes 0 newsize (mysize s) Ts (mydata s);
      Done (true, mk_soa (mysize s) newsize cols)
  else Done (true, mk_soa (mysize s) 0 (nullify (mydata s))).

(** [resize(n)]. *)
Definition resize (alloc : Z -> bool) (newsize : Z) (s : soa)
    : outcome (bool * soa) :=
  if mysize s <? newsize then
    '(ok, s1) ← (if mycapacity s <? newsize then reserve alloc newsize s
                  else Done (true, s));
    if negb ok then Done (false, s1)
    else
      cols ← construct_range (mysize s1) newsize (mydata s1);
      Done (true, mk_soa newsize (mycapacity s1) cols)
  else if newsize <? mysize s then
    Done (true, mk_soa newsize (mycapacity s)
                  (destruct_range newsize (mysize s) (mydata s)))
  else Done (true, s).

(** [resize(n, initvals...)]. *)
Definition resize_with (alloc : Z -> bool) (newsize : Z) (initvals : list val)
    (s : soa) : outcome (bool * soa) :=
  if mysize s <? newsize then
    '(ok, s1) ← (if mycapacity s <? newsize then reserve alloc newsize s
                  else Done (true, s));
    if negb ok then Done (false, s1)
    else
      cols ← construct_range_with (mysize s1) newsize initvals (mydata s1);
      Done (true, mk_soa (mysize s1) (mycapacity s1) cols)
  else if newsize <? mysize s then
    Done (true, mk_soa newsize (mycapacity s)
                  (destruct_range newsize (mysize s) (mydata s)))
  else Done (true, s).

(** The growth step shared by the insert family:
    [if (mysize == mycapacity) if (!reserve(mycapacity * 2)) return false]. *)
Definition grow_if_full (alloc : Z -> bool) (s : soa) : outcome (bool * soa) :=
  if mysize s =? mycapacity s then reserve alloc (size_t (mycapacity s * 2)) s
  else Done (true, s).

Definition push_back (alloc : Z -> bool) (row : list val) (s : soa)
    : outcome (bool * soa) :=
  '(ok, s1) ← grow_if_full alloc s;
  if negb ok then Done (false, s1)
  else
    cols ← base_push_back (mysize s1) row (mydata s1);
    Done (true, mk_soa (size_t (mysize s1 + 1)) (mycapacity s1) cols).

(** [emplace_back()] with no arguments. *)
Definition emplace_back (alloc : Z -> bool) (s : soa) : outcome (bool * soa) :=
  '(ok, s1) ← grow_if_full alloc s;
  if negb ok then Done (false, s1)
  else
    cols ← base_emplace_back_default (mysize s1) (mydata s1);
    Done (true, mk_soa (size_t (mysize s1 + 1)) (mycapacity s1) cols).

Definition insert (alloc : Z -> bool) (where_ : Z) (row : list val) (s : soa)
    : outcome (bool * soa) :=
  '(ok, s1) ← grow_if_full alloc s;
  if negb ok then Done (false, s1)
  else if mysize s1 <? where_ then Done (false, s1)
  else
    cols ← base_insert (mysize s1) where_ row (mydata s1);
    Done (true, mk_soa (size_t (mysize s1 + 1)) (mycapacity s1) cols).

Definition pop_back (s : soa) : outcome soa :=
  if mysize s =? 0 then Done s
  else
    cols ← base_pop_back (mysize s) (mydata s);
    Done (mk_soa (size_t (mysize s - 1)) (mycapacity s) cols).

Definition erase_swap (where_ : Z) (s : soa) : outcome soa :=
  if mysize s <=? where_ then Done s
  else
    cols ← base_erase_swap (mysize s) where_ (mydata s);
    Done (mk_soa (size_t (mysize s - 1)) (mycapacity s) cols).

Definition erase_shift (where_ : Z) (s : soa) : outcome soa :=
  if mysize s <=? where_ then Done s
  else
    cols ← base_erase_shift (mysize s) where_ (mydata s);
    Done (mk_soa (size_t (mysize s - 1)) (mycapacity s) cols).

Definition swap_entries (first second : Z) (s : soa) : outcome soa :=
  if (mysize s <=? first) || (mysize s <=? second) then Done s
  else
    cols ← base_swap_entries first second (mydata s);
    Done (mk_soa (mysize s) (mycapacity s) cols).


(** [deserialize(num_elements, num_bytes)]; the result of [reserve] is
    dropped. *)
Definition deserialize (alloc : Z -> bool) (num_elements : Z) (s : soa)
    : outcome (Z * soa) :=
  '(_, s1) ← reserve alloc num_elements s;
  Done (size_t (size_per_entry * mycapacity s1),
        mk_soa num_elements (mycapacity s1) (mydata s1)).


(** ** The hash table: [htable] *)

Definition INDEXNUL : Z := UINT_MAX.
Definition INDEXDEL : Z := UINT_MAX - 1.

(** [base] is the [soa<KeyT, ItemTs...>] subobject; [hashmap] is the slot
    array at the front of the block. *)
Record htable : Type := mk_htable {
  base : soa;
  hashmap : list Z;
  hashcapacity : Z;
  hashcursor : Z
}.

Definition htable_new : htable := mk_htable soa_new [] 0 SIZE_MAX.

Definition max_size : Z := UINT_MAX - 2.

(** [hash_inc(h)]: [h = ((h + 2) % hashcapacity)]. *)
Definition hash_inc (hashcapacity h : Z) : outcome Z :=
  modulo (size_t (h + 2)) hashcapacity.

(** [memset(hashmap, INDEXNUL, sizeof(uint32_t) * hashcapacity)]. *)
Definition memset_nul (hashcapacity : Z) (hashmap : list Z) : outcome (list Z) :=
  if hashcapacity <=? Z.of_nat (length hashmap) then
    Done (replicate (Z.to_nat hashcapacity) INDEXNUL
            ++ drop (Z.to_nat hashcapacity) hashmap)
  else OutOfBounds.

(** The [while (1)] of [rehash]: the first slot from [h] on that is NUL or
    DEL receives [i]. *)
Fixpoint rehash_place (fuel : nat) (hashcapacity : Z) (i : Z)
    (hashmap : list Z) (h : Z) : outcome (list Z) :=
  match fuel with
  | O => Timeout
  | S fuel' =>
      index ← rd hashmap h;
      if (index =? INDEXNUL) || (index =? INDEXDEL) then
        wr hashmap h (uint32_t i)
      else
        h' ← hash_inc hashcapacity h;
        rehash_place fuel' hashcapacity i hashmap h'
  end.

(** The [for] of [rehash] over the rows [i], [i + 1], ...; [todo] counts
    the rows left. *)
Fixpoint rehash_rows (fuel : nat) (hashcapacity : Z) (keys : list val)
    (todo : nat) (i : Z) (hashmap : list Z) : outcome (list Z) :=
  match todo with
  | O => Done hashmap
  | S todo' =>
      key ← rd keys i;
      h ← modulo (hash key) hashcapacity;
      hashmap' ← rehash_place fuel hashcapacity i hashmap h;
      rehash_rows fuel hashcapacity keys todo' (i + 1) hashmap'
  end.

Definition rehash (fuel : nat) (t : htable) : outcome htable :=
  hashmap0 ← memset_nul (hashcapacity t) (hashmap t);
  hashmap' ← rehash_rows fuel (hashcapacity t) (column 0%nat (base t))
                (Z.to_nat (mysize (base t))) 0 hashmap0;
  Done (mk_htable (base t) hashmap' (hashcapacity t) SIZE_MAX).

Definition htable_clear (t : htable) : outcome htable :=
  hashmap' ← memset_nul (hashcapacity t) (hashmap t);
  Done (mk_htable (clear (base t)) hashmap' (hashcapacity t) SIZE_MAX).

Definition htable_reserve (alloc : Z -> bool) (fuel : nat) (newsize : Z)
    (t : htable) : outcome (bool * htable) :=
  let newsize := multiple_of_16 newsize in
  let newsize := if newsize =? 0 then 16 else newsize in
  if newsize <=? mycapacity (base t) then Done (true, t)
  else
    let hashcapacity0 := size_t (size_t (newsize + newsize) + 4) in
    let htable_size := size_t (hashcapacity0 * 4) in
    let hashcapacity' := size_t (hashcapacity0 - 1) in
    let bytes := size_t (size_t (size_per_entry * newsize) + htable_size) in
    if negb (aligned_malloc alloc bytes) then
      Done (false, mk_htable (base t) (hashmap t) hashcapacity' (hashcursor t))
    else
      cols ← divy_buffer bytes htable_size newsize (mysize (base t)) Ts
                (mydata (base t));
      t' ← rehash fuel
             (mk_htable (mk_soa (mysize (base t)) newsize cols)
                (replicate (Z.to_nat (cells_inside bytes 0 (htable_size / 4) 4))
                   junk_slot)
                hashcapacity' (hashcursor t));
      Done (true, t').

Definition htable_shrink_to_fit (alloc : Z -> bool) (fuel : nat) (t : htable)
    : outcome (bool * htable) :=
  let newsize := multiple_of_16 (mysize (base t)) in
  if newsize =? mycapacity (base t) then Done (true, t)
  else if 0 <? newsize then
    let hashcapacity0 := size_t (size_t (newsize + newsize) + 4) in
    let htable_size := size_t (hashcapacity0 * 4) in
    let hashcapacity' := size_t (hashcapacity0 - 1) in
    let bytes := size_t (size_t (size_per_entry * newsize) + htable_size) in
    if negb (aligned_malloc alloc bytes) then
      Done (false, mk_htable (base t) (hashmap t) hashcapacity' (hashcursor t))
    else
      cols ← divy_buffer bytes htable_size newsize (mysize (base t)) Ts
                (mydata (base t));
      t' ← rehash fuel
             (mk_htable (mk_soa (mysize (base t)) newsize cols)
                (replicate (Z.to_nat (cells_inside bytes 0 (htable_size / 4) 4))
                   junk_slot)
                hashcapacity' (hashcursor t));
      Done (true, t')
  else
    t' ← rehash fuel
           (mk_htable (mk_soa (mysize (base t)) 0 (nullify (mydata (base t))))
              [] 0 (hashcursor t));
    Done (true, t').

(** The [while (1)] of [insert]: at the first NUL or DEL slot from [h] on
    the row is pushed onto the back of the store and the slot receives its
    index. *)
Fixpoint insert_place (alloc : Z -> bool) (fuel : nat) (row : list val)
    (t : htable) (h : Z) : outcome htable :=
  match fuel with
  | O => Timeout
  | S fuel' =>
      index ← rd (hashmap t) h;
      if (index =? INDEXNUL) || (index =? INDEXDEL) then
        let index' := uint32_t (mysize (base t)) in
        '(_, base') ← push_back alloc row (base t);
        hashmap' ← wr (hashmap t) h index';
        Done (mk_htable base' hashmap' (hashcapacity t) (hashcursor t))
      else
        h' ← hash_inc (hashcapacity t) h;
        insert_place alloc fuel' row t h'
  end.

(** [insert(key, items...)]. *)
Definition htable_insert (alloc : Z -> bool) (fuel : nat) (key : val)
    (items : list val) (t : htable) : outcome (bool * htable) :=
  if mysize (base t) =? max_size then Done (false, t)
  else
    '(ok, t1) ← (if mysize (base t) =? mycapacity (base t)
                 then htable_reserve alloc fuel
                        (size_t (mycapacity (base t) * 2)) t
                 else Done (true, t));
    if negb ok then Done (false, t1)
    else
      h ← modulo (hash key) (hashcapacity t1);
      t2 ← insert_place alloc fuel (key :: items) t1 h;
      Done (true, t2).

(** The [while (1)] shared by the three [find] overloads, on the cursor
    [c]; it yields the result and the cursor it stopped at. *)
Fixpoint find_loop (fuel : nat) (key : val) (t : htable) (c : Z)
    : outcome (Z * Z) :=
  match fuel with
  | O => Timeout
  | S fuel' =>
      index ← rd (hashmap t) c;
      if index =? INDEXNUL then Done (SIZE_MAX, c)
      else
        hit ← (if negb (index =? INDEXDEL)
               then k ← at_ 0%nat index (base t); Done (val_eqb k key)
               else Done false);
        if (hit : bool) then Done (index, c)
        else
          c' ← hash_inc (hashcapacity t) c;
          find_loop fuel' key t c'
  end.

(** [find(key, restart, hashc) const], on the caller's cursor [hashc]; the
    cursor comes back with the result. *)
Definition find_const_cursor (fuel : nat) (key : val) (restart : bool)
    (hashc : Z) (t : htable) : outcome (Z * Z) :=
  if mysize (base t) =? 0 then Done (SIZE_MAX, hashc)
  else if restart then
    c ← modulo (hash key) (hashcapacity t);
    find_loop fuel key t c
  else if hashcapacity t <=? hashc then Done (SIZE_MAX, hashc)
  else
    c ← hash_inc (hashcapacity t) hashc;
    find_loop fuel key t c.

(** [find(key, restart)], on the table's own cursor. *)
Definition find (fuel : nat) (key : val) (restart : bool) (t : htable)
    : outcome (Z * htable) :=
  if mysize (base t) =? 0 then Done (SIZE_MAX, t)
  else if restart then
    c ← modulo (hash key) (hashcapacity t);
    '(r, c') ← find_loop fuel key t c;
    Done (r, mk_htable (base t) (hashmap t) (hashcapacity t) c')
  else if hashcapacity t <=? hashcursor t then Done (SIZE_MAX, t)
  else
    c ← hash_inc (hashcapacity t) (hashcursor t);
    '(r, c') ← find_loop fuel key t c;
    Done (r, mk_htable (base t) (hashmap t) (hashcapacity t) c').

(** [find(key) const], on a local cursor. *)
Definition find_const (fuel : nat) (key : val) (t : htable) : outcome Z :=
  if mysize (base t) =? 0 then Done SIZE_MAX
  else
    c ← modulo (hash key) (hashcapacity t);
    '(r, _) ← find_loop fuel key t c;
    Done r.

(** [count(key)]: the [for] over [find(key, _, hashc)]; [rounds] bounds
    the number of iterations. *)
Fixpoint count_loop (fuel rounds : nat) (key : val) (t : htable)
    (index hashc result : Z) : outcome Z :=
  if index =? SIZE_MAX then Done result
  else
    match rounds with
    | O => Timeout
    | S rounds' =>
        '(index', hashc') ← find_const_cursor fuel key false hashc t;
        count_loop fuel rounds' key t index' hashc' (size_t (result + 1))
    end.

Definition count (fuel rounds : nat) (key : val) (t : htable) : outcome Z :=
  '(index, hashc) ← find_const_cursor fuel key true SIZE_MAX t;
  count_loop fuel rounds key t index hashc 0.

(** The two [while (1)] of [swap_entries]: the slot holding [target] from
    [h] on, or [SIZE_MAX] when a NUL slot comes first. *)
Fixpoint locate (fuel : nat) (hashcapacity : Z) (hashmap : list Z)
    (target : Z) (h : Z) : outcome Z :=
  match fuel with
  | O => Timeout
  | S fuel' =>
      index ← rd hashmap h;
      if index =? uint32_t target then Done h
      else if index =? INDEXNUL then Done SIZE_MAX
      else
        h' ← hash_inc hashcapacity h;
        locate fuel' hashcapacity hashmap target h'
  end.

Definition htable_swap_entries (fuel : nat) (first second : Z) (t : htable)
    : outcome htable :=
  base' ← swap_entries first second (base t);
  key1 ← at_ 0%nat first base';
  h1 ← modulo (hash key1) (hashcapacity t);
  first_hashpos ← locate fuel (hashcapacity t) (hashmap t) first h1;
  key2 ← at_ 0%nat second base';
  h2 ← modulo (hash key2) (hashcapacity t);
  second_hashpos ← locate fuel (hashcapacity t) (hashmap t) second h2;
  hashmap1 ← wr (hashmap t) first_hashpos (uint32_t second);
  hashmap2 ← wr hashmap1 second_hashpos (uint32_t first);
  Done (mk_htable base' hashmap2 (hashcapacity t) (hashcursor t)).

(** The [while (1)] of [erase_found]: the slot holding [size] (the index
    the relocated row had) receives [index]; a NUL slot ends the scan. *)
Fixpoint repair (fuel : nat) (hashcapacity : Z) (size index : Z)
    (hashmap : list Z) (h : Z) : outcome (list Z) :=
  match fuel with
  | O => Timeout
  | S fuel' =>
      newindex ← rd hashmap h;
      if newindex =? size then wr hashmap h index
      else if newindex =? INDEXNUL then Done hashmap
      else
        h' ← hash_inc hashcapacity h;
        repair fuel' hashcapacity size index hashmap h'
  end.

Definition erase_found (fuel : nat) (t : htable) : outcome (Z * htable) :=
  if hashcapacity t <=? hashcursor t then Done (0, t)
  else
    index ← rd (hashmap t) (hashcursor t);
    if (index =? INDEXNUL) || (index =? INDEXDEL) then Done (0, t)
    else
      base' ← erase_swap index (base t);
      hashmap1 ← wr (hashmap t) (hashcursor t) INDEXDEL;
      key ← at_ 0%nat index base';
      h ← modulo (hash key) (hashcapacity t);
      hashmap2 ← repair fuel (hashcapacity t) (mysize base') index hashmap1 h;
      Done (1, mk_htable base' hashmap2 (hashcapacity t) (hashcursor t)).

Definition erase (fuel : nat) (key : val) (t : htable) : outcome (Z * htable) :=
  '(_, t1) ← find fuel key true t;
  erase_found fuel t1.



Definition erase_found_sorted (fuel : nat) (t : htable) : outcome (Z * htable) :=
  if hashcapacity t <=? hashcursor t then Done (0, t)
  else
    index ← rd (hashmap t) (hashcursor t);
    if (index =? INDEXNUL) || (index =? INDEXDEL) then Done (0, t)
    else
      base' ← erase_shift index (base t);
      hashmap1 ← wr (hashmap t) (hashcursor t) INDEXDEL;
      t' ← rehash fuel (mk_htable base' hashmap1 (hashcapacity t) (hashcursor t));
      Done (1, t').

Definition erase_sorted (fuel : nat) (key : val) (t : htable)
    : outcome (Z * htable) :=
  '(_, t1) ← find fuel key true t;
  erase_found_sorted fuel t1.

(** [serialize(num_bytes)] and [deserialize(num_elements, num_bytes)] of
    the table; the buffer starts at [hashmap]. *)
Definition htable_serialize (alloc : Z -> bool) (fuel : nat) (t : htable)
    : outcome (Z * htable) :=
  '(_, t1) ← htable_shrink_to_fit alloc fuel t;
  Done (size_t (size_t (size_per_entry * mycapacity (base t1))
                + size_t (4 * hashcapacity t1)), t1).

Definition htable_deserialize (alloc : Z -> bool) (fuel : nat)
    (num_elements : Z) (t : htable) : outcome (Z * htable) :=
  '(_, t1) ← htable_reserve alloc fuel num_elements t;
  Done (size_t (size_t (size_per_entry * mycapacity (base t1))
                + size_t (4 * hashcapacity t1)),
        mk_htable (mk_soa num_elements (mycapacity (base t1)) (mydata (base t1)))
          (hashmap t1) (hashcapacity t1) (hashcursor t1)).

(** ** Call sequences *)

(** [insert(key, items...)] for every row of a list, in order, up to the
    first call that returns [false]. *)
Fixpoint insert_all (alloc : Z -> bool) (fuel : nat)
    (rows : list (val * list val)) (t : htable) : outcome (bool * htable) :=
  match rows with
  | [] => Done (true, t)
  | (key, items) :: rest =>
      '(ok, t1) ← htable_insert alloc fuel key items t;
      if (ok : bool) then insert_all alloc fuel rest t1 else Done (false, t1)
  end.

(** [insert(key, items...)] followed by [erase(key)], for every row of a
    list. *)
Fixpoint insert_then_erase_each (alloc : Z -> bool) (fuel : nat)
    (rows : list (val * list val)) (t : htable) : outcome htable :=
  match rows with
  | [] => Done t
  | (key, items) :: rest =>
      '(_, t1) ← htable_insert alloc fuel key items t;
      '(_, t2) ← erase fuel key t1;
      insert_then_erase_each alloc fuel rest t2
  end.

(** [push_back(row...)] for every row of a list. *)
Fixpoint push_back_all (alloc : Z -> bool) (rows : list (list val)) (s : soa)
    : outcome soa :=
  match rows with
  | [] => Done s
  | row :: rest =>
      '(_, s1) ← push_back alloc row s;
      push_back_all alloc rest s1
  end.

(** [n] calls [find(key, false)]: the results in order, and the table. *)
Fixpoint find_next (fuel : nat) (key : val) (n : nat) (t : htable)
    : outcome (list Z * htable) :=
  match n with
  | O => Done ([], t)
  | S n' =>
      '(r, t1) ← find fuel key false t;
      '(rs, t2) ← find_next fuel key n' t1;
      Done (r :: rs, t2)
  end.

(** [find(key, true)] followed by [n] calls [find(key, false)]. *)
Definition find_sequence (fuel : nat) (key : val) (n : nat) (t : htable)
    : outcome (list Z * htable) :=
  '(r, t1) ← find fuel key true t;
  '(rs, t2) ← find_next fuel key n t1;
  Done (r :: rs, t2).

(** The indices, counted from [i], of the rows of a list whose key is
    [key]. *)
Fixpoint indices_of (key : val) (rows : list (val * list val)) (i : Z)
    : list Z :=
  match rows with
  | [] => []
  | (k, _) :: rest =>
      if val_eqb k key then i :: indices_of key rest (i + 1)
      else indices_of key rest (i + 1)
  end.

(** [n] applications of [hash_inc] to [h], and the slots they start from. *)
Fixpoint hash_inc_iter (hashcapacity : Z) (n : nat) (h : Z) : outcome Z :=
  match n with
  | O => Done h
  | S n' => h' ← hash_inc hashcapacity h; hash_inc_iter hashcapacity n' h'
  end.

Fixpoint probe_walk (hashcapacity : Z) (n : nat) (h : Z) : outcome (list Z) :=
  match n with
  | O => Done []
  | S n' =>
      h' ← hash_inc hashcapacity h;
      rest ← probe_walk hashcapacity n' h';
      Done (h :: rest)
  end.

(** ** Invariants *)

(** The store: the quantization invariant and the shape of the arrays,
    which lie in a block an allocation can return (of at most
    [PTRDIFF_MAX] bytes). *)
Record soa_invariant (s : soa) : Prop := {
  soa_size_le_capacity : 0 <= mysize s <= mycapacity s;
  soa_capacity_16 : mycapacity s mod 16 = 0;
  soa_capacity_range :
    mycapacity s < 2 ^ 64 /\ size_per_entry * mycapacity s <= PTRDIFF_MAX;
  soa_columns : length (mydata s) = length Ts;
  soa_column_length :
    Forall (fun col => Z.of_nat (length col) = mycapacity s) (mydata s)
}.

(** What holds of the store whatever the byte counts of its allocations
    were: the quantization invariant, and arrays of which at most
    [mycapacity] cells lie inside the block. *)
Record soa_quantized (s : soa) : Prop := {
  quant_size : 0 <= mysize s <= mycapacity s;
  quant_16 : mycapacity s mod 16 = 0;
  quant_range : mycapacity s < 2 ^ 64;
  quant_columns : length (mydata s) = length Ts;
  quant_cells :
    Forall (fun col => Z.of_nat (length col) <= mycapacity s) (mydata s)
}.

(** The slot at distance [d] on the probe sequence that starts at [h]. *)
Definition probe (hashcapacity h d : Z) : Z := (h + 2 * d) mod hashcapacity.

Definition slot (t : htable) (s : Z) : option Z := hashmap t !! Z.to_nat s.

Definition key_of (t : htable) (i : Z) : option val :=
  column 0%nat (base t) !! Z.to_nat i.

(** Probing from [hash(k) % hashcapacity] reaches the slot [s] before any
    EMPTY slot. *)
Definition reaches (t : htable) (k : val) (s : Z) : Prop :=
  exists d, 0 <= d < hashcapacity t /\
    probe (hashcapacity t) (hash k mod hashcapacity t) d = s /\
    forall d', 0 <= d' < d ->
      slot t (probe (hashcapacity t) (hash k mod hashcapacity t) d')
        <> Some INDEXNUL.

(** The index: every slot is EMPTY, a TOMBSTONE, or holds a live row whose
    key reaches it; every live row is held by exactly one slot. *)
Record slot_invariant (t : htable) : Prop := {
  inv_size : 0 <= mysize (base t) <= max_size;
  inv_cells :
    Forall (fun col => mysize (base t) <= Z.of_nat (length col))
      (mydata (base t));
  inv_hashcapacity : 0 <= hashcapacity t < 2 ^ 63;
  inv_odd : hashcapacity t = 0 \/ Z.odd (hashcapacity t) = true;
  inv_hashmap : hashcapacity t <= Z.of_nat (length (hashmap t));
  inv_cursor : 0 <= hashcursor t < 2 ^ 64;
  inv_slots : forall s, 0 <= s < hashcapacity t ->
    exists v, slot t s = Some v /\
      (v = INDEXNUL \/ v = INDEXDEL \/
       (0 <= v < mysize (base t) /\
        exists k, key_of t v = Some k /\ reaches t k s));
  inv_unique : forall s s' v,
    0 <= s < hashcapacity t -> 0 <= s' < hashcapacity t ->
    0 <= v < mysize (base t) ->
    slot t s = Some v -> slot t s' = Some v -> s = s';
  inv_rows : forall i, 0 <= i < mysize (base t) ->
    exists s, 0 <= s < hashcapacity t /\ slot t s = Some i
}.

(** The same as a test. *)
Definition slot_is (t : htable) (s v : Z) : bool :=
  match slot t s with
  | Some x => x =? v
  | None => false
  end.

Definition reaches_b (t : htable) (k : val) (s : Z) : bool :=
  let hc := hashcapacity t in
  existsb
    (fun d => (probe hc (hash k mod hc) d =? s)
              && forallb (fun d' => negb (slot_is t (probe hc (hash k mod hc) d')
                                            INDEXNUL))
                   (seqZ 0 d))
    (seqZ 0 hc).

Definition slot_invariant_b (t : htable) : bool :=
  let hc := hashcapacity t in
  let n := mysize (base t) in
  (0 <=? n) && (n <=? max_size)
  && forallb (fun col => n <=? Z.of_nat (length col)) (mydata (base t))
  && (0 <=? hc) && (hc <? 2 ^ 63)
  && ((hc =? 0) || Z.odd hc)
  && (hc <=? Z.of_nat (length (hashmap t)))
  && (0 <=? hashcursor t) && (hashcursor t <? 2 ^ 64)
  && forallb
       (fun s =>
          match slot t s with
          | Some v =>
              if (v =? INDEXNUL) || (v =? INDEXDEL) then true
              else if (0 <=? v) && (v <? n) then
                match key_of t v with
                | Some k => reaches_b t k s
                | None => false
                end
              else false
          | None => false
          end)
       (seqZ 0 hc)
  && forallb
       (fun s =>
          forallb
            (fun s' =>
               match slot t s, slot t s' with
               | Some v, Some v' =>
                   negb ((0 <=? v) && (v <? n) && (v =? v')) || (s =? s')
               | _, _ => true
               end)
            (seqZ 0 hc))
       (seqZ 0 hc)
  && forallb (fun i => existsb (fun s => slot_is t s i) (seqZ 0 hc)) (seqZ 0 n).

(** ** The common shape of the probing loops *)

(** Every [while (1)] of the table reads the slot [h], either stops with a
    result or goes on from [hash_inc(h)].  [body h index] is the loop body:
    [Some r] to stop with [r], [None] to go on. *)
Fixpoint walk {R : Type} (fuel : nat) (hashcapacity : Z) (hashmap : list Z)
    (body : Z -> Z -> outcome (option R)) (h : Z) : outcome R :=
  match fuel with
  | O => Timeout
  | S fuel' =>
      index ← rd hashmap h;
      r ← body h index;
      match r with
      | Some x => Done x
      | None =>
          h' ← hash_inc hashcapacity h;
          walk fuel' hashcapacity hashmap body h'
      end
  end.

Definition find_body (key : val) (t : htable) (c index : Z)
    : outcome (option (Z * Z)) :=
  if index =? INDEXNUL then Done (Some (SIZE_MAX, c))
  else
    hit ← (if negb (index =? INDEXDEL)
           then k ← at_ 0%nat index (base t); Done (val_eqb k key)
           else Done false);
    if (hit : bool) then Done (Some (index, c)) else Done None.

Definition place_body (i : Z) (hashmap : list Z) (h index : Z)
    : outcome (option (list Z)) :=
  if (index =? INDEXNUL) || (index =? INDEXDEL) then
    hashmap' ← wr hashmap h (uint32_t i); Done (Some hashmap')
  else Done None.

Definition insert_body (alloc : Z -> bool) (row : list val) (t : htable)
    (h index : Z) : outcome (option htable) :=
  if (index =? INDEXNUL) || (index =? INDEXDEL) then
    '(_, base') ← push_back alloc row (base t);
    hashmap' ← wr (hashmap t) h (uint32_t (mysize (base t)));
    Done (Some (mk_htable base' hashmap' (hashcapacity t) (hashcursor t)))
  else Done None.

Definition repair_body (size index : Z) (hashmap : list Z) (h newindex : Z)
    : outcome (option (list Z)) :=
  if newindex =? size then hashmap' ← wr hashmap h index; Done (Some hashmap')
  else if newindex =? INDEXNUL then Done (Some hashmap)
  else Done None.

(** The table with its cursor at [c]. *)
Definition set_cursor (t : htable) (c : Z) : htable :=
  mk_htable (base t) (hashmap t) (hashcapacity t) c.

(** The loop with the body [body] goes on at the distance [d] from [h]. *)
Definition passes {R : Type} (hashcapacity : Z) (hashmap : list Z)
    (body : Z -> Z -> outcome (option R)) (h d : Z) : Prop :=
  exists v, hashmap !! Z.to_nat (probe hashcapacity h d) = Some v /\
            body (probe hashcapacity h d) v = Done None.

(** The loop stops with [r] at the distance [d] from [h]. *)
Definition stops {R : Type} (hashcapacity : Z) (hashmap : list Z)
    (body : Z -> Z -> outcome (option R)) (h d : Z) (r : R) : Prop :=
  exists v, hashmap !! Z.to_nat (probe hashcapacity h d) = Some v /\
            body (probe hashcapacity h d) v = Done (Some r).

(** The cells of a column after [swap(mydata[i], mydata[j])]. *)
Definition swapped (i j : Z) (col : list val) : list val :=
  match col !! Z.to_nat i, col !! Z.to_nat j with
  | Some a, Some b => <[Z.to_nat j := a]> (<[Z.to_nat i := b]> col)
  | _, _ => col
  end.

(** The slot array [erase_found] must arrive at when the cursor rests on
    the slot of the row [i]: the cursor's slot is a tombstone, the slot of
    the last row holds [i], the others are as they were. *)
Definition repaired (t : htable) (i : Z) (hashmap2 : list Z) : Prop :=
  length hashmap2 = length (hashmap t) /\
  forall s v, 0 <= s < hashcapacity t -> hashmap t !! Z.to_nat s = Some v ->
    hashmap2 !! Z.to_nat s
    = Some (if s =? hashcursor t then INDEXDEL
            else if v =? mysize (base t) - 1 then i else v).

(** The table [erase_found] leaves: the store after [erase_swap(i)], the
    slot array [hashmap2]. *)
Definition erased (t : htable) (i : Z) (hashmap2 : list Z) : htable :=
  mk_htable
    (mk_soa (mysize (base t) - 1) (mycapacity (base t))
       (swapped i (mysize (base t) - 1) <$> mydata (base t)))
    hashmap2 (hashcapacity t) (hashcursor t).

(** ** The index of a table that has only been inserted into *)

(** The slot array after the rows [0, m) have been placed, each at the
    first empty slot of its probe sequence: there is no tombstone, and the
    slots before the slot of a row on its probe sequence hold earlier
    rows. *)
Record placed (keys : list val) (hashcapacity : Z) (hashmap : list Z) (m : Z)
    : Prop := {
  placed_rows : forall i, 0 <= i < m ->
    exists k d, keys !! Z.to_nat i = Some k /\ 0 <= d < hashcapacity /\
      hashmap !! Z.to_nat (probe hashcapacity (hash k mod hashcapacity) d)
        = Some i /\
      forall d', 0 <= d' < d ->
        exists j, 0 <= j < i /\
          hashmap !! Z.to_nat (probe hashcapacity (hash k mod hashcapacity) d')
            = Some j;
  placed_slots : forall s, 0 <= s < hashcapacity ->
    exists v, hashmap !! Z.to_nat s = Some v /\ (v = INDEXNUL \/ 0 <= v < m);
  placed_unique : forall s s' v,
    0 <= s < hashcapacity -> 0 <= s' < hashcapacity -> 0 <= v < m ->
    hashmap !! Z.to_nat s = Some v -> hashmap !! Z.to_nat s' = Some v -> s = s'
}.

(** The table after [insert(key, items...)] for each of [rows], in order,
    and nothing else. *)
Record inserted (t : htable) (rows : list (val * list val)) : Prop := {
  ins_store : soa_invariant (base t);
  ins_size : mysize (base t) = Z.of_nat (length rows);
  ins_max : mysize (base t) <= max_size;
  ins_capacity :
    hashcapacity t = 0 /\ mycapacity (base t) = 0 \/
    hashcapacity t = 2 * mycapacity (base t) + 3 /\
    0 < mycapacity (base t) < 2 ^ 61;
  ins_hashmap : hashcapacity t <= Z.of_nat (length (hashmap t));
  ins_cursor : 0 <= hashcursor t < 2 ^ 64;
  ins_placed :
    placed (column 0%nat (base t)) (hashcapacity t) (hashmap t)
      (mysize (base t));
  ins_rows : forall (i : nat) k items, rows !! i = Some (k, items) ->
    at_ 0%nat (Z.of_nat i) (base t) = Done k /\
    forall (K : nat) v, items !! K = Some v -> (S K < length Ts)%nat ->
      at_ (S K) (Z.of_nat i) (base t) = Done v
}.

(** The key of the row [j] is [key]. *)
Definition is_match (key : val) (keys : list val) (j : Z) : bool :=
  match keys !! Z.to_nat j with
  | Some k => val_eqb k key
  | None => false
  end.

(** The rows among [js] whose key is [key]. *)
Fixpoint matches (key : val) (keys : list val) (js : list Z) : list Z :=
  match js with
  | [] => []
  | j :: rest =>
      if is_match key keys j then j :: matches key keys rest
      else matches key keys rest
  end.

(** The values of the slots at the distances [d, d + m) from [h]. *)
Definition path (hashcapacity : Z) (hashmap : list Z) (h d m : Z) : list Z :=
  (fun d' => default 0 (hashmap !! Z.to_nat (probe hashcapacity h d')))
    <$> seqZ d m.

(** A [find] loop from the cursor [c0] followed by [n] calls
    [find(key, false)]. *)
Definition finds_from (fuel1 fuel : nat) (key : val) (t : htable) (c0 : Z)
    (n : nat) : outcome (list Z * htable) :=
  '(r, c) ← find_loop fuel1 key t c0;
  '(rs, t2) ← find_next fuel key n (set_cursor t c);
  Done (r :: rs, t2).

(** All the rows of [s] are rows of [s']. *)
Definition rows_agree (s s' : soa) : Prop :=
  forall (K : nat) (i : Z) (v : val),
    0 <= i < mysize s -> at_ K i s = Done v -> at_ K i s' = Done v.

(** ** Binary search on a sorted column

    [lower_bound<K>(goal)] and [upper_bound<K>(goal)]; [lt] is [operator<]
    of the column's type.  [middle = (left + right) / 2] is computed on
    [size_t]. *)
Fixpoint lower_bound_loop (lt : val -> val -> bool) (fuel : nat)
    (col : list val) (goal : val) (left right : Z) : outcome Z :=
  match fuel with
  | O => Timeout
  | S fuel' =>
      if left <? right then
        let middle := size_t (left + right) / 2 in
        x ← rd col middle;
        if lt x goal then
          lower_bound_loop lt fuel' col goal (size_t (middle + 1)) right
        else lower_bound_loop lt fuel' col goal left middle
      else Done left
  end.

Definition lower_bound (lt : val -> val -> bool) (fuel : nat) (K : nat)
    (goal : val) (s : soa) : outcome Z :=
  lower_bound_loop lt fuel (column K s) goal 0 (mysize s).

Fixpoint upper_bound_loop (lt : val -> val -> bool) (fuel : nat)
    (col : list val) (goal : val) (left right : Z) : outcome Z :=
  match fuel with
  | O => Timeout
  | S fuel' =>
      if left <? right then
        let middle := size_t (left + right) / 2 in
        x ← rd col middle;
        if lt goal x then upper_bound_loop lt fuel' col goal left middle
        else upper_bound_loop lt fuel' col goal (size_t (middle + 1)) right
      else Done left
  end.

Definition upper_bound (lt : val -> val -> bool) (fuel : nat) (K : nat)
    (goal : val) (s : soa) : outcome Z :=
  upper_bound_loop lt fuel (column K s) goal 0 (mysize s).

(** The loop the two searches share: [right_of x] tells whether the answer
    lies to the right of a cell holding [x]. *)
Fixpoint bisect (right_of : val -> bool) (fuel : nat) (col : list val)
    (left right : Z) : outcome Z :=
  match fuel with
  | O => Timeout
  | S fuel' =>
      if left <? right then
        let middle := size_t (left + right) / 2 in
        x ← rd col middle;
        if right_of x then bisect right_of fuel' col (size_t (middle + 1)) right
        else bisect right_of fuel' col left middle
      else Done left
  end.

(** ** Calls of the public operations of [soa]

    One call of a public operation that returns, with arguments that are
    [size_t] values, takes [s] to [s']; [deserialize] is left out. *)
Inductive soa_step (s : soa) : soa -> Prop :=
| step_clear : soa_step s (clear s)
| step_reserve alloc n ok s' :
    0 <= n < 2 ^ 64 -> reserve alloc n s = Done (ok, s') -> soa_step s s'
| step_shrink_to_fit alloc ok s' :
    shrink_to_fit alloc s = Done (ok, s') -> soa_step s s'
| step_resize alloc n ok s' :
    0 <= n < 2 ^ 64 -> resize alloc n s = Done (ok, s') -> soa_step s s'
| step_resize_with alloc n initvals ok s' :
    0 <= n < 2 ^ 64 -> resize_with alloc n initvals s = Done (ok, s') ->
    soa_step s s'
| step_push_back alloc row ok s' :
    length row = length Ts -> push_back alloc row s = Done (ok, s') ->
    soa_step s s'
| step_emplace_back alloc ok s' :
    emplace_back alloc s = Done (ok, s') -> soa_step s s'
| step_insert alloc where_ row ok s' :
    0 <= where_ < 2 ^ 64 -> length row = length Ts ->
    insert alloc where_ row s = Done (ok, s') -> soa_step s s'
| step_pop_back s' : pop_back s = Done s' -> soa_step s s'
| step_erase_swap where_ s' :
    0 <= where_ < 2 ^ 64 -> erase_swap where_ s = Done s' -> soa_step s s'
| step_erase_shift where_ s' :
    0 <= where_ < 2 ^ 64 -> erase_shift where_ s = Done s' -> soa_step s s'
| step_swap_entries first second s' :
    0 <= first < 2 ^ 64 -> 0 <= second < 2 ^ 64 ->
    swap_entries first second s = Done s' -> soa_step s s'.

(** The states a default-constructed [soa] reaches through such calls. *)
Inductive soa_reachable : soa -> Prop :=
| reach_new : soa_reachable soa_new
| reach_step s s' : soa_reachable s -> soa_step s s' -> soa_reachable s'.

(** The rows of a store, as the arguments of the [insert] calls that would
    write them: the key and the items of each row. *)
Definition row_of (s : soa) (i : Z) : val * list val :=
  (default junk (column 0%nat s !! Z.to_nat i),
   (fun K => default junk (column (S K) s !! Z.to_nat i))
     <$> seq 0 (length Ts - 1)).

Definition rows_of (s : soa) : list (val * list val) :=
  row_of s <$> seqZ 0 (mysize s).

(** The layout of a table between calls: the store invariant, a slot array
    of [2 * capacity + 3] slots (none before the first allocation), and at
    most [max_size()] rows. *)
Record table_shape (t : htable) : Prop := {
  shape_store : soa_invariant (base t);
  shape_max : mysize (base t) <= max_size;
  shape_capacity :
    hashcapacity t = 0 /\ mycapacity (base t) = 0 \/
    hashcapacity t = 2 * mycapacity (base t) + 3 /\
    0 < mycapacity (base t) < 2 ^ 61;
  shape_hashmap : hashcapacity t <= Z.of_nat (length (hashmap t));
  shape_cursor : 0 <= hashcursor t < 2 ^ 64
}.

(** ** Sorting by a column

    [sort<K>()], [quicksort] and [partition]; [lt] is [operator<] of the
    column's type and [arr] is the array of column [K], read in the current
    store.  [stack] is the [std::vector<size_t>] of [quicksort], whose
    allocation is taken to succeed, and [top] its [int] index: [++top] past
    [INT_MAX] is undefined, and reported like an access outside an array. *)
Definition INT_MAX : Z := 2 ^ 31 - 1.

(** [stack[++top] = v] and [stack[top--]]. *)
Definition push (stack : list Z) (top v : Z) : outcome (list Z * Z) :=
  if INT_MAX <=? top then OutOfBounds
  else
    stack' ← wr stack (size_t (top + 1)) v;
    Done (stack', top + 1).

Definition pop (stack : list Z) (top : Z) : outcome (Z * Z) :=
  v ← rd stack (size_t top);
  Done (v, top - 1).

(** The [for (size_t j = low; j < high; ++j)] of [partition], with [trips]
    iterations left. *)
Fixpoint partition_loop (lt : val -> val -> bool) (K : nat) (trips : nat)
    (high i j numswaps : Z) (s : soa) : outcome (Z * Z * soa) :=
  match trips with
  | O => Done (i, numswaps, s)
  | S trips' =>
      x ← at_ K j s;
      pivot ← at_ K high s;
      if lt x pivot then
        s' ← swap_entries i j s;
        partition_loop lt K trips' high (size_t (i + 1)) (size_t (j + 1))
          (size_t (numswaps + 1)) s'
      else partition_loop lt K trips' high i (size_t (j + 1)) numswaps s
  end.

Definition partition (lt : val -> val -> bool) (K : nat)
    (low high numswaps : Z) (s : soa) : outcome (Z * Z * soa) :=
  '(i, numswaps', s1) ←
    partition_loop lt K (Z.to_nat (high - low)) high low low numswaps s;
  s2 ← swap_entries i high s1;
  Done (i, size_t (numswaps' + 1), s2).

(** The [while (top >= 0)] of [quicksort]. *)
Fixpoint quicksort_loop (lt : val -> val -> bool) (K : nat) (fuel : nat)
    (stack : list Z) (top numswaps : Z) (s : soa) : outcome (Z * soa) :=
  if top <? 0 then Done (numswaps, s)
  else
    match fuel with
    | O => Timeout
    | S fuel' =>
        '(h, top) ← pop stack top;
        '(l, top) ← pop stack top;
        '(p, numswaps, s) ← partition lt K l h numswaps s;
        '(stack, top) ←
          (if size_t (l + 1) <? p then
             '(stack, top) ← push stack top l;
             push stack top (size_t (p - 1))
           else Done (stack, top));
        '(stack, top) ←
          (if size_t (p + 1) <? h then
             '(stack, top) ← push stack top (size_t (p + 1));
             push stack top h
           else Done (stack, top));
        quicksort_loop lt K fuel' stack top numswaps s
    end.

Definition quicksort (lt : val -> val -> bool) (K : nat) (fuel : nat)
    (low high : Z) (s : soa) : outcome (Z * soa) :=
  let stack := replicate (Z.to_nat (size_t (size_t (high - low) + 2))) 0 in
  '(stack, top) ← push stack (-1) low;
  '(stack, top) ← push stack top high;
  quicksort_loop lt K fuel stack top 0 s.

Definition sort (lt : val -> val -> bool) (fuel : nat) (K : nat) (s : soa)
    : outcome (Z * soa) :=
  quicksort lt K fuel 0 (size_t (mysize s - 1)) s.

(** [sort<K>()] of the table: the rows are sorted, then [rehash()]. *)
Definition htable_sort (lt : val -> val -> bool) (fuel : nat) (K : nat)
    (t : htable) : outcome (Z * htable) :=
  '(result, base') ←
    quicksort lt K fuel 0 (size_t (mysize (base t) - 1)) (base t);
  t' ← rehash fuel
         (mk_htable base' (hashmap t) (hashcapacity t) (hashcursor t));
  Done (result, t').

(** The cell [i] of column [K]. *)
Definition cell_at (K : nat) (s : soa) (i : Z) : val :=
  default junk (column K s !! Z.to_nat i).

(** [s'] holds the rows of [s], those of the places [l..h] rearranged among
    these places: the row at [i] in [s'] is the row at [f i] in [s]. *)
Definition rearranged (l h : Z) (s s' : soa) : Prop :=
  soa_invariant s' /\ mysize s' = mysize s /\ mycapacity s' = mycapacity s /\
  exists f : Z -> Z,
    (forall i, l <= i <= h -> l <= f i <= h) /\
    (forall i, ~ l <= i <= h -> f i = i) /\
    (forall i j, f i = f j -> i = j) /\
    forall (K : nat) i, 0 <= i ->
      column K s' !! Z.to_nat i = column K s !! Z.to_nat (f i).

(** The ranges on the stack of [quicksort], the last pushed first: each
    has two places or more and lies below the one pushed after it. *)
Fixpoint chain (b : Z) (ranges : list (Z * Z)) : Prop :=
  match ranges with
  | [] => True
  | (l, h) :: rest => 0 <= l /\ l < h /\ h < b /\ chain l rest
  end.

Definition stack_ok (n : Z) (ranges : list (Z * Z)) : Prop :=
  match ranges with
  | [] => True
  | (l, h) :: rest => 0 <= l /\ l <= h /\ h < n /\ chain l rest
  end.

(** The entries of the stack, the first pushed first. *)
Fixpoint flat (ranges : list (Z * Z)) : list Z :=
  match ranges with
  | [] => []
  | (l, h) :: rest => flat rest ++ [l; h]
  end.

Fixpoint weight (ranges : list (Z * Z)) : Z :=
  match ranges with
  | [] => 0
  | (l, h) :: rest => (h - l + 1) + weight rest
  end.

(** Column [K] is in order except inside the ranges: no cell is less than a
    cell before it, unless one range holds both. *)
Definition sorted_but (lt : val -> val -> bool) (K : nat)
    (ranges : list (Z * Z)) (s : soa) : Prop :=
  forall i j, 0 <= i -> i < j -> j < mysize s ->
    (forall l h, (l, h) ∈ ranges -> ~ (l <= i /\ j <= h)) ->
    lt (cell_at K s j) (cell_at K s i) = false.

(** [find] passes the slots at the distances below [c] on the probe
    sequence of [key]: each is a TOMBSTONE or holds a row of another key. *)
Definition passed (key : val) (t : htable) (c : Z) : Prop :=
  forall d, 0 <= d < c ->
    passes (hashcapacity t) (hashmap t) (find_body key t)
      (hash key mod hashcapacity t) d.

End Definitions.

(** What the properties assume of the template parameters, besides
    trivially copyable column types: [operator==] is equality, [std::hash]
    returns a [size_t], every column type has a size, there is a key
    column, and sixteen rows, the least block the containers ask for, are
    not more than [PTRDIFF_MAX] bytes. *)
Class InstantiationLaws (I : Instantiation) : Prop := {
  val_eqb_eq : forall a b : val, val_eqb a b = true <-> a = b;
  hash_range : forall k : val, 0 <= hash k < 2 ^ 64;
  sizeof_pos : Forall (fun t => 0 < sizeof t) Ts;
  has_key_column : Ts <> [];
  row_size : 16 * size_per_entry <= PTRDIFF_MAX
}.

(** ** Instantiations used in the examples *)

(** [htable<int, int>] and [soa<int, int>]; [std::hash<int>] is the
    conversion to [size_t]. *)
Definition int_column : column_type Z := {| sizeof := 4; default_value := 0 |}.

Definition int_int : Instantiation := {|
  val := Z;
  val_eqb := Z.eqb;
  hash := fun k => k mod 2 ^ 64;
  Ts := [int_column; int_column];
  junk := 0;
  junk_slot := 0
|}.

(** [htable<std::string_view, int>], with a polynomial string hash for
    [std::hash<std::string_view>].  A [std::string_view] is trivially
    copyable, so that its cells may be relocated bytewise; it is compared
    and hashed by its characters. *)
Inductive cell : Type :=
| Int (z : Z)
| Str (s : string).

Definition cell_eqb (a b : cell) : bool :=
  match a, b with
  | Int x, Int y => x =? y
  | Str x, Str y => if string_dec x y then true else false
  | _, _ => false
  end.

Fixpoint string_hash (s : string) (h : Z) : Z :=
  match s with
  | EmptyString => h
  | String c s' => string_hash s' ((31 * h + Z.of_nat (nat_of_ascii c)) mod 2 ^ 64)
  end.

Definition cell_hash (c : cell) : Z :=
  match c with
  | Int z => z mod 2 ^ 64
  | Str s => string_hash s 7
  end.

Definition string_view_int : Instantiation := {|
  val := cell;
  val_eqb := cell_eqb;
  hash := cell_hash;
  Ts := [ {| sizeof := 16; default_value := Str EmptyString |};
          {| sizeof := 4; default_value := Int 0 |} ];
  junk := Int 0;
  junk_slot := 0
|}.

(** Allocators: one that grants every request and one that grants none. *)
Definition grant (_ : Z) : bool := true.
Definition refuse (_ : Z) : bool := false.

(** ** Concrete containers used in the examples *)

Definition done_or {A : Type} (d : A) (m : outcome A) : A :=
  match m with
  | Done a => a
  | _ => d
  end.

(** [htable<int, int>] after [insert(0, 10)] and [insert(1, 11)]. *)
Definition two_rows : @htable int_int :=
  Eval vm_compute in
    done_or htable_new
      ('(_, t) ← insert_all (I := int_int) grant 36 [(0, [10]); (1, [11])]
                   htable_new;
       Done t).

(** [htable<int, int>] after [insert(40, 7)]. *)
Definition one_row : @htable int_int :=
  Eval vm_compute in
    done_or htable_new
      ('(_, t) ← insert_all (I := int_int) grant 36 [(40, [7])] htable_new;
       Done t).

(** [htable<int, int>] after inserting and erasing each of the keys
    0, ..., 33, then [insert(34, 34)] and [find(34)]: thirty-four
    tombstones, one occupied slot, no empty slot. *)
Definition saturated : @htable int_int :=
  Eval vm_compute in
    done_or htable_new
      (t ← insert_then_erase_each (I := int_int) grant 36
             ((fun k => (k, [k])) <$> seqZ 0 34) htable_new;
       '(_, t1) ← htable_insert (I := int_int) grant 36 34 [34] t;
       '(_, t2) ← find (I := int_int) 36 34 true t1;
       Done t2).

(** [saturated] after [insert(34, 35)]: two rows of the key 34, and still
    no empty slot. *)
Definition saturated_twice : @htable int_int :=
  Eval vm_compute in
    done_or htable_new
      ('(_, t) ← htable_insert (I := int_int) grant 36 34 [35] saturated;
       Done t).

(** [a], [b], [a], [b], ...: [n] numbers. *)
Fixpoint alternate (a b : Z) (n : nat) : list Z :=
  match n with
  | O => []
  | S n' => a :: alternate b a n'
  end.

(** [soa<int, int>] after sixteen [push_back(i, -i)]. *)
Definition sixteen_rows : @soa int_int :=
  Eval vm_compute in
    done_or soa_new
      (push_back_all (I := int_int) grant
         ((fun i => [i; - i]) <$> seqZ 0 16) soa_new).

(** [soa<int, int>] with room for 32 rows and three rows pushed. *)
Definition three_rows : @soa int_int :=
  Eval vm_compute in
    done_or soa_new
      ('(_, s) ← reserve (I := int_int) grant 20 soa_new;
       push_back_all (I := int_int) grant [[1; 10]; [2; 20]; [3; 30]] s).

(** [three_rows] after [reserve(40)]: room for 48 rows. *)
Definition reserved_rows : @soa int_int :=
  Eval vm_compute in
    done_or soa_new
      ('(_, s) ← reserve (I := int_int) grant 40 three_rows; Done s).

(** [three_rows] after [insert(1, 9, 90)]. *)
Definition four_rows : @soa int_int :=
  Eval vm_compute in
    done_or soa_new
      ('(_, s) ← insert (I := int_int) grant 1 [9; 90] three_rows; Done s).

(** [one_row] after [reserve(17)]: room for 32 rows. *)
Definition roomy_row : @htable int_int :=
  Eval vm_compute in
    done_or htable_new
      ('(_, t) ← htable_reserve (I := int_int) grant 36 17 one_row; Done t).

(** [soa<int, int>] after [push_back(3, 30)], [push_back(1, 10)] and
    [push_back(2, 20)]. *)
Definition unsorted_rows : @soa int_int :=
  Eval vm_compute in
    done_or soa_new
      (push_back_all (I := int_int) grant [[3; 30]; [1; 10]; [2; 20]]
         soa_new).

(** [htable<int, int>] after [insert(2, 20)], [insert(0, 10)] and
    [insert(1, 11)]. *)
Definition unsorted_table : @htable int_int :=
  Eval vm_compute in
    done_or htable_new
      ('(_, t) ← insert_all (I := int_int) grant 36
                   [(2, [20]); (0, [10]); (1, [11])] htable_new;
       Done t).

(** [htable<int, int>] after [insert(0, 10)], [insert(35, 11)], whose keys
    both start at slot 0, and [erase(0)]: slot 0 is a tombstone and the row
    of key 35 sits behind it, at slot 2. *)
Definition collided : @htable int_int :=
  Eval vm_compute in
    done_or htable_new
      ('(_, t) ← insert_all (I := int_int) grant 36
                   [(0, [10]); (35, [11])] htable_new;
       '(_, t1) ← erase (I := int_int) 36 0 t;
       Done t1).

(** [htable<std::string_view, int>] after [insert("banana", 12)],
    [insert("banana", 42)] and [insert("banana", 9001)]. *)
Definition banana : cell := Str "banana".
Definition bananas : list (cell * list cell) :=
  [(banana, [Int 12]); (banana, [Int 42]); (banana, [Int 9001])].

Definition three_bananas : @htable string_view_int :=
  Eval vm_compute in
    done_or htable_new
      ('(_, t) ← insert_all (I := string_view_int) grant 36 bananas htable_new;
       Done t).

(** * Properties *)

(** ** Outcomes, arrays and machine arithmetic *)

Lemma bind_Done {A B : Type} (m : outcome A) (k : A -> outcome B) (b : B) :
  m ≫= k = Done b -> exists a, m = Done a /\ k a = Done b.
Proof. destruct m; simpl; intros H; try discriminate. eauto. Qed.

Lemma rd_Done {A : Type} (a : list A) (i : Z) (x : A) :
  rd a i = Done x <-> 0 <= i /\ a !! Z.to_nat i = Some x.
Proof.
  unfold rd. split.
  - destruct ((0 <=? i) && (i <? Z.of_nat (length a))) eqn:E; [|discriminate].
    destruct (a !! Z.to_nat i) eqn:E'; [|discriminate].
    intros [= ->]. split; [lia | reflexivity].
  - intros [Hi Hx]. pose proof (lookup_lt_Some _ _ _ Hx) as Hlt.
    destruct ((0 <=? i) && (i <? Z.of_nat (length a))) eqn:E.
    + rewrite Hx. reflexivity.
    + exfalso. apply andb_false_iff in E as [E|E]; lia.
Qed.

Lemma rd_in_range {A : Type} (a : list A) (i : Z) :
  0 <= i < Z.of_nat (length a) -> exists x, rd a i = Done x.
Proof.
  intros Hi. destruct (lookup_lt_is_Some_2 a (Z.to_nat i)) as [x Hx]; [lia|].
  exists x. apply rd_Done. split; [lia | exact Hx].
Qed.

Lemma rd_out_of_range {A : Type} (a : list A) (i : Z) :
  Z.of_nat (length a) <= i -> rd a i = OutOfBounds.
Proof.
  intros Hi. unfold rd.
  destruct ((0 <=? i) && (i <? Z.of_nat (length a))) eqn:E; [|reflexivity].
  apply andb_true_iff in E as [_ E]. lia.
Qed.

Lemma wr_Done {A : Type} (a : list A) (i : Z) (x : A) :
  0 <= i < Z.of_nat (length a) -> wr a i x = Done (<[Z.to_nat i := x]> a).
Proof.
  intros Hi. unfold wr.
  destruct ((0 <=? i) && (i <? Z.of_nat (length a))) eqn:E; [reflexivity|].
  apply andb_false_iff in E as [E|E]; lia.
Qed.

Lemma wr_Done_inv {A : Type} (a a' : list A) (i : Z) (x : A) :
  wr a i x = Done a' ->
  0 <= i < Z.of_nat (length a) /\ a' = <[Z.to_nat i := x]> a.
Proof.
  unfold wr.
  destruct ((0 <=? i) && (i <? Z.of_nat (length a))) eqn:E; [|discriminate].
  intros [= <-]. apply andb_true_iff in E as [E1 E2]. split; [lia | reflexivity].
Qed.

Lemma wr_out_of_range {A : Type} (a : list A) (i : Z) (x : A) :
  Z.of_nat (length a) <= i -> wr a i x = OutOfBounds.
Proof.
  intros Hi. unfold wr.
  destruct ((0 <=? i) && (i <? Z.of_nat (length a))) eqn:E; [|reflexivity].
  apply andb_true_iff in E as [_ E]. lia.
Qed.

Lemma modulo_Done (a b : Z) : b <> 0 -> modulo a b = Done (a mod b).
Proof. intros Hb. unfold modulo. destruct (Z.eqb_spec b 0); [lia | reflexivity]. Qed.

Lemma modulo_Done_inv (a b r : Z) :
  modulo a b = Done r -> b <> 0 /\ r = a mod b.
Proof.
  unfold modulo. destruct (Z.eqb_spec b 0); [discriminate|].
  intros [= <-]. auto.
Qed.

Lemma size_t_small (z : Z) : 0 <= z < 2 ^ 64 -> size_t z = z.
Proof. intros Hz. unfold size_t. apply Z.mod_small. exact Hz. Qed.

Lemma size_t_range (z : Z) : 0 <= size_t z < 2 ^ 64.
Proof. unfold size_t. apply Z.mod_pos_bound. lia. Qed.

Lemma uint32_t_small (z : Z) : 0 <= z < 2 ^ 32 -> uint32_t z = z.
Proof. intros Hz. unfold uint32_t. apply Z.mod_small. exact Hz. Qed.

Lemma forallb_seqZ (f : Z -> bool) (n : Z) :
  forallb f (seqZ 0 n) = true -> forall x, 0 <= x < n -> f x = true.
Proof.
  intros H x Hx. rewrite forallb_forall in H. apply H.
  apply list_elem_of_In, elem_of_seqZ. lia.
Qed.

Lemma existsb_seqZ (f : Z -> bool) (n : Z) :
  existsb f (seqZ 0 n) = true -> exists x, 0 <= x < n /\ f x = true.
Proof.
  intros H. apply existsb_exists in H as (x & Hin & Hx).
  apply list_elem_of_In, elem_of_seqZ in Hin. exists x. split; [lia | exact Hx].
Qed.

(** ** The probe step *)

Lemma hash_inc_probe (hc h d : Z) :
  0 < hc -> hc + 2 <= 2 ^ 64 -> 0 <= d ->
  hash_inc hc (probe hc h d) = Done (probe hc h (d + 1)).
Proof.
  intros Hhc Hmax Hd. unfold hash_inc, probe.
  pose proof (Z.mod_pos_bound (h + 2 * d) hc Hhc) as Hb.
  rewrite size_t_small by lia. rewrite modulo_Done by lia. f_equal.
  rewrite Zplus_mod_idemp_l. f_equal. lia.
Qed.

Lemma probe_0 (hc h : Z) : 0 <= h < hc -> probe hc h 0 = h.
Proof. intros Hh. unfold probe. rewrite Z.add_0_r. apply Z.mod_small. exact Hh. Qed.

Lemma probe_range (hc h d : Z) : 0 < hc -> 0 <= probe hc h d < hc.
Proof. intros Hhc. unfold probe. apply Z.mod_pos_bound. exact Hhc. Qed.

(** On an odd number of slots the stride 2 sends distinct distances below
    the capacity to distinct slots. *)
Lemma probe_inj (hc h d d' : Z) :
  0 < hc -> Z.odd hc = true ->
  0 <= d < hc -> 0 <= d' < hc ->
  probe hc h d = probe hc h d' -> d = d'.
Proof.
  intros Hhc Hodd Hd Hd' Heq. unfold probe in Heq.
  assert (Hdiv : (hc | 2 * (d - d'))).
  { apply Z.mod_divide; [lia|].
    replace (2 * (d - d')) with ((h + 2 * d) - (h + 2 * d')) by lia.
    rewrite Zminus_mod, Heq, Z.sub_diag. apply Z.mod_0_l. lia. }
  assert (Hgcd : Z.gcd hc 2 = 1).
  { destruct (Z.gcd_divide_l hc 2) as [a Ha].
    pose proof (Z.gcd_nonneg hc 2) as Hg.
    assert (Hle : Z.gcd hc 2 <= 2)
      by (apply Z.divide_pos_le; [lia | apply Z.gcd_divide_r]).
    assert (Hne : Z.gcd hc 2 <> 0)
      by (intros E0; apply Z.gcd_eq_0_r in E0; lia).
    assert (Z.gcd hc 2 = 1 \/ Z.gcd hc 2 = 2) as [E|E] by lia; [exact E|].
    rewrite E in Ha. rewrite Ha, Z.odd_mul in Hodd.
    rewrite andb_comm in Hodd. discriminate. }
  apply Z.gauss in Hdiv; [|exact Hgcd].
  destruct Hdiv as [q Hq].
  assert (q = 0) by nia. lia.
Qed.

(** Every slot lies on the probe sequence of every start slot. *)
Lemma probe_surj (hc h s : Z) :
  0 < hc -> Z.odd hc = true -> 0 <= s < hc ->
  exists d, 0 <= d < hc /\ probe hc h d = s.
Proof.
  intros Hhc Hodd Hs.
  exists (((s - h) * ((hc + 1) / 2)) mod hc). split.
  - apply Z.mod_pos_bound. exact Hhc.
  - unfold probe.
    assert (Hhalf : 2 * ((hc + 1) / 2) = hc + 1).
    { apply Z.odd_spec in Hodd as [m Hm]. rewrite Hm.
      replace (2 * m + 1 + 1) with ((m + 1) * 2) by lia.
      rewrite Z.div_mul by lia. lia. }
    rewrite <- Z.add_mod_idemp_r, Z.mul_mod_idemp_r, Z.add_mod_idemp_r by lia.
    replace (2 * ((s - h) * ((hc + 1) / 2))) with ((s - h) * (2 * ((hc + 1) / 2))) by lia.
    rewrite Hhalf.
    replace (h + (s - h) * (hc + 1)) with (s + (s - h) * hc) by lia.
    rewrite Z.mod_add by lia. rewrite Z.mod_small by lia. reflexivity.
Qed.

Ltac pows :=
  change (2 ^ 64) with 18446744073709551616 in *;
  change (2 ^ 63) with 9223372036854775808 in *;
  change (2 ^ 32) with 4294967296 in *.

Ltac consts :=
  unfold INDEXNUL, INDEXDEL, max_size, UINT_MAX, SIZE_MAX, PTRDIFF_MAX in *;
  pows.

Lemma multiple_of_16_spec (n : Z) :
  0 <= n < 2 ^ 64 ->
  0 <= multiple_of_16 n < 2 ^ 64 /\ multiple_of_16 n mod 16 = 0.
Proof.
  intros Hn. unfold multiple_of_16.
  destruct (Z.eqb_spec (n mod 16) 0) as [E|E]; simpl; [auto|].
  split; [apply size_t_range|].
  unfold size_t. pows.
  pose proof (Z.div_mod n 16 ltac:(lia)).
  pose proof (Z.mod_pos_bound n 16 ltac:(lia)).
  replace (n + (16 - n mod 16)) with ((n / 16 + 1) * 16) by lia.
  assert (n / 16 + 1 <= 1152921504606846976) by lia.
  destruct (Z.eq_dec (n / 16 + 1) 1152921504606846976) as [E'|E'].
  - rewrite E'. reflexivity.
  - rewrite (Z.mod_small _ 18446744073709551616) by lia. apply Z.mod_mul. lia.
Qed.

(** Below [2 ^ 64 - 15] the rounding goes up to the next multiple of 16. *)
Lemma multiple_of_16_ge (n : Z) :
  0 <= n <= 2 ^ 64 - 16 -> n <= multiple_of_16 n < n + 16.
Proof.
  intros Hn. unfold multiple_of_16.
  destruct (Z.eqb_spec (n mod 16) 0) as [E|E]; simpl; [lia|].
  pose proof (Z.mod_pos_bound n 16 ltac:(lia)).
  rewrite size_t_small; pows; lia.
Qed.

Lemma multiple_of_16_fixed (n : Z) : n mod 16 = 0 -> multiple_of_16 n = n.
Proof. intros E. unfold multiple_of_16. rewrite E. reflexivity. Qed.

Lemma hash_inc_iter_probe (hc h : Z) (n : nat) (d : Z) :
  0 < hc -> hc + 2 <= 2 ^ 64 -> 0 <= d ->
  hash_inc_iter hc n (probe hc h d) = Done (probe hc h (d + Z.of_nat n)).
Proof.
  intros Hhc Hmax. revert d. induction n as [|n IH]; intros d Hd.
  - cbn [hash_inc_iter]. rewrite Z.add_0_r. reflexivity.
  - cbn [hash_inc_iter]. rewrite hash_inc_probe by assumption.
    cbn [mbind outcome_bind]. rewrite IH by lia. do 2 f_equal. lia.
Qed.

Lemma probe_walk_probe (hc h : Z) (n : nat) (d : Z) :
  0 < hc -> hc + 2 <= 2 ^ 64 -> 0 <= d ->
  probe_walk hc n (probe hc h d) = Done (probe hc h <$> seqZ d (Z.of_nat n)).
Proof.
  intros Hhc Hmax. revert d. induction n as [|n IH]; intros d Hd.
  - reflexivity.
  - cbn [probe_walk]. rewrite hash_inc_probe by assumption.
    cbn [mbind outcome_bind]. rewrite IH by lia. cbn [mbind outcome_bind].
    rewrite Nat2Z.inj_succ, (seqZ_cons d) by lia. rewrite fmap_cons.
    replace (Z.pred (Z.succ (Z.of_nat n))) with (Z.of_nat n) by lia.
    replace (Z.succ d) with (d + 1) by lia. reflexivity.
Qed.

(** The stride-2 walk over an odd number of slots is a full cycle. *)
Lemma probe_full_cycle (hc h : Z) :
  0 < hc -> hc + 2 <= 2 ^ 64 -> Z.odd hc = true -> 0 <= h < hc ->
  exists walk,
    probe_walk hc (Z.to_nat hc) h = Done walk /\
    head walk = Some h /\ length walk = Z.to_nat hc /\ NoDup walk /\
    (forall s, s ∈ walk <-> 0 <= s < hc) /\
    hash_inc_iter hc (Z.to_nat hc) h = Done h.
Proof.
  intros Hhc Hmax Hodd Hh.
  exists (probe hc h <$> seqZ 0 hc). repeat split.
  - rewrite <- (probe_0 hc h Hh) at 1.
    rewrite probe_walk_probe by lia. rewrite Z2Nat.id by lia. reflexivity.
  - rewrite (seqZ_cons 0) by lia. simpl. rewrite probe_0 by lia. reflexivity.
  - rewrite length_fmap, length_seqZ. reflexivity.
  - apply NoDup_fmap_2_strong; [|apply NoDup_seqZ].
    intros x y Hx Hy. apply elem_of_seqZ in Hx, Hy.
    apply probe_inj; try assumption; lia.
  - apply list_elem_of_fmap in H as (d & -> & _).
    apply probe_range. lia.
  - apply list_elem_of_fmap in H as (d & -> & _).
    apply probe_range. lia.
  - intros Hs. destruct (probe_surj hc h s Hhc Hodd Hs) as (d & Hd & <-).
    apply list_elem_of_fmap_2. apply elem_of_seqZ. lia.
  - rewrite <- (probe_0 hc h Hh) at 1.
    rewrite hash_inc_iter_probe by lia. rewrite Z2Nat.id by lia.
    f_equal. unfold probe. rewrite Z.add_0_l.
    rewrite <- Z.add_mod_idemp_r, Z.mod_mul by lia.
    rewrite Z.add_0_r. apply Z.mod_small. exact Hh.
Qed.

Section Properties.
Context {I : Instantiation} {L : InstantiationLaws I}.

Lemma rehash_fields (fuel : nat) (t t' : htable) :
  rehash fuel t = Done t' ->
  base t' = base t /\ hashcapacity t' = hashcapacity t /\ hashcursor t' = SIZE_MAX.
Proof.
  unfold rehash. intros H.
  apply bind_Done in H as (hm0 & _ & H).
  apply bind_Done in H as (hm1 & _ & H).
  injection H as <-. auto.
Qed.

(** ** The block of an allocation *)

Lemma aligned_malloc_bound (alloc : Z -> bool) (bytes : Z) :
  aligned_malloc alloc bytes = true -> bytes <= PTRDIFF_MAX.
Proof.
  unfold aligned_malloc. intros H. apply andb_true_iff in H as [H _].
  apply Z.leb_le. exact H.
Qed.

Lemma size_per_entry_of_nonneg (ts : list (column_type val)) :
  Forall (fun t => 0 < sizeof t) ts -> 0 <= size_per_entry_of ts.
Proof.
  induction 1 as [|t ts Ht _ IH]; simpl; lia.
Qed.

Lemma size_per_entry_pos : 0 < size_per_entry.
Proof.
  unfold size_per_entry. pose proof sizeof_pos as Hpos.
  pose proof has_key_column as Hne.
  destruct Ts as [|t ts]; [contradiction|].
  apply Forall_cons in Hpos as [Ht Hts].
  pose proof (size_per_entry_of_nonneg ts Hts). simpl. lia.
Qed.

Lemma cells_inside_le (bytes off cap sz : Z) :
  0 <= cap -> 0 <= cells_inside bytes off cap sz <= cap.
Proof. unfold cells_inside. lia. Qed.

Lemma cells_inside_fit (bytes off cap sz : Z) :
  0 < sz -> 0 <= cap -> off + sz * cap <= bytes ->
  cells_inside bytes off cap sz = cap.
Proof.
  intros Hsz Hcap Hfit. unfold cells_inside.
  assert (cap <= (bytes - off) / sz) by (apply Z.div_le_lower_bound; lia).
  lia.
Qed.

Lemma cells_inside_reach (bytes off cap sz x : Z) :
  0 < sz -> 1 <= x -> x <= cells_inside bytes off cap sz ->
  off + sz * x <= bytes /\ x <= cap.
Proof.
  intros Hsz Hx. unfold cells_inside. intros H.
  assert (Hq : x <= (bytes - off) / sz) by lia.
  pose proof (Z.mul_div_le (bytes - off) sz Hsz) as Hle.
  split; [nia|lia].
Qed.

(** A byte count that has wrapped around is short of the arrays by a
    multiple of [2 ^ 64]. *)
Lemma size_t_no_wrap (total reach : Z) :
  0 <= total -> reach <= size_t total -> total - reach < 2 ^ 64 ->
  size_t total = total.
Proof.
  unfold size_t. intros Htotal Hreach Hshort.
  pose proof (Z.div_mod total (2 ^ 64) ltac:(pows; lia)) as Hdm.
  pose proof (Z.mod_pos_bound total (2 ^ 64) ltac:(pows; lia)) as Hr.
  assert (Hq : 0 <= total / 2 ^ 64) by (apply Z.div_pos; pows; lia).
  apply Z.mod_small. nia.
Qed.

Lemma sum_no_wrap (A B r : Z) :
  0 <= A -> 0 <= B < 2 ^ 64 -> A - r < 2 ^ 64 ->
  B + r <= size_t (size_t A + B) ->
  size_t A = A /\ size_t (size_t A + B) = A + B.
Proof.
  unfold size_t. intros HA HB Hshort Hreach.
  pose proof (Z.div_mod A (2 ^ 64) ltac:(pows; lia)) as E1.
  pose proof (Z.mod_pos_bound A (2 ^ 64) ltac:(pows; lia)) as R1.
  assert (Q1 : 0 <= A / 2 ^ 64) by (apply Z.div_pos; pows; lia).
  pose proof (Z.div_mod (A mod 2 ^ 64 + B) (2 ^ 64) ltac:(pows; lia)) as E2.
  pose proof (Z.mod_pos_bound (A mod 2 ^ 64 + B) (2 ^ 64) ltac:(pows; lia))
    as R2.
  assert (Q2 : 0 <= (A mod 2 ^ 64 + B) / 2 ^ 64) by (apply Z.div_pos; pows; lia).
  assert (EA : A mod 2 ^ 64 = A) by (pows; lia).
  rewrite EA in *. split; [reflexivity|]. pows. lia.
Qed.

(** The block of a table of [N] rows: the slot array, of
    [hashcapacity + 1] slots, and the arrays behind it. *)
Section TableBlock.
Variable N : Z.
Let H0 : Z := size_t (size_t (N + N) + 4).
Let bytes : Z := size_t (size_t (size_per_entry * N) + size_t (H0 * 4)).

(** A byte count below [2 ^ 64] does not wrap around. *)
Lemma table_block_direct :
  0 < N -> size_per_entry * N + 8 * N + 16 < 2 ^ 64 ->
  size_t (H0 * 4) + size_per_entry * N <= bytes.
Proof.
  intros HN Hfit. pose proof size_per_entry_pos as Hspe.
  assert (0 <= size_per_entry * N) by nia.
  unfold bytes, H0.
  rewrite (size_t_small (N + N)) by (pows; lia).
  rewrite (size_t_small (N + N + 4)) by (pows; lia).
  rewrite (size_t_small ((N + N + 4) * 4)) by (pows; lia).
  rewrite (size_t_small (size_per_entry * N)) by (pows; lia).
  rewrite size_t_small by (pows; lia). lia.
Qed.

(** When the allocation succeeds, [x] rows lie inside the block behind the
    slot array, [rehash] finds its slots inside the block and the rows
    beyond [x] take less than [2 ^ 64] bytes, no count has wrapped around. *)
Lemma table_block_spec (alloc : Z -> bool) (x : Z) :
  0 < N < 2 ^ 64 -> N mod 16 = 0 -> 0 <= x <= N ->
  size_per_entry * (N - x) < 2 ^ 64 ->
  aligned_malloc alloc bytes = true ->
  size_t (H0 * 4) + size_per_entry * x <= bytes ->
  size_t (H0 - 1) <= cells_inside bytes 0 (size_t (H0 * 4) / 4) 4 ->
  N < 2 ^ 61 /\ size_t (H0 * 4) = 8 * N + 16 /\ size_t (H0 - 1) = 2 * N + 3 /\
  bytes = size_per_entry * N + (8 * N + 16) /\ bytes <= PTRDIFF_MAX /\
  cells_inside bytes 0 (size_t (H0 * 4) / 4) 4 = 2 * N + 4.
Proof.
  intros HN H16 Hx Hshort Ea Hreach Hslots.
  apply aligned_malloc_bound in Ea.
  pose proof size_per_entry_pos as Hspe.
  pose proof (size_t_range (H0 * 4)) as HB.
  assert (HA : 0 <= size_per_entry * N) by nia.
  rewrite Z.mul_sub_distr_l in Hshort.
  destruct (sum_no_wrap (size_per_entry * N) (size_t (H0 * 4))
              (size_per_entry * x) HA HB Hshort Hreach)
    as [EA Ebytes].
  fold bytes in Ebytes. rewrite Ebytes in *.
  assert (HN' : N <= 2 ^ 63 - 16).
  { pose proof (Z.div_mod N 16 ltac:(lia)). unfold PTRDIFF_MAX in Ea.
    pows. nia. }
  assert (EH0 : H0 = 2 * N + 4).
  { unfold H0. rewrite (size_t_small (N + N)) by (pows; lia).
    rewrite size_t_small by (pows; lia). lia. }
  rewrite EH0 in *.
  assert (E1 : size_t (2 * N + 4 - 1) = 2 * N + 3)
    by (rewrite size_t_small by (pows; lia); lia).
  rewrite E1 in *.
  assert (Hquarter : 0 <= size_t ((2 * N + 4) * 4) / 4 < 2 ^ 62).
  { split; [apply Z.div_pos; lia|apply Z.div_lt_upper_bound; pows; lia]. }
  pose proof (cells_inside_le (size_per_entry * N + size_t ((2 * N + 4) * 4)) 0
                (size_t ((2 * N + 4) * 4) / 4) 4 ltac:(lia)) as Hle.
  assert (HN61 : N <= 2 ^ 61 - 16).
  { pose proof (Z.div_mod N 16 ltac:(lia)). pows. lia. }
  assert (EB : size_t ((2 * N + 4) * 4) = 8 * N + 16)
    by (rewrite size_t_small by (pows; lia); lia).
  rewrite EB in *.
  assert (Eq : (8 * N + 16) / 4 = 2 * N + 4).
  { replace (8 * N + 16) with ((2 * N + 4) * 4) by lia.
    apply Z.div_mul. lia. }
  rewrite Eq in *.
  repeat split; try lia.
  apply cells_inside_fit; lia.
Qed.

End TableBlock.

(** The test [slot_invariant_b] is sound. *)
Lemma reaches_b_sound (t : htable) (k : val) (s : Z) :
  reaches_b t k s = true -> reaches t k s.
Proof.
  unfold reaches_b, reaches. intros H.
  apply existsb_seqZ in H as (d & Hd & H).
  apply andb_true_iff in H as [H1 H2]. apply Z.eqb_eq in H1.
  exists d. split; [lia|]. split; [exact H1|].
  intros d' Hd'. pose proof (forallb_seqZ _ _ H2 d' Hd') as H3.
  unfold slot_is in H3. intros E. rewrite E in H3.
  rewrite Z.eqb_refl in H3. discriminate.
Qed.

Lemma slot_invariant_b_sound (t : htable) :
  slot_invariant_b t = true -> slot_invariant t.
Proof.
  unfold slot_invariant_b. intros H.
  repeat (apply andb_true_iff in H as [H ?]).
  repeat match goal with
         | E : (_ <=? _) = true |- _ => apply Z.leb_le in E
         | E : (_ <? _) = true |- _ => apply Z.ltb_lt in E
         end.
  split.
  - lia.
  - apply Forall_forall. intros col Hcol.
    match goal with
    | E : forallb _ (mydata _) = true |- _ =>
        rewrite forallb_forall in E;
        specialize (E col (proj1 (list_elem_of_In _ _) Hcol))
    end.
    apply Z.leb_le. assumption.
  - lia.
  - match goal with
    | E : (_ || _) = true |- _ => apply orb_true_iff in E as [E|E]
    end; [left; apply Z.eqb_eq; assumption | right; assumption].
  - lia.
  - lia.
  - intros s Hs.
    match goal with
    | E : forallb (fun s => match slot t s with Some v => if _ then _ else _ | None => _ end) _ = true |- _ =>
        pose proof (forallb_seqZ _ _ E s Hs) as Hslot
    end.
    cbv beta in Hslot. destruct (slot t s) as [v|]; [|discriminate].
    exists v. split; [reflexivity|].
    destruct ((v =? INDEXNUL) || (v =? INDEXDEL)) eqn:E1.
    + apply orb_true_iff in E1 as [E1|E1]; apply Z.eqb_eq in E1; auto.
    + right. right.
      destruct ((0 <=? v) && (v <? mysize (base t))) eqn:E2; [|discriminate].
      apply andb_true_iff in E2 as [E2 E3].
      apply Z.leb_le in E2. apply Z.ltb_lt in E3. split; [lia|].
      destruct (key_of t v) as [k|]; [|discriminate].
      exists k. split; [reflexivity|]. apply reaches_b_sound. exact Hslot.
  - intros s s' v Hs Hs' Hv E1 E2.
    match goal with
    | E : forallb (fun s => forallb _ _) _ = true |- _ =>
        pose proof (forallb_seqZ _ _ (forallb_seqZ _ _ E s Hs) s' Hs') as Hu
    end.
    cbv beta in Hu. rewrite E1, E2 in Hu.
    apply orb_true_iff in Hu as [Hu|Hu]; [|apply Z.eqb_eq; exact Hu].
    exfalso. apply negb_true_iff in Hu.
    rewrite Z.eqb_refl in Hu.
    destruct (Z.leb_spec 0 v); [|lia].
    destruct (Z.ltb_spec v (mysize (base t))); [|lia]. discriminate.
  - intros i Hi.
    match goal with
    | E : forallb (fun i => existsb _ _) _ = true |- _ =>
        pose proof (forallb_seqZ _ _ E i Hi) as Hr
    end.
    apply existsb_seqZ in Hr as (s & Hs & Hr).
    exists s. split; [exact Hs|].
    unfold slot_is in Hr. destruct (slot t s) as [x|]; [|discriminate].
    apply Z.eqb_eq in Hr. congruence.
Qed.

(** C10.  On a table whose [size()] is 0 each of the three [find]
    overloads returns [SIZE_MAX] at once, whatever the key, the [restart]
    flag, the fuel and the value of [hashcapacity]: the table and the cursor
    (the table's own or the caller's) are unchanged, and the outcome is not
    [DivisionByZero], so [hash(key) % hashcapacity] was not evaluated. *)
Theorem find_on_empty_table (fuel : nat) (key : val) (restart : bool)
    (hashc : Z) (t : htable) :
  size (base t) = 0 ->
  find fuel key restart t = Done (SIZE_MAX, t) /\
  find_const fuel key t = Done SIZE_MAX /\
  find_const_cursor fuel key restart hashc t = Done (SIZE_MAX, hashc).
Proof.
  unfold size. intros Hsize.
  unfold find, find_const, find_const_cursor. rewrite Hsize. simpl. auto.
Qed.

(** The guard matters: with rows and no slots the reduction is evaluated. *)
Lemma find_divides_by_hashcapacity (fuel : nat) (key : val) (t : htable) :
  size (base t) <> 0 -> hashcapacity t = 0 ->
  find fuel key true t = DivisionByZero.
Proof.
  unfold size. intros Hsize Hhc. unfold find.
  destruct (Z.eqb_spec (mysize (base t)) 0); [contradiction|].
  rewrite Hhc. reflexivity.
Qed.

(** ** The store: arrays after a reallocation *)

Lemma at_Done (K : nat) (i : Z) (s : soa) (v : val) :
  at_ K i s = Done v <->
  0 <= i /\ exists col, mydata s !! K = Some col /\ col !! Z.to_nat i = Some v.
Proof.
  unfold at_, column. rewrite rd_Done. split.
  - intros [Hi Hv]. split; [exact Hi|].
    destruct (mydata s !! K) as [col|]; [eauto|].
    rewrite lookup_nil in Hv. discriminate.
  - intros (Hi & col & Hcol & Hv). rewrite Hcol. auto.
Qed.

Lemma memcpy_into_fresh_spec (room n : Z) (old new : list val) :
  0 <= n ->
  memcpy_into_fresh room n old = Done new ->
  Z.of_nat (length new) = room /\ n <= room /\
  forall i, 0 <= i < n -> new !! Z.to_nat i = old !! Z.to_nat i.
Proof.
  intros Hn. unfold memcpy_into_fresh.
  destruct (Z.leb_spec n (Z.of_nat (length old))) as [Hle|]; [|discriminate].
  destruct (Z.leb_spec n room) as [Hroom|]; [|discriminate].
  cbn [andb]. intros [= <-]. split; [|split; [exact Hroom|]].
  - rewrite length_app, length_take, length_replicate. lia.
  - intros i Hi. rewrite lookup_app_l by (rewrite length_take; lia).
    apply lookup_take_lt. lia.
Qed.

(** Whatever the size of the block, the new arrays are as many as the
    column types and none has more than [cap] cells. *)
Lemma divy_buffer_shape (bytes cap size : Z) :
  0 <= size -> 0 <= cap ->
  forall (ts : list (column_type val)) (off : Z) (cols cols' : list (list val)),
    divy_buffer bytes off cap size ts cols = Done cols' ->
    length cols' = length ts /\
    Forall (fun col => Z.of_nat (length col) <= cap) cols'.
Proof.
  intros Hsize Hcap. induction ts as [|t ts IH]; intros off cols cols' H.
  - injection H as <-. split; [reflexivity|constructor].
  - cbn [divy_buffer] in H. cbv zeta in H.
    apply bind_Done in H as (col' & Hcol & H).
    apply bind_Done in H as (rest & Hrest & H). injection H as <-.
    destruct (IH _ _ _ Hrest) as [Hlen Hall].
    pose proof (cells_inside_le bytes off cap (sizeof t) Hcap) as Hroom.
    split; [simpl; lia|]. constructor; [|exact Hall].
    destruct (hd [] cols) as [|x old].
    + injection Hcol as <-. rewrite length_replicate. lia.
    + apply memcpy_into_fresh_spec in Hcol as (Hl & _ & _); lia.
Qed.

(** The arrays that received the cells of an old array hold them inside
    the block. *)
Lemma divy_buffer_copied (bytes cap size : Z) :
  0 <= size -> 0 <= cap ->
  forall (ts : list (column_type val)) (off : Z) (cols cols' : list (list val)),
    divy_buffer bytes off cap size ts cols = Done cols' ->
    length cols = length ts -> Forall (fun col => col <> []) cols ->
    Forall (fun col => Z.min size cap <= Z.of_nat (length col)) cols'.
Proof.
  intros Hsize Hcap. induction ts as [|t ts IH]; intros off cols cols' H Hlen Hne.
  - injection H as <-. constructor.
  - cbn [divy_buffer] in H. cbv zeta in H.
    apply bind_Done in H as (col' & Hcol & H).
    apply bind_Done in H as (rest & Hrest & H). injection H as <-.
    destruct cols as [|c cols]; [discriminate|].
    apply Forall_cons in Hne as [Hc Hne]. cbn [hd tl] in Hcol, Hrest.
    constructor.
    + destruct c as [|x old]; [contradiction|].
      apply memcpy_into_fresh_spec in Hcol as (Hl & Hn & _); lia.
    + apply (IH _ _ _ Hrest); [simpl in Hlen; lia|exact Hne].
Qed.

(** When every new array has [x] cells inside the block, the block holds
    [x] rows from the offset on. *)
Lemma divy_buffer_reach (bytes cap size x : Z) :
  0 <= size -> 0 <= cap -> 1 <= x ->
  forall (ts : list (column_type val)) (off : Z) (cols cols' : list (list val)),
    Forall (fun t => 0 < sizeof t) ts -> ts <> [] ->
    divy_buffer bytes off cap size ts cols = Done cols' ->
    Forall (fun col => x <= Z.of_nat (length col)) cols' ->
    off + size_per_entry_of ts * x <= bytes.
Proof.
  intros Hsize Hcap Hx.
  induction ts as [|t ts IH]; intros off cols cols' Hpos Hne H Hall;
    [contradiction|].
  cbn [divy_buffer] in H. cbv zeta in H.
  apply bind_Done in H as (col' & Hcol & H).
  apply bind_Done in H as (rest & Hrest & H). injection H as <-.
  apply Forall_cons in Hpos as [Ht Hpos].
  apply Forall_cons in Hall as [Hc Hall].
  assert (Hroom : Z.of_nat (length col')
                  = cells_inside bytes off cap (sizeof t)).
  { pose proof (cells_inside_le bytes off cap (sizeof t) Hcap).
    destruct (hd [] cols) as [|y old].
    - injection Hcol as <-. rewrite length_replicate. lia.
    - apply memcpy_into_fresh_spec in Hcol as (Hl & _ & _); lia. }
  rewrite Hroom in Hc.
  apply cells_inside_reach in Hc as [Hreach Hxc]; [|exact Ht|exact Hx].
  cbn [size_per_entry_of]. destruct ts as [|t2 ts].
  - simpl. lia.
  - specialize (IH _ _ _ Hpos ltac:(discriminate) Hrest Hall).
    cbn [size_per_entry_of] in IH |- *. nia.
Qed.

Lemma divy_buffer_spec (bytes cap size : Z) :
  0 <= size <= cap ->
  forall (ts : list (column_type val)) (off : Z) (cols cols' : list (list val)),
    Forall (fun t => 0 < sizeof t) ts ->
    off + size_per_entry_of ts * cap <= bytes ->
    divy_buffer bytes off cap size ts cols = Done cols' ->
    length cols' = length ts /\
    Forall (fun col => Z.of_nat (length col) = cap) cols' /\
    forall (K : nat) (col : list val) (i : Z) (v : val),
      (K < length ts)%nat -> cols !! K = Some col -> 0 <= i < size ->
      col !! Z.to_nat i = Some v ->
      exists col', cols' !! K = Some col' /\ col' !! Z.to_nat i = Some v.
Proof.
  intros Hsize. induction ts as [|t ts IH]; intros off cols cols' Hpos Hfit H.
  - injection H as <-. split; [reflexivity|]. split; [constructor|].
    intros K col i v HK. simpl in HK. lia.
  - cbn [divy_buffer] in H. cbv zeta in H.
    apply Forall_cons in Hpos as [Ht Hpos].
    pose proof (size_per_entry_of_nonneg ts Hpos) as Hrest0.
    cbn [size_per_entry_of] in Hfit.
    rewrite cells_inside_fit in H by (lia || nia).
    apply bind_Done in H as (col' & Hcol & H).
    apply bind_Done in H as (rest & Hrest & H). injection H as <-.
    destruct (IH (off + sizeof t * cap) (tl cols) rest Hpos ltac:(nia) Hrest)
      as (Hlen & Hall & Hrows).
    assert (Hc : Z.of_nat (length col') = cap /\
                 forall i v, 0 <= i < size ->
                   hd [] cols !! Z.to_nat i = Some v ->
                   col' !! Z.to_nat i = Some v).
    { destruct (hd [] cols) as [|x old] eqn:E.
      - injection Hcol as <-. split; [rewrite length_replicate; lia|].
        intros i v _ Hv. rewrite lookup_nil in Hv. discriminate.
      - rewrite Z.min_l in Hcol by lia.
        apply memcpy_into_fresh_spec in Hcol as (Hl & _ & Hv); [|lia].
        split; [exact Hl|]. intros i v Hi Hiv. rewrite Hv by lia. exact Hiv. }
    destruct Hc as [Hcl Hcv].
    split; [simpl; lia|]. split; [constructor; assumption|].
    intros K col i v HK HKc Hi Hv. destruct K as [|K].
    + exists col'. split; [reflexivity|]. apply Hcv; [exact Hi|].
      destruct cols; simpl in *; [discriminate|]. injection HKc as ->. exact Hv.
    + destruct cols as [|c cols]; [discriminate|]. simpl in HKc, HK.
      destruct (Hrows K col i v ltac:(lia) HKc Hi Hv) as (c' & Hc' & Hv').
      exists c'. split; [exact Hc'|exact Hv'].
Qed.

Lemma rows_present (s : soa) (K : nat) (i : Z) :
  soa_invariant s -> (K < length Ts)%nat -> 0 <= i < mysize s ->
  exists v, at_ K i s = Done v.
Proof.
  intros [Hsz _ _ Hn Hl] HK Hi.
  destruct (lookup_lt_is_Some_2 (mydata s) K) as [col Hcol]; [lia|].
  pose proof (Forall_lookup_1 _ _ _ _ Hl Hcol) as Hlen. cbv beta in Hlen.
  destruct (lookup_lt_is_Some_2 col (Z.to_nat i)) as [v Hv]; [lia|].
  exists v. apply at_Done. split; [lia|]. eauto.
Qed.

(** A reallocation into a block that holds the new arrays. *)
Lemma reallocation_spec (bytes off cap : Z) (s : soa) (cols : list (list val)) :
  soa_invariant s -> mysize s <= cap -> cap mod 16 = 0 -> cap < 2 ^ 64 ->
  0 <= off -> off + size_per_entry * cap <= bytes -> bytes <= PTRDIFF_MAX ->
  divy_buffer bytes off cap (mysize s) Ts (mydata s) = Done cols ->
  soa_invariant (mk_soa (mysize s) cap cols) /\
  rows_agree s (mk_soa (mysize s) cap cols).
Proof.
  intros Hinv Hcap H16 Hmax Hoff Hfit Hbytes H.
  pose proof (soa_size_le_capacity _ Hinv) as Hsz.
  apply divy_buffer_spec in H as (Hlen & Hall & Hrows);
    [|lia|apply sizeof_pos|exact Hfit].
  split.
  - split; simpl; try assumption; lia.
  - intros K i v Hi Hv. apply at_Done in Hv as (_ & col & Hcol & Hv).
    apply at_Done. split; [lia|]. simpl.
    apply (Hrows K col i v); try assumption.
    apply lookup_lt_Some in Hcol. rewrite <- (soa_columns _ Hinv). exact Hcol.
Qed.

(** A reallocation of a store that holds rows: the rows it copies lie
    inside the new block. *)
Lemma reallocation_reach (bytes off cap : Z) (s : soa) (cols : list (list val)) :
  soa_invariant s -> 0 < mysize s -> mysize s <= cap ->
  divy_buffer bytes off cap (mysize s) Ts (mydata s) = Done cols ->
  off + size_per_entry * mysize s <= bytes.
Proof.
  intros Hinv Hrows Hcap H.
  pose proof (soa_size_le_capacity _ Hinv) as Hsz.
  apply (divy_buffer_reach bytes cap (mysize s) (mysize s) ltac:(lia)
           ltac:(lia) ltac:(lia) Ts off (mydata s) cols);
    [apply sizeof_pos|apply has_key_column|exact H|].
  apply divy_buffer_copied in H;
    [|lia|lia|apply (soa_columns _ Hinv)|].
  - eapply Forall_impl; [exact H|]. intros col Hcol. simpl in Hcol. lia.
  - eapply Forall_impl; [apply (soa_column_length _ Hinv)|].
    intros col Hcol ->. simpl in Hcol. lia.
Qed.

Lemma soa_block_size (s : soa) (n : Z) :
  soa_invariant s -> 0 <= n <= mycapacity s ->
  0 <= size_per_entry * n <= PTRDIFF_MAX.
Proof.
  intros Hinv Hn. pose proof (soa_capacity_range _ Hinv) as [_ Hblock].
  pose proof size_per_entry_pos. nia.
Qed.

Lemma shrink_to_fit_spec (alloc : Z -> bool) (s s1 : soa) :
  soa_invariant s ->
  shrink_to_fit alloc s = Done (true, s1) ->
  soa_invariant s1 /\ mysize s1 = mysize s /\
  mycapacity s1 = multiple_of_16 (mysize s) /\ rows_agree s s1.
Proof.
  intros Hinv. pose proof Hinv as [Hsz H16 [Hmax Hblock] Hn Hl].
  assert (Hs : 0 <= mysize s <= 2 ^ 64 - 16).
  { pose proof (Z.div_mod (mycapacity s) 16 ltac:(lia)). pows. lia. }
  pose proof (multiple_of_16_ge _ Hs) as HM.
  assert (HM16 : multiple_of_16 (mysize s) mod 16 = 0)
    by (apply multiple_of_16_spec; pows; lia).
  assert (HMc : multiple_of_16 (mysize s) <= mycapacity s).
  { pose proof (Z.div_mod (mycapacity s) 16 ltac:(lia)).
    pose proof (Z.div_mod (multiple_of_16 (mysize s)) 16 ltac:(lia)). lia. }
  pose proof (soa_block_size s (multiple_of_16 (mysize s)) Hinv ltac:(lia))
    as Hbytes.
  unfold shrink_to_fit.
  destruct (Z.eqb_spec (multiple_of_16 (mysize s)) (mycapacity s)) as [E|E].
  { intros [= <-]. split; [exact Hinv|]. split; [reflexivity|].
    split; [congruence|]. intros K i v _ Hv. exact Hv. }
  destruct (Z.ltb_spec 0 (multiple_of_16 (mysize s))) as [Hpos|Hzero].
  - rewrite size_t_small by (unfold PTRDIFF_MAX in Hbytes; pows; lia).
    destruct (aligned_malloc alloc _); simpl; [|discriminate].
    intros H. apply bind_Done in H as (cols & Hdivy & H). injection H as <-.
    apply reallocation_spec in Hdivy as [Hinv' Hrows];
      [|exact Hinv|lia|exact HM16|pows; lia|lia|lia|lia].
    split; [exact Hinv'|]. split; [reflexivity|].
    split; [reflexivity|exact Hrows].
  - intros [= <-]. assert (mysize s = 0) by lia.
    split; [|split; [reflexivity|split; [simpl; lia|]]].
    + split; simpl; try lia; try reflexivity.
      * unfold nullify. rewrite length_map. exact Hn.
      * unfold nullify. apply Forall_forall. intros col Hcol.
        apply list_elem_of_In, in_map_iff in Hcol as (_ & <- & _). reflexivity.
    + intros K i v Hi. lia.
Qed.

Lemma soa_new_invariant : soa_invariant soa_new.
Proof.
  split; simpl; try lia; try reflexivity.
  - unfold PTRDIFF_MAX. pows. lia.
  - apply length_map.
  - apply Forall_forall. intros col Hcol.
    apply list_elem_of_In, in_map_iff in Hcol as (_ & <- & _). reflexivity.
Qed.

(** What [reserve] does to the capacity, whatever it returns. *)
Lemma reserve_cases (alloc : Z -> bool) (n : Z) (s s1 : soa) (ok : bool) :
  reserve alloc n s = Done (ok, s1) ->
  let N := if multiple_of_16 n =? 0 then 16 else multiple_of_16 n in
  N <= mycapacity s /\ ok = true /\ s1 = s \/
  mycapacity s < N /\ ok = false /\ s1 = s \/
  mycapacity s < N /\ ok = true /\ mysize s1 = mysize s /\ mycapacity s1 = N.
Proof.
  unfold reserve. cbv zeta.
  destruct (Z.leb_spec (if multiple_of_16 n =? 0 then 16 else multiple_of_16 n)
              (mycapacity s)) as [Hle|Hgt].
  { intros [= <- <-]. left. auto. }
  destruct (aligned_malloc alloc _); simpl.
  - intros H. apply bind_Done in H as (cols & _ & H). injection H as <- <-.
    right. right. simpl. auto.
  - intros [= <- <-]. right. left. auto.
Qed.

(** A successful [reserve] that leaves a capacity whose block an
    allocation can return has not wrapped around. *)
Lemma reserve_fit (alloc : Z -> bool) (n : Z) (s s1 : soa) :
  soa_invariant s ->
  reserve alloc n s = Done (true, s1) ->
  size_per_entry * mycapacity s1 <= PTRDIFF_MAX ->
  size_per_entry * (if multiple_of_16 n =? 0 then 16 else multiple_of_16 n)
    < 2 ^ 64.
Proof.
  intros Hinv H Hblock. pose proof (soa_capacity_range _ Hinv) as [_ Hb].
  pose proof size_per_entry_pos as Hspe.
  apply reserve_cases in H. cbv zeta in H. unfold PTRDIFF_MAX in *.
  destruct H as [(Hle & _ & ->)|[(_ & E & _)|(_ & _ & _ & Hc)]].
  - pows. nia.
  - discriminate.
  - rewrite <- Hc. pows. lia.
Qed.

(** A successful [reserve] whose byte count has not wrapped around. *)
Lemma reserve_spec (alloc : Z -> bool) (n : Z) (s s1 : soa) :
  soa_invariant s -> 0 <= n < 2 ^ 64 ->
  size_per_entry * (if multiple_of_16 n =? 0 then 16 else multiple_of_16 n)
    < 2 ^ 64 ->
  reserve alloc n s = Done (true, s1) ->
  soa_invariant s1 /\ mysize s1 = mysize s /\ rows_agree s s1 /\
  (s1 = s \/
   mycapacity s < mycapacity s1 /\
   mycapacity s1 = if multiple_of_16 n =? 0 then 16 else multiple_of_16 n).
Proof.
  intros Hinv Hn Hfit. pose proof Hinv as [Hsz H16 Hmax Hcols Hl].
  destruct (multiple_of_16_spec n Hn) as [HM HM16].
  unfold reserve.
  set (N := if multiple_of_16 n =? 0 then 16 else multiple_of_16 n) in *.
  assert (HN : 0 < N < 2 ^ 64 /\ N mod 16 = 0).
  { subst N. destruct (Z.eqb_spec (multiple_of_16 n) 0); [pows; split; [lia|reflexivity]|].
    split; [lia|assumption]. }
  destruct (Z.leb_spec N (mycapacity s)) as [Hle|Hgt].
  { intros [= <-]. split; [exact Hinv|]. split; [reflexivity|].
    split; [|left; reflexivity]. intros K i v _ Hv. exact Hv. }
  pose proof size_per_entry_pos as Hspe.
  rewrite size_t_small by nia.
  destruct (aligned_malloc alloc _) eqn:Ea; simpl; [|discriminate].
  apply aligned_malloc_bound in Ea.
  intros H. apply bind_Done in H as (cols & Hdivy & H). injection H as <-.
  apply reallocation_spec in Hdivy as [Hinv' Hrows];
    [|exact Hinv|lia|tauto|lia|lia|lia|exact Ea].
  split; [exact Hinv'|]. split; [reflexivity|]. split; [exact Hrows|].
  right. simpl. split; [lia|reflexivity].
Qed.

(** The growth of a full store, [reserve(mycapacity * 2)], does not wrap
    around: the block doubles, or is the first one, of sixteen rows. *)
Lemma growth_fits (s : soa) :
  soa_invariant s ->
  let n := size_t (mycapacity s * 2) in
  0 <= n < 2 ^ 64 /\
  size_per_entry * (if multiple_of_16 n =? 0 then 16 else multiple_of_16 n)
    < 2 ^ 64.
Proof.
  intros Hinv n. pose proof Hinv as [Hsz H16 [Hmax Hblock] Hcols Hl].
  pose proof size_per_entry_pos as Hspe. pose proof row_size as Hrow.
  assert (Hc63 : mycapacity s * 2 < 2 ^ 64)
    by (unfold PTRDIFF_MAX in Hblock; pows; nia).
  assert (En : n = mycapacity s * 2) by (apply size_t_small; lia).
  split; [lia|]. rewrite En.
  assert (E16 : (mycapacity s * 2) mod 16 = 0).
  { rewrite <- Z.mul_mod_idemp_l, H16 by lia. reflexivity. }
  rewrite multiple_of_16_fixed by exact E16.
  unfold PTRDIFF_MAX in *. pows.
  destruct (Z.eqb_spec (mycapacity s * 2) 0); nia.
Qed.


(** ** The probing loops *)

Lemma find_loop_walk (fuel : nat) (key : val) (t : htable) (c : Z) :
  find_loop fuel key t c
  = walk fuel (hashcapacity t) (hashmap t) (find_body key t) c.
Proof.
  revert c. induction fuel as [|fuel IH]; intros c; [reflexivity|].
  cbn [find_loop walk]. destruct (rd (hashmap t) c) as [index| | |]; try reflexivity.
  cbn [mbind outcome_bind]. unfold find_body.
  destruct (index =? INDEXNUL); [reflexivity|].
  destruct (if negb (index =? INDEXDEL) then _ else _) as [[|]| | |];
    cbn [mbind outcome_bind]; try reflexivity.
  destruct (hash_inc (hashcapacity t) c); cbn [mbind outcome_bind];
    try reflexivity. apply IH.
Qed.

Lemma rehash_place_walk (fuel : nat) (hc i : Z) (hm : list Z) (h : Z) :
  rehash_place fuel hc i hm h = walk fuel hc hm (place_body i hm) h.
Proof.
  revert h. induction fuel as [|fuel IH]; intros h; [reflexivity|].
  cbn [rehash_place walk]. destruct (rd hm h) as [index| | |]; try reflexivity.
  cbn [mbind outcome_bind]. unfold place_body.
  destruct ((index =? INDEXNUL) || (index =? INDEXDEL)).
  - destruct (wr hm h (uint32_t i)); reflexivity.
  - cbn [mbind outcome_bind].
    destruct (hash_inc hc h); cbn [mbind outcome_bind]; try reflexivity.
    apply IH.
Qed.

Lemma insert_place_walk (alloc : Z -> bool) (fuel : nat) (row : list val)
    (t : htable) (h : Z) :
  insert_place alloc fuel row t h
  = walk fuel (hashcapacity t) (hashmap t) (insert_body alloc row t) h.
Proof.
  revert h. induction fuel as [|fuel IH]; intros h; [reflexivity|].
  cbn [insert_place walk].
  destruct (rd (hashmap t) h) as [index| | |]; try reflexivity.
  cbn [mbind outcome_bind]. unfold insert_body.
  destruct ((index =? INDEXNUL) || (index =? INDEXDEL)).
  - destruct (push_back alloc row (base t)) as [[ok b]| | |]; try reflexivity.
    cbn [mbind outcome_bind].
    destruct (wr (hashmap t) h _); reflexivity.
  - cbn [mbind outcome_bind].
    destruct (hash_inc (hashcapacity t) h); cbn [mbind outcome_bind];
      try reflexivity. apply IH.
Qed.

Lemma repair_walk (fuel : nat) (hc size index : Z) (hm : list Z) (h : Z) :
  repair fuel hc size index hm h = walk fuel hc hm (repair_body size index hm) h.
Proof.
  revert h. induction fuel as [|fuel IH]; intros h; [reflexivity|].
  cbn [repair walk]. destruct (rd hm h) as [newindex| | |]; try reflexivity.
  cbn [mbind outcome_bind]. unfold repair_body.
  destruct (newindex =? size).
  - destruct (wr hm h index); reflexivity.
  - destruct (newindex =? INDEXNUL); [reflexivity|].
    cbn [mbind outcome_bind].
    destruct (hash_inc hc h); cbn [mbind outcome_bind]; try reflexivity.
    apply IH.
Qed.

Section Walk.
Context {R : Type} (hc : Z) (hm : list Z) (body : Z -> Z -> outcome (option R)).
Context (h : Z).
Hypothesis hc_pos : 0 < hc.
Hypothesis hc_max : hc + 2 <= 2 ^ 64.

Local Abbreviation passes := (passes hc hm body h).
Local Abbreviation stops := (stops hc hm body h).

Lemma walk_step_pass (fuel : nat) (d : Z) :
  0 <= d -> passes d ->
  walk (S fuel) hc hm body (probe hc h d)
  = walk fuel hc hm body (probe hc h (d + 1)).
Proof using hc_pos hc_max.
  intros Hd (v & Hv & Hb). cbn [walk].
  assert (Hrd : rd hm (probe hc h d) = Done v).
  { apply rd_Done. split; [apply probe_range; exact hc_pos | exact Hv]. }
  rewrite Hrd. cbn [mbind outcome_bind]. rewrite Hb. cbn [mbind outcome_bind].
  rewrite hash_inc_probe by assumption. reflexivity.
Qed.

Lemma walk_step_stop (fuel : nat) (d : Z) (r : R) :
  stops d r -> walk (S fuel) hc hm body (probe hc h d) = Done r.
Proof using hc_pos.
  intros (v & Hv & Hb). cbn [walk].
  assert (Hrd : rd hm (probe hc h d) = Done v).
  { apply rd_Done. split; [apply probe_range; exact hc_pos | exact Hv]. }
  rewrite Hrd. cbn [mbind outcome_bind]. rewrite Hb. reflexivity.
Qed.

(** Enough fuel: the loop stops at the first distance where the body
    stops. *)
Lemma walk_reaches (n : nat) : forall (fuel : nat) (d : Z) (r : R),
  0 <= d -> (n < fuel)%nat ->
  (forall d', d <= d' < d + Z.of_nat n -> passes d') ->
  stops (d + Z.of_nat n) r ->
  walk fuel hc hm body (probe hc h d) = Done r.
Proof using hc_pos hc_max.
  induction n as [|n IH]; intros fuel d r Hd Hfuel Hpass Hstop.
  - destruct fuel as [|fuel]; [lia|].
    rewrite Z.add_0_r in Hstop. apply walk_step_stop. exact Hstop.
  - destruct fuel as [|fuel]; [lia|].
    rewrite walk_step_pass by (try apply Hpass; lia).
    apply IH; [lia|lia| |].
    + intros d' Hd'. apply Hpass. lia.
    + replace (d + 1 + Z.of_nat n) with (d + Z.of_nat (S n)) by lia.
      exact Hstop.
Qed.

(** A loop that returned stopped at some distance, after passing all the
    earlier ones. *)
Lemma walk_Done (fuel : nat) : forall (d : Z) (r : R),
  0 <= d ->
  walk fuel hc hm body (probe hc h d) = Done r ->
  exists n : nat, (n < fuel)%nat /\
    (forall d', d <= d' < d + Z.of_nat n -> passes d') /\
    stops (d + Z.of_nat n) r.
Proof using hc_pos hc_max.
  induction fuel as [|fuel IH]; intros d r Hd H; [discriminate|].
  cbn [walk] in H.
  apply bind_Done in H as (v & Hrd & H).
  apply bind_Done in H as (o & Hb & H).
  apply rd_Done in Hrd as [_ Hv].
  destruct o as [x|].
  - injection H as ->. exists 0%nat. split; [lia|]. split; [intros d'; lia|].
    rewrite Z.add_0_r. exists v. auto.
  - rewrite hash_inc_probe in H by assumption. cbn [mbind outcome_bind] in H.
    apply IH in H as (n & Hn & Hpass & Hstop); [|lia].
    exists (S n). split; [lia|]. split.
    + intros d' Hd'. destruct (Z.eq_dec d' d) as [->|Hne].
      * exists v. auto.
      * apply Hpass. lia.
    + replace (d + Z.of_nat (S n)) with (d + 1 + Z.of_nat n) by lia.
      exact Hstop.
Qed.

(** Enough fuel, when every distance on the way either goes on or stops
    with the one result [r]. *)
Lemma walk_reaches_some (n : nat) : forall (fuel : nat) (d : Z) (r : R),
  0 <= d -> (n < fuel)%nat ->
  (forall d', d <= d' < d + Z.of_nat n -> passes d' \/ stops d' r) ->
  stops (d + Z.of_nat n) r ->
  walk fuel hc hm body (probe hc h d) = Done r.
Proof using hc_pos hc_max.
  induction n as [|n IH]; intros fuel d r Hd Hfuel Hpass Hstop.
  - destruct fuel as [|fuel]; [lia|].
    rewrite Z.add_0_r in Hstop. apply walk_step_stop. exact Hstop.
  - destruct fuel as [|fuel]; [lia|].
    destruct (Hpass d ltac:(lia)) as [Hp|Hs]; [|apply walk_step_stop; exact Hs].
    rewrite walk_step_pass by (try exact Hp; lia).
    apply IH; [lia|lia| |].
    + intros d' Hd'. apply Hpass. lia.
    + replace (d + 1 + Z.of_nat n) with (d + Z.of_nat (S n)) by lia.
      exact Hstop.
Qed.

End Walk.

(** ** Row operations of the store *)

Lemma each_column_fmap (f : list val -> outcome (list val))
    (g : list val -> list val) (cols : list (list val)) :
  Forall (fun col => f col = Done (g col)) cols ->
  each_column f cols = Done (g <$> cols).
Proof.
  induction 1 as [|col cols Hcol _ IH]; [reflexivity|].
  cbn [each_column]. rewrite Hcol. cbn [mbind outcome_bind].
  rewrite IH. reflexivity.
Qed.

Lemma column_fmap (g : list val -> list val) (K : nat) (s : soa) (n c : Z) :
  g [] = [] ->
  column K (mk_soa n c (g <$> mydata s)) = g (column K s).
Proof.
  intros Hg. unfold column. simpl. rewrite list_lookup_fmap.
  destruct (mydata s !! K); simpl; [reflexivity|]. symmetry. exact Hg.
Qed.

Lemma swapped_nil (i j : Z) : swapped i j [] = [].
Proof. unfold swapped. rewrite lookup_nil. reflexivity. Qed.

Lemma swap_cells_swapped (i j : Z) (col : list val) :
  0 <= i < Z.of_nat (length col) -> 0 <= j < Z.of_nat (length col) ->
  swap_cells i j col = Done (swapped i j col).
Proof.
  intros Hi Hj. unfold swap_cells, swapped.
  destruct (lookup_lt_is_Some_2 col (Z.to_nat i)) as [a Ha]; [lia|].
  destruct (lookup_lt_is_Some_2 col (Z.to_nat j)) as [b Hb]; [lia|].
  rewrite (proj2 (rd_Done col i a)) by (split; [lia|exact Ha]).
  cbn [mbind outcome_bind].
  rewrite (proj2 (rd_Done col j b)) by (split; [lia|exact Hb]).
  cbn [mbind outcome_bind].
  rewrite wr_Done by lia. cbn [mbind outcome_bind].
  rewrite wr_Done by (rewrite length_insert; lia).
  rewrite Ha, Hb. reflexivity.
Qed.

Lemma swapped_lookup (i j x : Z) (col : list val) :
  0 <= i < Z.of_nat (length col) -> 0 <= j < Z.of_nat (length col) ->
  0 <= x ->
  swapped i j col !! Z.to_nat x
  = if x =? j then col !! Z.to_nat i
    else if x =? i then col !! Z.to_nat j
    else col !! Z.to_nat x.
Proof.
  intros Hi Hj Hx. unfold swapped.
  destruct (lookup_lt_is_Some_2 col (Z.to_nat i)) as [a Ha]; [lia|].
  destruct (lookup_lt_is_Some_2 col (Z.to_nat j)) as [b Hb]; [lia|].
  rewrite Ha, Hb.
  destruct (Z.eqb_spec x j) as [->|Hxj].
  - rewrite list_lookup_insert_eq by (rewrite length_insert; lia). reflexivity.
  - rewrite list_lookup_insert_ne by lia.
    destruct (Z.eqb_spec x i) as [->|Hxi].
    + rewrite list_lookup_insert_eq by lia. reflexivity.
    + rewrite list_lookup_insert_ne by lia. reflexivity.
Qed.

Lemma swapped_length (i j : Z) (col : list val) :
  length (swapped i j col) = length col.
Proof.
  unfold swapped. destruct (col !! Z.to_nat i), (col !! Z.to_nat j);
    rewrite ?length_insert; reflexivity.
Qed.

(** [erase_swap(i)] on a store whose arrays hold the [mysize] rows. *)
Lemma erase_swap_spec (i : Z) (s : soa) :
  0 <= i < mysize s -> mysize s < 2 ^ 64 ->
  Forall (fun col => mysize s <= Z.of_nat (length col)) (mydata s) ->
  erase_swap i s
  = Done (mk_soa (mysize s - 1) (mycapacity s)
            (swapped i (mysize s - 1) <$> mydata s)).
Proof.
  intros Hi Hmax Hcols. unfold erase_swap.
  destruct (Z.leb_spec (mysize s) i); [lia|].
  unfold base_erase_swap. rewrite (size_t_small (mysize s - 1)) by lia.
  rewrite (each_column_fmap _ (swapped i (mysize s - 1))).
  - reflexivity.
  - eapply Forall_impl; [exact Hcols|]. intros col Hcol. cbv beta in Hcol.
    apply swap_cells_swapped; lia.
Qed.

(** ** [erase_found] *)

Lemma live_row_slot (t : htable) (j : Z) :
  slot_invariant t -> 0 <= j < mysize (base t) ->
  exists s k, 0 <= s < hashcapacity t /\ slot t s = Some j /\
              key_of t j = Some k /\ reaches t k s.
Proof.
  intros Hinv Hj.
  destruct (inv_rows t Hinv j Hj) as (s & Hs & Hsj).
  destruct (inv_slots t Hinv s Hs) as (v & Hv & Hcases).
  rewrite Hsj in Hv. injection Hv as <-.
  pose proof (inv_size t Hinv) as Hsize.
  destruct Hcases as [E|[E|(_ & k & Hk & Hr)]]; [consts; lia|consts; lia|].
  exists s, k. auto.
Qed.

Lemma slot_in_range (t : htable) (s : Z) :
  slot_invariant t -> 0 <= s < hashcapacity t ->
  exists v, slot t s = Some v.
Proof.
  intros Hinv Hs. destruct (inv_slots t Hinv s Hs) as (v & Hv & _). eauto.
Qed.

Section EraseFound.
Variables (t : htable) (i : Z).
Hypothesis Hinv : slot_invariant t.
Hypothesis Hcursor : hashcursor t < hashcapacity t.
Hypothesis Hslot : slot t (hashcursor t) = Some i.
Hypothesis Hi : 0 <= i < mysize (base t).

Let hc := hashcapacity t.
Let hm := hashmap t.
Let c := hashcursor t.
Let last := mysize (base t) - 1.
Let hm1 := <[Z.to_nat c := INDEXDEL]> hm.

Local Abbreviation repaired := (repaired t i).

Lemma ef_hc : 0 < hc /\ hc + 2 <= 2 ^ 64 /\ Z.odd hc = true /\ 0 <= c.
Proof.
  pose proof (inv_hashcapacity t Hinv). pose proof (inv_cursor t Hinv).
  subst hc c. split; [lia|]. split; [pows; lia|]. split; [|lia].
  destruct (inv_odd t Hinv); [lia|assumption].
Qed.

Lemma ef_bounds : 0 <= last < INDEXDEL /\ mysize (base t) < 2 ^ 64.
Proof.
  pose proof (inv_size t Hinv). subst last. consts. lia.
Qed.

Lemma ef_slot : hm !! Z.to_nat c = Some i.
Proof. exact Hslot. Qed.

Lemma ef_only_cursor (s : Z) :
  0 <= s < hc -> hm !! Z.to_nat s = Some i -> s = c.
Proof.
  intros Hs Hsi. destruct ef_hc as (? & ? & ? & ?).
  apply (inv_unique t Hinv s c i); auto; subst c hc; lia.
Qed.

Lemma ef_hm1_lookup (s : Z) :
  0 <= s < hc ->
  hm1 !! Z.to_nat s = if s =? c then Some INDEXDEL else hm !! Z.to_nat s.
Proof.
  intros Hs. destruct ef_hc as (? & ? & ? & ?).
  pose proof (inv_hashmap t Hinv). subst hm1.
  destruct (Z.eqb_spec s c) as [->|Hne].
  - apply list_lookup_insert_eq. subst hm hc c. lia.
  - apply list_lookup_insert_ne. lia.
Qed.

(** The scan when the erased row was not the last one. *)
Lemma ef_repair_moved (k : val) (fuel : nat) :
  i < last -> key_of t last = Some k ->
  (Z.to_nat hc <= fuel)%nat ->
  exists hm2,
    repair fuel hc last i hm1 (hash k mod hc) = Done hm2 /\ repaired hm2.
Proof.
  intros Hlt Hk Hfuel. destruct ef_hc as (Hpos & Hmax & Hodd & Hc).
  destruct ef_bounds as [Hlast Hn].
  destruct (live_row_slot t last Hinv ltac:(subst last; lia))
    as (sL & k' & HsL & HsLv & Hk' & d & Hd & Hprobe & Hreach).
  rewrite Hk in Hk'. injection Hk' as <-.
  fold hc in HsL, Hd, Hprobe, Hreach. unfold slot in HsLv, Hreach. fold hm in HsLv, Hreach.
  assert (HsLc : sL <> c).
  { intros ->. pose proof ef_slot as E. rewrite HsLv in E.
    injection E as E. lia. }
  pose proof (inv_hashmap t Hinv) as Hlen. fold hc hm in Hlen.
  exists (<[Z.to_nat sL := i]> hm1). split.
  - rewrite repair_walk. rewrite <- (probe_0 hc (hash k mod hc)) at 1
      by (apply Z.mod_pos_bound; exact Hpos).
    apply (walk_reaches hc hm1 _ (hash k mod hc) Hpos Hmax (Z.to_nat d));
      [lia|lia| |].
    + intros d' Hd'. pose proof (probe_range hc (hash k mod hc) d' Hpos) as Hr.
      destruct (slot_in_range t _ Hinv Hr) as [v Hv]. unfold slot in Hv. fold hm hc in Hv.
      exists (if probe hc (hash k mod hc) d' =? c then INDEXDEL else v). split.
      * rewrite ef_hm1_lookup by exact Hr. rewrite Hv.
        destruct (_ =? c); reflexivity.
      * unfold repair_body.
        assert (Hv' : v <> INDEXNUL /\ v <> last).
        { split.
          - intros ->. apply (Hreach d'); [lia|exact Hv].
          - intros ->. assert (probe hc (hash k mod hc) d' = sL).
            { apply (inv_unique t Hinv _ sL last); auto. subst last. lia. }
            assert (d' = d) by (apply (probe_inj hc (hash k mod hc)); try assumption; try lia; congruence).
            lia. }
        destruct (_ =? c).
        -- destruct (Z.eqb_spec INDEXDEL last); [lia|]. reflexivity.
        -- destruct (Z.eqb_spec v last); [tauto|].
           destruct (Z.eqb_spec v INDEXNUL); [tauto|]. reflexivity.
    + unfold stops. rewrite Z.add_0_l, Z2Nat.id by lia. rewrite Hprobe.
      exists last. split.
      * rewrite ef_hm1_lookup by exact HsL.
        destruct (Z.eqb_spec sL c); [contradiction|exact HsLv].
      * unfold repair_body. rewrite Z.eqb_refl.
        rewrite wr_Done by (subst hm1; rewrite length_insert; lia).
        reflexivity.
  - split; [subst hm1; rewrite !length_insert; reflexivity|].
    intros s v Hs Hv. fold hm hc c last in Hs, Hv |- *.
    destruct (Z.eqb_spec s sL) as [->|Hne].
    + rewrite list_lookup_insert_eq by (subst hm1; rewrite length_insert; lia).
      destruct (Z.eqb_spec sL c); [contradiction|].
      rewrite HsLv in Hv. injection Hv as <-. rewrite Z.eqb_refl. reflexivity.
    + rewrite list_lookup_insert_ne by lia.
      rewrite ef_hm1_lookup by exact Hs.
      destruct (Z.eqb_spec s c); [reflexivity|]. rewrite Hv.
      destruct (Z.eqb_spec v last) as [->|]; [|reflexivity].
      exfalso. apply Hne. apply (inv_unique t Hinv s sL last); auto.
      subst last. lia.
Qed.

(** The scan when the erased row was the last one: no slot holds its index
    any more, and the scan ends at an empty slot. *)
Lemma ef_repair_last (k : val) (fuel : nat) :
  i = last ->
  (exists s, 0 <= s < hc /\ hm !! Z.to_nat s = Some INDEXNUL) ->
  (Z.to_nat hc <= fuel)%nat ->
  exists hm2,
    repair fuel hc last i hm1 (hash k mod hc) = Done hm2 /\ repaired hm2.
Proof.
  intros Hlast (s0 & Hs0 & Hnul) Hfuel.
  destruct ef_hc as (Hpos & Hmax & Hodd & Hc).
  destruct ef_bounds as [Hlastb Hn].
  pose proof (inv_hashmap t Hinv) as Hlen. fold hc hm in Hlen.
  destruct (probe_surj hc (hash k mod hc) s0 Hpos Hodd Hs0) as (d0 & Hd0 & Hprobe).
  assert (Hs0c : s0 <> c).
  { intros ->. pose proof ef_slot as E. rewrite Hnul in E.
    injection E as E. consts. lia. }
  assert (Hbody : forall s, 0 <= s < hc ->
            exists v1, hm1 !! Z.to_nat s = Some v1 /\
              repair_body last i hm1 s v1
              = if v1 =? INDEXNUL then Done (Some hm1) else Done None).
  { intros s Hs. destruct (slot_in_range t _ Hinv Hs) as [v Hv].
    unfold slot in Hv. fold hm in Hv.
    exists (if s =? c then INDEXDEL else v). split.
    - rewrite ef_hm1_lookup by exact Hs. rewrite Hv. destruct (s =? c); reflexivity.
    - unfold repair_body. destruct (Z.eqb_spec s c) as [->|Hne].
      + destruct (Z.eqb_spec INDEXDEL last); [lia|]. reflexivity.
      + destruct (Z.eqb_spec v last) as [->|]; [|reflexivity].
        exfalso. apply Hne. apply ef_only_cursor; [exact Hs|]. congruence. }
  exists hm1. split.
  - rewrite repair_walk. rewrite <- (probe_0 hc (hash k mod hc)) at 1
      by (apply Z.mod_pos_bound; exact Hpos).
    apply (walk_reaches_some hc hm1 _ (hash k mod hc) Hpos Hmax (Z.to_nat d0));
      [lia|lia| |].
    + intros d' Hd'. pose proof (probe_range hc (hash k mod hc) d' Hpos) as Hr.
      destruct (Hbody _ Hr) as (v1 & Hv1 & Hb).
      destruct (Z.eqb_spec v1 INDEXNUL).
      * right. exists v1. auto.
      * left. exists v1. auto.
    + unfold stops. rewrite Z.add_0_l, Z2Nat.id by lia. rewrite Hprobe.
      destruct (Hbody s0 Hs0) as (v1 & Hv1 & Hb).
      exists v1. split; [exact Hv1|].
      rewrite ef_hm1_lookup in Hv1 by exact Hs0.
      destruct (Z.eqb_spec s0 c); [contradiction|].
      rewrite Hnul in Hv1. injection Hv1 as <-. rewrite Hb. reflexivity.
  - split; [subst hm1; rewrite length_insert; reflexivity|].
    intros s v Hs Hv. fold hm hc c last in Hs, Hv |- *.
    rewrite ef_hm1_lookup by exact Hs.
    destruct (Z.eqb_spec s c); [reflexivity|]. rewrite Hv.
    destruct (Z.eqb_spec v last) as [->|]; [|reflexivity].
    exfalso. apply n. apply ef_only_cursor; [exact Hs|]. congruence.
Qed.


Lemma rd_ext {A : Type} (a b : list A) (x : Z) :
  length a = length b -> a !! Z.to_nat x = b !! Z.to_nat x -> rd a x = rd b x.
Proof. intros Hl Hx. unfold rd. rewrite Hl, Hx. reflexivity. Qed.

Lemma ef_column (K : nat) (hm2 : list Z) :
  column K (base (erased t i hm2)) = swapped i last (column K (base t)).
Proof. apply column_fmap, swapped_nil. Qed.

Lemma ef_column_range (K : nat) :
  column K (base t) = [] \/
  mysize (base t) <= Z.of_nat (length (column K (base t))).
Proof.
  unfold column. destruct (mydata (base t) !! K) as [col|] eqn:E; [|auto].
  right. pose proof (inv_cells t Hinv) as Hall.
  apply (Forall_lookup_1 _ _ _ _ Hall E).
Qed.

Lemma ef_cell (K : nat) (hm2 : list Z) (x : Z) :
  0 <= x ->
  column K (base (erased t i hm2)) !! Z.to_nat x
  = if x =? last then column K (base t) !! Z.to_nat i
    else if x =? i then column K (base t) !! Z.to_nat last
    else column K (base t) !! Z.to_nat x.
Proof.
  intros Hx. rewrite ef_column.
  destruct (ef_column_range K) as [E|Hlen].
  - rewrite E, swapped_nil, !lookup_nil. repeat destruct (_ =? _); reflexivity.
  - apply swapped_lookup; subst last; lia.
Qed.

Lemma ef_at_other (K : nat) (hm2 : list Z) (j : Z) :
  0 <= j -> j <> i -> j <> last ->
  at_ K j (base (erased t i hm2)) = at_ K j (base t).
Proof.
  intros Hj Hji Hjl. unfold at_. apply rd_ext.
  - rewrite ef_column. apply swapped_length.
  - rewrite ef_cell by exact Hj.
    destruct (Z.eqb_spec j last); [contradiction|].
    destruct (Z.eqb_spec j i); [contradiction|]. reflexivity.
Qed.

Lemma ef_at_moved (K : nat) (hm2 : list Z) :
  at_ K i (base (erased t i hm2)) = at_ K last (base t).
Proof.
  unfold at_. destruct (ef_column_range K) as [E|Hlen].
  - rewrite ef_column, E, swapped_nil.
    rewrite !rd_out_of_range by (simpl; subst last; lia). reflexivity.
  - assert (Hcell : column K (base (erased t i hm2)) !! Z.to_nat i
                    = column K (base t) !! Z.to_nat last).
    { rewrite ef_cell by lia. destruct (Z.eqb_spec i last) as [->|]; [reflexivity|].
      rewrite Z.eqb_refl. reflexivity. }
    destruct (lookup_lt_is_Some_2 (column K (base t)) (Z.to_nat last)) as [v Hv];
      [subst last; lia|].
    rewrite (proj2 (rd_Done _ last v)) by (split; [subst last; lia|exact Hv]).
    apply rd_Done. split; [lia|]. rewrite Hcell. exact Hv.
Qed.

Lemma ef_key (hm2 : list Z) (x : Z) :
  0 <= x ->
  key_of (erased t i hm2) x
  = if x =? last then key_of t i
    else if x =? i then key_of t last
    else key_of t x.
Proof. intros Hx. unfold key_of. apply ef_cell. exact Hx. Qed.

Lemma ef_reaches (hm2 : list Z) (k : val) (s : Z) :
  repaired hm2 -> reaches t k s -> reaches (erased t i hm2) k s.
Proof.
  intros [_ Hrep] (d & Hd & Hprobe & Hreach).
  destruct ef_bounds as [Hlast _].
  exists d. split; [exact Hd|]. split; [exact Hprobe|].
  intros d' Hd' E. apply (Hreach d' Hd').
  simpl in E. unfold slot in *. simpl in E.
  assert (Hr : 0 <= probe (hashcapacity t) (hash k mod hashcapacity t) d'
               < hashcapacity t) by (apply probe_range; lia).
  destruct (slot_in_range t _ Hinv Hr) as [v Hv]. unfold slot in Hv.
  rewrite Hv. rewrite (Hrep _ v Hr Hv) in E. injection E as E.
  destruct (_ =? hashcursor t); [consts; lia|].
  destruct (Z.eqb_spec v (mysize (base t) - 1)); [consts; lia|].
  congruence.
Qed.

(** The repaired slot array restores the invariant. *)
Lemma ef_invariant (hm2 : list Z) :
  repaired hm2 -> slot_invariant (erased t i hm2).
Proof.
  intros Hrep. pose proof Hrep as [Hlen Hnew].
  destruct ef_hc as (Hpos & Hmax & Hodd & Hc).
  destruct ef_bounds as [Hlast Hn].
  pose proof (inv_size t Hinv) as Hsize.
  split; simpl.
  - lia.
  - apply Forall_fmap. eapply Forall_impl; [apply (inv_cells t Hinv)|].
    intros col Hcol. unfold compose. simpl in Hcol |- *.
    rewrite swapped_length. lia.
  - apply (inv_hashcapacity t Hinv).
  - apply (inv_odd t Hinv).
  - rewrite Hlen. apply (inv_hashmap t Hinv).
  - apply (inv_cursor t Hinv).
  - intros s Hs. destruct (inv_slots t Hinv s Hs) as (v & Hv & Hcases).
    unfold slot in Hv |- *. simpl. rewrite (Hnew s v Hs Hv).
    eexists. split; [reflexivity|].
    destruct (Z.eqb_spec s (hashcursor t)) as [Hsc|Hsc]; [auto|].
    destruct Hcases as [->|[->|(Hvr & k & Hk & Hreach)]].
    + destruct (Z.eqb_spec INDEXNUL (mysize (base t) - 1)); [consts; lia|auto].
    + destruct (Z.eqb_spec INDEXDEL (mysize (base t) - 1)); [consts; lia|auto].
    + right. right.
      assert (Hvi : v <> i).
      { intros ->. apply Hsc. apply ef_only_cursor; assumption. }
      destruct (Z.eqb_spec v (mysize (base t) - 1)) as [Hvl|Hvl].
      * assert (Hil : i <> last) by (subst last; lia).
        split; [subst last; lia|]. exists k. split.
        -- rewrite ef_key by lia. destruct (Z.eqb_spec i last); [contradiction|].
           rewrite Z.eqb_refl. subst last. rewrite <- Hvl. exact Hk.
        -- apply ef_reaches; assumption.
      * split; [lia|]. exists k. split.
        -- rewrite ef_key by lia.
           destruct (Z.eqb_spec v last); [subst last; contradiction|].
           destruct (Z.eqb_spec v i); [contradiction|]. exact Hk.
        -- apply ef_reaches; assumption.
  - intros s s' w Hs Hs' Hw E E'.
    destruct (slot_in_range t s Hinv Hs) as [v Hv].
    destruct (slot_in_range t s' Hinv Hs') as [v' Hv'].
    unfold slot in Hv, Hv', E, E'. simpl in E, E'.
    rewrite (Hnew s v Hs Hv) in E. rewrite (Hnew s' v' Hs' Hv') in E'.
    injection E as E. injection E' as E'.
    destruct (Z.eqb_spec s (hashcursor t)) as [Hsc|Hsc]; [consts; lia|].
    destruct (Z.eqb_spec s' (hashcursor t)) as [Hsc'|Hsc']; [consts; lia|].
    destruct (Z.eqb_spec v (mysize (base t) - 1)) as [Hvl|Hvl];
      destruct (Z.eqb_spec v' (mysize (base t) - 1)) as [Hvl'|Hvl'].
    + apply (inv_unique t Hinv s s' v); auto; try lia. unfold slot. congruence.
    + exfalso. apply Hsc'. apply ef_only_cursor; [exact Hs'|].
      subst hm. congruence.
    + exfalso. apply Hsc. apply ef_only_cursor; [exact Hs|].
      subst hm. congruence.
    + apply (inv_unique t Hinv s s' v); auto; try lia. unfold slot. congruence.
  - intros j Hj.
    destruct (Z.eq_dec j i) as [->|Hji].
    + destruct (live_row_slot t last Hinv ltac:(subst last; lia))
        as (sL & k & HsL & HsLv & _).
      exists sL. split; [exact HsL|]. unfold slot in HsLv |- *. simpl.
      rewrite (Hnew sL last HsL HsLv).
      destruct (Z.eqb_spec sL (hashcursor t)) as [->|].
      * pose proof ef_slot as E. subst hm c. rewrite HsLv in E. injection E as E. lia.
      * subst last. rewrite Z.eqb_refl. reflexivity.
    + destruct (live_row_slot t j Hinv ltac:(lia)) as (sj & k & Hsj & Hsjv & _).
      exists sj. split; [exact Hsj|]. unfold slot in Hsjv |- *. simpl.
      rewrite (Hnew sj j Hsj Hsjv).
      destruct (Z.eqb_spec sj (hashcursor t)) as [->|].
      * pose proof ef_slot as E. subst hm c. rewrite Hsjv in E. injection E as E.
        contradiction.
      * destruct (Z.eqb_spec j (mysize (base t) - 1)); [lia|reflexivity].
Qed.

(** [erase_found] up to its scan. *)
Lemma ef_unfold (fuel : nat) (k : val) :
  key_of t last = Some k ->
  erase_found fuel t
  = hm2 ← repair fuel hc last i hm1 (hash k mod hc); Done (1, erased t i hm2).
Proof.
  intros Hk. destruct ef_hc as (Hpos & Hmax & Hodd & Hc).
  destruct ef_bounds as [Hlast Hn].
  pose proof (inv_hashmap t Hinv) as Hlen.
  unfold erase_found.
  destruct (Z.leb_spec (hashcapacity t) (hashcursor t)); [lia|].
  rewrite (proj2 (rd_Done (hashmap t) (hashcursor t) i))
    by (split; [exact Hc|exact Hslot]).
  cbn [mbind outcome_bind].
  destruct (Z.eqb_spec i INDEXNUL); [consts; lia|].
  destruct (Z.eqb_spec i INDEXDEL); [consts; lia|]. cbn [orb].
  rewrite erase_swap_spec by (try apply (inv_cells t Hinv); lia).
  cbn [mbind outcome_bind].
  rewrite wr_Done by (subst hc c; lia). cbn [mbind outcome_bind].
  assert (Hat : at_ 0 i (base (erased t i [])) = Done k).
  { rewrite ef_at_moved. apply rd_Done. split; [lia|exact Hk]. }
  unfold erased in Hat. simpl in Hat. rewrite Hat. cbn [mbind outcome_bind].
  rewrite modulo_Done by (subst hc; lia). cbn [mbind outcome_bind].
  reflexivity.
Qed.

End EraseFound.


Lemma slot_invariant_set_cursor (t : htable) (c : Z) :
  slot_invariant t -> 0 <= c < 2 ^ 64 -> slot_invariant (set_cursor t c).
Proof.
  intros [H1 H2 H3 H4 H5 H6 H7 H8 H9] Hc. split; try assumption.
Qed.

(** What a [find] loop that returns has found. *)
Lemma find_loop_Done (fuel : nat) (key : val) (t : htable) (h d r c : Z) :
  slot_invariant t -> 0 < hashcapacity t -> 0 <= d ->
  find_loop fuel key t (probe (hashcapacity t) h d) = Done (r, c) ->
  0 <= c < hashcapacity t /\
  (r = SIZE_MAX /\ slot t c = Some INDEXNUL \/
   0 <= r < mysize (base t) /\ slot t c = Some r /\ key_of t r = Some key).
Proof.
  intros Hinv Hpos Hd H. rewrite find_loop_walk in H.
  pose proof (inv_hashcapacity t Hinv) as Hhc.
  apply walk_Done in H as (n & _ & _ & v & Hv & Hbody);
    [|exact Hpos|pows; lia|exact Hd].
  set (s := probe (hashcapacity t) h (d + Z.of_nat n)) in *.
  assert (Hs : 0 <= s < hashcapacity t) by (apply probe_range; exact Hpos).
  unfold find_body in Hbody.
  destruct (Z.eqb_spec v INDEXNUL) as [->|Hnul].
  { injection Hbody as <- <-. split; [exact Hs|]. left. auto. }
  apply bind_Done in Hbody as (hit & Hhit & Hbody).
  destruct hit; [|discriminate]. injection Hbody as <- <-.
  split; [exact Hs|]. right.
  destruct (Z.eqb_spec v INDEXDEL) as [->|Hdel]; [discriminate|].
  simpl in Hhit. apply bind_Done in Hhit as (k & Hk & Hhit).
  injection Hhit as Hhit. apply val_eqb_eq in Hhit as ->.
  apply rd_Done in Hk as [_ Hk].
  destruct (inv_slots t Hinv s Hs) as (v' & Hv' & Hcases).
  unfold slot in Hv'. rewrite Hv in Hv'. injection Hv' as <-.
  destruct Hcases as [?|[?|(Hr & _)]]; [contradiction|contradiction|].
  auto.
Qed.

(** What a [find] that returns leaves behind. *)
Lemma find_Done (fuel : nat) (key : val) (restart : bool) (t t' : htable)
    (r : Z) :
  slot_invariant t ->
  find fuel key restart t = Done (r, t') ->
  slot_invariant t' /\
  (r = SIZE_MAX /\
   (t' = t /\ (mysize (base t) = 0 \/ hashcapacity t <= hashcursor t) \/
    hashcursor t' < hashcapacity t' /\ slot t' (hashcursor t') = Some INDEXNUL)
   \/
   0 <= r < mysize (base t') /\ hashcursor t' < hashcapacity t' /\
   slot t' (hashcursor t') = Some r /\ key_of t' r = Some key).
Proof.
  intros Hinv H. unfold find in H.
  pose proof (inv_hashcapacity t Hinv) as Hhc.
  pose proof (inv_cursor t Hinv) as Hcur.
  assert (Hloop : forall h d c,
            0 < hashcapacity t -> 0 <= d ->
            find_loop fuel key t (probe (hashcapacity t) h d) = Done (r, c) ->
            slot_invariant (set_cursor t c) /\
            (r = SIZE_MAX /\
             (set_cursor t c = t /\
              (mysize (base t) = 0 \/ hashcapacity t <= hashcursor t) \/
              hashcursor (set_cursor t c) < hashcapacity (set_cursor t c) /\
              slot (set_cursor t c) (hashcursor (set_cursor t c))
              = Some INDEXNUL)
             \/
             0 <= r < mysize (base (set_cursor t c)) /\
             hashcursor (set_cursor t c) < hashcapacity (set_cursor t c) /\
             slot (set_cursor t c) (hashcursor (set_cursor t c)) = Some r /\
             key_of (set_cursor t c) r = Some key)).
  { intros h d c Hpos Hd Hl.
    apply find_loop_Done in Hl as (Hc & Hres); try assumption.
    split; [apply slot_invariant_set_cursor; [exact Hinv|pows; lia]|].
    simpl. unfold slot, key_of in *. simpl.
    destruct Hres as [(-> & Hnul)|(Hr & Hslot & Hkey)].
    - left. split; [reflexivity|]. right. split; [lia|exact Hnul].
    - right. repeat split; try lia; assumption. }
  destruct (Z.eqb_spec (mysize (base t)) 0) as [Hz|Hnz].
  { injection H as <- <-. split; [exact Hinv|]. left. auto. }
  destruct restart.
  - apply bind_Done in H as (c0 & Hmod & H).
    apply modulo_Done_inv in Hmod as [Hne ->].
    apply bind_Done in H as ([r' c'] & Hl & H). injection H as <- <-.
    rewrite <- (probe_0 (hashcapacity t) (hash key mod hashcapacity t)) in Hl
      by (apply Z.mod_pos_bound; lia).
    apply Hloop in Hl; [exact Hl|lia|lia].
  - destruct (Z.leb_spec (hashcapacity t) (hashcursor t)) as [Hge|Hlt].
    { injection H as <- <-. split; [exact Hinv|]. left. auto. }
    apply bind_Done in H as (c0 & Hinc & H).
    rewrite <- (probe_0 (hashcapacity t) (hashcursor t)) in Hinc by lia.
    rewrite hash_inc_probe in Hinc by (pows; lia). injection Hinc as <-.
    apply bind_Done in H as ([r' c'] & Hl & H). injection H as <- <-.
    apply Hloop in Hl; [exact Hl|lia|lia].
Qed.

Lemma erase_found_nothing (fuel : nat) (t : htable) :
  slot_invariant t ->
  mysize (base t) = 0 \/ hashcapacity t <= hashcursor t \/
  slot t (hashcursor t) = Some INDEXNUL ->
  erase_found fuel t = Done (0, t).
Proof.
  intros Hinv Hcases. unfold erase_found.
  pose proof (inv_cursor t Hinv) as Hcur.
  destruct (Z.leb_spec (hashcapacity t) (hashcursor t)) as [Hge|Hlt];
    [reflexivity|].
  destruct (inv_slots t Hinv (hashcursor t) ltac:(lia)) as (v & Hv & Hv').
  rewrite (proj2 (rd_Done (hashmap t) (hashcursor t) v))
    by (split; [lia|exact Hv]).
  cbn [mbind outcome_bind].
  destruct (Z.eqb_spec v INDEXNUL); [reflexivity|].
  destruct (Z.eqb_spec v INDEXDEL); [reflexivity|]. exfalso.
  destruct Hv' as [?|[?|(Hr & _)]]; [contradiction|contradiction|].
  destruct Hcases as [Hz|[Hge|Hnul]]; [lia|lia|]. congruence.
Qed.

(** X30.  On a table that satisfies the slot invariant:
    - when the cursor rests on an occupied slot, which holds the row [i],
      and, in case [i] is the last row, some slot is EMPTY, [erase_found()]
      returns 1 (given fuel for one round of the slots), the size drops by
      one, the previously-last row is at [i] and the other rows are where
      they were, the cursor's slot is a TOMBSTONE and the slot invariant
      holds again;
    - a [find] that located a row leaves the cursor on the occupied slot
      holding that row;
    - directly after a [find] that returned not-found, [erase_found()]
      returns 0 and leaves the table as it is. *)
Theorem erase_found_spec :
  (forall (fuel : nat) (t : htable) (i : Z),
     slot_invariant t ->
     hashcursor t < hashcapacity t ->
     slot t (hashcursor t) = Some i -> i <> INDEXNUL -> i <> INDEXDEL ->
     (i = size (base t) - 1 ->
      exists s, 0 <= s < hashcapacity t /\ slot t s = Some INDEXNUL) ->
     (Z.to_nat (hashcapacity t) <= fuel)%nat ->
     exists t',
       erase_found fuel t = Done (1, t') /\
       0 <= i < size (base t) /\
       size (base t') = size (base t) - 1 /\
       (forall K j, 0 <= j < size (base t) - 1 -> j <> i ->
          at_ K j (base t') = at_ K j (base t)) /\
       (i < size (base t) - 1 ->
        forall K, at_ K i (base t') = at_ K (size (base t) - 1) (base t)) /\
       slot t' (hashcursor t) = Some INDEXDEL /\
       hashcursor t' = hashcursor t /\
       hashcapacity t' = hashcapacity t /\
       slot_invariant t') /\
  (forall (fuel : nat) (key : val) (restart : bool) (t0 t : htable) (r : Z),
     slot_invariant t0 ->
     find fuel key restart t0 = Done (r, t) -> r <> SIZE_MAX ->
     slot_invariant t /\ hashcursor t < hashcapacity t /\
     slot t (hashcursor t) = Some r /\ r <> INDEXNUL /\ r <> INDEXDEL /\
     key_of t r = Some key) /\
  (forall (fuel fuel' : nat) (key : val) (restart : bool) (t0 t : htable),
     slot_invariant t0 ->
     find fuel key restart t0 = Done (SIZE_MAX, t) ->
     erase_found fuel' t = Done (0, t)).
Proof.
  split; [|split].
  - unfold size. intros fuel t i Hinv Hcursor Hslot Hnul Hdel Hempty Hfuel.
    assert (Hi : 0 <= i < mysize (base t)).
    { pose proof (inv_cursor t Hinv).
      destruct (inv_slots t Hinv (hashcursor t) ltac:(lia)) as (v & Hv & Hc).
      rewrite Hslot in Hv. injection Hv as <-.
      destruct Hc as [?|[?|(Hr & _)]]; [contradiction|contradiction|exact Hr]. }
    destruct (live_row_slot t (mysize (base t) - 1) Hinv ltac:(lia))
      as (_ & k & _ & _ & Hk & _).
    assert (Hrep : exists hm2,
              repair fuel (hashcapacity t) (mysize (base t) - 1) i
                (<[Z.to_nat (hashcursor t) := INDEXDEL]> (hashmap t))
                (hash k mod hashcapacity t) = Done hm2 /\
              repaired t i hm2).
    { destruct (Z.eq_dec i (mysize (base t) - 1)) as [E|E].
      - apply ef_repair_last; auto.
      - apply ef_repair_moved; auto. lia. }
    destruct Hrep as (hm2 & Hrepair & Hrep).
    exists (erased t i hm2).
    split; [rewrite (ef_unfold t i Hinv Hcursor Hslot Hi fuel k Hk), Hrepair;
            reflexivity|].
    split; [exact Hi|]. split; [reflexivity|].
    split; [intros K j Hj Hji; apply ef_at_other; auto; lia|].
    split; [intros _ K; apply ef_at_moved; auto|].
    split.
    { destruct Hrep as [_ Hnew]. unfold slot in *. simpl.
      pose proof (inv_cursor t Hinv).
      rewrite (Hnew (hashcursor t) i ltac:(lia) Hslot), Z.eqb_refl.
      reflexivity. }
    split; [reflexivity|]. split; [reflexivity|].
    apply ef_invariant; assumption.
  - intros fuel key restart t0 t r Hinv Hfind Hr.
    apply (find_Done _ _ _ _ _ _ Hinv) in Hfind
      as (Hinv' & [(-> & _)|(Hrange & Hc & Hs & Hk)]); [contradiction|].
    pose proof (inv_size t Hinv').
    split; [exact Hinv'|]. split; [exact Hc|]. split; [exact Hs|].
    split; [consts; lia|]. split; [consts; lia|exact Hk].
  - intros fuel fuel' key restart t0 t Hinv Hfind.
    apply (find_Done _ _ _ _ _ _ Hinv) in Hfind
      as (Hinv' & [(_ & Hcases)|(Hrange & _)]).
    + apply erase_found_nothing; [exact Hinv'|].
      destruct Hcases as [(-> & [?|?])|(_ & ?)]; auto.
    + pose proof (inv_size t Hinv'). consts. lia.
Qed.

(** ** Lists *)

Lemma sorted_ext (l1 l2 : list Z) :
  StronglySorted Z.lt l1 -> StronglySorted Z.lt l2 ->
  (forall x, x ∈ l1 <-> x ∈ l2) -> l1 = l2.
Proof.
  intros H1. revert l2. induction H1 as [|a l1 H1 IH Ha]; intros l2 H2 Hext.
  - destruct l2 as [|b l2]; [reflexivity|].
    exfalso. apply (not_elem_of_nil b). apply Hext. left.
  - destruct H2 as [|b l2 H2 Hb].
    { exfalso. apply (not_elem_of_nil a). apply Hext. left. }
    rewrite Forall_forall in Ha, Hb.
    assert (a = b) as <-.
    { pose proof (proj1 (Hext a) ltac:(left)) as Hab.
      pose proof (proj2 (Hext b) ltac:(left)) as Hba.
      apply elem_of_cons in Hab as [?|Hab]; [assumption|].
      apply elem_of_cons in Hba as [?|Hba]; [congruence|].
      apply Hb in Hab. apply Ha in Hba. lia. }
    f_equal. apply IH; [exact H2|]. intros x. split; intros Hx.
    + pose proof (proj1 (Hext x) ltac:(right; exact Hx)) as Hx'.
      apply elem_of_cons in Hx' as [->|Hx']; [|exact Hx'].
      apply Ha in Hx. lia.
    + pose proof (proj2 (Hext x) ltac:(right; exact Hx)) as Hx'.
      apply elem_of_cons in Hx' as [->|Hx']; [|exact Hx'].
      apply Hb in Hx. lia.
Qed.

(** The least distance with a decidable property. *)
Lemma first_such (Q : Z -> Prop) (Qdec : forall d, {Q d} + {~ Q d}) (d0 : Z) :
  0 <= d0 -> Q d0 ->
  exists d, 0 <= d <= d0 /\ Q d /\ forall d', 0 <= d' < d -> ~ Q d'.
Proof.
  intros Hd0 HQ.
  assert (Hn : forall n : nat,
            (exists d, 0 <= d < Z.of_nat n /\ Q d /\
                       forall d', 0 <= d' < d -> ~ Q d') \/
            (forall d, 0 <= d < Z.of_nat n -> ~ Q d)).
  { induction n as [|n [(d & Hd & HQd & Hmin)|Hnone]].
    - right. intros d Hd. lia.
    - left. exists d. split; [lia|auto].
    - destruct (Qdec (Z.of_nat n)) as [Hq|Hq].
      + left. exists (Z.of_nat n). split; [lia|]. split; [exact Hq|].
        intros d' Hd'. apply Hnone. lia.
      + right. intros d Hd. destruct (Z.eq_dec d (Z.of_nat n)) as [->|Hne];
          [exact Hq|]. apply Hnone. lia. }
  destruct (Hn (S (Z.to_nat d0))) as [(d & Hd & HQd & Hmin)|Hnone].
  - exists d. split; [lia|auto].
  - exfalso. apply (Hnone d0); [lia|exact HQ].
Qed.

(** ** [push_back] *)

Lemma each_column_with_Done {X : Type}
    (f : X -> list val -> outcome (list val)) :
  forall (args : list X) (cols cols' : list (list val)),
    each_column_with f args cols = Done cols' ->
    length cols' = length cols /\
    forall (K : nat) (col : list val), cols !! K = Some col ->
      exists col', cols' !! K = Some col' /\
        match args !! K with
        | Some x => f x col = Done col'
        | None => col' = col
        end.
Proof.
  intros args cols. revert args.
  induction cols as [|col cols IH]; intros args cols' H.
  - destruct args; injection H as <-; (split; [reflexivity|]);
      intros K c Hc; rewrite lookup_nil in Hc; discriminate.
  - destruct args as [|x args].
    + injection H as <-. split; [reflexivity|]. intros K c Hc.
      exists c. rewrite lookup_nil. auto.
    + cbn [each_column_with] in H.
      apply bind_Done in H as (col' & Hcol & H).
      apply bind_Done in H as (rest & Hrest & H). injection H as <-.
      destruct (IH _ _ Hrest) as [Hlen Hcols].
      split; [simpl; lia|]. intros [|K] c Hc.
      * injection Hc as <-. exists col'. auto.
      * apply Hcols. exact Hc.
Qed.

(** [push_back] below the capacity writes the row at the index [mysize]. *)
Lemma push_back_spec (alloc : Z -> bool) (row : list val) (s s' : soa)
    (ok : bool) :
  soa_invariant s -> mysize s < mycapacity s ->
  push_back alloc row s = Done (ok, s') ->
  soa_invariant s' /\ mysize s' = mysize s + 1 /\
  mycapacity s' = mycapacity s /\
  (forall (K : nat) (i : Z), 0 <= i -> i <> mysize s ->
     column K s' !! Z.to_nat i = column K s !! Z.to_nat i) /\
  (forall (K : nat) v, row !! K = Some v -> (K < length Ts)%nat ->
     column K s' !! Z.to_nat (mysize s) = Some v).
Proof.
  intros Hinv Hlt. pose proof Hinv as [Hsz H16 Hmax Hn Hl].
  unfold push_back, grow_if_full.
  destruct (Z.eqb_spec (mysize s) (mycapacity s)); [lia|].
  cbn [mbind outcome_bind negb]. intros H.
  apply bind_Done in H as (cols & Hcols & H). injection H as <- <-.
  unfold base_push_back in Hcols.
  apply each_column_with_Done in Hcols as [Hlen Hcols].
  rewrite size_t_small by lia.
  assert (Hcol : forall K col, mydata s !! K = Some col ->
            exists col', cols !! K = Some col' /\
              length col' = length col /\
              (forall i, 0 <= i -> i <> mysize s ->
                 col' !! Z.to_nat i = col !! Z.to_nat i) /\
              (forall v, row !! K = Some v ->
                 col' !! Z.to_nat (mysize s) = Some v)).
  { intros K col HK. destruct (Hcols K col HK) as (col' & HK' & Hrow).
    exists col'. split; [exact HK'|].
    pose proof (Forall_lookup_1 _ _ _ _ Hl HK) as Hcl. cbv beta in Hcl.
    destruct (row !! K) as [v|].
    - apply wr_Done_inv in Hrow as [_ ->]. split; [apply length_insert|].
      split.
      + intros i Hi Hne. apply list_lookup_insert_ne. lia.
      + intros v' [= <-]. apply list_lookup_insert_eq. lia.
    - subst col'. split; [reflexivity|]. split; [auto|discriminate]. }
  split; [|split; [reflexivity|split; [reflexivity|split]]].
  - split; simpl; try lia; try assumption.
    apply Forall_lookup_2. intros K col' HK'.
    destruct (lookup_lt_is_Some_2 (mydata s) K) as [col HK];
      [rewrite <- Hlen; apply lookup_lt_Some in HK'; exact HK'|].
    destruct (Hcol K col HK) as (col'' & HK'' & Hl' & _).
    rewrite HK' in HK''. injection HK'' as <-. rewrite Hl'.
    apply (Forall_lookup_1 _ _ _ _ Hl HK).
  - intros K i Hi Hne. unfold column. simpl.
    destruct (mydata s !! K) as [col|] eqn:HK.
    + destruct (Hcol K col HK) as (col' & -> & _ & Hsame & _). auto.
    + apply lookup_ge_None in HK. rewrite <- Hlen in HK.
      apply lookup_ge_None in HK. rewrite HK. reflexivity.
  - intros K v Hv HK. unfold column. simpl.
    destruct (lookup_lt_is_Some_2 (mydata s) K) as [col Hc]; [lia|].
    destruct (Hcol K col Hc) as (col' & -> & _ & _ & Hnew). auto.
Qed.

(** ** Placing rows into the slot array *)

Lemma placed_empty (keys : list val) (hc : Z) (rest : list Z) :
  0 <= hc -> placed keys hc (replicate (Z.to_nat hc) INDEXNUL ++ rest) 0.
Proof.
  intros Hhc. split.
  - intros i Hi. lia.
  - intros s Hs. exists INDEXNUL. split; [|auto].
    rewrite lookup_app_l by (rewrite length_replicate; lia).
    apply lookup_replicate_2. lia.
  - intros s s' v _ _ Hv. lia.
Qed.

Lemma placed_keys_ext (keys keys' : list val) (hc : Z) (hm : list Z) (m : Z) :
  placed keys hc hm m ->
  (forall i, 0 <= i < m -> keys' !! Z.to_nat i = keys !! Z.to_nat i) ->
  placed keys' hc hm m.
Proof.
  intros [Hrows Hslots Huniq] Hext. split; [|exact Hslots|exact Huniq].
  intros i Hi. destruct (Hrows i Hi) as (k & d & Hk & Hrest).
  exists k, d. rewrite Hext by exact Hi. auto.
Qed.

(** Fewer rows than slots: some slot is empty. *)
Lemma placed_has_empty (keys : list val) (hc : Z) (hm : list Z) (m : Z) :
  placed keys hc hm m -> 0 <= m < hc ->
  exists s, 0 <= s < hc /\ hm !! Z.to_nat s = Some INDEXNUL.
Proof.
  intros [_ Hslots Huniq] Hm.
  destruct (decide (Exists (fun s => hm !! Z.to_nat s = Some INDEXNUL)
                      (seqZ 0 hc))) as [Hex|Hno].
  { apply Exists_exists in Hex as (s & Hs & Hnul).
    apply elem_of_seqZ in Hs. exists s. split; [lia|exact Hnul]. }
  exfalso.
  assert (Hocc : forall s, 0 <= s < hc ->
            exists v, hm !! Z.to_nat s = Some v /\ 0 <= v < m).
  { intros s Hs. destruct (Hslots s Hs) as (v & Hv & [->|Hr]); [|eauto].
    exfalso. apply Hno. apply Exists_exists. exists s.
    split; [apply elem_of_seqZ; lia|exact Hv]. }
  set (V := (fun s => default 0 (hm !! Z.to_nat s)) <$> seqZ 0 hc).
  assert (Hnodup : NoDup V).
  { apply NoDup_fmap_2_strong; [|apply NoDup_seqZ].
    intros s s' Hs Hs' E. apply elem_of_seqZ in Hs, Hs'.
    destruct (Hocc s ltac:(lia)) as (v & Hv & Hvr).
    destruct (Hocc s' ltac:(lia)) as (v' & Hv' & _).
    rewrite Hv, Hv' in E. simpl in E. subst v'.
    apply (Huniq s s' v); auto; lia. }
  assert (Hincl : forall x, x ∈ V -> x ∈ seqZ 0 m).
  { intros x Hx. apply list_elem_of_fmap in Hx as (s & -> & Hs).
    apply elem_of_seqZ in Hs. destruct (Hocc s ltac:(lia)) as (v & -> & Hvr).
    simpl. apply elem_of_seqZ. lia. }
  pose proof (submseteq_length _ _ (NoDup_submseteq _ _ Hnodup Hincl)) as Hlen.
  subst V. rewrite length_fmap, !length_seqZ in Hlen. lia.
Qed.

(** The row [m] at the first empty slot of its probe sequence. *)
Lemma place_at (keys : list val) (hc : Z) (hm : list Z) (m : Z) (k : val)
    (d : Z) :
  placed keys hc hm m -> 0 <= m <= max_size ->
  keys !! Z.to_nat m = Some k -> 0 <= d < hc ->
  hm !! Z.to_nat (probe hc (hash k mod hc) d) = Some INDEXNUL ->
  (forall d', 0 <= d' < d ->
     hm !! Z.to_nat (probe hc (hash k mod hc) d') <> Some INDEXNUL) ->
  placed keys hc (<[Z.to_nat (probe hc (hash k mod hc) d) := m]> hm) (m + 1).
Proof.
  intros [Hrows Hslots Huniq] Hm Hk Hd Hnul Hbefore.
  assert (Hpos : 0 < hc) by lia.
  set (s0 := probe hc (hash k mod hc) d) in *.
  assert (Hs0 : 0 <= s0 < hc) by (apply probe_range; exact Hpos).
  assert (Hlen : (Z.to_nat s0 < length hm)%nat)
    by (apply lookup_lt_Some in Hnul; exact Hnul).
  assert (Hother : forall s v, 0 <= s -> hm !! Z.to_nat s = Some v ->
            v <> INDEXNUL -> <[Z.to_nat s0 := m]> hm !! Z.to_nat s = Some v).
  { intros s v Hs Hv Hne. rewrite list_lookup_insert_ne; [exact Hv|].
    intros E. assert (s = s0) by lia. subst s. congruence. }
  assert (Hm' : m <> INDEXNUL) by (consts; lia).
  split.
  - intros i Hi. destruct (Z.eq_dec i m) as [->|Hne].
    + exists k, d. split; [exact Hk|]. split; [exact Hd|]. split.
      * apply list_lookup_insert_eq. exact Hlen.
      * intros d' Hd'.
        pose proof (probe_range hc (hash k mod hc) d' Hpos) as Hr.
        destruct (Hslots _ Hr) as (v & Hv & [->|Hvr]).
        -- exfalso. apply (Hbefore d' Hd'). exact Hv.
        -- exists v. split; [exact Hvr|]. apply Hother; [lia|exact Hv|].
           consts. lia.
    + destruct (Hrows i ltac:(lia)) as (ki & di & Hki & Hdi & Hsi & Hpre).
      exists ki, di. split; [exact Hki|]. split; [exact Hdi|]. split.
      * apply Hother; [|exact Hsi|consts; lia].
        apply probe_range. exact Hpos.
      * intros d' Hd'. destruct (Hpre d' Hd') as (j & Hj & Hjs).
        exists j. split; [exact Hj|].
        apply Hother; [|exact Hjs|consts; lia].
        apply probe_range. exact Hpos.
  - intros s Hs. destruct (Z.eq_dec s s0) as [->|Hne].
    + exists m. split; [apply list_lookup_insert_eq; exact Hlen|]. right. lia.
    + rewrite list_lookup_insert_ne by lia.
      destruct (Hslots s Hs) as (v & Hv & [->|Hvr]); [eauto|].
      exists v. split; [exact Hv|]. right. lia.
  - intros s s' v Hs Hs' Hv E E'.
    assert (Hcase : forall x, 0 <= x < hc ->
              <[Z.to_nat s0 := m]> hm !! Z.to_nat x = Some v ->
              x = s0 /\ v = m \/ x <> s0 /\ hm !! Z.to_nat x = Some v /\ v < m).
    { intros x Hx Ex. destruct (Z.eq_dec x s0) as [->|Hne].
      - rewrite list_lookup_insert_eq in Ex by exact Hlen. left.
        split; [reflexivity|congruence].
      - rewrite list_lookup_insert_ne in Ex by lia. right.
        split; [exact Hne|]. split; [exact Ex|].
        destruct (Hslots x Hx) as (v' & Hv' & [->|Hvr]).
        + rewrite Ex in Hv'. injection Hv' as ->. consts. lia.
        + rewrite Ex in Hv'. injection Hv' as ->. lia. }
    destruct (Hcase s Hs E) as [ [E1 E2] | (Hne & Eo & Hlt) ];
      destruct (Hcase s' Hs' E') as [ [E3 E4] | (Hne2 & Eo2 & Hlt2) ];
      subst;
      try reflexivity; try lia.
    apply (Huniq s s' v); auto. lia.
Qed.

(** A loop that stops at, and only at, an empty or deleted slot, run on a
    placed slot array with room, stops at the first empty slot of the probe
    sequence. *)
Lemma first_empty_slot {R : Type} (keys : list val) (hc : Z) (hm : list Z)
    (m : Z) (body : Z -> Z -> outcome (option R)) (h : Z) (fuel : nat)
    (r : R) :
  placed keys hc hm m -> 0 <= m <= max_size -> m < hc -> hc < 2 ^ 63 ->
  Z.odd hc = true -> 0 <= h < hc ->
  (forall s v, body s v = Done None -> v <> INDEXNUL) ->
  (forall s v x, body s v = Done (Some x) -> v = INDEXNUL \/ v = INDEXDEL) ->
  walk fuel hc hm body h = Done r ->
  exists d, 0 <= d < hc /\
    hm !! Z.to_nat (probe hc h d) = Some INDEXNUL /\
    body (probe hc h d) INDEXNUL = Done (Some r) /\
    forall d', 0 <= d' < d -> hm !! Z.to_nat (probe hc h d') <> Some INDEXNUL.
Proof.
  intros Hpl Hm Hroom Hmax Hodd Hh Hpass Hstop Hwalk.
  assert (Hpos : 0 < hc) by lia.
  rewrite <- (probe_0 hc h Hh) in Hwalk.
  apply walk_Done in Hwalk as (n & _ & Hpasses & v & Hv & Hbody);
    [|exact Hpos|pows; lia|lia].
  rewrite Z.add_0_l in Hv, Hbody.
  assert (Hbefore : forall d', 0 <= d' < Z.of_nat n ->
            hm !! Z.to_nat (probe hc h d') <> Some INDEXNUL).
  { intros d' Hd' E. destruct (Hpasses d' ltac:(lia)) as (v' & Hv' & Hb').
    rewrite E in Hv'. injection Hv' as <-. apply (Hpass _ _ Hb'). reflexivity. }
  assert (Hvnul : v = INDEXNUL).
  { destruct (Hstop _ _ _ Hbody) as [ ? | -> ]; [assumption|].
    destruct (placed_slots _ _ _ _ Hpl (probe hc h (Z.of_nat n))
                (probe_range hc h _ Hpos)) as (v' & Hv' & Hc).
    rewrite Hv in Hv'. injection Hv' as <-. consts. lia. }
  subst v.
  assert (Hn : Z.of_nat n < hc).
  { destruct (placed_has_empty _ _ _ _ Hpl ltac:(lia)) as (s0 & Hs0 & Hnul).
    destruct (probe_surj hc h s0 Hpos Hodd Hs0) as (d0 & Hd0 & Hp0).
    destruct (Z.lt_ge_cases d0 (Z.of_nat n)) as [Hlt|Hge]; [|lia].
    exfalso. apply (Hbefore d0 ltac:(lia)). rewrite Hp0. exact Hnul. }
  exists (Z.of_nat n). split; [lia|]. auto.
Qed.

Lemma rehash_place_placed (keys : list val) (hc : Z) (hm hm' : list Z)
    (m : Z) (k : val) (fuel : nat) :
  placed keys hc hm m -> 0 <= m <= max_size -> m < hc -> hc < 2 ^ 63 ->
  Z.odd hc = true -> keys !! Z.to_nat m = Some k ->
  rehash_place fuel hc m hm (hash k mod hc) = Done hm' ->
  placed keys hc hm' (m + 1) /\ length hm' = length hm.
Proof.
  intros Hpl Hm Hroom Hmax Hodd Hk H. rewrite rehash_place_walk in H.
  apply (first_empty_slot keys hc hm m) in H
    as (d & Hd & Hnul & Hbody & Hbefore); try assumption.
  - unfold place_body in Hbody. simpl in Hbody.
    apply bind_Done in Hbody as (hm2 & Hwr & Hbody). injection Hbody as ->.
    apply wr_Done_inv in Hwr as [_ ->].
    rewrite uint32_t_small by (consts; lia).
    split; [apply place_at; assumption|apply length_insert].
  - apply Z.mod_pos_bound. lia.
  - intros s v. unfold place_body.
    destruct (Z.eqb_spec v INDEXNUL); [|intros _; assumption].
    simpl. destruct (wr hm s (uint32_t m)); discriminate.
  - intros s v x. unfold place_body.
    destruct (Z.eqb_spec v INDEXNUL); [auto|].
    destruct (Z.eqb_spec v INDEXDEL); [auto|]. discriminate.
Qed.

Lemma rehash_rows_placed (keys : list val) (hc : Z) (fuel : nat) :
  hc < 2 ^ 63 -> Z.odd hc = true ->
  forall (todo : nat) (i : Z) (hm hm' : list Z),
    placed keys hc hm i -> 0 <= i -> i + Z.of_nat todo <= max_size ->
    i + Z.of_nat todo < hc ->
    rehash_rows fuel hc keys todo i hm = Done hm' ->
    placed keys hc hm' (i + Z.of_nat todo) /\ length hm' = length hm.
Proof.
  intros Hmax Hodd. induction todo as [|todo IH]; intros i hm hm' Hpl Hi Hle Hlt H.
  - injection H as <-. rewrite Z.add_0_r. auto.
  - cbn [rehash_rows] in H.
    apply bind_Done in H as (k & Hk & H). apply rd_Done in Hk as [_ Hk].
    apply bind_Done in H as (h & Hh & H).
    apply modulo_Done_inv in Hh as [_ ->].
    apply bind_Done in H as (hm1 & Hplace & H).
    apply rehash_place_placed with (keys := keys) in Hplace as [Hpl1 Hlen1];
      try assumption; try lia.
    apply IH in H as [Hpl' Hlen']; try assumption; try lia.
    split; [|congruence].
    replace (i + Z.of_nat (S todo)) with (i + 1 + Z.of_nat todo) by lia.
    exact Hpl'.
Qed.

(** ** [insert] keeps the index placed *)

Lemma htable_new_inserted : inserted htable_new [].
Proof.
  split; simpl; try lia; try reflexivity.
  - apply soa_new_invariant.
  - consts. lia.
  - consts. lia.
  - split; intros; lia.
  - intros i k items Hi. rewrite lookup_nil in Hi. discriminate.
Qed.

Lemma memset_nul_Done (hc : Z) (hm hm' : list Z) :
  memset_nul hc hm = Done hm' ->
  hc <= Z.of_nat (length hm) /\
  hm' = replicate (Z.to_nat hc) INDEXNUL ++ drop (Z.to_nat hc) hm.
Proof.
  unfold memset_nul. destruct (Z.leb_spec hc (Z.of_nat (length hm)));
    [|discriminate]. intros [= <-]. auto.
Qed.

(** The growth of a full table that has only been inserted into. *)
Lemma reserve_inserted (alloc : Z -> bool) (fuel : nat)
    (t t' : htable) (rows : list (val * list val)) :
  inserted t rows -> mysize (base t) = mycapacity (base t) ->
  htable_reserve alloc fuel (size_t (mycapacity (base t) * 2)) t
  = Done (true, t') ->
  inserted t' rows /\ mycapacity (base t) < mycapacity (base t').
Proof.
  intros Hins Hfull H.
  pose proof Hins as [Hst Hsize Hmax Hcap Hhm Hcur Hpl Hrows].
  pose proof (soa_size_le_capacity _ Hst) as Hsz.
  pose proof (soa_capacity_16 _ Hst) as H16.
  pose proof (soa_capacity_range _ Hst) as [_ Hblock].
  pose proof size_per_entry_pos as Hspe. pose proof row_size as Hrow.
  assert (Hc : 0 <= mycapacity (base t) < 2 ^ 61).
  { destruct Hcap as [[_ ->]|[_ ?]]; pows; lia. }
  rewrite (size_t_small (mycapacity (base t) * 2)) in H by (pows; lia).
  unfold htable_reserve in H.
  rewrite multiple_of_16_fixed in H
    by (rewrite <- Z.mul_mod_idemp_l, H16 by lia; reflexivity).
  set (N := if mycapacity (base t) * 2 =? 0 then 16
            else mycapacity (base t) * 2) in *.
  assert (HN : 16 <= N < 2 ^ 64 /\ N mod 16 = 0 /\ mycapacity (base t) < N /\
               (mycapacity (base t) = 0 /\ N = 16 \/
                0 < mycapacity (base t) /\ N = mycapacity (base t) * 2)).
  { subst N. destruct (Z.eqb_spec (mycapacity (base t) * 2) 0) as [E|E].
    - pows. repeat split; lia.
    - pose proof (Z.div_mod (mycapacity (base t)) 16 ltac:(lia)).
      split; [pows; lia|]. split.
      + rewrite <- Z.mul_mod_idemp_l, H16 by lia. reflexivity.
      + split; [lia|]. right. lia. }
  destruct HN as (HN & HN16 & Hgrow & Hcase).
  destruct (Z.leb_spec N (mycapacity (base t))) as [Hle|_]; [lia|].
  set (H0 := size_t (size_t (N + N) + 4)) in *.
  set (bytes := size_t (size_t (size_per_entry * N) + size_t (H0 * 4))) in *.
  destruct (aligned_malloc alloc bytes) eqn:Ea; simpl in H; [|discriminate].
  apply bind_Done in H as (cols & Hdivy & H).
  apply bind_Done in H as (t1 & Hre & H). injection H as <-.
  unfold rehash in Hre. cbn [base hashmap hashcapacity mysize] in Hre.
  apply bind_Done in Hre as (hm0 & Hset & Hre).
  apply memset_nul_Done in Hset as [Hlen0 ->].
  apply bind_Done in Hre as (hm' & Hrr & Hre). injection Hre as <-.
  rewrite length_replicate, Z2Nat.id in Hlen0
    by (apply cells_inside_le, Z.div_pos; [apply size_t_range|lia]).
  assert (Hreach : exists x, 0 <= x <= N /\
                     size_per_entry * (N - x) < 2 ^ 64 /\
                     size_t (H0 * 4) + size_per_entry * x <= bytes).
  { destruct Hcase as [[Hc0 HN0]|[Hcpos HN2]].
    - exists N. split; [lia|]. split; [rewrite Z.sub_diag; pows; lia|].
      apply table_block_direct; [lia|].
      rewrite HN0. unfold PTRDIFF_MAX in Hrow. pows. lia.
    - exists (mysize (base t)). split; [lia|]. split.
      + unfold PTRDIFF_MAX in Hblock. pows. nia.
      + apply (reallocation_reach bytes (size_t (H0 * 4)) N (base t) cols
                 Hst ltac:(lia) ltac:(lia) Hdivy). }
  destruct Hreach as (x & Hx & Hshort & Hreach).
  destruct (table_block_spec N alloc x ltac:(lia) HN16 Hx Hshort Ea Hreach Hlen0)
    as (HN61 & EB & EH & Ebytes & Hmaxb & Eslots).
  fold H0 in EB, EH, Ebytes, Hmaxb, Eslots.
  fold bytes in Ebytes, Hmaxb, Eslots.
  rewrite EH, Eslots in Hrr. rewrite EH.
  apply reallocation_spec in Hdivy as [Hst' Hagree];
    [|exact Hst|lia|exact HN16|lia|apply size_t_range|lia|exact Hmaxb].
  apply rehash_rows_placed in Hrr as [Hpl' Hlen'];
    [| pows; lia
     | replace (2 * N + 3) with (1 + 2 * (N + 1)) by lia;
       rewrite Z.odd_add_mul_2; reflexivity
     | apply placed_empty; lia | lia | lia | lia].
  rewrite Z.add_0_l, Z2Nat.id in Hpl' by lia.
  split; [|simpl; lia].
  split; simpl; try assumption.
  - right. split; [reflexivity|pows; lia].
  - rewrite Hlen', length_app, length_replicate, length_drop, length_replicate.
    lia.
  - consts. lia.
  - intros i k items Hi. destruct (Hrows i k items Hi) as [Hk Hitems].
    assert (Hir : 0 <= Z.of_nat i < mysize (base t)).
    { apply lookup_lt_Some in Hi. lia. }
    split; [apply Hagree; assumption|].
    intros K v HK HKn. apply Hagree; [exact Hir|]. apply Hitems; assumption.
Qed.

Lemma at_column (K : nat) (i : Z) (s : soa) (v : val) :
  at_ K i s = Done v <-> 0 <= i /\ column K s !! Z.to_nat i = Some v.
Proof. unfold at_. apply rd_Done. Qed.

Lemma key_column_exists : (0 < length Ts)%nat.
Proof.
  pose proof has_key_column as H. destruct Ts; [congruence|simpl; lia].
Qed.

Lemma insert_body_pass (alloc : Z -> bool) (row : list val) (t : htable)
    (s v : Z) :
  insert_body alloc row t s v = Done None -> v <> INDEXNUL.
Proof.
  unfold insert_body. intros Hb ->. rewrite Z.eqb_refl in Hb. simpl in Hb.
  destruct (push_back alloc row (base t)) as [[? ?]| | |]; simpl in Hb;
    try discriminate.
  destruct (wr _ _ _); discriminate.
Qed.

Lemma insert_body_stop (alloc : Z -> bool) (row : list val) (t : htable)
    (s v : Z) (x : htable) :
  insert_body alloc row t s v = Done (Some x) ->
  v = INDEXNUL \/ v = INDEXDEL.
Proof.
  unfold insert_body. intros Hb.
  destruct (Z.eqb_spec v INDEXNUL); [auto|].
  destruct (Z.eqb_spec v INDEXDEL); [auto|]. discriminate.
Qed.

Lemma insert_inserted (alloc : Z -> bool) (fuel : nat) (k : val)
    (items : list val) (t t' : htable) (rows : list (val * list val)) :
  inserted t rows ->
  htable_insert alloc fuel k items t = Done (true, t') ->
  inserted t' (rows ++ [(k, items)]).
Proof.
  intros Hins H. unfold htable_insert in H.
  destruct (Z.eqb_spec (mysize (base t)) max_size) as [|Hnmax]; [discriminate|].
  apply bind_Done in H as ([ok t1] & Hgrow & H).
  destruct ok; simpl in H; [|discriminate].
  assert (Hins1 : inserted t1 rows /\ mysize (base t1) < mycapacity (base t1)
                  /\ mysize (base t1) = mysize (base t)).
  { pose proof (ins_store _ _ Hins) as Hst.
    pose proof (soa_size_le_capacity _ Hst) as Hsz.
    destruct (Z.eqb_spec (mysize (base t)) (mycapacity (base t))) as [E|E].
    - assert (Hc : 0 <= mycapacity (base t) < 2 ^ 61).
      { destruct (ins_capacity _ _ Hins) as [[_ ->]|[_ ?]]; pows; lia. }
      pose proof (soa_capacity_16 _ Hst) as H16.
      apply reserve_inserted with (rows := rows) in Hgrow as [Hins1 Hlt];
        [split; [exact Hins1|]|exact Hins|exact E].
      rewrite (ins_size _ _ Hins1), <- (ins_size _ _ Hins). lia.
    - injection Hgrow as <-. split; [exact Hins|lia]. }
  clear Hgrow Hins. destruct Hins1 as (Hins & Hlt & Hsame).
  pose proof Hins as [Hst Hsize Hmax Hcap Hhm Hcur Hpl Hrows].
  pose proof (soa_size_le_capacity _ Hst) as Hsz.
  assert (Hm : mysize (base t1) < max_size) by lia.
  destruct Hcap as [[_ Hc0]|[Hhc Hc]]; [lia|].
  apply bind_Done in H as (h & Hh & H). apply modulo_Done_inv in Hh as [_ ->].
  apply bind_Done in H as (t2 & Hplace & H). injection H as <-.
  rewrite insert_place_walk in Hplace.
  assert (Hodd : Z.odd (hashcapacity t1) = true).
  { rewrite Hhc.
    replace (2 * mycapacity (base t1) + 3)
      with (1 + 2 * (mycapacity (base t1) + 1)) by lia.
    rewrite Z.odd_add_mul_2. reflexivity. }
  apply first_empty_slot
    with (keys := column 0%nat (base t1)) (m := mysize (base t1))
    in Hplace as (d & Hd & Hnul & Hbody & Hbefore);
    [|exact Hpl|lia|lia|pows; lia|exact Hodd|apply Z.mod_pos_bound; lia
     |apply insert_body_pass|apply insert_body_stop].
  unfold insert_body in Hbody. rewrite Z.eqb_refl in Hbody. simpl in Hbody.
  apply bind_Done in Hbody as ([ok' b'] & Hpush & Hbody).
  apply bind_Done in Hbody as (hm' & Hwr & Hbody). injection Hbody as <-.
  apply wr_Done_inv in Hwr as [Hs ->].
  rewrite uint32_t_small in * by (consts; lia).
  apply push_back_spec in Hpush as (Hst' & Hsize' & Hcap' & Hold & Hnew);
    [|exact Hst|exact Hlt].
  assert (Hkey : column 0%nat b' !! Z.to_nat (mysize (base t1)) = Some k).
  { apply (Hnew 0%nat k); [reflexivity|].
    apply key_column_exists. }
  split; simpl.
  - exact Hst'.
  - rewrite Hsize', Hsize, length_app. simpl. lia.
  - lia.
  - right. rewrite Hcap'. split; [exact Hhc|exact Hc].
  - rewrite length_insert. exact Hhm.
  - exact Hcur.
  - rewrite Hsize'. apply place_at; try assumption; try lia.
    apply placed_keys_ext with (keys := column 0%nat (base t1));
      [exact Hpl|].
    intros i Hi. apply Hold; lia.
  - intros i k0 items0 Hi.
    destruct (decide (i < length rows)%nat) as [Hlt'|Hge].
    + rewrite lookup_app_l in Hi by exact Hlt'.
      destruct (Hrows i k0 items0 Hi) as [Hk Hitems].
      assert (Hne : Z.of_nat i <> mysize (base t1)) by lia.
      split.
      * apply at_column. apply at_column in Hk as [? Hk].
        split; [lia|]. rewrite Hold by lia. exact Hk.
      * intros K v HK HKn. specialize (Hitems K v HK HKn).
        apply at_column. apply at_column in Hitems as [? Hitems].
        split; [lia|]. rewrite Hold by lia. exact Hitems.
    + assert (Hi' : i = length rows).
      { apply lookup_lt_Some in Hi. rewrite length_app in Hi. simpl in Hi.
        lia. }
      subst i. rewrite list_lookup_middle in Hi by reflexivity.
      injection Hi as <- <-.
      rewrite <- Hsize. split.
      * apply at_column. split; [lia|exact Hkey].
      * intros K v HK HKn. apply at_column. split; [lia|].
        apply (Hnew (S K) v); [exact HK|exact HKn].
Qed.

Lemma insert_all_inserted (alloc : Z -> bool) (fuel : nat)
    (rows : list (val * list val)) :
  forall (t t' : htable) (rows0 : list (val * list val)),
    inserted t rows0 ->
    insert_all alloc fuel rows t = Done (true, t') ->
    inserted t' (rows0 ++ rows).
Proof.
  induction rows as [|[k items] rows IH]; intros t t' rows0 Hins H.
  - injection H as <-. rewrite app_nil_r. exact Hins.
  - cbn [insert_all] in H.
    apply bind_Done in H as ([ok t1] & Hone & H).
    destruct ok; simpl in H; [|discriminate].
    apply insert_inserted with (rows := rows0) in Hone; [|exact Hins].
    apply IH with (rows0 := rows0 ++ [(k, items)]) in H; [|exact Hone].
    rewrite <- app_assoc in H. exact H.
Qed.

(** ** [find] enumerates the rows of a key *)

Lemma find_loop_set_cursor (fuel : nat) (key : val) (t : htable) (c x : Z) :
  find_loop fuel key (set_cursor t c) x = find_loop fuel key t x.
Proof. rewrite !find_loop_walk. reflexivity. Qed.

Lemma path_nil (hc : Z) (hm : list Z) (h d : Z) : path hc hm h d 0 = [].
Proof. reflexivity. Qed.

Lemma path_cons (hc : Z) (hm : list Z) (h d : Z) (n : nat) :
  path hc hm h d (Z.of_nat (S n))
  = default 0 (hm !! Z.to_nat (probe hc h d))
    :: path hc hm h (d + 1) (Z.of_nat n).
Proof.
  unfold path. rewrite seqZ_cons by lia. cbn [fmap list_fmap].
  replace (Z.succ d) with (d + 1) by lia.
  replace (Z.pred (Z.of_nat (S n))) with (Z.of_nat n) by lia. reflexivity.
Qed.

Lemma path_elem (hc : Z) (hm : list Z) (h d n x : Z) :
  x ∈ path hc hm h d n <->
  exists d', d <= d' < d + n /\
    x = default 0 (hm !! Z.to_nat (probe hc h d')).
Proof.
  unfold path. rewrite list_elem_of_fmap. split.
  - intros (d' & -> & Hd'). apply elem_of_seqZ in Hd'. eauto.
  - intros (d' & Hd' & ->). exists d'. split; [reflexivity|].
    apply elem_of_seqZ. exact Hd'.
Qed.

Lemma matches_elem (key : val) (keys : list val) (js : list Z) (x : Z) :
  x ∈ matches key keys js <-> x ∈ js /\ is_match key keys x = true.
Proof.
  induction js as [|j js IH]; cbn [matches].
  - split; [intros H|intros [H _]]; apply not_elem_of_nil in H; contradiction.
  - destruct (is_match key keys j) eqn:E.
    + rewrite !elem_of_cons, IH. split.
      * intros [ -> | [? ?] ]; auto.
      * intros [ [ -> | ? ] ? ]; auto.
    + rewrite elem_of_cons, IH. split.
      * intros [? ?]; auto.
      * intros [ [ -> | ? ] ? ]; [congruence|auto].
Qed.

Lemma indices_of_elem (key : val) (rows : list (val * list val)) :
  forall (i x : Z),
    x ∈ indices_of key rows i <->
    exists (n : nat) k items,
      rows !! n = Some (k, items) /\ val_eqb k key = true /\
      x = i + Z.of_nat n.
Proof.
  induction rows as [|[k items] rows IH]; intros i x; cbn [indices_of].
  - split; [intros H; apply not_elem_of_nil in H; contradiction|].
    intros (n & k & items & H & _). rewrite lookup_nil in H. discriminate.
  - assert (Htail : x ∈ indices_of key rows (i + 1) <->
              exists (n : nat) k0 items0,
                (( k, items) :: rows) !! S n = Some (k0, items0) /\
                val_eqb k0 key = true /\ x = i + Z.of_nat (S n)).
    { rewrite IH. split; intros (n & k0 & items0 & H1 & H2 & H3);
        exists n, k0, items0; (split; [exact H1|split; [exact H2|lia]]). }
    destruct (val_eqb k key) eqn:E.
    + rewrite elem_of_cons, Htail. split.
      * intros [ -> | (n & k0 & items0 & H) ].
        -- exists 0%nat, k, items. split; [reflexivity|]. split; [exact E|lia].
        -- exists (S n), k0, items0. exact H.
      * intros ([|n] & k0 & items0 & H1 & H2 & H3).
        -- left. lia.
        -- right. exists n, k0, items0. auto.
    + rewrite Htail. split.
      * intros (n & k0 & items0 & H). exists (S n), k0, items0. exact H.
      * intros ([|n] & k0 & items0 & H1 & H2 & H3).
        -- injection H1 as <- <-. congruence.
        -- exists n, k0, items0. auto.
Qed.

Lemma indices_of_sorted (key : val) (rows : list (val * list val)) :
  forall i : Z, StronglySorted Z.lt (indices_of key rows i).
Proof.
  induction rows as [|[k items] rows IH]; intros i; cbn [indices_of].
  - constructor.
  - destruct (val_eqb k key); [|apply IH].
    constructor; [apply IH|]. apply Forall_forall. intros x Hx.
    apply indices_of_elem in Hx as (n & _ & _ & _ & _ & ->). lia.
Qed.

Section FindAll.
Variables (t : htable) (rows : list (val * list val)) (key : val).
Hypothesis Hins : inserted t rows.
Hypothesis Hsome : 0 < mysize (base t).

Local Abbreviation keys := (column 0%nat (base t)).
Local Abbreviation hc := (hashcapacity t).
Local Abbreviation hm := (hashmap t).
Local Abbreviation h := (hash key mod hashcapacity t).

Lemma fa_bounds :
  0 < hc /\ hc < 2 ^ 63 /\ Z.odd hc = true /\
  mysize (base t) < hc /\ mysize (base t) <= max_size.
Proof.
  pose proof (soa_size_le_capacity _ (ins_store _ _ Hins)) as Hsz.
  pose proof (ins_max _ _ Hins) as Hmax.
  destruct (ins_capacity _ _ Hins) as [[_ Hc0]|[Hhc Hc]]; [lia|].
  rewrite Hhc. split; [lia|]. split; [pows; lia|]. split; [|lia].
  replace (2 * mycapacity (base t) + 3)
    with (1 + 2 * (mycapacity (base t) + 1)) by lia.
  rewrite Z.odd_add_mul_2. reflexivity.
Qed.

Lemma fa_first_empty :
  exists D, 0 <= D < hc /\
    hm !! Z.to_nat (probe hc h D) = Some INDEXNUL /\
    forall d, 0 <= d < D -> hm !! Z.to_nat (probe hc h d) <> Some INDEXNUL.
Proof.
  destruct fa_bounds as (Hpos & Hhmax & Hodd & Hroom & Hmax).
  destruct (placed_has_empty _ _ _ _ (ins_placed _ _ Hins)) as (s & Hs & Hnul);
    [lia|].
  destruct (probe_surj hc h s Hpos Hodd Hs) as (d0 & Hd0 & Hp).
  destruct (first_such
              (fun d => hm !! Z.to_nat (probe hc h d) = Some INDEXNUL)
              (fun d => decide _) d0) as (D & HD & HQ & Hfirst);
    [lia|rewrite Hp; exact Hnul|].
  exists D. split; [lia|]. split; [exact HQ|exact Hfirst].
Qed.

Lemma fa_row (j : Z) :
  0 <= j < mysize (base t) ->
  exists k items, rows !! Z.to_nat j = Some (k, items) /\
    keys !! Z.to_nat j = Some k /\
    at_ 0%nat j (base t) = Done k /\
    is_match key keys j = val_eqb k key.
Proof.
  intros Hj. rewrite (ins_size _ _ Hins) in Hj.
  destruct (lookup_lt_is_Some_2 rows (Z.to_nat j)) as [[k items] Hrow]; [lia|].
  exists k, items. split; [exact Hrow|].
  destruct (ins_rows _ _ Hins _ _ _ Hrow) as [Hk _].
  rewrite Z2Nat.id in Hk by lia.
  pose proof Hk as Hk'. apply at_column in Hk' as [_ Hk'].
  split; [exact Hk'|]. split; [exact Hk|].
  unfold is_match. rewrite Hk'. reflexivity.
Qed.

Lemma fa_distance (j : Z) :
  0 <= j < mysize (base t) -> is_match key keys j = true ->
  exists d, 0 <= d < hc /\
    hm !! Z.to_nat (probe hc h d) = Some j /\
    forall d', 0 <= d' < d ->
      exists j', 0 <= j' < j /\ hm !! Z.to_nat (probe hc h d') = Some j'.
Proof.
  intros Hj Hmatch.
  destruct (placed_rows _ _ _ _ (ins_placed _ _ Hins) j Hj)
    as (k & d & Hk & Hd & Hslot & Hbefore).
  unfold is_match in Hmatch. rewrite Hk in Hmatch.
  apply val_eqb_eq in Hmatch. subst k.
  exists d. auto.
Qed.

Section Path.
Variable D : Z.
Hypothesis HD : 0 <= D < hc.
Hypothesis Hnul : hm !! Z.to_nat (probe hc h D) = Some INDEXNUL.
Hypothesis Hfirst :
  forall d, 0 <= d < D -> hm !! Z.to_nat (probe hc h d) <> Some INDEXNUL.

Lemma fa_slot (d : Z) :
  0 <= d < D ->
  exists j, hm !! Z.to_nat (probe hc h d) = Some j /\
    0 <= j < mysize (base t).
Proof.
  intros Hd. destruct fa_bounds as (Hpos & _).
  destruct (placed_slots _ _ _ _ (ins_placed _ _ Hins) (probe hc h d))
    as (v & Hv & [ -> | Hrange ]); [apply probe_range; exact Hpos| |eauto].
  destruct (Hfirst d Hd Hv).
Qed.

Lemma fa_step_nul (f : nat) :
  find_loop (S f) key t (probe hc h D) = Done (SIZE_MAX, probe hc h D).
Proof.
  destruct fa_bounds as (Hpos & _).
  cbn [find_loop].
  assert (E : rd hm (probe hc h D) = Done INDEXNUL).
  { apply rd_Done. split; [apply probe_range; exact Hpos|exact Hnul]. }
  rewrite E. cbn [mbind outcome_bind]. rewrite Z.eqb_refl. reflexivity.
Qed.

Lemma fa_step_row (f : nat) (d j : Z) :
  0 <= d -> hm !! Z.to_nat (probe hc h d) = Some j ->
  0 <= j < mysize (base t) ->
  find_loop (S f) key t (probe hc h d)
  = if is_match key keys j then Done (j, probe hc h d)
    else find_loop f key t (probe hc h (d + 1)).
Proof.
  intros Hd Hslot Hj. destruct fa_bounds as (Hpos & Hhmax & _ & _ & Hmax).
  cbn [find_loop].
  assert (E : rd hm (probe hc h d) = Done j).
  { apply rd_Done. split; [apply probe_range; exact Hpos|exact Hslot]. }
  rewrite E. cbn [mbind outcome_bind].
  destruct (Z.eqb_spec j INDEXNUL) as [E1|_]; [revert E1 Hmax; consts; lia|].
  destruct (Z.eqb_spec j INDEXDEL) as [E1|_]; [revert E1 Hmax; consts; lia|].
  cbn [negb].
  destruct (fa_row j Hj) as (k & items & _ & _ & Hat & Hmatch).
  rewrite Hat, Hmatch. cbn [mbind outcome_bind].
  destruct (val_eqb k key); [reflexivity|].
  rewrite hash_inc_probe by (pows; lia). reflexivity.
Qed.

Lemma fa_finds_from (fuel : nat) :
  (Z.to_nat D < fuel)%nat ->
  forall (n : nat) (d : Z) (fuel1 : nat),
    0 <= d -> d + Z.of_nat n = D -> (n < fuel1)%nat ->
    finds_from fuel1 fuel key t (probe hc h d)
      (length (matches key keys (path hc hm h d (Z.of_nat n))))
    = Done (matches key keys (path hc hm h d (Z.of_nat n)) ++ [SIZE_MAX],
            set_cursor t (probe hc h D)).
Proof using All.
  intros Hfuel. destruct fa_bounds as (Hpos & Hhmax & _ & _ & Hmax).
  induction n as [|n IH]; intros d fuel1 Hd Hsum Hf1.
  - assert (d = D) by lia. subst d.
    destruct fuel1 as [|f]; [lia|].
    rewrite path_nil. cbn [matches length app].
    unfold finds_from. rewrite fa_step_nul. reflexivity.
  - destruct (fa_slot d ltac:(lia)) as (j & Hslot & Hj).
    rewrite path_cons, Hslot. change (default 0 (Some j)) with j.
    cbn [matches].
    destruct fuel1 as [|f]; [lia|].
    unfold finds_from. rewrite (fa_step_row f d j Hd Hslot Hj).
    destruct (is_match key keys j).
    + cbn [length mbind outcome_bind find_next].
      unfold find. cbn [set_cursor base hashmap hashcapacity hashcursor].
      destruct (Z.eqb_spec (mysize (base t)) 0) as [E|_]; [lia|].
      pose proof (probe_range hc h d Hpos) as Hp.
      destruct (Z.leb_spec hc (probe hc h d)) as [E|_]; [lia|].
      rewrite hash_inc_probe by (pows; lia). cbn [mbind outcome_bind].
      specialize (IH (d + 1) fuel ltac:(lia) ltac:(lia) ltac:(lia)).
      unfold finds_from in IH.
      apply bind_Done in IH as ([r c] & Hloop & IH).
      apply bind_Done in IH as ([rs t2] & Hnext & IH).
      injection IH as Hrs <-.
      change (mk_htable (base t) hm hc (probe hc h d))
        with (set_cursor t (probe hc h d)).
      rewrite find_loop_set_cursor, Hloop. cbn [mbind outcome_bind].
      change (mk_htable (base t) hm hc c) with (set_cursor t c).
      rewrite Hnext. cbn [mbind outcome_bind]. rewrite Hrs. reflexivity.
    + apply (IH (d + 1) f); lia.
Qed.

Lemma fa_sorted :
  forall (n : nat) (d : Z),
    0 <= d -> d + Z.of_nat n <= D ->
    StronglySorted Z.lt (matches key keys (path hc hm h d (Z.of_nat n))).
Proof.
  destruct fa_bounds as (Hpos & Hhmax & Hodd & _ & Hmax).
  induction n as [|n IH]; intros d Hd Hsum.
  - rewrite path_nil. constructor.
  - destruct (fa_slot d ltac:(lia)) as (j & Hslot & Hj).
    rewrite path_cons, Hslot. change (default 0 (Some j)) with j.
    cbn [matches].
    destruct (is_match key keys j) eqn:Ej; [|apply IH; lia].
    constructor; [apply IH; lia|].
    apply Forall_forall. intros x Hx.
    apply matches_elem in Hx as [Hx Hmx].
    apply path_elem in Hx as (d' & Hd' & ->).
    destruct (fa_slot d' ltac:(lia)) as (x & Hslot' & Hxr).
    rewrite Hslot' in *. change (default 0 (Some x)) with x in *.
    destruct (fa_distance x Hxr Hmx) as (dx & Hdx & Hsx & Hbefore).
    assert (dx = d').
    { apply (probe_inj hc h); try assumption; [lia|].
      apply (placed_unique _ _ _ _ (ins_placed _ _ Hins) _ _ x);
        try assumption; apply probe_range; exact Hpos. }
    subst dx. destruct (Hbefore d ltac:(lia)) as (j' & Hj' & Hs').
    rewrite Hslot in Hs'. injection Hs' as <-. lia.
Qed.

Lemma fa_elements (x : Z) :
  x ∈ matches key keys (path hc hm h 0 D) <->
  0 <= x < mysize (base t) /\ is_match key keys x = true.
Proof.
  destruct fa_bounds as (Hpos & Hhmax & Hodd & _ & Hmax).
  rewrite matches_elem, path_elem. split.
  - intros [(d & Hd & ->) Hm].
    destruct (fa_slot d ltac:(lia)) as (x & Hslot & Hxr).
    rewrite Hslot in *. auto.
  - intros [Hxr Hm]. split; [|exact Hm].
    destruct (fa_distance x Hxr Hm) as (dx & Hdx & Hsx & Hbefore).
    exists dx. rewrite Hsx. split; [|reflexivity].
    destruct (Z.lt_ge_cases dx D) as [?|Hge]; [lia|exfalso].
    destruct (Z.eq_dec dx D) as [->|Hne].
    + rewrite Hnul in Hsx. injection Hsx as <-. revert Hxr Hmax. consts. lia.
    + destruct (Hbefore D ltac:(lia)) as (j' & Hj' & Hs').
      rewrite Hnul in Hs'. injection Hs' as <-. revert Hxr Hj' Hmax.
      consts. lia.
Qed.

Lemma fa_matches : matches key keys (path hc hm h 0 D) = indices_of key rows 0.
Proof.
  apply sorted_ext.
  - rewrite <- (Z2Nat.id D) by lia. apply fa_sorted; lia.
  - apply indices_of_sorted.
  - intros x. rewrite fa_elements, indices_of_elem. split.
    + intros [Hxr Hm].
      destruct (fa_row x Hxr) as (k & items & Hrow & _ & _ & E).
      exists (Z.to_nat x), k, items. split; [exact Hrow|].
      split; [congruence|lia].
    + intros (n & k & items & Hrow & Hk & ->).
      assert (Hn : 0 <= 0 + Z.of_nat n < mysize (base t)).
      { apply lookup_lt_Some in Hrow. rewrite (ins_size _ _ Hins). lia. }
      split; [exact Hn|].
      destruct (fa_row _ Hn) as (k' & items' & Hrow' & _ & _ & E).
      replace (Z.to_nat (0 + Z.of_nat n)) with n in Hrow' by lia.
      rewrite Hrow in Hrow'. injection Hrow' as <- <-. congruence.
Qed.

End Path.

Lemma fa_find_sequence (fuel : nat) :
  (Z.to_nat hc < fuel)%nat ->
  exists D, 0 <= D < hc /\
    hm !! Z.to_nat (probe hc h D) = Some INDEXNUL /\
    indices_of key rows 0 = matches key keys (path hc hm h 0 D) /\
    find_sequence fuel key (length (indices_of key rows 0)) t
    = Done (indices_of key rows 0 ++ [SIZE_MAX],
            set_cursor t (probe hc h D)).
Proof.
  intros Hfuel. destruct fa_bounds as (Hpos & Hhmax & _ & _ & Hmax).
  destruct fa_first_empty as (D & HD & Hnul & Hfirst).
  exists D. split; [exact HD|]. split; [exact Hnul|].
  pose proof (fa_matches D HD Hnul Hfirst) as E.
  split; [symmetry; exact E|].
  pose proof (fa_finds_from D HD Hnul Hfirst fuel ltac:(lia)
                (Z.to_nat D) 0 fuel ltac:(lia) ltac:(lia) ltac:(lia)) as H.
  rewrite Z2Nat.id, E in H by lia.
  rewrite probe_0 in H by (apply Z.mod_pos_bound; exact Hpos).
  unfold finds_from in H.
  apply bind_Done in H as ([r c] & Hloop & H).
  apply bind_Done in H as ([rs t2] & Hnext & H).
  unfold find_sequence, find.
  destruct (Z.eqb_spec (mysize (base t)) 0) as [E0|_]; [lia|].
  rewrite modulo_Done by lia. cbn [mbind outcome_bind].
  rewrite Hloop. cbn [mbind outcome_bind].
  change (mk_htable (base t) hm hc c) with (set_cursor t c).
  rewrite Hnext. cbn [mbind outcome_bind]. exact H.
Qed.

End FindAll.

(** X29.  After [insert(key, items...)] for each row of [rows], in order, into
    a new table, and nothing else, [find(key, true)] followed by calls of
    [find(key, false)] returns the rows whose key is [key], each once, in
    the order of their insertion, which is the order of the probe sequence
    of [key] up to its first EMPTY slot, and then [SIZE_MAX]; the rows
    returned hold the key and the items they were inserted with. *)
Theorem find_enumerates_rows_of_key (alloc : Z -> bool) (fuel fuel' : nat)
    (rows : list (val * list val)) (t : htable) (key : val) :
  insert_all alloc fuel rows htable_new = Done (true, t) ->
  (Z.to_nat (hashcapacity t) < fuel')%nat ->
  let found := indices_of key rows 0 in
  StronglySorted Z.lt found /\
  (forall i, i ∈ found <->
     0 <= i /\ exists items, rows !! Z.to_nat i = Some (key, items)) /\
  (forall i items, 0 <= i -> rows !! Z.to_nat i = Some (key, items) ->
     at_ 0%nat i (base t) = Done key /\
     forall (K : nat) v, items !! K = Some v -> (S K < length Ts)%nat ->
       at_ (S K) i (base t) = Done v) /\
  (exists D, 0 <= D /\
     found = matches key (column 0%nat (base t))
               (path (hashcapacity t) (hashmap t)
                  (hash key mod hashcapacity t) 0 D) /\
     (rows <> [] ->
      slot t (probe (hashcapacity t) (hash key mod hashcapacity t) D)
      = Some INDEXNUL)) /\
  exists t', find_sequence fuel' key (length found) t
             = Done (found ++ [SIZE_MAX], t').
Proof.
  intros H Hfuel found.
  apply insert_all_inserted with (rows0 := []) in H;
    [|apply htable_new_inserted].
  rewrite app_nil_l in H.
  split; [apply indices_of_sorted|].
  split.
  { intros i. unfold found. rewrite indices_of_elem. split.
    - intros (n & k & items & Hrow & Hk & ->). apply val_eqb_eq in Hk.
      subst k. split; [lia|]. exists items.
      replace (Z.to_nat (0 + Z.of_nat n)) with n by lia. exact Hrow.
    - intros (Hi & items & Hrow). exists (Z.to_nat i), key, items.
      split; [exact Hrow|]. split; [apply val_eqb_eq; reflexivity|lia]. }
  split.
  { intros i items Hi Hrow.
    destruct (ins_rows _ _ H _ _ _ Hrow) as [Hk Hitems].
    rewrite Z2Nat.id in Hk, Hitems by lia. split; [exact Hk|exact Hitems]. }
  destruct (Z.eq_dec (mysize (base t)) 0) as [E|E].
  - assert (Hrows : rows = []).
    { pose proof (ins_size _ _ H) as Hsize. rewrite E in Hsize.
      destruct rows; [reflexivity|simpl in Hsize; lia]. }
    subst rows. split.
    + exists 0. split; [lia|]. split; [reflexivity|]. intros Hne.
      destruct Hne. reflexivity.
    + exists t. unfold found, find_sequence, find. cbn [indices_of length].
      rewrite E. reflexivity.
  - assert (Hsome : 0 < mysize (base t)).
    { pose proof (soa_size_le_capacity _ (ins_store _ _ H)). lia. }
    destruct (fa_find_sequence t rows key H Hsome fuel' Hfuel)
      as (D & HD & Hnul & Hpath & Hseq).
    split.
    + exists D. split; [lia|]. split; [exact Hpath|]. intros _. exact Hnul.
    + eexists. exact Hseq.
Qed.

(** ** The column store: what each operation does to the rows *)

Lemma each_column_Done (f : list val -> outcome (list val)) :
  forall (cols cols' : list (list val)),
    each_column f cols = Done cols' ->
    length cols' = length cols /\
    forall (K : nat) (col : list val), cols !! K = Some col ->
      exists col', cols' !! K = Some col' /\ f col = Done col'.
Proof.
  induction cols as [|c cols IH]; intros cols' H.
  - injection H as <-. split; [reflexivity|]. intros K col HK.
    rewrite lookup_nil in HK. discriminate.
  - cbn [each_column] in H.
    apply bind_Done in H as (c' & Hc & H).
    apply bind_Done in H as (rest & Hrest & H). injection H as <-.
    destruct (IH _ Hrest) as [Hlen Hcols]. split; [simpl; lia|].
    intros [|K] col HK.
    + injection HK as <-. exists c'. auto.
    + apply (Hcols K col HK).
Qed.

Lemma each_column_total (f : list val -> outcome (list val))
    (cols : list (list val)) :
  Forall (fun col => exists col', f col = Done col') cols ->
  exists cols', each_column f cols = Done cols'.
Proof.
  induction 1 as [|c cols [c' Hc] _ [rest IH]].
  - exists []. reflexivity.
  - exists (c' :: rest). cbn [each_column]. rewrite Hc, IH. reflexivity.
Qed.

Lemma each_column_with_total {X : Type}
    (f : X -> list val -> outcome (list val)) :
  forall (args : list X) (cols : list (list val)),
    (forall (K : nat) x col, args !! K = Some x -> cols !! K = Some col ->
       exists col', f x col = Done col') ->
    exists cols', each_column_with f args cols = Done cols'.
Proof.
  intros args cols. revert args.
  induction cols as [|c cols IH]; intros args H.
  - exists []. destruct args; reflexivity.
  - destruct args as [|x args]; [exists (c :: cols); reflexivity|].
    destruct (H 0%nat x c eq_refl eq_refl) as [c' Hc].
    destruct (IH args) as [rest Hrest].
    { intros K x' col Hx Hcol. apply (H (S K) x' col Hx Hcol). }
    exists (c' :: rest). cbn [each_column_with]. rewrite Hc, Hrest. reflexivity.
Qed.

(** The shape of the arrays is kept by an action that keeps the length of
    every column. *)
Lemma columns_shape (cap : Z) (cols cols' : list (list val)) :
  length cols' = length cols ->
  (forall (K : nat) col col', cols !! K = Some col -> cols' !! K = Some col' ->
     length col' = length col) ->
  Forall (fun col => Z.of_nat (length col) = cap) cols ->
  Forall (fun col => Z.of_nat (length col) = cap) cols'.
Proof.
  intros Hlen Hcols Hall. apply Forall_lookup. intros K col' HK.
  destruct (lookup_lt_is_Some_2 cols K) as [col Hcol].
  { apply lookup_lt_Some in HK. lia. }
  rewrite (Hcols K col col' Hcol HK).
  apply (Forall_lookup_1 _ _ _ _ Hall Hcol).
Qed.

Lemma column_lookup (K : nat) (n c : Z) (cols : list (list val))
    (col : list val) :
  cols !! K = Some col -> column K (mk_soa n c cols) = col.
Proof. intros H. unfold column. simpl. rewrite H. reflexivity. Qed.

Lemma column_length (K : nat) (s : soa) :
  soa_invariant s -> (K < length Ts)%nat ->
  Z.of_nat (length (column K s)) = mycapacity s.
Proof.
  intros Hinv HK. unfold column.
  destruct (lookup_lt_is_Some_2 (mydata s) K) as [col Hcol].
  { rewrite (soa_columns _ Hinv). exact HK. }
  rewrite Hcol. apply (Forall_lookup_1 _ _ _ _ (soa_column_length _ Hinv) Hcol).
Qed.

Lemma column_out_of_range (K : nat) (s : soa) :
  soa_invariant s -> (length Ts <= K)%nat -> column K s = [].
Proof.
  intros Hinv HK. unfold column. rewrite lookup_ge_None_2; [reflexivity|].
  rewrite (soa_columns _ Hinv). exact HK.
Qed.

Lemma soa_capacity_bound (s : soa) :
  soa_invariant s -> 0 <= mycapacity s <= 2 ^ 64 - 16.
Proof.
  intros Hinv. pose proof (soa_size_le_capacity _ Hinv).
  pose proof (soa_capacity_16 _ Hinv). pose proof (soa_capacity_range _ Hinv).
  pose proof (Z.div_mod (mycapacity s) 16 ltac:(lia)). pows. lia.
Qed.

Lemma wr_length {A : Type} (a a' : list A) (i : Z) (x : A) :
  wr a i x = Done a' -> length a' = length a.
Proof. intros H. apply wr_Done_inv in H as [_ ->]. apply length_insert. Qed.

Lemma wr_lookup {A : Type} (a a' : list A) (i j : Z) (x : A) :
  wr a i x = Done a' -> 0 <= j ->
  a' !! Z.to_nat j = if j =? i then Some x else a !! Z.to_nat j.
Proof.
  intros H Hj. apply wr_Done_inv in H as [Hi ->].
  destruct (Z.eqb_spec j i) as [->|Hne].
  - apply list_lookup_insert_eq. lia.
  - apply list_lookup_insert_ne. lia.
Qed.

(** *** [push_back] *)

Lemma push_back_needs_room (row : list val) (s : soa)
    (cols : list (list val)) :
  soa_invariant s -> length row = length Ts ->
  base_push_back (mysize s) row (mydata s) = Done cols ->
  mysize s < mycapacity s.
Proof.
  intros Hinv Hrow H. unfold base_push_back in H.
  apply each_column_with_Done in H as [_ Hcols].
  pose proof key_column_exists as HT.
  destruct (lookup_lt_is_Some_2 (mydata s) 0) as [col Hcol].
  { rewrite (soa_columns _ Hinv). exact HT. }
  destruct (lookup_lt_is_Some_2 row 0) as [x Hx]; [lia|].
  destruct (Hcols _ _ Hcol) as (col' & _ & Hwr). rewrite Hx in Hwr.
  apply wr_Done_inv in Hwr as [Hi _].
  rewrite (Forall_lookup_1 _ _ _ _ (soa_column_length _ Hinv) Hcol) in Hi. lia.
Qed.

Lemma grow_if_full_spec (alloc : Z -> bool) (s s1 : soa) (ok : bool) :
  soa_invariant s -> grow_if_full alloc s = Done (ok, s1) ->
  if ok then
    soa_invariant s1 /\ mysize s1 = mysize s /\ rows_agree s s1 /\
    mycapacity s <= mycapacity s1
  else s1 = s /\ mysize s = mycapacity s.
Proof.
  intros Hinv H. unfold grow_if_full in H.
  destruct (Z.eqb_spec (mysize s) (mycapacity s)) as [E|E].
  - destruct ok.
    + destruct (growth_fits s Hinv) as [Hn Hfit].
      apply reserve_spec in H as (Hinv1 & Hsize & Hrows & Hcap);
        [|exact Hinv|exact Hn|exact Hfit].
      split; [exact Hinv1|]. split; [exact Hsize|]. split; [exact Hrows|].
      destruct Hcap as [ -> | [Hlt _] ]; lia.
    + unfold reserve in H.
      destruct (_ <=? mycapacity s); [discriminate|].
      destruct (negb _); [injection H as <-; auto|].
      destruct (divy_buffer _ _ _ _ _ _); discriminate.
  - injection H as <- <-. split; [exact Hinv|]. split; [reflexivity|].
    split; [intros K i v _ Hv; exact Hv|lia].
Qed.

Lemma push_back_total (alloc : Z -> bool) (row : list val) (s : soa) :
  soa_invariant s -> mysize s < mycapacity s ->
  exists s', push_back alloc row s = Done (true, s').
Proof.
  intros Hinv Hlt. unfold push_back, grow_if_full.
  destruct (Z.eqb_spec (mysize s) (mycapacity s)); [lia|].
  cbn [mbind outcome_bind negb].
  destruct (each_column_with_total (fun v col => wr col (mysize s) v) row
              (mydata s)) as [cols Hcols].
  { intros K x col _ Hcol. eexists. apply wr_Done.
    rewrite (Forall_lookup_1 _ _ _ _ (soa_column_length _ Hinv) Hcol).
    pose proof (soa_size_le_capacity _ Hinv). lia. }
  unfold base_push_back. rewrite Hcols. eexists. reflexivity.
Qed.

Lemma push_back_spec_full (alloc : Z -> bool) (row : list val) (s s' : soa)
    (ok : bool) :
  soa_invariant s -> length row = length Ts ->
  push_back alloc row s = Done (ok, s') ->
  if ok then
    soa_invariant s' /\ mysize s' = mysize s + 1 /\
    mycapacity s <= mycapacity s' /\ rows_agree s s' /\
    forall (K : nat) v, row !! K = Some v -> at_ K (mysize s) s' = Done v
  else s' = s /\ mysize s = mycapacity s.
Proof.
  intros Hinv Hrow H. unfold push_back in H.
  apply bind_Done in H as ([ok1 s1] & Hgrow & H).
  apply grow_if_full_spec in Hgrow; [|exact Hinv].
  destruct ok1; cbn [negb] in H.
  - destruct Hgrow as (Hinv1 & Hsize1 & Hrows1 & Hcap1).
    apply bind_Done in H as (cols & Hcols & H). injection H as <- <-.
    pose proof (push_back_needs_room _ _ _ Hinv1 Hrow Hcols) as Hroom.
    assert (Hpush : push_back alloc row s1
                    = Done (true, mk_soa (size_t (mysize s1 + 1))
                                    (mycapacity s1) cols)).
    { unfold push_back, grow_if_full.
      destruct (Z.eqb_spec (mysize s1) (mycapacity s1)); [lia|].
      cbn [mbind outcome_bind negb]. rewrite Hcols. reflexivity. }
    apply push_back_spec in Hpush as (Hinv' & Hsize' & Hcap' & Hold & Hnew);
      [|exact Hinv1|exact Hroom].
    split; [exact Hinv'|]. split; [lia|]. split; [lia|].
    pose proof (soa_size_le_capacity _ Hinv) as Hsz.
    split.
    + intros K i v Hi Hv. apply Hrows1 in Hv; [|exact Hi].
      apply at_column. apply at_column in Hv as [? Hv].
      split; [lia|]. rewrite Hold by lia. exact Hv.
    + intros K v Hv. apply at_column. split; [lia|].
      rewrite <- Hsize1. apply (Hnew K v Hv).
      apply lookup_lt_Some in Hv. lia.
  - injection H as <- <-. exact Hgrow.
Qed.

Lemma push_back_all_room (alloc : Z -> bool) (rows : list (list val)) :
  forall s : soa,
    soa_invariant s ->
    mysize s + Z.of_nat (length rows) <= mycapacity s ->
    exists s2,
      push_back_all alloc rows s = Done s2 /\ soa_invariant s2 /\
      mysize s2 = mysize s + Z.of_nat (length rows) /\
      mycapacity s2 = mycapacity s /\ rows_agree s s2 /\
      forall (j : nat) row (K : nat) v,
        rows !! j = Some row -> row !! K = Some v -> (K < length Ts)%nat ->
        at_ K (mysize s + Z.of_nat j) s2 = Done v.
Proof.
  induction rows as [|row rows IH]; intros s Hinv Hroom.
  - exists s. split; [reflexivity|]. split; [exact Hinv|].
    split; [simpl; lia|]. split; [reflexivity|].
    split; [intros K i v _ Hv; exact Hv|].
    intros j row K v Hj. rewrite lookup_nil in Hj. discriminate.
  - cbn [length] in Hroom.
    pose proof (soa_size_le_capacity _ Hinv) as Hsz.
    destruct (push_back_total alloc row s Hinv ltac:(lia)) as [s1 Hpush].
    pose proof Hpush as Hspec.
    apply push_back_spec in Hspec as (Hinv1 & Hsize1 & Hcap1 & Hold & Hnew);
      [|exact Hinv|lia].
    destruct (IH s1 Hinv1 ltac:(lia))
      as (s2 & Hall & Hinv2 & Hsize2 & Hcap2 & Hrows2 & Hnew2).
    exists s2. cbn [push_back_all]. rewrite Hpush. cbn [mbind outcome_bind].
    split; [exact Hall|]. split; [exact Hinv2|].
    split; [cbn [length]; lia|]. split; [lia|].
    assert (Hstep : forall K i v, 0 <= i < mysize s + 1 ->
              column K s1 !! Z.to_nat i = Some v -> at_ K i s2 = Done v).
    { intros K i v Hi Hv. apply Hrows2; [lia|]. apply at_column.
      split; [lia|exact Hv]. }
    split.
    + intros K i v Hi Hv. apply at_column in Hv as [_ Hv].
      apply Hstep; [lia|]. rewrite Hold by lia. exact Hv.
    + intros [|j] row' K v Hj Hv HK.
      * injection Hj as <-. rewrite Z.add_0_r. apply Hstep; [lia|].
        apply (Hnew K v Hv HK).
      * replace (mysize s + Z.of_nat (S j)) with (mysize s1 + Z.of_nat j)
          by lia.
        apply (Hnew2 j row' K v Hj Hv HK).
Qed.

Lemma reserve_capacity (alloc : Z -> bool) (n : Z) (s s1 : soa) :
  0 <= n <= 2 ^ 64 - 16 ->
  reserve alloc n s = Done (true, s1) -> n <= mycapacity s1.
Proof.
  intros Hn H. pose proof (multiple_of_16_ge n Hn) as HM.
  unfold reserve in H.
  set (N := if multiple_of_16 n =? 0 then 16 else multiple_of_16 n) in *.
  assert (HN : n <= N).
  { subst N. destruct (Z.eqb_spec (multiple_of_16 n) 0); lia. }
  destruct (Z.leb_spec N (mycapacity s)).
  - injection H as <-. lia.
  - destruct (negb _); [discriminate|].
    apply bind_Done in H as (cols & _ & H). injection H as <-. simpl. lia.
Qed.

(** X1.  [push_back(row...)], when it returns [true], adds one row that
    holds the arguments behind the rows there were, which keep their
    values; the capacity does not shrink and the store invariant is kept.
    When it returns [false] the container was full and is unchanged.  Below
    capacity it returns [true] whatever the allocator does. *)
Theorem push_back_appends (alloc : Z -> bool) (row : list val) (s : soa) :
  soa_invariant s -> length row = length Ts ->
  (size s < capacity s -> exists s', push_back alloc row s = Done (true, s')) /\
  forall (ok : bool) (s' : soa),
    push_back alloc row s = Done (ok, s') ->
    if ok then
      soa_invariant s' /\ size s' = size s + 1 /\
      capacity s <= capacity s' /\ rows_agree s s' /\
      forall (K : nat) v, row !! K = Some v -> at_ K (size s) s' = Done v
    else s' = s /\ size s = capacity s.
Proof.
  intros Hinv Hrow. split.
  - apply push_back_total. exact Hinv.
  - intros ok s' H. apply (push_back_spec_full alloc row s s' ok Hinv Hrow H).
Qed.

(** X2.  After a successful [reserve(n)] the capacity is at least [n].
    When the block of that capacity is one an allocation can return (at
    most [PTRDIFF_MAX] bytes: the byte count [reserve] asked for has not
    wrapped around), as many [push_back] calls as fit below [n] never ask
    the allocator: they succeed with an allocator that refuses every
    request, the capacity stays, the old rows keep their values and the new
    rows hold the arguments in the order of the calls. *)
Theorem reserve_then_push_back_never_allocates (alloc : Z -> bool) (n : Z)
    (s s1 : soa) (rows : list (list val)) :
  soa_invariant s -> 0 <= n <= 2 ^ 64 - 16 ->
  reserve alloc n s = Done (true, s1) ->
  n <= capacity s1 /\
  (size_per_entry * capacity s1 <= PTRDIFF_MAX ->
   size s + Z.of_nat (length rows) <= n ->
   exists s2,
     push_back_all refuse rows s1 = Done s2 /\ soa_invariant s2 /\
     size s2 = size s + Z.of_nat (length rows) /\
     capacity s2 = capacity s1 /\ rows_agree s s2 /\
     forall (j : nat) row (K : nat) v,
       rows !! j = Some row -> row !! K = Some v -> (K < length Ts)%nat ->
       at_ K (size s + Z.of_nat j) s2 = Done v).
Proof.
  unfold size, capacity. intros Hinv Hn Hres.
  pose proof (reserve_capacity _ _ _ _ Hn Hres) as Hcap.
  split; [exact Hcap|]. intros Hblock Hfit.
  pose proof (reserve_fit _ _ _ _ Hinv Hres Hblock) as Hnowrap.
  apply reserve_spec in Hres as (Hinv1 & Hsize1 & Hrows1 & _);
    [|exact Hinv|pows; lia|exact Hnowrap].
  destruct (push_back_all_room refuse rows s1 Hinv1 ltac:(lia))
    as (s2 & Hall & Hinv2 & Hsize2 & Hcap2 & Hrows2 & Hnew).
  exists s2. split; [exact Hall|]. split; [exact Hinv2|].
  split; [lia|]. split; [exact Hcap2|]. split.
  - intros K i v Hi Hv. apply Hrows2; [lia|]. apply Hrows1; assumption.
  - intros j row K v Hj Hv HK. rewrite <- Hsize1.
    apply (Hnew j row K v Hj Hv HK).
Qed.

(** *** [pop_back] *)

Lemma pop_back_spec (s : soa) :
  soa_invariant s ->
  pop_back s = Done (mk_soa (Z.max 0 (mysize s - 1)) (mycapacity s) (mydata s)).
Proof.
  intros Hinv. pose proof (soa_size_le_capacity _ Hinv) as Hsz.
  pose proof (soa_capacity_range _ Hinv) as Hmax.
  unfold pop_back. destruct (Z.eqb_spec (mysize s) 0) as [E|E].
  - rewrite E. destruct s; simpl in *. subst. reflexivity.
  - unfold base_pop_back.
    rewrite (each_column_fmap _ id).
    + rewrite list_fmap_id. cbn [mbind outcome_bind].
      rewrite size_t_small by lia. rewrite Z.max_r by lia. reflexivity.
    + apply Forall_lookup. intros K col Hcol.
      pose proof (Forall_lookup_1 _ _ _ _ (soa_column_length _ Hinv) Hcol) as Hl.
      cbv beta in Hl. rewrite size_t_small by lia.
      destruct (lookup_lt_is_Some_2 col (Z.to_nat (mysize s - 1))) as [x Hx];
        [lia|].
      rewrite (proj2 (rd_Done col (mysize s - 1) x)) by (split; [lia|exact Hx]).
      reflexivity.
Qed.

(** X3.  [pop_back()] never fails: on an empty container it does nothing,
    otherwise the size drops by one and nothing else changes.  After a
    successful [push_back] it gives back the rows there were. *)
Theorem pop_back_undoes_push_back (s : soa) :
  soa_invariant s ->
  (exists s', pop_back s = Done s' /\ soa_invariant s' /\
     size s' = Z.max 0 (size s - 1) /\ capacity s' = capacity s /\
     mydata s' = mydata s) /\
  forall (alloc : Z -> bool) (row : list val) (s1 : soa),
    length row = length Ts ->
    push_back alloc row s = Done (true, s1) ->
    exists s2, pop_back s1 = Done s2 /\ soa_invariant s2 /\
      size s2 = size s /\ rows_agree s s2.
Proof.
  unfold size, capacity. intros Hinv.
  assert (Hpop : forall s0, soa_invariant s0 ->
            soa_invariant (mk_soa (Z.max 0 (mysize s0 - 1)) (mycapacity s0)
                             (mydata s0))).
  { intros s0 [Hsz H16 Hmax Hn Hl]. split; simpl; try assumption. lia. }
  split.
  - eexists. split; [apply pop_back_spec; exact Hinv|].
    split; [apply Hpop; exact Hinv|]. simpl. auto.
  - intros alloc row s1 Hrow Hpush.
    apply push_back_spec_full in Hpush
      as (Hinv1 & Hsize1 & _ & Hrows1 & _); [|exact Hinv|exact Hrow].
    eexists. split; [apply pop_back_spec; exact Hinv1|].
    split; [apply Hpop; exact Hinv1|].
    pose proof (soa_size_le_capacity _ Hinv).
    split; [simpl; lia|].
    intros K i v Hi Hv. apply (Hrows1 K i v Hi Hv).
Qed.

(** *** A failed allocation *)

Lemma reserve_failure (alloc : Z -> bool) (n : Z) (s s' : soa) :
  reserve alloc n s = Done (false, s') -> s' = s.
Proof.
  unfold reserve. destruct (_ <=? mycapacity s); [discriminate|].
  destruct (negb _); [intros [= <-]; reflexivity|].
  destruct (divy_buffer _ _ _ _ _ _); discriminate.
Qed.

Lemma grow_if_full_failure (alloc : Z -> bool) (s s' : soa) :
  grow_if_full alloc s = Done (false, s') -> s' = s.
Proof.
  unfold grow_if_full. destruct (_ =? _); [apply reserve_failure|discriminate].
Qed.

(** X4.  The operations of [soa] that may allocate leave the container as
    it was when they return [false] for a failed allocation: [reserve],
    [shrink_to_fit], [resize], [push_back] and [emplace_back] return
    [false] only then; [insert] also returns [false] for a position past
    the end, after the growth step.  A full container whose request the
    allocator refuses does get [false] from [push_back]. *)
Theorem soa_failed_allocation_changes_nothing (alloc : Z -> bool)
    (s s' : soa) :
  (forall n, reserve alloc n s = Done (false, s') -> s' = s) /\
  (shrink_to_fit alloc s = Done (false, s') -> s' = s) /\
  (forall n, resize alloc n s = Done (false, s') -> s' = s) /\
  (forall n initvals,
     resize_with alloc n initvals s = Done (false, s') -> s' = s) /\
  (forall row, push_back alloc row s = Done (false, s') -> s' = s) /\
  (emplace_back alloc s = Done (false, s') -> s' = s) /\
  (forall where_ row,
     insert alloc where_ row s = Done (false, s') ->
     s' = s \/ size s' < where_) /\
  (forall row, soa_invariant s -> size s = capacity s -> capacity s < 2 ^ 63 ->
     push_back refuse row s = Done (false, s)).
Proof.
  split; [intros n; apply reserve_failure|].
  split.
  { unfold shrink_to_fit. destruct (_ =? mycapacity s); [discriminate|].
    destruct (0 <? _); [|discriminate].
    destruct (negb _); [intros [= <-]; reflexivity|].
    destruct (divy_buffer _ _ _ _ _ _); discriminate. }
  split.
  { intros n. unfold resize. destruct (mysize s <? n).
    - intros H. apply bind_Done in H as ([ok s1] & Hres & H).
      destruct ok; cbn [negb] in H.
      + destruct (construct_range _ _ _); discriminate.
      + injection H as <-.
        destruct (mycapacity s <? n); [|discriminate].
        apply (reserve_failure _ _ _ _ Hres).
    - destruct (n <? mysize s); discriminate. }
  split.
  { intros n initvals. unfold resize_with. destruct (mysize s <? n).
    - intros H. apply bind_Done in H as ([ok s1] & Hres & H).
      destruct ok; cbn [negb] in H.
      + destruct (construct_range_with _ _ _ _); discriminate.
      + injection H as <-.
        destruct (mycapacity s <? n); [|discriminate].
        apply (reserve_failure _ _ _ _ Hres).
    - destruct (n <? mysize s); discriminate. }
  split.
  { intros row H. unfold push_back in H.
    apply bind_Done in H as ([ok s1] & Hgrow & H).
    destruct ok; cbn [negb] in H.
    - destruct (base_push_back _ _ _); discriminate.
    - injection H as <-. apply (grow_if_full_failure _ _ _ Hgrow). }
  split.
  { intros H. unfold emplace_back in H.
    apply bind_Done in H as ([ok s1] & Hgrow & H).
    destruct ok; cbn [negb] in H.
    - destruct (base_emplace_back_default _ _); discriminate.
    - injection H as <-. apply (grow_if_full_failure _ _ _ Hgrow). }
  split.
  { intros where_ row H. unfold insert in H.
    apply bind_Done in H as ([ok s1] & Hgrow & H).
    destruct ok; cbn [negb] in H.
    - destruct (Z.ltb_spec (mysize s1) where_).
      + injection H as <-. right. assumption.
      + destruct (base_insert _ _ _ _); discriminate.
    - injection H as <-. left. apply (grow_if_full_failure _ _ _ Hgrow). }
  unfold size, capacity. intros row Hinv Hfull Hcap.
  pose proof (soa_size_le_capacity _ Hinv) as Hsz.
  pose proof (soa_capacity_16 _ Hinv) as H16.
  unfold push_back, grow_if_full. rewrite Hfull, Z.eqb_refl.
  rewrite size_t_small by (pows; lia).
  unfold reserve.
  rewrite multiple_of_16_fixed
    by (rewrite <- Z.mul_mod_idemp_l, H16 by lia; reflexivity).
  set (N := if mycapacity s * 2 =? 0 then 16 else mycapacity s * 2).
  assert (HN : mycapacity s < N).
  { subst N. destruct (Z.eqb_spec (mycapacity s * 2) 0); lia. }
  destruct (Z.leb_spec N (mycapacity s)); [lia|].
  unfold aligned_malloc, refuse. rewrite andb_false_r. reflexivity.
Qed.

(** *** [memmove], [insert] and [erase_shift] *)

Lemma memmove_Done (dst src n : Z) (col col' : list val) :
  0 <= dst -> 0 <= src -> 0 <= n ->
  memmove dst src n col = Done col' ->
  length col' = length col /\
  forall i, 0 <= i ->
    col' !! Z.to_nat i
    = if (dst <=? i) && (i <? dst + n) then col !! Z.to_nat (src + (i - dst))
      else col !! Z.to_nat i.
Proof.
  intros Hdst Hsrc Hn. unfold memmove.
  destruct (Z.eqb_spec n 0) as [->|Hn0].
  - intros [= <-]. split; [reflexivity|]. intros i Hi.
    destruct (Z.leb_spec dst i); destruct (Z.ltb_spec i (dst + 0));
      simpl; try reflexivity. lia.
  - destruct (Z.leb_spec (src + n) (Z.of_nat (length col))) as [Hs|];
      [|discriminate].
    destruct (Z.leb_spec (dst + n) (Z.of_nat (length col))) as [Hd|];
      [|discriminate].
    simpl. intros [= <-].
    assert (L1 : length (take (Z.to_nat dst) col) = Z.to_nat dst)
      by (rewrite length_take; lia).
    assert (L2 : length (take (Z.to_nat n) (drop (Z.to_nat src) col))
                 = Z.to_nat n)
      by (rewrite length_take, length_drop; lia).
    split.
    + rewrite !length_app, L1, L2, length_drop. lia.
    + intros i Hi.
      destruct (Z.leb_spec dst i) as [H1|H1]; simpl.
      * rewrite lookup_app_r by lia. rewrite L1.
        destruct (Z.ltb_spec i (dst + n)) as [H2|H2].
        -- rewrite lookup_app_l by lia.
           rewrite lookup_take_lt by lia. rewrite lookup_drop.
           f_equal. lia.
        -- rewrite lookup_app_r by lia. rewrite L2, lookup_drop.
           f_equal. lia.
      * rewrite lookup_app_l by lia. apply lookup_take_lt. lia.
Qed.

Lemma memmove_total (dst src n : Z) (col : list val) :
  src + n <= Z.of_nat (length col) -> dst + n <= Z.of_nat (length col) ->
  exists col', memmove dst src n col = Done col'.
Proof.
  intros Hs Hd. unfold memmove. destruct (n =? 0); [eauto|].
  destruct (Z.leb_spec (src + n) (Z.of_nat (length col))); [|lia].
  destruct (Z.leb_spec (dst + n) (Z.of_nat (length col))); [|lia].
  simpl. eauto.
Qed.

(** The columns after [erase_shift(where)] below capacity. *)
Lemma erase_shift_spec (where_ : Z) (s : soa) :
  soa_invariant s -> 0 <= where_ < mysize s -> mysize s < mycapacity s ->
  exists s', erase_shift where_ s = Done s' /\ soa_invariant s' /\
    mysize s' = mysize s - 1 /\ mycapacity s' = mycapacity s /\
    forall (K : nat) (i : Z), 0 <= i < mysize s ->
      column K s' !! Z.to_nat i
      = if i <? where_ then column K s !! Z.to_nat i
        else column K s !! Z.to_nat (i + 1).
Proof.
  intros Hinv Hw Hroom.
  pose proof (soa_capacity_range _ Hinv) as Hmax.
  unfold erase_shift. destruct (Z.leb_spec (mysize s) where_); [lia|].
  unfold base_erase_shift.
  rewrite !size_t_small by lia.
  set (f := fun col : list val =>
              _ ← rd col where_;
              memmove where_ (where_ + 1) (mysize s - where_) col).
  destruct (each_column_total f (mydata s)) as [cols Hcols].
  { apply Forall_lookup. intros K col Hcol.
    pose proof (Forall_lookup_1 _ _ _ _ (soa_column_length _ Hinv) Hcol) as Hl.
    cbv beta in Hl. unfold f.
    destruct (lookup_lt_is_Some_2 col (Z.to_nat where_)) as [x Hx]; [lia|].
    rewrite (proj2 (rd_Done col where_ x)) by (split; [lia|exact Hx]).
    cbn [mbind outcome_bind]. apply memmove_total; lia. }
  rewrite Hcols. cbn [mbind outcome_bind]. eexists. split; [reflexivity|].
  apply each_column_Done in Hcols as [Hlen Hcols].
  assert (Hcol : forall K col col', mydata s !! K = Some col ->
            cols !! K = Some col' ->
            length col' = length col /\
            forall i, 0 <= i < mysize s ->
              col' !! Z.to_nat i
              = if i <? where_ then col !! Z.to_nat i
                else col !! Z.to_nat (i + 1)).
  { intros K col col' HK HK'.
    destruct (Hcols K col HK) as (col2 & HK2 & Hf).
    rewrite HK' in HK2. injection HK2 as <-. unfold f in Hf.
    apply bind_Done in Hf as (x & _ & Hf).
    apply memmove_Done in Hf as [Hl Hlook]; [|lia|lia|lia].
    split; [exact Hl|]. intros i Hi. rewrite Hlook by lia.
    destruct (Z.leb_spec where_ i); destruct (Z.ltb_spec i where_);
      destruct (Z.ltb_spec i (where_ + (mysize s - where_)));
      simpl; try lia; try reflexivity.
    f_equal. lia. }
  pose proof Hinv as [Hsz H16 _ Hn Hl].
  split.
  { split; simpl; try assumption; [lia|lia|].
    apply (columns_shape _ (mydata s)); [exact Hlen| |exact Hl].
    intros K col col' HK HK'. apply (Hcol K col col' HK HK'). }
  split; [reflexivity|]. split; [reflexivity|].
  intros K i Hi. unfold column. cbn [mydata].
  destruct (mydata s !! K) as [col|] eqn:HK.
  - destruct (lookup_lt_is_Some_2 cols K) as [col' HK'].
    { apply lookup_lt_Some in HK. lia. }
    rewrite HK'. apply (Hcol K col col' HK HK'). exact Hi.
  - apply lookup_ge_None_1 in HK.
    rewrite (lookup_ge_None_2 cols K) by lia.
    rewrite !lookup_nil. destruct (i <? where_); reflexivity.
Qed.

(** On a full container the move reads one cell past the arrays. *)
Lemma erase_shift_full (where_ : Z) (s : soa) :
  soa_invariant s -> 0 <= where_ < mysize s -> mysize s = mycapacity s ->
  erase_shift where_ s = OutOfBounds.
Proof.
  intros Hinv Hw Hfull.
  pose proof (soa_capacity_range _ Hinv) as Hmax.
  unfold erase_shift. destruct (Z.leb_spec (mysize s) where_); [lia|].
  unfold base_erase_shift. rewrite !size_t_small by lia.
  pose proof key_column_exists as HT.
  destruct (mydata s) as [|col cols] eqn:E.
  { pose proof (soa_columns _ Hinv) as Hn. rewrite E in Hn. simpl in Hn. lia. }
  pose proof (soa_column_length _ Hinv) as Hl. rewrite E in Hl.
  apply Forall_cons in Hl as [Hl _].
  cbn [each_column].
  destruct (lookup_lt_is_Some_2 col (Z.to_nat where_)) as [x Hx]; [lia|].
  rewrite (proj2 (rd_Done col where_ x)) by (split; [lia|exact Hx]).
  cbn [mbind outcome_bind]. unfold memmove.
  destruct (Z.eqb_spec (mysize s - where_) 0); [lia|].
  destruct (Z.leb_spec (where_ + 1 + (mysize s - where_))
              (Z.of_nat (length col))); [lia|].
  reflexivity.
Qed.

Lemma at_lookup (K : nat) (i : Z) (s s' : soa) (j : Z) :
  0 <= i -> 0 <= j ->
  column K s' !! Z.to_nat i = column K s !! Z.to_nat j ->
  forall v, at_ K j s = Done v -> at_ K i s' = Done v.
Proof.
  intros Hi Hj E v Hv. apply at_column. apply at_column in Hv as [_ Hv].
  split; [exact Hi|]. rewrite E. exact Hv.
Qed.

(** X5.  [erase_shift(where)] on a row that exists: below capacity it
    removes the row and moves the rows behind it one place forward, in
    their order, and the rows before it stay; on a full container
    ([size() == capacity()]) it reads the cell past the end of the arrays,
    for every position.  For a position past the end it does nothing. *)
Theorem erase_shift_keeps_order_below_capacity (where_ : Z) (s : soa) :
  soa_invariant s -> 0 <= where_ ->
  (size s <= where_ -> erase_shift where_ s = Done s) /\
  (where_ < size s -> size s < capacity s ->
   exists s', erase_shift where_ s = Done s' /\ soa_invariant s' /\
     size s' = size s - 1 /\ capacity s' = capacity s /\
     (forall K i v, 0 <= i < where_ ->
        at_ K i s = Done v -> at_ K i s' = Done v) /\
     (forall K i v, where_ < i < size s ->
        at_ K i s = Done v -> at_ K (i - 1) s' = Done v)) /\
  (where_ < size s -> size s = capacity s ->
   erase_shift where_ s = OutOfBounds).
Proof.
  unfold size, capacity. intros Hinv Hw. split; [|split].
  - intros Hge. unfold erase_shift.
    destruct (Z.leb_spec (mysize s) where_); [reflexivity|lia].
  - intros Hlt Hroom.
    destruct (erase_shift_spec where_ s Hinv ltac:(lia) Hroom)
      as (s' & H & Hinv' & Hsize & Hcap & Hcols).
    exists s'. split; [exact H|]. split; [exact Hinv'|].
    split; [exact Hsize|]. split; [exact Hcap|]. split.
    + intros K i v Hi. apply at_lookup; [lia|lia|].
      rewrite Hcols by lia. destruct (Z.ltb_spec i where_); [reflexivity|lia].
    + intros K i v Hi. apply at_lookup; [lia|lia|].
      rewrite Hcols by lia.
      destruct (Z.ltb_spec (i - 1) where_); [lia|]. f_equal. lia.
  - intros Hlt Hfull. apply erase_shift_full; [exact Hinv|lia|exact Hfull].
Qed.

(** The columns after [insert(where, row...)] below capacity. *)
Lemma insert_spec (alloc : Z -> bool) (where_ : Z) (row : list val)
    (s : soa) :
  soa_invariant s -> length row = length Ts ->
  0 <= where_ <= mysize s -> mysize s < mycapacity s ->
  exists s', insert alloc where_ row s = Done (true, s') /\
    soa_invariant s' /\ mysize s' = mysize s + 1 /\
    mycapacity s' = mycapacity s /\
    forall (K : nat) (i : Z), 0 <= i <= mysize s ->
      column K s' !! Z.to_nat i
      = if i <? where_ then column K s !! Z.to_nat i
        else if i =? where_ then row !! K
        else column K s !! Z.to_nat (i - 1).
Proof.
  intros Hinv Hrow Hw Hroom.
  pose proof (soa_capacity_range _ Hinv) as Hmax.
  unfold insert, grow_if_full.
  destruct (Z.eqb_spec (mysize s) (mycapacity s)); [lia|].
  cbn [mbind outcome_bind negb].
  destruct (Z.ltb_spec (mysize s) where_); [lia|].
  unfold base_insert. rewrite !size_t_small by lia.
  set (f := fun (v : val) (col : list val) =>
              col1 ← memmove (where_ + 1) where_ (mysize s - where_) col;
              wr col1 where_ v).
  destruct (each_column_with_total f row (mydata s)) as [cols Hcols].
  { intros K x col _ Hcol.
    pose proof (Forall_lookup_1 _ _ _ _ (soa_column_length _ Hinv) Hcol) as Hl.
    cbv beta in Hl. unfold f.
    destruct (memmove_total (where_ + 1) where_ (mysize s - where_) col)
      as [col1 H1]; [lia|lia|].
    rewrite H1. cbn [mbind outcome_bind].
    apply memmove_Done in H1 as [Hl1 _]; [|lia|lia|lia].
    eexists. apply wr_Done. lia. }
  rewrite Hcols. cbn [mbind outcome_bind]. eexists. split; [reflexivity|].
  apply each_column_with_Done in Hcols as [Hlen Hcols].
  pose proof Hinv as [Hsz H16 _ Hn Hl].
  assert (Hcol : forall K col col', mydata s !! K = Some col ->
            cols !! K = Some col' ->
            length col' = length col /\
            forall i, 0 <= i <= mysize s ->
              col' !! Z.to_nat i
              = if i <? where_ then col !! Z.to_nat i
                else if i =? where_ then row !! K
                else col !! Z.to_nat (i - 1)).
  { intros K col col' HK HK'.
    destruct (Hcols K col HK) as (col2 & HK2 & Hf).
    rewrite HK' in HK2. injection HK2 as <-.
    destruct (lookup_lt_is_Some_2 row K) as [x Hx].
    { apply lookup_lt_Some in HK. lia. }
    rewrite Hx in Hf. unfold f in Hf.
    apply bind_Done in Hf as (col1 & H1 & Hwr).
    apply memmove_Done in H1 as [Hl1 Hlook]; [|lia|lia|lia].
    split; [rewrite (wr_length _ _ _ _ Hwr); exact Hl1|].
    intros i Hi. rewrite (wr_lookup _ _ _ _ _ Hwr) by lia.
    destruct (Z.eqb_spec i where_) as [->|Hne].
    - destruct (Z.ltb_spec where_ where_); [lia|symmetry; exact Hx].
    - rewrite Hlook by lia.
      destruct (Z.leb_spec (where_ + 1) i); destruct (Z.ltb_spec i where_);
        destruct (Z.ltb_spec i (where_ + 1 + (mysize s - where_)));
        simpl; try lia; try reflexivity.
      f_equal. lia. }
  split.
  { split; simpl; try assumption; [lia|lia|].
    apply (columns_shape _ (mydata s)); [exact Hlen| |exact Hl].
    intros K col col' HK HK'. apply (Hcol K col col' HK HK'). }
  split; [reflexivity|]. split; [reflexivity|].
  intros K i Hi. unfold column. cbn [mydata].
  destruct (mydata s !! K) as [col|] eqn:HK.
  - destruct (lookup_lt_is_Some_2 cols K) as [col' HK'].
    { apply lookup_lt_Some in HK. lia. }
    rewrite HK'. apply (Hcol K col col' HK HK'). exact Hi.
  - apply lookup_ge_None_1 in HK.
    rewrite (lookup_ge_None_2 cols) by lia.
    rewrite (lookup_ge_None_2 row) by lia.
    rewrite !lookup_nil.
    destruct (i <? where_); [reflexivity|]. destruct (i =? where_); reflexivity.
Qed.

Lemma insert_needs_room (where_ : Z) (row : list val) (s : soa)
    (cols : list (list val)) :
  soa_invariant s -> length row = length Ts -> 0 <= where_ <= mysize s ->
  base_insert (mysize s) where_ row (mydata s) = Done cols ->
  mysize s < mycapacity s.
Proof.
  intros Hinv Hrow Hw H. unfold base_insert in H.
  pose proof (soa_capacity_bound _ Hinv) as Hmax.
  pose proof (soa_size_le_capacity _ Hinv) as Hsz.
  rewrite !size_t_small in H by (pows; lia).
  apply each_column_with_Done in H as [_ Hcols].
  pose proof key_column_exists as HT.
  destruct (lookup_lt_is_Some_2 (mydata s) 0) as [col Hcol].
  { rewrite (soa_columns _ Hinv). exact HT. }
  destruct (lookup_lt_is_Some_2 row 0) as [x Hx]; [lia|].
  destruct (Hcols _ _ Hcol) as (col' & _ & Hf). rewrite Hx in Hf.
  apply bind_Done in Hf as (col1 & H1 & Hwr).
  pose proof (Forall_lookup_1 _ _ _ _ (soa_column_length _ Hinv) Hcol) as Hl.
  cbv beta in Hl.
  apply memmove_Done in H1 as [Hl1 _]; [|lia|lia|lia].
  apply wr_Done_inv in Hwr as [Hi _].
  destruct (Z.eq_dec where_ (mysize s)) as [E|E]; [lia|].
  destruct (Z.eq_dec (mysize s) (mycapacity s)) as [Hfull|]; [|lia].
  exfalso.
  destruct (Hcols _ _ Hcol) as (col2 & _ & Hf). rewrite Hx in Hf.
  apply bind_Done in Hf as (col3 & H3 & _). unfold memmove in H3.
  destruct (Z.eqb_spec (mysize s - where_) 0); [lia|].
  destruct (Z.leb_spec (where_ + 1 + (mysize s - where_))
              (Z.of_nat (length col))) as [Hle|]; [lia|].
  rewrite andb_false_r in H3. discriminate.
Qed.

Lemma insert_Done (alloc : Z -> bool) (where_ : Z) (row : list val)
    (s s' : soa) (ok : bool) :
  soa_invariant s -> length row = length Ts -> 0 <= where_ ->
  insert alloc where_ row s = Done (ok, s') ->
  soa_invariant s' /\
  if ok then
    where_ <= mysize s /\ mysize s' = mysize s + 1 /\
    (forall K i v, 0 <= i < where_ ->
       at_ K i s = Done v -> at_ K i s' = Done v) /\
    (forall K v, row !! K = Some v -> at_ K where_ s' = Done v) /\
    (forall K i v, where_ <= i < mysize s ->
       at_ K i s = Done v -> at_ K (i + 1) s' = Done v)
  else
    mysize s' = mysize s /\ rows_agree s s' /\
    (s' = s \/ mysize s < where_).
Proof.
  intros Hinv Hrow Hw H. unfold insert in H.
  apply bind_Done in H as ([ok1 s1] & Hgrow & H).
  apply grow_if_full_spec in Hgrow; [|exact Hinv].
  destruct ok1; cbn [negb] in H.
  + destruct Hgrow as (Hinv1 & Hsize1 & Hrows1 & Hcap1).
    destruct (Z.ltb_spec (mysize s1) where_) as [Hpast|Hin].
    * injection H as <- <-. split; [exact Hinv1|].
      split; [exact Hsize1|]. split; [exact Hrows1|]. right. lia.
    * apply bind_Done in H as (cols & Hcols & H). injection H as <- <-.
      pose proof (insert_needs_room where_ row s1 cols Hinv1 Hrow ltac:(lia) Hcols)
        as Hroom.
      destruct (insert_spec alloc where_ row s1 Hinv1 Hrow ltac:(lia) Hroom)
        as (s' & H & Hinv' & Hsize' & Hcap' & Hlook).
      assert (E : s' = mk_soa (size_t (mysize s1 + 1)) (mycapacity s1) cols).
      { unfold insert, grow_if_full in H.
        destruct (Z.eqb_spec (mysize s1) (mycapacity s1)); [lia|].
        cbn [mbind outcome_bind negb] in H.
        destruct (Z.ltb_spec (mysize s1) where_); [lia|].
        rewrite Hcols in H. injection H as <-. reflexivity. }
      rewrite <- E. split; [exact Hinv'|].
      split; [lia|]. split; [lia|].
      pose proof (soa_size_le_capacity _ Hinv) as Hsz.
      split; [|split].
      -- intros K i v Hi Hv. apply Hrows1 in Hv; [|lia]. revert v Hv.
         apply at_lookup; [lia|lia|]. rewrite Hlook by lia.
         destruct (Z.ltb_spec i where_); [reflexivity|lia].
      -- intros K v Hv. apply at_column. split; [lia|].
         rewrite Hlook by lia.
         destruct (Z.ltb_spec where_ where_); [lia|].
         rewrite Z.eqb_refl. exact Hv.
      -- intros K i v Hi Hv. apply Hrows1 in Hv; [|lia]. revert v Hv.
         apply at_lookup; [lia|lia|]. rewrite Hlook by lia.
         destruct (Z.ltb_spec (i + 1) where_); [lia|].
         destruct (Z.eqb_spec (i + 1) where_); [lia|]. f_equal. lia.
  + injection H as <- <-. destruct Hgrow as [-> _].
    split; [exact Hinv|]. split; [reflexivity|].
    split; [intros K i v _ Hv; exact Hv|]. left. reflexivity.
Qed.


(** X7.  [insert(where, row...)] followed by [erase_shift(where)] gives
    back the rows there were, when the insertion leaves the container
    below capacity. *)
Theorem insert_then_erase_shift (alloc : Z -> bool) (where_ : Z)
    (row : list val) (s s1 : soa) :
  soa_invariant s -> length row = length Ts -> 0 <= where_ ->
  insert alloc where_ row s = Done (true, s1) ->
  size s1 < capacity s1 ->
  exists s2, erase_shift where_ s1 = Done s2 /\ soa_invariant s2 /\
    size s2 = size s /\ capacity s2 = capacity s1 /\ rows_agree s s2.
Proof.
  unfold size, capacity. intros Hinv Hrow Hw Hins Hroom.
  destruct (insert_Done alloc where_ row s s1 true Hinv Hrow Hw Hins)
    as (Hinv1 & Hle & Hsize1 & Hbefore & _ & Hafter).
  destruct (erase_shift_spec where_ s1 Hinv1 ltac:(lia) Hroom)
    as (s2 & H & Hinv2 & Hsize2 & Hcap2 & Hcols).
  exists s2. split; [exact H|]. split; [exact Hinv2|].
  split; [lia|]. split; [exact Hcap2|].
  intros K i v Hi Hv.
  destruct (Z.ltb_spec i where_) as [Hlt|Hge].
  - apply Hbefore in Hv; [|lia]. revert v Hv.
    apply at_lookup; [lia|lia|]. rewrite Hcols by lia.
    destruct (Z.ltb_spec i where_); [reflexivity|lia].
  - apply Hafter in Hv; [|lia]. revert v Hv.
    apply at_lookup; [lia|lia|]. rewrite Hcols by lia.
    destruct (Z.ltb_spec i where_); [lia|reflexivity].
Qed.

(** *** [swap_entries] and [erase_swap] *)

Lemma swapped_involutive (i j : Z) (col : list val) :
  0 <= i < Z.of_nat (length col) -> 0 <= j < Z.of_nat (length col) ->
  swapped i j (swapped i j col) = col.
Proof.
  intros Hi Hj. apply list_eq. intros x.
  rewrite <- (Nat2Z.id x).
  rewrite swapped_lookup by (rewrite ?swapped_length; lia).
  rewrite !swapped_lookup by lia.
  rewrite !Z.eqb_refl.
  destruct (Z.eqb_spec (Z.of_nat x) j) as [E|E].
  - destruct (Z.eqb_spec i j); subst; reflexivity.
  - destruct (Z.eqb_spec (Z.of_nat x) i) as [E'|E'].
    + destruct (Z.eqb_spec j j); [|lia]. subst. reflexivity.
    + reflexivity.
Qed.

Lemma swap_entries_spec (first second : Z) (s : soa) :
  soa_invariant s -> 0 <= first < mysize s -> 0 <= second < mysize s ->
  swap_entries first second s
  = Done (mk_soa (mysize s) (mycapacity s)
            (swapped first second <$> mydata s)).
Proof.
  intros Hinv Hf Hs. pose proof (soa_size_le_capacity _ Hinv) as Hsz.
  unfold swap_entries.
  destruct (Z.leb_spec (mysize s) first); [lia|].
  destruct (Z.leb_spec (mysize s) second); [lia|]. simpl.
  unfold base_swap_entries.
  rewrite (each_column_fmap _ (swapped first second)); [reflexivity|].
  apply Forall_lookup. intros K col Hcol.
  pose proof (Forall_lookup_1 _ _ _ _ (soa_column_length _ Hinv) Hcol) as Hl.
  cbv beta in Hl. apply swap_cells_swapped; lia.
Qed.

Lemma swapped_shape (i j : Z) (s : soa) (n : Z) :
  soa_invariant s -> 0 <= n <= mycapacity s ->
  soa_invariant (mk_soa n (mycapacity s) (swapped i j <$> mydata s)).
Proof.
  intros [Hsz H16 Hmax Hn Hl] Hn'. split; simpl; try assumption.
  - rewrite length_fmap. exact Hn.
  - apply Forall_fmap. eapply Forall_impl; [exact Hl|].
    intros col Hcol. simpl. rewrite swapped_length. exact Hcol.
Qed.

Lemma rd_lookup {A : Type} (a b : list A) (y z : Z) :
  0 <= y -> 0 <= z -> a !! Z.to_nat y = b !! Z.to_nat z -> rd a y = rd b z.
Proof.
  intros Hy Hz E. destruct (b !! Z.to_nat z) as [v|] eqn:Ez.
  - rewrite (proj2 (rd_Done a y v)), (proj2 (rd_Done b z v)); auto.
  - rewrite !rd_out_of_range; [reflexivity| |].
    + apply lookup_ge_None_1 in Ez. lia.
    + apply lookup_ge_None_1 in E. lia.
Qed.

Lemma at_swapped (K : nat) (x i j n : Z) (s : soa) :
  soa_invariant s -> 0 <= i < mysize s -> 0 <= j < mysize s -> 0 <= x ->
  at_ K x (mk_soa n (mycapacity s) (swapped i j <$> mydata s))
  = if x =? j then at_ K i s else if x =? i then at_ K j s else at_ K x s.
Proof.
  intros Hinv Hi Hj Hx. pose proof (soa_size_le_capacity _ Hinv) as Hsz.
  unfold at_. rewrite column_fmap by apply swapped_nil.
  destruct (decide (K < length Ts)%nat) as [HK|HK].
  - pose proof (column_length K s Hinv HK) as Hl.
    assert (E : forall y z, 0 <= y -> 0 <= z ->
              swapped i j (column K s) !! Z.to_nat y
              = column K s !! Z.to_nat z ->
              rd (swapped i j (column K s)) y = rd (column K s) z)
      by (intros y z; apply rd_lookup).
    destruct (Z.eqb_spec x j) as [->|Hxj].
    + apply E; [lia|lia|]. rewrite swapped_lookup by lia.
      rewrite Z.eqb_refl. reflexivity.
    + destruct (Z.eqb_spec x i) as [->|Hxi].
      * apply E; [lia|lia|]. rewrite swapped_lookup by lia.
        destruct (Z.eqb_spec i j); [lia|]. rewrite Z.eqb_refl. reflexivity.
      * apply rd_ext; [apply swapped_length|].
        rewrite swapped_lookup by lia.
        destruct (Z.eqb_spec x j); [lia|].
        destruct (Z.eqb_spec x i); [lia|]. reflexivity.
  - rewrite column_out_of_range by (exact Hinv || lia).
    rewrite swapped_nil, !rd_out_of_range by (simpl; lia).
    destruct (x =? j); [reflexivity|]. destruct (x =? i); reflexivity.
Qed.

(** X8.  [swap_entries(first, second)] exchanges the two rows in every
    column and leaves the other rows; with an index past the end it does
    nothing; done twice it gives the container back. *)
Theorem swap_entries_exchanges_rows (first second : Z) (s : soa) :
  soa_invariant s -> 0 <= first -> 0 <= second ->
  (size s <= first \/ size s <= second ->
   swap_entries first second s = Done s) /\
  (first < size s -> second < size s ->
   exists s', swap_entries first second s = Done s' /\ soa_invariant s' /\
     size s' = size s /\ capacity s' = capacity s /\
     (forall K, at_ K first s' = at_ K second s /\
                at_ K second s' = at_ K first s) /\
     (forall K i, 0 <= i -> i <> first -> i <> second ->
        at_ K i s' = at_ K i s) /\
     swap_entries first second s' = Done s).
Proof.
  unfold size, capacity. intros Hinv Hf Hs. split.
  - intros Hout. unfold swap_entries.
    destruct (Z.leb_spec (mysize s) first); [reflexivity|].
    destruct (Z.leb_spec (mysize s) second); [reflexivity|lia].
  - intros Hf' Hs'. pose proof (soa_size_le_capacity _ Hinv) as Hsz.
    eexists. split; [apply swap_entries_spec; (exact Hinv || lia)|].
    pose proof (swapped_shape first second s (mysize s) Hinv Hsz) as Hinv'.
    split; [exact Hinv'|]. split; [reflexivity|]. split; [reflexivity|].
    split; [|split].
    + intros K. rewrite !at_swapped by (exact Hinv || lia).
      rewrite !Z.eqb_refl.
      destruct (Z.eqb_spec first second) as [->|]; auto.
    + intros K i Hi Hne1 Hne2. rewrite at_swapped by (exact Hinv || lia).
      destruct (Z.eqb_spec i second); [lia|].
      destruct (Z.eqb_spec i first); [lia|]. reflexivity.
    + rewrite swap_entries_spec by (exact Hinv' || (simpl; lia)).
      cbn [mysize mycapacity mydata]. rewrite <- list_fmap_compose.
      rewrite (list_fmap_ext _ id (mydata s)).
      * rewrite list_fmap_id. destruct s. reflexivity.
      * intros K col Hcol. cbn [compose id].
        pose proof (Forall_lookup_1 _ _ _ _ (soa_column_length _ Hinv) Hcol)
          as Hl.
        cbv beta in Hl. apply swapped_involutive; lia.
Qed.

(** X9.  [erase_swap(where)] on a row that exists puts the last row in
    its place, drops the last place and leaves the other rows where they
    are, so the order of the rows is not kept; for a position past the end
    it does nothing. *)
Theorem erase_swap_moves_last_row (where_ : Z) (s : soa) :
  soa_invariant s -> 0 <= where_ ->
  (size s <= where_ -> erase_swap where_ s = Done s) /\
  (where_ < size s ->
   exists s', erase_swap where_ s = Done s' /\ soa_invariant s' /\
     size s' = size s - 1 /\ capacity s' = capacity s /\
     (forall K, where_ < size s - 1 ->
        at_ K where_ s' = at_ K (size s - 1) s) /\
     (forall K i, 0 <= i < size s - 1 -> i <> where_ ->
        at_ K i s' = at_ K i s)).
Proof.
  unfold size, capacity. intros Hinv Hw. split.
  - intros Hout. unfold erase_swap.
    destruct (Z.leb_spec (mysize s) where_); [reflexivity|lia].
  - intros Hlt. pose proof (soa_size_le_capacity _ Hinv) as Hsz.
    pose proof (soa_capacity_range _ Hinv) as Hmax.
    eexists. split.
    { apply erase_swap_spec; [lia|lia|].
      eapply Forall_impl; [apply (soa_column_length _ Hinv)|].
      intros col Hcol. simpl in Hcol. lia. }
    split; [apply swapped_shape; [exact Hinv|lia]|].
    split; [reflexivity|]. split; [reflexivity|]. split.
    + intros K Hne. rewrite at_swapped by (exact Hinv || lia).
      destruct (Z.eqb_spec where_ (mysize s - 1)); [lia|].
      rewrite Z.eqb_refl. reflexivity.
    + intros K i Hi Hne. rewrite at_swapped by (exact Hinv || lia).
      destruct (Z.eqb_spec i (mysize s - 1)); [lia|].
      destruct (Z.eqb_spec i where_); [lia|]. reflexivity.
Qed.

(** *** [resize], [emplace_back] and [shrink_to_fit] *)

Lemma construct_cells_Done (b e : Z) (v : val) (col col' : list val) :
  0 <= b ->
  construct_cells b e v col = Done col' ->
  length col' = length col /\
  (b < e -> e <= Z.of_nat (length col)) /\
  forall i, 0 <= i ->
    col' !! Z.to_nat i
    = if (b <=? i) && (i <? e) then Some v else col !! Z.to_nat i.
Proof.
  intros Hb. unfold construct_cells.
  destruct (Z.ltb_spec b e) as [Hlt|Hge].
  - destruct (Z.leb_spec e (Z.of_nat (length col))) as [Hle|]; [|discriminate].
    intros [= <-].
    assert (L1 : length (take (Z.to_nat b) col) = Z.to_nat b)
      by (rewrite length_take; lia).
    split; [|split; [auto|]].
    + rewrite !length_app, L1, length_replicate, length_drop. lia.
    + intros i Hi. destruct (Z.leb_spec b i) as [H1|H1]; simpl.
      * rewrite lookup_app_r by lia. rewrite L1.
        destruct (Z.ltb_spec i e) as [H2|H2].
        -- rewrite lookup_app_l by (rewrite length_replicate; lia).
           apply lookup_replicate_2. lia.
        -- rewrite lookup_app_r by (rewrite length_replicate; lia).
           rewrite length_replicate, lookup_drop. f_equal. lia.
      * rewrite lookup_app_l by lia. apply lookup_take_lt. lia.
  - intros [= <-]. split; [reflexivity|]. split; [lia|].
    intros i Hi. destruct (Z.leb_spec b i); destruct (Z.ltb_spec i e);
      simpl; try reflexivity. lia.
Qed.

Lemma each_column_with_fmap {X Y : Type} (g : X -> Y)
    (f : Y -> list val -> outcome (list val)) :
  forall (args : list X) (cols : list (list val)),
    each_column_with f (g <$> args) cols
    = each_column_with (fun x => f (g x)) args cols.
Proof.
  intros args cols. revert args.
  induction cols as [|c cols IH]; intros [|x args]; try reflexivity.
  cbn [fmap list_fmap each_column_with]. destruct (f (g x) c); try reflexivity.
  cbn [mbind outcome_bind]. fold (fmap g args). rewrite IH. reflexivity.
Qed.

Lemma emplace_back_push_back (alloc : Z -> bool) (s : soa) :
  emplace_back alloc s = push_back alloc (default_value <$> Ts) s.
Proof.
  unfold emplace_back, push_back, base_emplace_back_default, base_push_back.
  destruct (grow_if_full alloc s) as [[ok s1]| | |]; try reflexivity.
  cbn [mbind outcome_bind]. destruct (negb ok); [reflexivity|].
  rewrite each_column_with_fmap. reflexivity.
Qed.

(** The columns after a range of cells has been constructed. *)
Lemma construct_columns_Done {X : Type} (g : X -> val) (b e : Z)
    (args : list X) (s : soa) (cols : list (list val)) :
  soa_invariant s -> 0 <= b ->
  each_column_with (fun x => construct_cells b e (g x)) args (mydata s)
  = Done cols ->
  length cols = length Ts /\
  Forall (fun col => Z.of_nat (length col) = mycapacity s) cols /\
  (b < e -> args <> [] -> e <= mycapacity s) /\
  forall (K : nat) (i : Z), 0 <= i ->
    column K (mk_soa e (mycapacity s) cols) !! Z.to_nat i
    = match args !! K with
      | Some x =>
          if (b <=? i) && (i <? e) && (K <? length Ts)%nat then Some (g x)
          else column K s !! Z.to_nat i
      | None => column K s !! Z.to_nat i
      end.
Proof.
  intros Hinv Hb H. apply each_column_with_Done in H as [Hlen Hcols].
  pose proof Hinv as [Hsz H16 Hmax Hn Hl].
  assert (Hcol : forall K col col', mydata s !! K = Some col ->
            cols !! K = Some col' ->
            match args !! K with
            | Some x => construct_cells b e (g x) col = Done col'
            | None => col' = col
            end).
  { intros K col col' HK HK'. destruct (Hcols K col HK) as (col2 & HK2 & Hf).
    rewrite HK' in HK2. injection HK2 as <-. exact Hf. }
  split; [lia|]. split; [|split].
  - apply (columns_shape _ (mydata s)); [exact Hlen| |exact Hl].
    intros K col col' HK HK'. specialize (Hcol K col col' HK HK').
    destruct (args !! K); [|subst; reflexivity].
    apply construct_cells_Done in Hcol as [Hlc _]; [exact Hlc|exact Hb].
  - intros Hlt Hargs. pose proof key_column_exists as HT.
    destruct (lookup_lt_is_Some_2 (mydata s) 0) as [col HK]; [lia|].
    destruct (lookup_lt_is_Some_2 cols 0) as [col' HK']; [lia|].
    specialize (Hcol 0%nat col col' HK HK').
    destruct args as [|x args]; [contradiction|]. simpl in Hcol.
    apply construct_cells_Done in Hcol as (_ & Hle & _); [|exact Hb].
    rewrite <- (Forall_lookup_1 _ _ _ _ Hl HK). auto.
  - intros K i Hi. unfold column. cbn [mydata].
    destruct (mydata s !! K) as [col|] eqn:HK.
    + destruct (lookup_lt_is_Some_2 cols K) as [col' HK'].
      { apply lookup_lt_Some in HK. lia. }
      rewrite HK'. specialize (Hcol K col col' HK HK').
      destruct (args !! K) as [x|]; [|subst; reflexivity].
      apply construct_cells_Done in Hcol as (_ & _ & Hlook); [|exact Hb].
      rewrite Hlook by exact Hi.
      apply lookup_lt_Some in HK.
      destruct (Nat.ltb_spec K (length Ts)); [|lia].
      rewrite andb_true_r. reflexivity.
    + apply lookup_ge_None_1 in HK.
      rewrite (lookup_ge_None_2 cols K) by lia.
      destruct (args !! K); [|reflexivity].
      destruct (Nat.ltb_spec K (length Ts)); [lia|].
      rewrite andb_false_r. reflexivity.
Qed.

Lemma soa_invariant_quantized (s : soa) :
  soa_invariant s -> soa_quantized s.
Proof.
  intros [Hsz H16 [Hmax _] Hn Hl]. split; try assumption.
  eapply Forall_impl; [exact Hl|]. intros col Hcol. simpl in Hcol. lia.
Qed.

Lemma reserve_quantized (alloc : Z -> bool) (n : Z) (s s1 : soa) (ok : bool) :
  soa_quantized s -> 0 <= n < 2 ^ 64 ->
  reserve alloc n s = Done (ok, s1) ->
  soa_quantized s1 /\ mysize s1 = mysize s.
Proof.
  intros Hq Hn H. pose proof Hq as [Hsz H16 Hmax Hcols Hl].
  destruct (multiple_of_16_spec n Hn) as [HM HM16].
  unfold reserve in H.
  set (N := if multiple_of_16 n =? 0 then 16 else multiple_of_16 n) in *.
  assert (HN : 0 < N < 2 ^ 64 /\ N mod 16 = 0).
  { subst N. destruct (Z.eqb_spec (multiple_of_16 n) 0); [pows; split; [lia|reflexivity]|].
    split; [lia|assumption]. }
  destruct (Z.leb_spec N (mycapacity s)) as [Hle|Hgt].
  { injection H as <- <-. auto. }
  destruct (aligned_malloc alloc _); simpl in H.
  - apply bind_Done in H as (cols & Hdivy & H). injection H as <- <-.
    apply divy_buffer_shape in Hdivy as [Hlen Hall]; [|lia|lia].
    split; [|reflexivity]. split; simpl; try assumption; try lia; tauto.
  - injection H as <- <-. auto.
Qed.

(** The arrays in which a range of cells has been constructed hold the
    range. *)
Lemma construct_reach {X : Type} (g : X -> val) (b e : Z) (args : list X)
    (cols cols' : list (list val)) :
  0 <= b -> b < e ->
  each_column_with (fun x => construct_cells b e (g x)) args cols
  = Done cols' ->
  (length cols <= length args)%nat ->
  Forall (fun col => e <= Z.of_nat (length col)) cols.
Proof.
  intros Hb Hlt H Hlen. apply each_column_with_Done in H as [_ Hcols].
  apply Forall_lookup. intros K col HK.
  destruct (Hcols K col HK) as (col' & _ & Hf).
  destruct (lookup_lt_is_Some_2 args K) as [x Hx].
  { apply lookup_lt_Some in HK. lia. }
  rewrite Hx in Hf. apply construct_cells_Done in Hf as (_ & Hle & _); auto.
Qed.

(** A [reserve(n)] after which the first [n] cells of every array lie
    inside the block has not wrapped around: the block is short of the
    arrays by less than sixteen rows. *)
Lemma reserve_constructed (alloc : Z -> bool) (n : Z) (s s1 : soa) :
  soa_invariant s -> 0 <= n < 2 ^ 64 -> mysize s < n ->
  reserve alloc n s = Done (true, s1) ->
  Forall (fun col => n <= Z.of_nat (length col)) (mydata s1) ->
  size_per_entry * (if multiple_of_16 n =? 0 then 16 else multiple_of_16 n)
    < 2 ^ 64.
Proof.
  intros Hinv Hn Hlt H Hall.
  pose proof Hinv as [Hsz H16 [Hmax Hblock] Hcols Hl].
  pose proof size_per_entry_pos as Hspe. pose proof row_size as Hrow.
  destruct (multiple_of_16_spec n Hn) as [HM HM16].
  unfold reserve in H.
  set (N := if multiple_of_16 n =? 0 then 16 else multiple_of_16 n) in *.
  assert (HN : 0 < N < 2 ^ 64 /\ N mod 16 = 0).
  { subst N. destruct (Z.eqb_spec (multiple_of_16 n) 0); [pows; split; [lia|reflexivity]|].
    split; [lia|assumption]. }
  destruct (Z.leb_spec N (mycapacity s)) as [Hle|Hgt].
  { unfold PTRDIFF_MAX in Hblock. pows. nia. }
  destruct (aligned_malloc alloc _) eqn:Ea; simpl in H; [|discriminate].
  apply bind_Done in H as (cols & Hdivy & H). injection H as <-.
  simpl in Hall.
  pose proof (divy_buffer_shape _ N (mysize s) ltac:(lia) ltac:(lia) _ _ _ _
                Hdivy) as [Hlen Hshape].
  assert (HnN : n <= N).
  { pose proof has_key_column as HT.
    destruct cols as [|c cols]; [destruct Ts; [contradiction|discriminate]|].
    apply Forall_cons in Hall as [Hc _].
    apply Forall_cons in Hshape as [Hc' _]. lia. }
  assert (Hshort : N - n <= 15).
  { destruct (Z.le_gt_cases n (2 ^ 64 - 16)).
    - pose proof (multiple_of_16_ge n ltac:(lia)). subst N.
      destruct (Z.eqb_spec (multiple_of_16 n) 0); lia.
    - pose proof (Z.div_mod N 16 ltac:(lia)). pows. lia. }
  pose proof (divy_buffer_reach _ N (mysize s) n ltac:(lia) ltac:(lia)
                ltac:(lia) Ts 0 (mydata s) cols sizeof_pos has_key_column
                Hdivy Hall) as Hreach.
  fold size_per_entry in Hreach.
  pose proof (size_t_range (size_per_entry * N)) as Hrange.
  rewrite (size_t_no_wrap (size_per_entry * N) (size_per_entry * n)) in Hrange.
  - lia.
  - nia.
  - lia.
  - unfold PTRDIFF_MAX in Hrow. pows. nia.
Qed.

Lemma resize_Done (alloc : Z -> bool) (n : Z) (s s' : soa) (ok : bool) :
  soa_invariant s -> 0 <= n < 2 ^ 64 ->
  resize alloc n s = Done (ok, s') ->
  soa_invariant s' /\
  if ok then
    mysize s' = n /\
    (forall K i v, 0 <= i < mysize s -> i < n ->
       at_ K i s = Done v -> at_ K i s' = Done v) /\
    (forall (K : nat) t i, Ts !! K = Some t -> mysize s <= i < n ->
       at_ K i s' = Done (default_value t))
  else s' = s.
Proof.
  intros Hinv Hn H. pose proof (soa_size_le_capacity _ Hinv) as Hsz.
  unfold resize in H.
  destruct (Z.ltb_spec (mysize s) n) as [Hgrow|Hle].
  - apply bind_Done in H as ([ok1 s1] & Hres & H).
    destruct ok1; cbn [negb] in H.
    + apply bind_Done in H as (cols & Hcols & H). injection H as <- <-.
      unfold construct_range in Hcols.
      assert (Hs1 : soa_invariant s1 /\ mysize s1 = mysize s /\
                    rows_agree s s1).
      { destruct (mycapacity s <? n).
        - destruct (reserve_quantized _ _ _ _ _
                      (soa_invariant_quantized _ Hinv) Hn Hres) as [Hq Hsz1].
          assert (Hall : Forall (fun col => n <= Z.of_nat (length col))
                           (mydata s1)).
          { apply (construct_reach default_value (mysize s1) n Ts (mydata s1)
                     cols); [lia|lia|exact Hcols|].
            rewrite (quant_columns _ Hq). lia. }
          pose proof (reserve_constructed _ _ _ _ Hinv Hn Hgrow Hres Hall)
            as Hfit.
          apply reserve_spec in Hres as (? & ? & ? & _); auto.
        - injection Hres as <-. split; [exact Hinv|].
          split; [reflexivity|]. intros K i v _ Hv. exact Hv. }
      destruct Hs1 as (Hinv1 & Hsize1 & Hrows1).
      apply construct_columns_Done in Hcols
        as (Hlen & Hshape & Hfit & Hlook); [|exact Hinv1|lia].
      pose proof has_key_column as HT.
      specialize (Hfit ltac:(lia) HT).
      split.
      { destruct Hinv1 as [? ? ? ? ?]. split; simpl; try assumption. lia. }
      split; [reflexivity|]. split.
      * intros K i v Hi Hin Hv. apply Hrows1 in Hv; [|exact Hi].
        revert v Hv. apply at_lookup; [lia|lia|]. rewrite Hlook by lia.
        destruct (Ts !! K); [|reflexivity].
        destruct (Z.leb_spec (mysize s1) i); [lia|]. reflexivity.
      * intros K t i HK Hi. apply at_column. split; [lia|].
        rewrite Hlook by lia. rewrite HK.
        apply lookup_lt_Some in HK.
        destruct (Z.leb_spec (mysize s1) i); [|lia].
        destruct (Z.ltb_spec i n); [|lia].
        destruct (Nat.ltb_spec K (length Ts)); [|lia]. reflexivity.
    + injection H as <- <-.
      destruct (mycapacity s <? n); [|discriminate].
      rewrite (reserve_failure _ _ _ _ Hres). auto.
  - destruct (Z.ltb_spec n (mysize s)) as [Hshrink|Hsame].
    + injection H as <- <-. split.
      { destruct Hinv as [? ? ? ? ?]. split; simpl; try assumption. lia. }
      split; [reflexivity|]. split.
      * intros K i v _ _ Hv. exact Hv.
      * intros K t i _ Hi. lia.
    + injection H as <- <-. split; [exact Hinv|]. split; [lia|]. split.
      * intros K i v _ _ Hv. exact Hv.
      * intros K t i _ Hi. lia.
Qed.

(** X10.  [resize(n)], when it returns [true], leaves exactly [n] rows:
    the rows below the old size and [n] keep their values and the rows
    from the old size on hold default-constructed values; when it returns
    [false] nothing has changed.  [clear()] leaves no row and the
    capacity. *)
Theorem resize_sets_size (alloc : Z -> bool) (n : Z) (s s' : soa)
    (ok : bool) :
  soa_invariant s -> 0 <= n < 2 ^ 64 ->
  resize alloc n s = Done (ok, s') ->
  soa_invariant s' /\
  (if ok then
     size s' = n /\
     (forall K i v, 0 <= i < size s -> i < n ->
        at_ K i s = Done v -> at_ K i s' = Done v) /\
     (forall (K : nat) t i, Ts !! K = Some t -> size s <= i < n ->
        at_ K i s' = Done (default_value t))
   else s' = s) /\
  soa_invariant (clear s) /\ size (clear s) = 0 /\
  capacity (clear s) = capacity s.
Proof.
  intros Hinv Hn H.
  destruct (resize_Done alloc n s s' ok Hinv Hn H) as [Hinv' Hrest].
  split; [exact Hinv'|]. split; [exact Hrest|].
  split; [|split; reflexivity].
  destruct Hinv as [? ? ? ? ?]. split; simpl; try assumption. lia.
Qed.

(** X11.  A successful [shrink_to_fit()] keeps the rows and leaves the
    least capacity that is a multiple of 16 and holds them; an empty
    container gives up its arrays; a second call changes nothing and asks
    for no memory. *)
Theorem shrink_to_fit_is_minimal (alloc : Z -> bool) (s s1 : soa) :
  soa_invariant s ->
  shrink_to_fit alloc s = Done (true, s1) ->
  soa_invariant s1 /\ size s1 = size s /\ rows_agree s s1 /\
  capacity s1 mod 16 = 0 /\ size s <= capacity s1 < size s + 16 /\
  (size s = 0 -> capacity s1 = 0 /\ Forall (fun col => col = []) (mydata s1)) /\
  shrink_to_fit refuse s1 = Done (true, s1).
Proof.
  unfold size, capacity. intros Hinv H.
  pose proof (soa_size_le_capacity _ Hinv) as Hsz.
  pose proof (soa_capacity_bound _ Hinv) as Hmax.
  pose proof H as Hspec.
  apply shrink_to_fit_spec in Hspec as (Hinv1 & Hsize1 & Hcap1 & Hrows1);
    [|exact Hinv].
  pose proof (multiple_of_16_ge (mysize s) ltac:(lia)) as HM.
  split; [exact Hinv1|]. split; [exact Hsize1|]. split; [exact Hrows1|].
  split; [apply (soa_capacity_16 _ Hinv1)|]. split; [lia|]. split.
  - intros Hempty.
    assert (Hc0 : mycapacity s1 = 0).
    { pose proof (soa_capacity_16 _ Hinv1) as H16.
      pose proof (Z.div_mod (mycapacity s1) 16 ltac:(lia)). lia. }
    split; [exact Hc0|].
    eapply Forall_impl; [apply (soa_column_length _ Hinv1)|].
    intros col Hcol. simpl in Hcol. destruct col; [reflexivity|].
    simpl in Hcol. lia.
  - unfold shrink_to_fit. rewrite Hsize1, Hcap1, Z.eqb_refl. reflexivity.
Qed.

(** *** The store invariant along the public operations *)

Lemma resize_with_invariant (alloc : Z -> bool) (n : Z) (initvals : list val)
    (s s' : soa) (ok : bool) :
  soa_invariant s -> 0 <= n < 2 ^ 64 ->
  resize_with alloc n initvals s = Done (ok, s') ->
  size_per_entry * mycapacity s' <= PTRDIFF_MAX -> soa_invariant s'.
Proof.
  intros Hinv Hn H Hblock. pose proof (soa_size_le_capacity _ Hinv) as Hsz.
  unfold resize_with in H.
  destruct (Z.ltb_spec (mysize s) n) as [Hgrow|Hle].
  - apply bind_Done in H as ([ok1 s1] & Hres & H).
    assert (Hinv1 : mycapacity s' = mycapacity s1 -> soa_invariant s1).
    { intros Hc. rewrite Hc in Hblock. destruct (mycapacity s <? n).
      - destruct ok1.
        + pose proof (reserve_fit _ _ _ _ Hinv Hres Hblock) as Hfit.
          apply reserve_spec in Hres as (? & _); auto.
        + rewrite (reserve_failure _ _ _ _ Hres). exact Hinv.
      - injection Hres as <- <-. exact Hinv. }
    destruct ok1; cbn [negb] in H.
    + apply bind_Done in H as (cols & Hcols & H). injection H as <- <-.
      specialize (Hinv1 eq_refl).
      unfold construct_range_with in Hcols.
      apply (construct_columns_Done (fun v => v)) in Hcols
        as (Hlen & Hshape & _); [|exact Hinv1|].
      * destruct Hinv1 as [? ? ? ? ?]. split; simpl; assumption.
      * apply (soa_size_le_capacity _ Hinv1).
    + injection H as <- <-. apply Hinv1. reflexivity.
  - destruct (Z.ltb_spec n (mysize s)).
    + injection H as <- <-.
      destruct Hinv as [? ? ? ? ?]. split; simpl; try assumption. lia.
    + injection H as <- <-. exact Hinv.
Qed.

Lemma soa_step_invariant (s s' : soa) :
  soa_invariant s -> soa_step s s' ->
  size_per_entry * mycapacity s' <= PTRDIFF_MAX -> soa_invariant s'.
Proof.
  intros Hinv Hstep Hblock. pose proof (soa_size_le_capacity _ Hinv) as Hsz.
  destruct Hstep as [ | alloc n ok s' Hn H | alloc ok s' H
                    | alloc n ok s' Hn H | alloc n initvals ok s' Hn H
                    | alloc row ok s' Hrow H | alloc ok s' H
                    | alloc w row ok s' Hw Hrow H | s' H | w s' Hw H
                    | w s' Hw H | a b s' Ha Hb H ].
  - destruct Hinv as [? ? ? ? ?]. split; simpl; try assumption. lia.
  - destruct ok.
    + pose proof (reserve_fit _ _ _ _ Hinv H Hblock) as Hfit.
      apply reserve_spec in H as (? & _); auto.
    + rewrite (reserve_failure _ _ _ _ H). exact Hinv.
  - destruct ok.
    + apply shrink_to_fit_spec in H as (? & _); auto.
    + unfold shrink_to_fit in H.
      destruct (_ =? mycapacity s); [discriminate|].
      destruct (0 <? _); [|discriminate].
      destruct (negb _); [injection H as <-; exact Hinv|].
      destruct (divy_buffer _ _ _ _ _ _); discriminate.
  - apply (resize_Done alloc n s s' ok Hinv Hn H).
  - apply (resize_with_invariant alloc n initvals s s' ok Hinv Hn H Hblock).
  - apply push_back_spec_full in H; [|exact Hinv|exact Hrow].
    destruct ok; [apply H|]. destruct H as [-> _]. exact Hinv.
  - rewrite emplace_back_push_back in H.
    apply push_back_spec_full in H;
      [|exact Hinv|apply length_fmap].
    destruct ok; [apply H|]. destruct H as [-> _]. exact Hinv.
  - apply (insert_Done alloc w row s s' ok Hinv Hrow ltac:(lia) H).
  - rewrite pop_back_spec in H by exact Hinv. injection H as <-.
    destruct Hinv as [? ? ? ? ?]. split; simpl; try assumption. lia.
  - destruct (Z.le_gt_cases (mysize s) w) as [Hout|Hin].
    + unfold erase_swap in H.
      destruct (Z.leb_spec (mysize s) w); [|lia].
      injection H as <-. exact Hinv.
    + rewrite erase_swap_spec in H.
      * injection H as <-. apply swapped_shape; [exact Hinv|lia].
      * lia.
      * pose proof (soa_capacity_range _ Hinv). lia.
      * eapply Forall_impl; [apply (soa_column_length _ Hinv)|].
        intros col Hcol. simpl in Hcol. lia.
  - destruct (Z.le_gt_cases (mysize s) w) as [Hout|Hin].
    + unfold erase_shift in H.
      destruct (Z.leb_spec (mysize s) w); [|lia].
      injection H as <-. exact Hinv.
    + destruct (Z.eq_dec (mysize s) (mycapacity s)) as [Hfull|Hroom].
      * rewrite erase_shift_full in H by (exact Hinv || lia). discriminate.
      * destruct (erase_shift_spec w s Hinv ltac:(lia) ltac:(lia))
          as (s2 & H2 & Hinv2 & _).
        rewrite H2 in H. injection H as <-. exact Hinv2.
  - destruct (Z.le_gt_cases (mysize s) a) as [Hout|Hin1].
    { unfold swap_entries in H.
      destruct (Z.leb_spec (mysize s) a); [|lia].
      injection H as <-. exact Hinv. }
    destruct (Z.le_gt_cases (mysize s) b) as [Hout|Hin2].
    { unfold swap_entries in H.
      destruct (Z.leb_spec (mysize s) b); [|lia].
      rewrite orb_true_r in H. injection H as <-. exact Hinv. }
    rewrite swap_entries_spec in H by (exact Hinv || lia).
    injection H as <-. apply swapped_shape; [exact Hinv|lia].
Qed.

(** *** The quantization invariant, whatever the allocations did *)

Lemma each_column_with_lengths {X : Type}
    (f : X -> list val -> outcome (list val)) (args : list X)
    (cols cols' : list (list val)) (cap : Z) :
  (forall x col col', f x col = Done col' -> length col' = length col) ->
  each_column_with f args cols = Done cols' ->
  Forall (fun col => Z.of_nat (length col) <= cap) cols ->
  length cols' = length cols /\
  Forall (fun col => Z.of_nat (length col) <= cap) cols'.
Proof.
  intros Hf H Hall. apply each_column_with_Done in H as [Hlen Hcols].
  split; [exact Hlen|]. apply Forall_lookup. intros K col' HK.
  destruct (lookup_lt_is_Some_2 cols K) as [col Hcol].
  { apply lookup_lt_Some in HK. lia. }
  destruct (Hcols K col Hcol) as (col2 & HK2 & Hm).
  rewrite HK in HK2. injection HK2 as <-.
  pose proof (Forall_lookup_1 _ _ _ _ Hall Hcol) as Hle. simpl in Hle.
  destruct (args !! K) as [x|]; [rewrite (Hf _ _ _ Hm)|subst]; exact Hle.
Qed.

Lemma each_column_lengths (f : list val -> outcome (list val))
    (cols cols' : list (list val)) (cap : Z) :
  (forall col col', f col = Done col' -> length col' = length col) ->
  each_column f cols = Done cols' ->
  Forall (fun col => Z.of_nat (length col) <= cap) cols ->
  length cols' = length cols /\
  Forall (fun col => Z.of_nat (length col) <= cap) cols'.
Proof.
  intros Hf H Hall. apply each_column_Done in H as [Hlen Hcols].
  split; [exact Hlen|]. apply Forall_lookup. intros K col' HK.
  destruct (lookup_lt_is_Some_2 cols K) as [col Hcol].
  { apply lookup_lt_Some in HK. lia. }
  destruct (Hcols K col Hcol) as (col2 & HK2 & Hm).
  rewrite HK in HK2. injection HK2 as <-.
  pose proof (Forall_lookup_1 _ _ _ _ Hall Hcol) as Hle. simpl in Hle.
  rewrite (Hf _ _ Hm). exact Hle.
Qed.

(** What was done to the key column. *)
Lemma each_column_with_key {X : Type}
    (f : X -> list val -> outcome (list val)) (args : list X) (s : soa)
    (cols' : list (list val)) :
  soa_quantized s -> length args = length Ts ->
  each_column_with f args (mydata s) = Done cols' ->
  exists x col col',
    f x col = Done col' /\ Z.of_nat (length col) <= mycapacity s.
Proof.
  intros Hq Hargs H. pose proof key_column_exists as HT.
  pose proof (quant_columns _ Hq) as Hn.
  pose proof (quant_cells _ Hq) as Hl.
  destruct (mydata s) as [|col cols]; [simpl in Hn; lia|].
  destruct args as [|x args]; [simpl in Hargs; lia|].
  cbn [each_column_with] in H. apply bind_Done in H as (col' & Hf & _).
  apply Forall_cons in Hl as [Hc _]. eauto.
Qed.

Lemma swap_cells_length (i j : Z) (col col' : list val) :
  swap_cells i j col = Done col' -> length col' = length col.
Proof.
  unfold swap_cells. intros H.
  apply bind_Done in H as (a & _ & H). apply bind_Done in H as (b & _ & H).
  apply bind_Done in H as (col1 & H1 & H).
  apply wr_length in H1, H. congruence.
Qed.

Lemma soa_new_quantized : soa_quantized soa_new.
Proof. apply soa_invariant_quantized, soa_new_invariant. Qed.

Lemma shrink_to_fit_quantized (alloc : Z -> bool) (s s' : soa) (ok : bool) :
  soa_quantized s -> shrink_to_fit alloc s = Done (ok, s') -> soa_quantized s'.
Proof.
  intros Hq H. pose proof Hq as [Hsz H16 Hmax Hn Hl].
  assert (Hs : 0 <= mysize s <= 2 ^ 64 - 16).
  { pose proof (Z.div_mod (mycapacity s) 16 ltac:(lia)). pows. lia. }
  pose proof (multiple_of_16_ge _ Hs) as HM.
  destruct (multiple_of_16_spec (mysize s) ltac:(pows; lia)) as [_ HM16].
  unfold shrink_to_fit in H.
  destruct (_ =? mycapacity s); [injection H as <- <-; exact Hq|].
  destruct (Z.ltb_spec 0 (multiple_of_16 (mysize s))) as [Hpos|Hzero].
  - destruct (aligned_malloc alloc _); simpl in H.
    + apply bind_Done in H as (cols & Hdivy & H). injection H as <- <-.
      apply divy_buffer_shape in Hdivy as [Hlen Hall]; [|lia|lia].
      split; simpl; try assumption; pows; lia.
    + injection H as <- <-. exact Hq.
  - injection H as <- <-. split; simpl; try lia; try reflexivity.
    + unfold nullify. rewrite length_map. exact Hn.
    + unfold nullify. apply Forall_forall. intros col Hcol.
      apply list_elem_of_In, in_map_iff in Hcol as (_ & <- & _). reflexivity.
Qed.

Lemma constructed_quantized {X : Type} (g : X -> val) (e size' : Z)
    (args : list X) (s : soa) (cols : list (list val)) :
  soa_quantized s ->
  each_column_with (fun x => construct_cells (mysize s) e (g x)) args (mydata s)
  = Done cols ->
  0 <= size' ->
  (size' <= mycapacity s \/
   mysize s < e /\ size' = e /\ length args = length Ts) ->
  soa_quantized (mk_soa size' (mycapacity s) cols).
Proof.
  intros Hq H Hsize' Hcase. pose proof Hq as [Hsz H16 Hmax Hn Hl].
  assert (Hfit : size' <= mycapacity s).
  { destruct Hcase as [Hle|(Hlt & -> & Hargs)]; [exact Hle|].
    destruct (each_column_with_key _ _ _ _ Hq Hargs H)
      as (x & col & col' & Hf & Hcol).
    apply construct_cells_Done in Hf as (_ & Hle & _); lia. }
  apply each_column_with_lengths with (cap := mycapacity s) in H
    as [Hlen Hall]; [|intros x col col' Hf|exact Hl].
  - split; simpl; try assumption; lia.
  - apply construct_cells_Done in Hf as [Hf _]; [exact Hf|lia].
Qed.

Lemma resize_quantized (alloc : Z -> bool) (n : Z) (s s' : soa) (ok : bool) :
  soa_quantized s -> 0 <= n < 2 ^ 64 ->
  resize alloc n s = Done (ok, s') -> soa_quantized s'.
Proof.
  intros Hq Hn H. pose proof (quant_size _ Hq) as Hsz. unfold resize in H.
  destruct (Z.ltb_spec (mysize s) n) as [Hgrow|Hle].
  - apply bind_Done in H as ([ok1 s1] & Hres & H).
    assert (Hq1 : soa_quantized s1 /\ mysize s1 = mysize s).
    { destruct (mycapacity s <? n).
      - apply (reserve_quantized _ _ _ _ _ Hq Hn Hres).
      - injection Hres as <- <-. auto. }
    destruct Hq1 as [Hq1 Hsize1]. destruct ok1; cbn [negb] in H.
    + apply bind_Done in H as (cols & Hcols & H). injection H as <- <-.
      apply (constructed_quantized default_value n n Ts s1 cols Hq1 Hcols);
        [lia|]. right. auto with lia.
    + injection H as <- <-. exact Hq1.
  - destruct (Z.ltb_spec n (mysize s)).
    + injection H as <- <-.
      destruct Hq as [? ? ? ? ?]. split; simpl; try assumption. lia.
    + injection H as <- <-. exact Hq.
Qed.

Lemma resize_with_quantized (alloc : Z -> bool) (n : Z) (initvals : list val)
    (s s' : soa) (ok : bool) :
  soa_quantized s -> 0 <= n < 2 ^ 64 ->
  resize_with alloc n initvals s = Done (ok, s') -> soa_quantized s'.
Proof.
  intros Hq Hn H. pose proof (quant_size _ Hq) as Hsz.
  unfold resize_with in H.
  destruct (Z.ltb_spec (mysize s) n) as [Hgrow|Hle].
  - apply bind_Done in H as ([ok1 s1] & Hres & H).
    assert (Hq1 : soa_quantized s1 /\ mysize s1 = mysize s).
    { destruct (mycapacity s <? n).
      - apply (reserve_quantized _ _ _ _ _ Hq Hn Hres).
      - injection Hres as <- <-. auto. }
    destruct Hq1 as [Hq1 Hsize1]. destruct ok1; cbn [negb] in H.
    + apply bind_Done in H as (cols & Hcols & H). injection H as <- <-.
      pose proof (quant_size _ Hq1).
      apply (constructed_quantized (fun v => v) n (mysize s1) initvals s1 cols
               Hq1 Hcols); [lia|]. left. lia.
    + injection H as <- <-. exact Hq1.
  - destruct (Z.ltb_spec n (mysize s)).
    + injection H as <- <-.
      destruct Hq as [? ? ? ? ?]. split; simpl; try assumption. lia.
    + injection H as <- <-. exact Hq.
Qed.

Lemma grow_if_full_quantized (alloc : Z -> bool) (s s1 : soa) (ok : bool) :
  soa_quantized s -> grow_if_full alloc s = Done (ok, s1) ->
  soa_quantized s1 /\ mysize s1 = mysize s.
Proof.
  intros Hq H. unfold grow_if_full in H.
  destruct (mysize s =? mycapacity s).
  - apply (reserve_quantized _ _ _ _ _ Hq (size_t_range _) H).
  - injection H as <- <-. auto.
Qed.

Lemma push_back_quantized (alloc : Z -> bool) (row : list val) (s s' : soa)
    (ok : bool) :
  soa_quantized s -> length row = length Ts ->
  push_back alloc row s = Done (ok, s') -> soa_quantized s'.
Proof.
  intros Hq Hrow H. unfold push_back in H.
  apply bind_Done in H as ([ok1 s1] & Hgrow & H).
  apply grow_if_full_quantized in Hgrow as [Hq1 _]; [|exact Hq].
  destruct ok1; cbn [negb] in H; [|injection H as <- <-; exact Hq1].
  apply bind_Done in H as (cols & Hcols & H). injection H as <- <-.
  pose proof Hq1 as [Hsz H16 Hmax Hn Hl]. unfold base_push_back in Hcols.
  destruct (each_column_with_key _ _ _ _ Hq1 Hrow Hcols)
    as (x & col & col' & Hf & Hcol).
  apply wr_Done_inv in Hf as [Hi _].
  apply each_column_with_lengths with (cap := mycapacity s1) in Hcols
    as [Hlen Hall]; [|intros y c c' Hw; apply (wr_length _ _ _ _ Hw)|exact Hl].
  rewrite size_t_small by lia.
  split; simpl; try assumption; lia.
Qed.

Lemma insert_quantized (alloc : Z -> bool) (where_ : Z) (row : list val)
    (s s' : soa) (ok : bool) :
  soa_quantized s -> 0 <= where_ < 2 ^ 64 -> length row = length Ts ->
  insert alloc where_ row s = Done (ok, s') -> soa_quantized s'.
Proof.
  intros Hq Hw Hrow H. unfold insert in H.
  apply bind_Done in H as ([ok1 s1] & Hgrow & H).
  apply grow_if_full_quantized in Hgrow as [Hq1 _]; [|exact Hq].
  destruct ok1; cbn [negb] in H; [|injection H as <- <-; exact Hq1].
  destruct (Z.ltb_spec (mysize s1) where_) as [|Hin];
    [injection H as <- <-; exact Hq1|].
  apply bind_Done in H as (cols & Hcols & H). injection H as <- <-.
  pose proof Hq1 as [Hsz H16 Hmax Hn Hl]. unfold base_insert in Hcols.
  assert (Hcap : mycapacity s1 <= 2 ^ 64 - 16).
  { pose proof (Z.div_mod (mycapacity s1) 16 ltac:(lia)). pows. lia. }
  rewrite (size_t_small (where_ + 1)) in Hcols by (pows; lia).
  rewrite (size_t_small (mysize s1 - where_)) in Hcols by (pows; lia).
  destruct (each_column_with_key _ _ _ _ Hq1 Hrow Hcols)
    as (x & col & col' & Hf & Hcol).
  assert (Hroom : mysize s1 < Z.of_nat (length col)).
  { apply bind_Done in Hf as (col1 & Hmove & Hwr).
    apply wr_Done_inv in Hwr as [Hi _]. revert Hmove. unfold memmove.
    destruct (Z.eqb_spec (mysize s1 - where_) 0) as [E|E].
    - intros [= <-]. lia.
    - destruct (Z.leb_spec (where_ + 1 + (mysize s1 - where_))
                  (Z.of_nat (length col))); [lia|].
      rewrite andb_false_r. discriminate. }
  apply each_column_with_lengths with (cap := mycapacity s1) in Hcols
    as [Hlen Hall]; [| |exact Hl].
  - rewrite size_t_small by (pows; lia).
    split; simpl; try assumption; lia.
  - intros y c c' Hfc. apply bind_Done in Hfc as (c1 & Hmove & Hwr).
    apply memmove_Done in Hmove as [Hm _]; [|lia|lia|lia].
    apply wr_length in Hwr. congruence.
Qed.

Lemma pop_back_quantized (s s' : soa) :
  soa_quantized s -> pop_back s = Done s' -> soa_quantized s'.
Proof.
  intros Hq H. pose proof Hq as [Hsz H16 Hmax Hn Hl]. unfold pop_back in H.
  destruct (Z.eqb_spec (mysize s) 0); [injection H as <-; exact Hq|].
  apply bind_Done in H as (cols & Hcols & H). injection H as <-.
  unfold base_pop_back in Hcols.
  apply each_column_lengths with (cap := mycapacity s) in Hcols
    as [Hlen Hall]; [| |exact Hl].
  - rewrite size_t_small by (pows; lia).
    split; simpl; try assumption; lia.
  - intros c c' Hf. apply bind_Done in Hf as (v & _ & Hf).
    injection Hf as <-. reflexivity.
Qed.

Lemma erase_swap_quantized (where_ : Z) (s s' : soa) :
  soa_quantized s -> 0 <= where_ ->
  erase_swap where_ s = Done s' -> soa_quantized s'.
Proof.
  intros Hq Hw H. pose proof Hq as [Hsz H16 Hmax Hn Hl].
  unfold erase_swap in H.
  destruct (Z.leb_spec (mysize s) where_); [injection H as <-; exact Hq|].
  apply bind_Done in H as (cols & Hcols & H). injection H as <-.
  unfold base_erase_swap in Hcols.
  apply each_column_lengths with (cap := mycapacity s) in Hcols
    as [Hlen Hall]; [|intros c c'; apply swap_cells_length|exact Hl].
  rewrite size_t_small by (pows; lia).
  split; simpl; try assumption; lia.
Qed.

Lemma erase_shift_quantized (where_ : Z) (s s' : soa) :
  soa_quantized s -> 0 <= where_ ->
  erase_shift where_ s = Done s' -> soa_quantized s'.
Proof.
  intros Hq Hw H. pose proof Hq as [Hsz H16 Hmax Hn Hl].
  unfold erase_shift in H.
  destruct (Z.leb_spec (mysize s) where_); [injection H as <-; exact Hq|].
  apply bind_Done in H as (cols & Hcols & H). injection H as <-.
  unfold base_erase_shift in Hcols.
  apply each_column_lengths with (cap := mycapacity s) in Hcols
    as [Hlen Hall]; [| |exact Hl].
  - rewrite size_t_small by (pows; lia).
    split; simpl; try assumption; lia.
  - intros c c' Hf. apply bind_Done in Hf as (v & _ & Hf).
    apply memmove_Done in Hf as [Hm _];
      [exact Hm|lia|apply size_t_range|apply size_t_range].
Qed.

Lemma swap_entries_quantized (first second : Z) (s s' : soa) :
  soa_quantized s -> swap_entries first second s = Done s' -> soa_quantized s'.
Proof.
  intros Hq H. pose proof Hq as [Hsz H16 Hmax Hn Hl].
  unfold swap_entries in H.
  destruct (_ || _); [injection H as <-; exact Hq|].
  apply bind_Done in H as (cols & Hcols & H). injection H as <-.
  unfold base_swap_entries in Hcols.
  apply each_column_lengths with (cap := mycapacity s) in Hcols
    as [Hlen Hall]; [|intros c c'; apply swap_cells_length|exact Hl].
  split; simpl; try assumption; lia.
Qed.

Lemma soa_step_quantized (s s' : soa) :
  soa_quantized s -> soa_step s s' -> soa_quantized s'.
Proof.
  intros Hq Hstep.
  destruct Hstep as [ | alloc n ok s' Hn H | alloc ok s' H
                    | alloc n ok s' Hn H | alloc n initvals ok s' Hn H
                    | alloc row ok s' Hrow H | alloc ok s' H
                    | alloc w row ok s' Hw Hrow H | s' H | w s' Hw H
                    | w s' Hw H | a b s' Ha Hb H ].
  - destruct Hq as [? ? ? ? ?]. split; simpl; try assumption. lia.
  - apply (reserve_quantized _ _ _ _ _ Hq Hn H).
  - apply (shrink_to_fit_quantized _ _ _ _ Hq H).
  - apply (resize_quantized _ _ _ _ _ Hq Hn H).
  - apply (resize_with_quantized _ _ _ _ _ _ Hq Hn H).
  - apply (push_back_quantized _ _ _ _ _ Hq Hrow H).
  - rewrite emplace_back_push_back in H.
    apply (push_back_quantized _ _ _ _ _ Hq (length_fmap _ _) H).
  - apply (insert_quantized _ _ _ _ _ _ Hq Hw Hrow H).
  - apply (pop_back_quantized _ _ Hq H).
  - apply (erase_swap_quantized w s s' Hq ltac:(lia) H).
  - apply (erase_shift_quantized w s s' Hq ltac:(lia) H).
  - apply (swap_entries_quantized _ _ _ _ Hq H).
Qed.

(** X12.  Every call of a public operation of [soa] other than
    [deserialize] that returns keeps the store invariant, whatever it
    returns, when the block of the capacity it leaves is one an allocation
    can return (at most [PTRDIFF_MAX] bytes; a [reserve] or [resize] whose
    byte count has wrapped around leaves arrays that are shorter than the
    capacity).  In every state a default-constructed [soa] reaches through
    such calls, wrapped around or not, the capacity is a multiple of 16 and
    the size is at most the capacity. *)
Theorem soa_operations_keep_invariant :
  (forall s s', soa_invariant s -> soa_step s s' ->
     size_per_entry * capacity s' <= PTRDIFF_MAX -> soa_invariant s') /\
  (forall s, soa_reachable s ->
     capacity s mod 16 = 0 /\ 0 <= size s <= capacity s).
Proof.
  split; [apply soa_step_invariant|].
  intros s Hreach.
  assert (Hq : soa_quantized s).
  { induction Hreach as [|s s' _ IH Hstep]; [apply soa_new_quantized|].
    apply (soa_step_quantized s s' IH Hstep). }
  split; [apply (quant_16 _ Hq)|apply (quant_size _ Hq)].
Qed.

(** ** Binary search *)

Lemma lower_bound_loop_bisect (lt : val -> val -> bool) (goal : val)
    (col : list val) (fuel : nat) :
  forall left right,
    lower_bound_loop lt fuel col goal left right
    = bisect (fun x => lt x goal) fuel col left right.
Proof.
  induction fuel as [|fuel IH]; intros left right; [reflexivity|].
  cbn [lower_bound_loop bisect]. destruct (left <? right); [|reflexivity].
  destruct (rd col _) as [x| | |]; try reflexivity.
  cbn [mbind outcome_bind]. rewrite !IH. reflexivity.
Qed.

Lemma upper_bound_loop_bisect (lt : val -> val -> bool) (goal : val)
    (col : list val) (fuel : nat) :
  forall left right,
    upper_bound_loop lt fuel col goal left right
    = bisect (fun x => negb (lt goal x)) fuel col left right.
Proof.
  induction fuel as [|fuel IH]; intros left right; [reflexivity|].
  cbn [upper_bound_loop bisect]. destruct (left <? right); [|reflexivity].
  destruct (rd col _) as [x| | |]; try reflexivity.
  cbn [mbind outcome_bind]. rewrite !IH. destruct (lt goal x); reflexivity.
Qed.

(** The search returns after as many probes as the width of the range has
    bits, inside the range; on a column that [right_of] splits into a left
    part where it holds and a right part where it does not, it returns the
    place where the right part starts. *)
Lemma bisect_spec (right_of : val -> bool) (col : list val) (n : Z) :
  n <= Z.of_nat (length col) -> n <= 2 ^ 63 ->
  forall (f : nat) (left right : Z),
    0 <= left <= right -> right <= n -> right - left < 2 ^ Z.of_nat f ->
    exists p, bisect right_of (S f) col left right = Done p /\
      left <= p <= right /\
      ((forall i j x y, 0 <= i <= j -> j < n ->
          col !! Z.to_nat i = Some x -> col !! Z.to_nat j = Some y ->
          right_of y = true -> right_of x = true) ->
       (forall i x, 0 <= i < left -> col !! Z.to_nat i = Some x ->
          right_of x = true) ->
       (forall i x, right <= i < n -> col !! Z.to_nat i = Some x ->
          right_of x = false) ->
       (forall i x, 0 <= i < p -> col !! Z.to_nat i = Some x ->
          right_of x = true) /\
       (forall i x, p <= i < n -> col !! Z.to_nat i = Some x ->
          right_of x = false)).
Proof.
  intros Hlen Hn. induction f as [|f IH]; intros left right Hl Hr Hw.
  - change (2 ^ Z.of_nat 0) with 1 in Hw. assert (left = right) by lia. subst.
    exists right. cbn [bisect]. rewrite Z.ltb_irrefl.
    split; [reflexivity|]. split; [lia|]. auto.
  - rewrite Nat2Z.inj_succ, Z.pow_succ_r in Hw by lia.
    cbn [bisect]. destruct (Z.ltb_spec left right) as [Hlt|Hge].
    + assert (Hsum : size_t (left + right) = left + right)
        by (apply size_t_small; pows; lia).
      rewrite Hsum. set (middle := (left + right) / 2).
      assert (Hmid : left <= middle < right).
      { subst middle. pose proof (Z.div_mod (left + right) 2 ltac:(lia)).
        pose proof (Z.mod_pos_bound (left + right) 2 ltac:(lia)). lia. }
      assert (Hhalf : right - (middle + 1) < 2 ^ Z.of_nat f /\
                      middle - left < 2 ^ Z.of_nat f).
      { subst middle. pose proof (Z.div_mod (left + right) 2 ltac:(lia)).
        pose proof (Z.mod_pos_bound (left + right) 2 ltac:(lia)). lia. }
      destruct (lookup_lt_is_Some_2 col (Z.to_nat middle)) as [x Hx]; [lia|].
      rewrite (proj2 (rd_Done col middle x)) by (split; [lia|exact Hx]).
      cbn [mbind outcome_bind].
      rewrite (size_t_small (middle + 1)) by (pows; lia).
      destruct (right_of x) eqn:Ex.
      * destruct (IH (middle + 1) right ltac:(lia) Hr ltac:(lia))
          as (p & Hp & Hrange & Hpart).
        exists p. split; [exact Hp|]. split; [lia|].
        intros Hsplit Hleft Hright. apply Hpart; [exact Hsplit| |exact Hright].
        intros i y Hi Hy.
        apply (Hsplit i middle y x); (lia || assumption).
      * destruct (IH left middle ltac:(lia) ltac:(lia) ltac:(lia))
          as (p & Hp & Hrange & Hpart).
        exists p. split; [exact Hp|]. split; [lia|].
        intros Hsplit Hleft Hright. apply Hpart; [exact Hsplit|exact Hleft|].
        intros i y Hi Hy. destruct (right_of y) eqn:Ey; [|reflexivity].
        rewrite <- Ex. symmetry.
        apply (Hsplit middle i x y); (lia || assumption).
    + assert (left = right) by lia. subst. exists right.
      split; [reflexivity|]. split; [lia|]. auto.
Qed.

Lemma bisect_column (right_of : val -> bool) (K : nat) (s : soa)
    (fuel : nat) :
  soa_invariant s -> size s <= 2 ^ 63 -> (K < length Ts)%nat ->
  (65 <= fuel)%nat ->
  exists p, bisect right_of fuel (column K s) 0 (mysize s) = Done p /\
    0 <= p <= size s /\
    ((forall i j x y, 0 <= i <= j -> j < size s ->
        at_ K i s = Done x -> at_ K j s = Done y ->
        right_of y = true -> right_of x = true) ->
     (forall i x, 0 <= i < p -> at_ K i s = Done x -> right_of x = true) /\
     (forall i x, p <= i < size s -> at_ K i s = Done x ->
        right_of x = false)).
Proof.
  unfold size. intros Hinv Hmax HK Hfuel.
  pose proof (soa_size_le_capacity _ Hinv) as Hsz.
  pose proof (column_length K s Hinv HK) as Hl.
  destruct fuel as [|f]; [lia|].
  destruct (bisect_spec right_of (column K s) (mysize s) ltac:(lia) Hmax
              f 0 (mysize s) ltac:(lia) ltac:(lia))
    as (p & Hp & Hrange & Hpart).
  { apply Z.le_lt_trans with (2 ^ 63); [lia|].
    apply Z.lt_le_trans with (2 ^ 64); [pows; lia|].
    apply Z.pow_le_mono_r; lia. }
  exists p. split; [exact Hp|]. split; [exact Hrange|].
  intros Hsplit.
  destruct Hpart as [Hleft Hright].
  - intros i j x y Hi Hj Hx Hy.
    apply (Hsplit i j x y Hi Hj); apply at_column; (split; [lia|assumption]).
  - intros i x Hi. lia.
  - intros i x Hi. lia.
  - split.
    + intros i x Hi Hx. apply at_column in Hx as [_ Hx].
      apply (Hleft i x Hi Hx).
    + intros i x Hi Hx. apply at_column in Hx as [_ Hx].
      apply (Hright i x Hi Hx).
Qed.

(** X13.  [lower_bound<K>(goal)] and [upper_bound<K>(goal)] return after
    at most 64 probes, all of them inside the rows, with a position
    between 0 and the size.  When the column is split by [x < goal] (the
    cells for which it holds come first), [lower_bound] returns the number
    of those cells; when it is split by [!(goal < x)], [upper_bound]
    returns the number of those cells. *)
Theorem bound_search_partition_point (lt : val -> val -> bool) (K : nat)
    (goal : val) (s : soa) (fuel : nat) :
  soa_invariant s -> size s <= 2 ^ 63 -> (K < length Ts)%nat ->
  (65 <= fuel)%nat ->
  (exists p, lower_bound lt fuel K goal s = Done p /\ 0 <= p <= size s /\
     ((forall i j x y, 0 <= i <= j -> j < size s ->
         at_ K i s = Done x -> at_ K j s = Done y ->
         lt y goal = true -> lt x goal = true) ->
      (forall i x, 0 <= i < p -> at_ K i s = Done x -> lt x goal = true) /\
      (forall i x, p <= i < size s -> at_ K i s = Done x ->
         lt x goal = false))) /\
  (exists p, upper_bound lt fuel K goal s = Done p /\ 0 <= p <= size s /\
     ((forall i j x y, 0 <= i <= j -> j < size s ->
         at_ K i s = Done x -> at_ K j s = Done y ->
         lt goal y = false -> lt goal x = false) ->
      (forall i x, 0 <= i < p -> at_ K i s = Done x -> lt goal x = false) /\
      (forall i x, p <= i < size s -> at_ K i s = Done x ->
         lt goal x = true))).
Proof.
  intros Hinv Hmax HK Hfuel. split.
  - unfold lower_bound. rewrite lower_bound_loop_bisect.
    apply (bisect_column (fun x => lt x goal) K s fuel Hinv Hmax HK Hfuel).
  - unfold upper_bound. rewrite upper_bound_loop_bisect.
    destruct (bisect_column (fun x => negb (lt goal x)) K s fuel Hinv Hmax HK
                Hfuel) as (p & Hp & Hrange & Hpart).
    exists p. split; [exact Hp|]. split; [exact Hrange|].
    intros Hsplit. destruct Hpart as [Hleft Hright].
    + intros i j x y Hi Hj Hx Hy Hgy. apply negb_true_iff.
      apply negb_true_iff in Hgy. apply (Hsplit i j x y Hi Hj Hx Hy Hgy).
    + split.
      * intros i x Hi Hx. apply negb_true_iff. apply (Hleft i x Hi Hx).
      * intros i x Hi Hx. apply negb_false_iff. apply (Hright i x Hi Hx).
Qed.

(** X14.  On a column sorted by [<] (no cell is less than a cell before
    it), for an order that is asymmetric and in which [a < c] gives
    [a < b] or [b < c], the rows between [lower_bound<K>(goal)] and
    [upper_bound<K>(goal)] are the rows whose cell is neither less nor
    greater than [goal]. *)
Theorem equal_range_of_sorted_column (lt : val -> val -> bool) (K : nat)
    (goal : val) (s : soa) (fuel : nat) :
  soa_invariant s -> size s <= 2 ^ 63 -> (K < length Ts)%nat ->
  (65 <= fuel)%nat ->
  (forall a b, lt a b = true -> lt b a = false) ->
  (forall a b c, lt a c = true -> lt a b = true \/ lt b c = true) ->
  (forall i j x y, 0 <= i <= j -> j < size s ->
     at_ K i s = Done x -> at_ K j s = Done y -> lt y x = false) ->
  exists lo hi,
    lower_bound lt fuel K goal s = Done lo /\
    upper_bound lt fuel K goal s = Done hi /\
    0 <= lo <= hi /\ hi <= size s /\
    forall i x, 0 <= i < size s -> at_ K i s = Done x ->
      (lo <= i < hi <-> lt x goal = false /\ lt goal x = false).
Proof.
  intros Hinv Hmax HK Hfuel Hasym Hcotrans Hsorted.
  assert (Hlow : forall i j x y, 0 <= i <= j -> j < size s ->
            at_ K i s = Done x -> at_ K j s = Done y ->
            lt y goal = true -> lt x goal = true).
  { intros i j x y Hi Hj Hx Hy Hyg.
    destruct (Hcotrans y x goal Hyg) as [Hyx|Hxg]; [|exact Hxg].
    rewrite (Hsorted i j x y Hi Hj Hx Hy) in Hyx. discriminate. }
  assert (Hhigh : forall i j x y, 0 <= i <= j -> j < size s ->
            at_ K i s = Done x -> at_ K j s = Done y ->
            lt goal y = false -> lt goal x = false).
  { intros i j x y Hi Hj Hx Hy Hgy.
    destruct (lt goal x) eqn:Hgx; [|reflexivity].
    destruct (Hcotrans goal y x Hgx) as [H|H]; [congruence|].
    rewrite (Hsorted i j x y Hi Hj Hx Hy) in H. discriminate. }
  unfold lower_bound, upper_bound.
  rewrite lower_bound_loop_bisect, upper_bound_loop_bisect.
  destruct (bisect_column (fun x => lt x goal) K s fuel Hinv Hmax HK Hfuel)
    as (lo & Hlo & Hlor & Hlop).
  destruct (bisect_column (fun x => negb (lt goal x)) K s fuel Hinv Hmax HK
              Hfuel) as (hi & Hhi & Hhir & Hhip).
  destruct (Hlop Hlow) as [Hlo1 Hlo2].
  destruct Hhip as [Hhi1 Hhi2].
  { intros i j x y Hi Hj Hx Hy Hgy. apply negb_true_iff.
    apply negb_true_iff in Hgy. apply (Hhigh i j x y Hi Hj Hx Hy Hgy). }
  exists lo, hi. split; [exact Hlo|]. split; [exact Hhi|].
  assert (Hle : lo <= hi).
  { destruct (Z.le_gt_cases lo hi) as [|Hgt]; [assumption|exfalso].
    destruct (rows_present s K hi Hinv HK ltac:(unfold size in *; lia))
      as [x Hx].
    pose proof (Hlo1 hi x ltac:(lia) Hx) as H1.
    pose proof (Hhi2 hi x ltac:(lia) Hx) as H2.
    apply negb_false_iff in H2. rewrite (Hasym _ _ H1) in H2. discriminate. }
  split; [lia|]. split; [lia|].
  intros i x Hi Hx. split.
  - intros Hin. split.
    + apply (Hlo2 i x ltac:(lia) Hx).
    + apply negb_true_iff. apply (Hhi1 i x ltac:(lia) Hx).
  - intros [H1 H2].
    destruct (Z.lt_ge_cases i lo) as [Hlt|Hge1].
    { rewrite (Hlo1 i x ltac:(lia) Hx) in H1. discriminate. }
    destruct (Z.lt_ge_cases i hi) as [Hlt|Hge2]; [lia|].
    pose proof (Hhi2 i x ltac:(lia) Hx) as H3.
    apply negb_false_iff in H3. congruence.
Qed.

(** ** The table after [rehash] *)

Lemma placed_first_empty (keys : list val) (hc : Z) (hm : list Z) (m h : Z) :
  placed keys hc hm m -> 0 <= m < hc -> Z.odd hc = true ->
  exists D, 0 <= D < hc /\
    hm !! Z.to_nat (probe hc h D) = Some INDEXNUL /\
    forall d, 0 <= d < D -> hm !! Z.to_nat (probe hc h d) <> Some INDEXNUL.
Proof.
  intros Hpl Hm Hodd. assert (Hpos : 0 < hc) by lia.
  destruct (placed_has_empty _ _ _ _ Hpl Hm) as (s & Hs & Hnul).
  destruct (probe_surj hc h s Hpos Hodd Hs) as (d0 & Hd0 & Hp).
  destruct (first_such
              (fun d => hm !! Z.to_nat (probe hc h d) = Some INDEXNUL)
              (fun d => decide _) d0) as (D & HD & HQ & Hfirst);
    [lia|rewrite Hp; exact Hnul|].
  exists D. split; [lia|]. split; [exact HQ|exact Hfirst].
Qed.

Lemma rehash_place_total (keys : list val) (hc : Z) (hm : list Z) (m h : Z)
    (fuel : nat) :
  placed keys hc hm m -> 0 <= m <= max_size -> m < hc -> hc < 2 ^ 63 ->
  Z.odd hc = true -> 0 <= h < hc -> (Z.to_nat hc <= fuel)%nat ->
  exists hm', rehash_place fuel hc m hm h = Done hm'.
Proof.
  intros Hpl Hm Hroom Hmax Hodd Hh Hfuel. assert (Hpos : 0 < hc) by lia.
  destruct (placed_first_empty keys hc hm m h Hpl ltac:(lia) Hodd)
    as (D & HD & Hnul & Hfirst).
  rewrite rehash_place_walk. rewrite <- (probe_0 hc h Hh).
  assert (Hin : 0 <= probe hc h D < Z.of_nat (length hm)).
  { split; [apply probe_range; exact Hpos|].
    apply lookup_lt_Some in Hnul. lia. }
  exists (<[Z.to_nat (probe hc h D) := uint32_t m]> hm).
  replace D with (0 + Z.of_nat (Z.to_nat D)) in Hnul, Hin |- * by lia.
  apply (walk_reaches hc hm (place_body m hm) h Hpos ltac:(pows; lia)
           (Z.to_nat D)); [lia|lia| |].
  - intros d' Hd'.
    destruct (placed_slots _ _ _ _ Hpl (probe hc h d'))
      as (v & Hv & [ -> | Hrange ]); [apply probe_range; exact Hpos| |].
    + destruct (Hfirst d' ltac:(lia) Hv).
    + exists v. split; [exact Hv|]. unfold place_body.
      destruct (Z.eqb_spec v INDEXNUL) as [E|_];
        [revert E Hm Hrange; consts; lia|].
      destruct (Z.eqb_spec v INDEXDEL) as [E|_];
        [revert E Hm Hrange; consts; lia|].
      reflexivity.
  - exists INDEXNUL. split; [exact Hnul|]. unfold place_body.
    rewrite Z.eqb_refl. cbn [orb]. rewrite wr_Done by exact Hin. reflexivity.
Qed.

Lemma rehash_rows_total (keys : list val) (hc : Z) (fuel : nat) :
  hc < 2 ^ 63 -> Z.odd hc = true -> (Z.to_nat hc <= fuel)%nat ->
  forall (todo : nat) (i : Z) (hm : list Z),
    placed keys hc hm i -> 0 <= i -> i + Z.of_nat todo <= max_size ->
    i + Z.of_nat todo < hc ->
    i + Z.of_nat todo <= Z.of_nat (length keys) ->
    exists hm', rehash_rows fuel hc keys todo i hm = Done hm'.
Proof.
  intros Hmax Hodd Hfuel.
  induction todo as [|todo IH]; intros i hm Hpl Hi Hle Hlt Hkeys.
  - exists hm. reflexivity.
  - cbn [rehash_rows].
    destruct (lookup_lt_is_Some_2 keys (Z.to_nat i)) as [k Hk]; [lia|].
    rewrite (proj2 (rd_Done keys i k)) by (split; [lia|exact Hk]).
    cbn [mbind outcome_bind]. rewrite modulo_Done by lia.
    cbn [mbind outcome_bind].
    destruct (rehash_place_total keys hc hm i (hash k mod hc) fuel)
      as [hm1 Hplace]; try assumption; try lia.
    { apply Z.mod_pos_bound. lia. }
    rewrite Hplace. cbn [mbind outcome_bind].
    apply rehash_place_placed with (keys := keys) in Hplace as [Hpl1 Hlen1];
      try assumption; try lia.
    apply IH; try assumption; lia.
Qed.

Lemma rows_of_length (s : soa) :
  0 <= mysize s -> Z.of_nat (length (rows_of s)) = mysize s.
Proof. intros H. unfold rows_of. rewrite length_fmap, length_seqZ. lia. Qed.

Lemma rows_of_lookup (s : soa) (i : nat) :
  Z.of_nat i < mysize s -> rows_of s !! i = Some (row_of s (Z.of_nat i)).
Proof.
  intros Hi. unfold rows_of. rewrite list_lookup_fmap.
  rewrite lookup_seqZ_lt by lia. reflexivity.
Qed.

Lemma row_of_cells (s : soa) (i : Z) :
  soa_invariant s -> 0 <= i < mysize s ->
  at_ 0%nat i s = Done (fst (row_of s i)) /\
  forall (K : nat) v, snd (row_of s i) !! K = Some v ->
    at_ (S K) i s = Done v.
Proof.
  intros Hinv Hi. unfold row_of. cbn [fst snd]. split.
  - destruct (rows_present s 0 i Hinv key_column_exists Hi) as [v Hv].
    rewrite Hv. apply at_column in Hv as [_ Hv]. rewrite Hv. reflexivity.
  - intros K v HK. rewrite list_lookup_fmap in HK.
    destruct (seq 0 (length Ts - 1) !! K) as [K'|] eqn:E; [|discriminate].
    apply lookup_seq in E as [-> HK']. simpl in HK. injection HK as <-.
    destruct (rows_present s (S K) i Hinv ltac:(lia) Hi) as [v Hv].
    rewrite Hv. apply at_column in Hv as [_ Hv]. rewrite Hv. reflexivity.
Qed.

Lemma inserted_rows_of (t : htable) :
  table_shape t ->
  placed (column 0%nat (base t)) (hashcapacity t) (hashmap t)
    (mysize (base t)) ->
  inserted t (rows_of (base t)).
Proof.
  intros [Hst Hmax Hcap Hhm Hcur] Hpl.
  pose proof (soa_size_le_capacity _ Hst) as Hsz.
  split; try assumption.
  - symmetry. apply rows_of_length. lia.
  - intros i k items Hi.
    assert (Hlt : Z.of_nat i < mysize (base t)).
    { apply lookup_lt_Some in Hi.
      pose proof (rows_of_length (base t) ltac:(lia)). lia. }
    rewrite rows_of_lookup in Hi by exact Hlt.
    destruct (row_of_cells (base t) (Z.of_nat i) Hst ltac:(lia)) as [Hk Hit].
    assert (Hrow : row_of (base t) (Z.of_nat i) = (k, items)) by congruence.
    rewrite Hrow in Hk, Hit. cbn [fst snd] in Hk, Hit.
    split; [exact Hk|]. intros K v HK _. apply (Hit K v HK).
Qed.

Lemma inserted_shape (t : htable) (rows : list (val * list val)) :
  inserted t rows -> table_shape t.
Proof. intros [? ? ? ? ? ? ? ?]. split; assumption. Qed.

Lemma rehash_shape (fuel : nat) (t : htable) :
  table_shape t -> (Z.to_nat (hashcapacity t) <= fuel)%nat ->
  exists t', rehash fuel t = Done t' /\
    base t' = base t /\ hashcapacity t' = hashcapacity t /\
    length (hashmap t') = length (hashmap t) /\
    inserted t' (rows_of (base t)).
Proof.
  intros Hshape Hfuel. pose proof Hshape as [Hst Hmax Hcap Hhm Hcur].
  pose proof (soa_size_le_capacity _ Hst) as Hsz.
  unfold rehash, memset_nul.
  destruct (Z.leb_spec (hashcapacity t) (Z.of_nat (length (hashmap t))));
    [|lia].
  cbn [mbind outcome_bind].
  set (hm0 := replicate (Z.to_nat (hashcapacity t)) INDEXNUL
                ++ drop (Z.to_nat (hashcapacity t)) (hashmap t)).
  assert (Hlen0 : length hm0 = length (hashmap t)).
  { subst hm0. rewrite length_app, length_replicate, length_drop. lia. }
  assert (Hrows : exists hm',
            rehash_rows fuel (hashcapacity t) (column 0%nat (base t))
              (Z.to_nat (mysize (base t))) 0 hm0 = Done hm' /\
            placed (column 0%nat (base t)) (hashcapacity t) hm'
              (mysize (base t)) /\
            length hm' = length hm0).
  { destruct Hcap as [[Hhc Hc0]|[Hhc Hc]].
    - assert (E : mysize (base t) = 0) by lia. rewrite E.
      exists hm0. split; [reflexivity|]. split; [|reflexivity].
      rewrite Hhc. split; intros; lia.
    - assert (Hodd : Z.odd (hashcapacity t) = true).
      { rewrite Hhc.
        replace (2 * mycapacity (base t) + 3)
          with (1 + 2 * (mycapacity (base t) + 1)) by lia.
        rewrite Z.odd_add_mul_2. reflexivity. }
      pose proof (column_length 0 (base t) Hst key_column_exists) as Hkl.
      destruct (rehash_rows_total (column 0%nat (base t)) (hashcapacity t)
                  fuel ltac:(pows; lia) Hodd Hfuel
                  (Z.to_nat (mysize (base t))) 0 hm0) as [hm' Hrr];
        [apply placed_empty; lia|lia|lia|lia|lia|].
      exists hm'. split; [exact Hrr|].
      apply rehash_rows_placed in Hrr as [Hpl Hl];
        [|pows; lia|exact Hodd|apply placed_empty; lia|lia|lia|lia].
      rewrite Z.add_0_l, Z2Nat.id in Hpl by lia. auto. }
  destruct Hrows as (hm' & Hrr & Hpl & Hlen').
  rewrite Hrr. cbn [mbind outcome_bind]. eexists. split; [reflexivity|].
  cbn [base hashcapacity hashmap]. split; [reflexivity|].
  split; [reflexivity|]. split; [lia|].
  apply (inserted_rows_of
           (mk_htable (base t) hm' (hashcapacity t) SIZE_MAX)); [|exact Hpl].
  split; cbn [base hashcapacity hashmap hashcursor]; try assumption; [lia|].
  consts. lia.
Qed.

(** ** Lookups in a table without tombstones *)

Lemma indices_of_app (key : val) (rows rows' : list (val * list val)) :
  forall i, indices_of key (rows ++ rows') i
            = indices_of key rows i
              ++ indices_of key rows' (i + Z.of_nat (length rows)).
Proof.
  induction rows as [|[k items] rows IH]; intros i.
  - simpl. rewrite Z.add_0_r. reflexivity.
  - cbn [app indices_of length]. rewrite IH.
    replace (i + 1 + Z.of_nat (length rows))
      with (i + Z.of_nat (S (length rows))) by lia.
    destruct (val_eqb k key); reflexivity.
Qed.

Lemma indices_of_range (key : val) (rows : list (val * list val)) (i x : Z) :
  x ∈ indices_of key rows i -> i <= x < i + Z.of_nat (length rows).
Proof.
  intros Hx. apply indices_of_elem in Hx as (n & k & items & Hn & _ & ->).
  apply lookup_lt_Some in Hn. lia.
Qed.

Lemma indices_of_count (key : val) (rows : list (val * list val)) :
  forall i, length (indices_of key rows i)
            = length (List.filter (fun r => val_eqb (fst r) key) rows).
Proof.
  induction rows as [|[k items] rows IH]; intros i; [reflexivity|].
  cbn [indices_of List.filter fst]. destruct (val_eqb k key); simpl;
    rewrite IH; reflexivity.
Qed.

Lemma indices_of_length_le (key : val) (rows : list (val * list val)) :
  forall i, (length (indices_of key rows i) <= length rows)%nat.
Proof.
  induction rows as [|[k items] rows IH]; intros i; [reflexivity|].
  cbn [indices_of]. specialize (IH (i + 1)).
  destruct (val_eqb k key); simpl; lia.
Qed.

Lemma indices_of_rows_of (key : val) (s : soa) (x : Z) :
  soa_invariant s ->
  x ∈ indices_of key (rows_of s) 0 <->
  0 <= x < mysize s /\ at_ 0%nat x s = Done key.
Proof.
  intros Hinv. pose proof (soa_size_le_capacity _ Hinv) as Hsz.
  pose proof (rows_of_length s ltac:(lia)) as Hlen.
  rewrite indices_of_elem. split.
  - intros (n & k & items & Hn & Hk & ->).
    assert (Hlt : Z.of_nat n < mysize s).
    { apply lookup_lt_Some in Hn. lia. }
    rewrite rows_of_lookup in Hn by exact Hlt.
    destruct (row_of_cells s (Z.of_nat n) Hinv ltac:(lia)) as [Hat _].
    assert (Hrow : row_of s (Z.of_nat n) = (k, items)) by congruence.
    rewrite Hrow in Hat. cbn [fst] in Hat. apply val_eqb_eq in Hk. subst k.
    split; [lia|exact Hat].
  - intros [Hx Hat].
    destruct (row_of_cells s x Hinv Hx) as [Hat' _].
    exists (Z.to_nat x), (fst (row_of s x)), (snd (row_of s x)).
    split; [|split; [|lia]].
    + rewrite rows_of_lookup by lia. rewrite Z2Nat.id by lia.
      destruct (row_of s x). reflexivity.
    + apply val_eqb_eq. congruence.
Qed.

(** [find(key, restart)] is [find(key, restart, hashc)] on the table's own
    cursor. *)
Lemma find_as_cursor (fuel : nat) (key : val) (restart : bool) (t : htable) :
  find fuel key restart t
  = '(r, c) ← find_const_cursor fuel key restart (hashcursor t) t;
    Done (r, set_cursor t c).
Proof.
  unfold find, find_const_cursor, set_cursor.
  destruct (mysize (base t) =? 0); [destruct t; reflexivity|].
  destruct restart.
  - destruct (modulo _ _) as [c| | |]; try reflexivity;
      cbn [mbind outcome_bind];
      destruct (find_loop fuel key t c) as [[r c']| | |]; reflexivity.
  - destruct (hashcapacity t <=? hashcursor t); [destruct t; reflexivity|].
    destruct (hash_inc _ _) as [c| | |]; try reflexivity;
      cbn [mbind outcome_bind];
      destruct (find_loop fuel key t c) as [[r c']| | |]; reflexivity.
Qed.

Lemma find_const_cursor_set_cursor (fuel : nat) (key : val) (restart : bool)
    (hashc c : Z) (t : htable) :
  find_const_cursor fuel key restart hashc (set_cursor t c)
  = find_const_cursor fuel key restart hashc t.
Proof.
  unfold find_const_cursor. cbn [set_cursor base hashcapacity].
  destruct (mysize (base t) =? 0); [reflexivity|].
  destruct restart.
  - destruct (modulo _ _) as [c0| | |]; try reflexivity;
      cbn [mbind outcome_bind]; apply find_loop_set_cursor.
  - destruct (hashcapacity t <=? hashc); [reflexivity|].
    destruct (hash_inc _ _) as [c0| | |]; try reflexivity;
      cbn [mbind outcome_bind]; apply find_loop_set_cursor.
Qed.

Lemma find_const_as_find (fuel : nat) (key : val) (t : htable) :
  find_const fuel key t = '(r, _) ← find fuel key true t; Done r.
Proof.
  unfold find_const, find. destruct (mysize (base t) =? 0); [reflexivity|].
  destruct (modulo _ _) as [c| | |]; try reflexivity;
    cbn [mbind outcome_bind];
    destruct (find_loop fuel key t c) as [[r c']| | |]; reflexivity.
Qed.

(** The loop of [count] follows the calls of [find(key, false)]. *)
Lemma count_loop_find_next (fuel : nat) (key : val) (t : htable) :
  forall (n rounds : nat) (c index result : Z) (rs : list Z) (t2 : htable)
         (js : list Z),
    find_next fuel key n (set_cursor t c) = Done (rs, t2) ->
    index :: rs = js ++ [SIZE_MAX] -> Forall (fun j => j <> SIZE_MAX) js ->
    length js = n -> (n <= rounds)%nat ->
    0 <= result -> result + Z.of_nat n < 2 ^ 64 ->
    count_loop fuel rounds key t index c result
    = Done (result + Z.of_nat n).
Proof.
  induction n as [|n IH];
    intros rounds c index result rs t2 js Hnext Hjs Hall Hlen Hrounds Hr Hmax.
  - destruct js; [|discriminate]. injection Hjs as -> _.
    rewrite Z.add_0_r. destruct rounds; cbn [count_loop];
      rewrite Z.eqb_refl; reflexivity.
  - destruct js as [|j js]; [discriminate|]. injection Hjs as <- Hrs.
    apply Forall_cons in Hall as [Hj Hall].
    destruct rounds as [|rounds]; [lia|]. cbn [count_loop].
    destruct (Z.eqb_spec index SIZE_MAX); [contradiction|].
    cbn [find_next] in Hnext.
    apply bind_Done in Hnext as ([r t1] & Hfind & Hnext).
    apply bind_Done in Hnext as ([rs' t3] & Hnext & E). injection E as <- <-.
    rewrite find_as_cursor in Hfind.
    apply bind_Done in Hfind as ([r' c1] & Hfind & E). injection E as <- <-.
    cbn [set_cursor hashcursor] in Hfind.
    change (mk_htable (base t) (hashmap t) (hashcapacity t) c)
      with (set_cursor t c) in Hfind.
    rewrite find_const_cursor_set_cursor in Hfind. rewrite Hfind.
    cbn [mbind outcome_bind].
    rewrite size_t_small by lia.
    rewrite (IH rounds c1 r' (result + 1) rs' t3 js); try assumption;
      try lia.
    + f_equal. lia.
    + simpl in Hlen. lia.
Qed.

Lemma inserted_find_sequence (fuel : nat) (key : val) (t : htable)
    (rows : list (val * list val)) :
  inserted t rows -> (Z.to_nat (hashcapacity t) < fuel)%nat ->
  exists t', find_sequence fuel key (length (indices_of key rows 0)) t
             = Done (indices_of key rows 0 ++ [SIZE_MAX], t').
Proof.
  intros Hins Hfuel.
  destruct (Z.eq_dec (mysize (base t)) 0) as [E|E].
  - assert (Hrows : rows = []).
    { pose proof (ins_size _ _ Hins) as Hsize. rewrite E in Hsize.
      destruct rows; [reflexivity|simpl in Hsize; lia]. }
    subst rows. exists t. unfold find_sequence, find. cbn [indices_of length].
    rewrite E. reflexivity.
  - assert (Hsome : 0 < mysize (base t)).
    { pose proof (soa_size_le_capacity _ (ins_store _ _ Hins)). lia. }
    destruct (fa_find_sequence t rows key Hins Hsome fuel Hfuel)
      as (D & _ & _ & _ & Hseq).
    eexists. exact Hseq.
Qed.

Lemma inserted_found_range (key : val) (t : htable)
    (rows : list (val * list val)) :
  inserted t rows ->
  Forall (fun j => 0 <= j < mysize (base t)) (indices_of key rows 0).
Proof.
  intros Hins. apply Forall_forall. intros x Hx.
  apply indices_of_range in Hx. rewrite (ins_size _ _ Hins). lia.
Qed.

Lemma inserted_find_const (fuel : nat) (key : val) (t : htable)
    (rows : list (val * list val)) :
  inserted t rows -> (Z.to_nat (hashcapacity t) < fuel)%nat ->
  find_const fuel key t = Done (hd SIZE_MAX (indices_of key rows 0)).
Proof.
  intros Hins Hfuel.
  destruct (inserted_find_sequence fuel key t rows Hins Hfuel) as [t' H].
  unfold find_sequence in H.
  apply bind_Done in H as ([r t1] & Hfind & H).
  apply bind_Done in H as ([rs t2] & _ & E). injection E as E _.
  rewrite find_const_as_find, Hfind. cbn [mbind outcome_bind]. f_equal.
  destruct (indices_of key rows 0); cbn [hd app] in *; congruence.
Qed.

Lemma inserted_count (fuel rounds : nat) (key : val) (t : htable)
    (rows : list (val * list val)) :
  inserted t rows -> (Z.to_nat (hashcapacity t) < fuel)%nat ->
  (length (indices_of key rows 0) <= rounds)%nat ->
  count fuel rounds key t
  = Done (Z.of_nat (length (indices_of key rows 0))).
Proof.
  intros Hins Hfuel Hrounds.
  destruct (inserted_find_sequence fuel key t rows Hins Hfuel) as [t' H].
  pose proof (inserted_found_range key t rows Hins) as Hrange.
  pose proof (ins_max _ _ Hins) as Hmax.
  unfold find_sequence in H.
  apply bind_Done in H as ([r t1] & Hfind & H).
  apply bind_Done in H as ([rs t2] & Hnext & E). injection E as E _.
  rewrite find_as_cursor in Hfind.
  apply bind_Done in Hfind as ([r' c1] & Hfind & E'). injection E' as <- <-.
  assert (Hfirst : find_const_cursor fuel key true SIZE_MAX t
                   = Done (r', if mysize (base t) =? 0 then SIZE_MAX else c1)).
  { revert Hfind. unfold find_const_cursor.
    destruct (mysize (base t) =? 0); [intros [= <- _]; reflexivity|].
    auto. }
  unfold count. rewrite Hfirst. cbn [mbind outcome_bind].
  assert (Hlen : Z.of_nat (length (indices_of key rows 0)) < 2 ^ 32).
  { pose proof (indices_of_length_le key rows 0).
    pose proof (ins_size _ _ Hins). revert Hmax. consts. lia. }
  destruct (Z.eqb_spec (mysize (base t)) 0) as [E0|E0].
  - assert (Hrows : rows = []).
    { pose proof (ins_size _ _ Hins) as Hsize. rewrite E0 in Hsize.
      destruct rows; [reflexivity|simpl in Hsize; lia]. }
    subst rows. simpl in E. injection E as -> _.
    destruct rounds; reflexivity.
  - apply (count_loop_find_next fuel key t _ rounds c1 r' 0 rs t2
             (indices_of key rows 0)); try assumption; try lia.
    eapply Forall_impl; [exact Hrange|]. intros j Hj. cbv beta in Hj.
    revert Hmax. consts. lia.
Qed.

(** X15.  [rehash()] on a table of the usual layout, whatever its slots
    hold, returns (given fuel for one round of the slots), leaves the rows
    and the slot count, and resets the cursor; afterwards no slot is a
    tombstone, every row has a slot, and [find(key, true)] followed by
    [find(key, false)] calls returns the rows whose key is [key], each
    once, in the order of their indices, and then [SIZE_MAX]. *)
Theorem rehash_rebuilds_index (fuel : nat) (t : htable) (key : val) :
  table_shape t -> (Z.to_nat (hashcapacity t) < fuel)%nat ->
  exists t', rehash fuel t = Done t' /\ base t' = base t /\
    hashcapacity t' = hashcapacity t /\ hashcursor t' = SIZE_MAX /\
    (forall s, 0 <= s < hashcapacity t ->
       exists v, slot t' s = Some v /\
         (v = INDEXNUL \/ 0 <= v < size (base t))) /\
    (forall i, 0 <= i < size (base t) ->
       exists s, 0 <= s < hashcapacity t /\ slot t' s = Some i) /\
    let found := indices_of key (rows_of (base t)) 0 in
    StronglySorted Z.lt found /\
    (forall i, i ∈ found <->
       0 <= i < size (base t) /\ at_ 0%nat i (base t) = Done key) /\
    exists t'', find_sequence fuel key (length found) t'
                = Done (found ++ [SIZE_MAX], t'').
Proof.
  unfold size. intros Hshape Hfuel.
  destruct (rehash_shape fuel t Hshape ltac:(lia))
    as (t' & H & Hbase & Hhc & _ & Hins).
  exists t'. split; [exact H|]. split; [exact Hbase|]. split; [exact Hhc|].
  split; [apply (rehash_fields _ _ _ H)|].
  pose proof (ins_placed _ _ Hins) as Hpl. rewrite Hbase, Hhc in Hpl.
  split; [apply (placed_slots _ _ _ _ Hpl)|].
  split.
  { intros i Hi.
    destruct (placed_rows _ _ _ _ Hpl i Hi) as (k & d & _ & Hd & Hs & _).
    eexists. split; [|exact Hs]. apply probe_range. lia. }
  split; [apply indices_of_sorted|].
  split; [intros i; apply indices_of_rows_of, (shape_store _ Hshape)|].
  apply (inserted_find_sequence fuel key t' _ Hins). rewrite Hhc. exact Hfuel.
Qed.

(** X16.  After [insert(key, items...)] for each row of [rows] into a new
    table, and nothing else, [count(key)] returns the number of rows of
    [rows] whose key is [key], and [find(key) const] returns the first of
    them, or [SIZE_MAX] when there is none. *)
Theorem count_after_inserts (alloc : Z -> bool) (fuel fuel' rounds : nat)
    (rows : list (val * list val)) (t : htable) (key : val) :
  insert_all alloc fuel rows htable_new = Done (true, t) ->
  (Z.to_nat (hashcapacity t) < fuel')%nat ->
  (length rows <= rounds)%nat ->
  count fuel' rounds key t
  = Done (Z.of_nat
            (length (List.filter (fun r => val_eqb (fst r) key) rows))) /\
  find_const fuel' key t = Done (hd SIZE_MAX (indices_of key rows 0)).
Proof.
  intros H Hfuel Hrounds.
  apply insert_all_inserted with (rows0 := []) in H;
    [|apply htable_new_inserted].
  rewrite app_nil_l in H. split.
  - rewrite <- (indices_of_count key rows 0).
    apply (inserted_count fuel' rounds key t rows H Hfuel).
    pose proof (indices_of_length_le key rows 0). lia.
  - apply (inserted_find_const fuel' key t rows H Hfuel).
Qed.

Lemma clear_inserted (t : htable) :
  table_shape t ->
  exists t', htable_clear t = Done t' /\ inserted t' [] /\
    mycapacity (base t') = mycapacity (base t) /\
    hashcapacity t' = hashcapacity t /\
    forall s, 0 <= s < hashcapacity t -> slot t' s = Some INDEXNUL.
Proof.
  intros [Hst Hmax Hcap Hhm Hcur].
  pose proof (soa_size_le_capacity _ Hst) as Hsz.
  unfold htable_clear, memset_nul.
  destruct (Z.leb_spec (hashcapacity t) (Z.of_nat (length (hashmap t))));
    [|lia].
  cbn [mbind outcome_bind]. eexists. split; [reflexivity|].
  assert (Hhc : 0 <= hashcapacity t) by (destruct Hcap as [[? ?]|[? ?]]; lia).
  split; [|split; [reflexivity|split; [reflexivity|]]].
  - split; cbn [base hashmap hashcapacity hashcursor clear mysize mycapacity];
      try assumption; try lia.
    + destruct Hst as [? ? ? ? ?]. split; simpl; try assumption. lia.
    + reflexivity.
    + rewrite length_app, length_replicate, length_drop. lia.
    + consts. lia.
    + apply placed_empty. exact Hhc.
    + intros i k items Hi. rewrite lookup_nil in Hi. discriminate.
  - intros s Hs. unfold slot. cbn [hashmap].
    rewrite lookup_app_l by (rewrite length_replicate; lia).
    apply lookup_replicate_2. lia.
Qed.

(** X17.  [clear()] on a table of the usual layout leaves no row, the
    capacity and the slot count; every slot is empty, tombstones included,
    so every [find] returns [SIZE_MAX]; and the table refilled by [insert]
    calls is searched like a new one: [find(key, true)] followed by
    [find(key, false)] calls returns the rows inserted with [key], in
    their order, then [SIZE_MAX]. *)
Theorem clear_empties_table (t : htable) :
  table_shape t ->
  exists t', htable_clear t = Done t' /\ table_shape t' /\
    size (base t') = 0 /\ capacity (base t') = capacity (base t) /\
    hashcapacity t' = hashcapacity t /\
    (forall s, 0 <= s < hashcapacity t -> slot t' s = Some INDEXNUL) /\
    (forall fuel key restart, find fuel key restart t' = Done (SIZE_MAX, t')) /\
    forall alloc fuel rows t2 key fuel',
      insert_all alloc fuel rows t' = Done (true, t2) ->
      (Z.to_nat (hashcapacity t2) < fuel')%nat ->
      exists t3, find_sequence fuel' key (length (indices_of key rows 0)) t2
                 = Done (indices_of key rows 0 ++ [SIZE_MAX], t3).
Proof.
  intros Hshape.
  destruct (clear_inserted t Hshape) as (t' & H & Hins & Hcap & Hhc & Hslots).
  exists t'. split; [exact H|]. split; [apply (inserted_shape _ _ Hins)|].
  split; [apply (ins_size _ _ Hins)|]. split; [exact Hcap|].
  split; [exact Hhc|]. split; [exact Hslots|]. split.
  - intros fuel key restart. unfold find.
    rewrite (ins_size _ _ Hins). reflexivity.
  - intros alloc fuel rows t2 key fuel' Hall Hfuel.
    apply insert_all_inserted with (rows0 := []) in Hall; [|exact Hins].
    rewrite app_nil_l in Hall.
    apply (inserted_find_sequence fuel' key t2 rows Hall Hfuel).
Qed.

(** An [insert] below capacity: it asks for no memory and finds its
    slot. *)
Lemma insert_below_capacity (alloc : Z -> bool) (fuel : nat) (k : val)
    (items : list val) (t : htable) (rows : list (val * list val)) :
  inserted t rows -> mysize (base t) < mycapacity (base t) ->
  mysize (base t) < max_size -> (Z.to_nat (hashcapacity t) <= fuel)%nat ->
  exists t', htable_insert alloc fuel k items t = Done (true, t') /\
    hashcapacity t' = hashcapacity t /\
    mycapacity (base t') = mycapacity (base t).
Proof.
  intros Hins Hroom Hmax Hfuel.
  pose proof Hins as [Hst Hsize _ Hcap Hhm Hcur Hpl Hrows].
  pose proof (soa_size_le_capacity _ Hst) as Hsz.
  destruct Hcap as [[_ Hc0]|[Hhc Hc]]; [lia|].
  assert (Hodd : Z.odd (hashcapacity t) = true).
  { rewrite Hhc.
    replace (2 * mycapacity (base t) + 3)
      with (1 + 2 * (mycapacity (base t) + 1)) by lia.
    rewrite Z.odd_add_mul_2. reflexivity. }
  assert (Hpos : 0 < hashcapacity t) by lia.
  unfold htable_insert.
  destruct (Z.eqb_spec (mysize (base t)) max_size); [lia|].
  destruct (Z.eqb_spec (mysize (base t)) (mycapacity (base t))); [lia|].
  cbn [mbind outcome_bind negb]. rewrite modulo_Done by lia.
  cbn [mbind outcome_bind]. set (h := hash k mod hashcapacity t).
  assert (Hh : 0 <= h < hashcapacity t) by (apply Z.mod_pos_bound; lia).
  destruct (placed_first_empty _ _ _ _ h Hpl ltac:(lia) Hodd)
    as (D & HD & Hnul & Hfirst).
  destruct (push_back_total alloc (k :: items) (base t) Hst Hroom)
    as [b' Hpush].
  assert (Hin : 0 <= probe (hashcapacity t) h D
                < Z.of_nat (length (hashmap t))).
  { split; [apply probe_range; exact Hpos|].
    apply lookup_lt_Some in Hnul. lia. }
  assert (Hwalk : walk fuel (hashcapacity t) (hashmap t)
                    (insert_body alloc (k :: items) t)
                    (probe (hashcapacity t) h 0)
                  = Done (mk_htable b'
                            (<[Z.to_nat (probe (hashcapacity t) h D)
                               := uint32_t (mysize (base t))]> (hashmap t))
                            (hashcapacity t) (hashcursor t))).
  { replace D with (0 + Z.of_nat (Z.to_nat D)) in Hnul, Hin |- * by lia.
    assert (Hhmax : hashcapacity t + 2 <= 2 ^ 64) by (pows; lia).
    apply (walk_reaches (hashcapacity t) (hashmap t)
             (insert_body alloc (k :: items) t) h Hpos Hhmax
             (Z.to_nat D)); [lia|lia| |].
    - intros d' Hd'.
      destruct (placed_slots _ _ _ _ Hpl (probe (hashcapacity t) h d'))
        as (v & Hv & [ -> | Hrange ]); [apply probe_range; exact Hpos| |].
      + destruct (Hfirst d' ltac:(lia) Hv).
      + exists v. split; [exact Hv|]. unfold insert_body.
        destruct (Z.eqb_spec v INDEXNUL) as [E|_];
          [revert E Hmax Hrange; consts; lia|].
        destruct (Z.eqb_spec v INDEXDEL) as [E|_];
          [revert E Hmax Hrange; consts; lia|].
        reflexivity.
    - exists INDEXNUL. split; [exact Hnul|]. unfold insert_body.
      rewrite Z.eqb_refl. cbn [orb]. rewrite Hpush.
      cbn [mbind outcome_bind]. rewrite wr_Done by exact Hin. reflexivity. }
  rewrite probe_0 in Hwalk by exact Hh. rewrite insert_place_walk.
  rewrite Hwalk. cbn [mbind outcome_bind]. eexists. split; [reflexivity|].
  cbn [hashcapacity base]. split; [reflexivity|].
  apply push_back_spec in Hpush as (_ & _ & Hcap' & _); auto.
Qed.

Lemma hd_app_singleton (d x : Z) (l : list Z) : hd d (l ++ [x]) = hd x l.
Proof. destruct l; reflexivity. Qed.

(** X18.  On a table filled by [insert] calls only, a further
    [insert(key, items...)] below capacity and below [max_size()] rows asks
    for no memory and returns [true] (given fuel for one round of the
    slots); the new row is the last one and holds the key and the items;
    [find(key) const] then returns the first row with that key (the new
    row when there was none), and for every other key it returns what it
    returned before. *)
Theorem insert_then_find (alloc alloc' : Z -> bool) (fuel fuel' : nat)
    (rows : list (val * list val)) (t : htable) (k : val)
    (items : list val) :
  insert_all alloc fuel rows htable_new = Done (true, t) ->
  size (base t) < capacity (base t) -> size (base t) < max_size ->
  (Z.to_nat (hashcapacity t) < fuel')%nat ->
  exists t', htable_insert alloc' fuel' k items t = Done (true, t') /\
    size (base t') = size (base t) + 1 /\
    capacity (base t') = capacity (base t) /\
    at_ 0%nat (size (base t)) (base t') = Done k /\
    (forall (K : nat) v, items !! K = Some v -> (S K < length Ts)%nat ->
       at_ (S K) (size (base t)) (base t') = Done v) /\
    find_const fuel' k t'
    = Done (hd (size (base t)) (indices_of k rows 0)) /\
    forall key, key <> k -> find_const fuel' key t' = find_const fuel' key t.
Proof.
  unfold size, capacity. intros H Hroom Hmax Hfuel.
  apply insert_all_inserted with (rows0 := []) in H;
    [|apply htable_new_inserted].
  rewrite app_nil_l in H.
  destruct (insert_below_capacity alloc' fuel' k items t rows H Hroom Hmax
              ltac:(lia)) as (t' & Hins & Hhc & Hcap).
  pose proof (insert_inserted _ _ _ _ _ _ _ H Hins) as H'.
  pose proof (ins_size _ _ H) as Hsize.
  exists t'. split; [exact Hins|].
  split; [rewrite (ins_size _ _ H'), Hsize, length_app; simpl; lia|].
  split; [exact Hcap|].
  destruct (ins_rows _ _ H' (length rows) k items) as [Hk Hitems].
  { rewrite list_lookup_middle; reflexivity. }
  rewrite <- Hsize in Hk, Hitems.
  split; [exact Hk|]. split; [exact Hitems|].
  rewrite <- Hhc in Hfuel. split.
  - rewrite (inserted_find_const fuel' k t' _ H' Hfuel).
    rewrite indices_of_app. cbn [indices_of].
    rewrite (proj2 (val_eqb_eq k k) eq_refl).
    rewrite hd_app_singleton. do 2 f_equal. lia.
  - intros key Hne.
    rewrite (inserted_find_const fuel' key t' _ H' Hfuel).
    rewrite Hhc in Hfuel.
    rewrite (inserted_find_const fuel' key t rows H Hfuel).
    rewrite indices_of_app. cbn [indices_of].
    destruct (val_eqb k key) eqn:E.
    + apply val_eqb_eq in E. congruence.
    + rewrite app_nil_r. reflexivity.
Qed.

(** ** [erase] on a table without tombstones *)

Lemma inserted_slot_invariant (t : htable) (rows : list (val * list val)) :
  inserted t rows -> slot_invariant t.
Proof.
  intros [Hst Hsize Hmax Hcap Hhm Hcur Hpl Hrows].
  pose proof (soa_size_le_capacity _ Hst) as Hsz.
  assert (Hhc : 0 <= hashcapacity t < 2 ^ 63)
    by (destruct Hcap as [[? ?]|[? ?]]; pows; lia).
  split; try assumption.
  - lia.
  - eapply Forall_impl; [apply (soa_column_length _ Hst)|].
    intros col Hcol. simpl in Hcol. lia.
  - destruct Hcap as [[? ?]|[Hc ?]]; [auto|right].
    rewrite Hc.
    replace (2 * mycapacity (base t) + 3)
      with (1 + 2 * (mycapacity (base t) + 1)) by lia.
    rewrite Z.odd_add_mul_2. reflexivity.
  - intros s Hs.
    destruct (placed_slots _ _ _ _ Hpl s Hs) as (v & Hv & [ -> | Hr ]);
      [exists INDEXNUL; auto|].
    exists v. split; [exact Hv|]. right. right. split; [exact Hr|].
    destruct (placed_rows _ _ _ _ Hpl v Hr) as (k & d & Hk & Hd & Hsv & Hbefore).
    exists k. split; [exact Hk|]. exists d. split; [exact Hd|].
    split.
    + apply (placed_unique _ _ _ _ Hpl _ _ v); try assumption.
      apply probe_range. lia.
    + intros d' Hd' E. destruct (Hbefore d' Hd') as (j & Hj & Hsj).
      unfold slot in E. rewrite Hsj in E. injection E as ->.
      revert Hj Hr Hmax. consts. lia.
  - apply (placed_unique _ _ _ _ Hpl).
  - intros i Hi.
    destruct (placed_rows _ _ _ _ Hpl i Hi) as (k & d & _ & Hd & Hsv & _).
    eexists. split; [|exact Hsv]. apply probe_range. lia.
Qed.

Lemma find_set_cursor (fuel : nat) (key : val) (restart : bool)
    (t t' : htable) (r : Z) :
  find fuel key restart t = Done (r, t') ->
  exists c, t' = set_cursor t c.
Proof.
  rewrite find_as_cursor. intros H.
  apply bind_Done in H as ([r' c] & _ & E). injection E as <- <-. eauto.
Qed.

(** [erase_found()] with the cursor on the slot of the row [i]. *)
Lemma erase_found_erased (fuel : nat) (t : htable) (i : Z) :
  slot_invariant t -> hashcursor t < hashcapacity t ->
  slot t (hashcursor t) = Some i -> 0 <= i < mysize (base t) ->
  (exists s, 0 <= s < hashcapacity t /\ hashmap t !! Z.to_nat s = Some INDEXNUL) ->
  (Z.to_nat (hashcapacity t) <= fuel)%nat ->
  exists hm2, erase_found fuel t = Done (1, erased t i hm2) /\
    repaired t i hm2 /\ slot_invariant (erased t i hm2).
Proof.
  intros Hinv Hcursor Hslot Hi Hempty Hfuel.
  destruct (live_row_slot t (mysize (base t) - 1) Hinv ltac:(lia))
    as (_ & k & _ & _ & Hk & _).
  assert (Hrep : exists hm2,
            repair fuel (hashcapacity t) (mysize (base t) - 1) i
              (<[Z.to_nat (hashcursor t) := INDEXDEL]> (hashmap t))
              (hash k mod hashcapacity t) = Done hm2 /\
            repaired t i hm2).
  { destruct (Z.eq_dec i (mysize (base t) - 1)) as [E|E].
    - apply ef_repair_last; auto.
    - apply ef_repair_moved; auto. lia. }
  destruct Hrep as (hm2 & Hrepair & Hrep).
  exists hm2.
  split; [rewrite (ef_unfold t i Hinv Hcursor Hslot Hi fuel k Hk), Hrepair;
          reflexivity|].
  split; [exact Hrep|]. apply ef_invariant; assumption.
Qed.

(** X19.  On a table filled by [insert] calls only, which satisfies the
    slot invariant, [erase(key)] returns: 0 when no row has the key, and
    then only the cursor has moved; 1 otherwise, and then the first row
    with the key is gone, the last row has taken its place, the other rows
    are where they were, the slot the row had is a tombstone and the slot
    invariant holds again. *)
Theorem erase_after_inserts (alloc : Z -> bool) (fuel fuel' : nat)
    (rows : list (val * list val)) (t : htable) (key : val) :
  insert_all alloc fuel rows htable_new = Done (true, t) ->
  (Z.to_nat (hashcapacity t) < fuel')%nat ->
  slot_invariant t /\
  match indices_of key rows 0 with
  | [] => exists c, erase fuel' key t = Done (0, set_cursor t c)
  | i :: _ =>
      exists t', erase fuel' key t = Done (1, t') /\ slot_invariant t' /\
        at_ 0%nat i (base t) = Done key /\
        size (base t') = size (base t) - 1 /\
        (forall K j, 0 <= j < size (base t) - 1 -> j <> i ->
           at_ K j (base t') = at_ K j (base t)) /\
        (i < size (base t) - 1 ->
         forall K, at_ K i (base t') = at_ K (size (base t) - 1) (base t)) /\
        slot t' (hashcursor t') = Some INDEXDEL
  end.
Proof.
  unfold size. intros H Hfuel.
  apply insert_all_inserted with (rows0 := []) in H;
    [|apply htable_new_inserted].
  rewrite app_nil_l in H.
  pose proof (inserted_slot_invariant t rows H) as Hinv.
  split; [exact Hinv|].
  destruct (inserted_find_sequence fuel' key t rows H Hfuel) as [t2 Hseq].
  unfold find_sequence in Hseq.
  apply bind_Done in Hseq as ([r t1] & Hfind & Hseq).
  apply bind_Done in Hseq as ([rs t3] & _ & E). injection E as E _.
  destruct (find_set_cursor _ _ _ _ _ _ Hfind) as [c Ht1].
  pose proof (find_Done _ _ _ _ _ _ Hinv Hfind) as (Hinv1 & Hcases).
  unfold erase. rewrite Hfind. cbn [mbind outcome_bind].
  pose proof (inserted_found_range key t rows H) as Hrange.
  pose proof (ins_max _ _ H) as Hmax.
  destruct (indices_of key rows 0) as [|i found] eqn:Efound.
  - cbn [app] in E. injection E as -> _. exists c. rewrite <- Ht1.
    apply erase_found_nothing; [exact Hinv1|].
    destruct Hcases as [(_ & [(-> & [?|?])|(_ & ?)])|(Hr & _)]; auto.
    revert Hr. rewrite Ht1. cbn [set_cursor base]. revert Hmax. consts. lia.
  - cbn [app] in E. injection E as -> _.
    apply Forall_cons in Hrange as [Hi _].
    destruct Hcases as [(Hr & _)|(Hr & Hc & Hs & Hk)];
      [revert Hr Hi Hmax; consts; lia|].
    assert (Hempty : exists s, 0 <= s < hashcapacity t1 /\
                       hashmap t1 !! Z.to_nat s = Some INDEXNUL).
    { rewrite Ht1. cbn [set_cursor hashcapacity hashmap].
      apply (placed_has_empty _ _ _ _ (ins_placed _ _ H)).
      pose proof (soa_size_le_capacity _ (ins_store _ _ H)).
      destruct (ins_capacity _ _ H) as [[? ?]|[? ?]]; lia. }
    destruct (erase_found_erased fuel' t1 i Hinv1 Hc Hs Hr Hempty)
      as (hm2 & Herase & Hrep & Hinv2).
    { rewrite Ht1. cbn [set_cursor hashcapacity]. lia. }
    exists (erased t1 i hm2). split; [exact Herase|]. split; [exact Hinv2|].
    assert (Hb : base t1 = base t) by (rewrite Ht1; reflexivity).
    split.
    { apply at_column. split; [lia|]. unfold key_of in Hk.
      rewrite Hb in Hk. exact Hk. }
    split; [cbn [erased base mysize]; rewrite Hb; reflexivity|].
    rewrite <- Hb. split; [|split].
    + intros K j Hj Hji. apply ef_at_other; auto; lia.
    + intros _ K. apply ef_at_moved; auto.
    + destruct Hrep as [_ Hnew]. unfold slot in *. cbn [erased hashmap hashcursor].
      pose proof (inv_cursor t1 Hinv1).
      rewrite (Hnew (hashcursor t1) i ltac:(lia) Hs), Z.eqb_refl.
      reflexivity.
Qed.

(** ** [erase_sorted] on a table without tombstones *)

Lemma erase_found_sorted_nothing (fuel : nat) (t : htable) :
  slot_invariant t ->
  mysize (base t) = 0 \/ hashcapacity t <= hashcursor t \/
  slot t (hashcursor t) = Some INDEXNUL ->
  erase_found_sorted fuel t = Done (0, t).
Proof.
  intros Hinv Hcases. unfold erase_found_sorted.
  destruct (Z.leb_spec (hashcapacity t) (hashcursor t)) as [|Hlt];
    [reflexivity|].
  pose proof (inv_cursor t Hinv) as Hc.
  destruct (inv_slots t Hinv (hashcursor t) ltac:(lia)) as (v & Hv & Hv').
  unfold slot in Hv.
  rewrite (proj2 (rd_Done (hashmap t) (hashcursor t) v))
    by (split; [lia|exact Hv]).
  cbn [mbind outcome_bind].
  destruct (Z.eqb_spec v INDEXNUL); [reflexivity|].
  destruct (Z.eqb_spec v INDEXDEL); [reflexivity|]. exfalso.
  destruct Hv' as [?|[?|(Hr & _)]]; [contradiction|contradiction|].
  destruct Hcases as [Hz|[Hge|Hnul]]; [lia|lia|].
  unfold slot in Hnul. congruence.
Qed.

Lemma inserted_rows_ext (t : htable) (rows rows' : list (val * list val)) :
  inserted t rows -> length rows' = length rows ->
  (forall (i : nat) k items, rows' !! i = Some (k, items) ->
     at_ 0%nat (Z.of_nat i) (base t) = Done k /\
     forall (K : nat) v, items !! K = Some v -> (S K < length Ts)%nat ->
       at_ (S K) (Z.of_nat i) (base t) = Done v) ->
  inserted t rows'.
Proof.
  intros [? Hsize ? ? ? ? ? ?] Hlen Hrows. split; try assumption.
  rewrite Hlen. exact Hsize.
Qed.

(** X20.  On a table filled by [insert] calls only, [erase_sorted(key)]
    returns 0 when no row has the key, and only the cursor has moved.
    When a row has the key and the table is below capacity it returns 1:
    the first row with the key is gone, the rows behind it have moved one
    place forward in their order, no slot is a tombstone, and [find]
    enumerates the remaining rows of every key in their order.  On a full
    table the call reads past the arrays. *)
Theorem erase_sorted_after_inserts (alloc : Z -> bool) (fuel fuel' : nat)
    (rows : list (val * list val)) (t : htable) (key : val) :
  insert_all alloc fuel rows htable_new = Done (true, t) ->
  (Z.to_nat (hashcapacity t) < fuel')%nat ->
  match indices_of key rows 0 with
  | [] => exists c, erase_sorted fuel' key t = Done (0, set_cursor t c)
  | i :: _ =>
      (size (base t) = capacity (base t) ->
       erase_sorted fuel' key t = OutOfBounds) /\
      (size (base t) < capacity (base t) ->
       exists t', erase_sorted fuel' key t = Done (1, t') /\
         size (base t') = size (base t) - 1 /\
         (forall K j v, 0 <= j < i ->
            at_ K j (base t) = Done v -> at_ K j (base t') = Done v) /\
         (forall K j v, i < j < size (base t) ->
            at_ K j (base t) = Done v -> at_ K (j - 1) (base t') = Done v) /\
         (forall s, 0 <= s < hashcapacity t' -> slot t' s <> Some INDEXDEL) /\
         forall key',
           let found := indices_of key' (delete (Z.to_nat i) rows) 0 in
           exists t'', find_sequence fuel' key' (length found) t'
                       = Done (found ++ [SIZE_MAX], t''))
  end.
Proof.
  unfold size, capacity. intros H Hfuel.
  apply insert_all_inserted with (rows0 := []) in H;
    [|apply htable_new_inserted].
  rewrite app_nil_l in H.
  pose proof (inserted_slot_invariant t rows H) as Hinv.
  destruct (inserted_find_sequence fuel' key t rows H Hfuel) as [t2 Hseq].
  unfold find_sequence in Hseq.
  apply bind_Done in Hseq as ([r t1] & Hfind & Hseq).
  apply bind_Done in Hseq as ([rs t3] & _ & E). injection E as E _.
  destruct (find_set_cursor _ _ _ _ _ _ Hfind) as [c Ht1].
  pose proof (find_Done _ _ _ _ _ _ Hinv Hfind) as (Hinv1 & Hcases).
  unfold erase_sorted. rewrite Hfind. cbn [mbind outcome_bind].
  pose proof (inserted_found_range key t rows H) as Hrange.
  pose proof H as [Hst Hsize Hmax Hcap Hhm Hcur Hpl Hrows].
  pose proof (soa_size_le_capacity _ Hst) as Hsz.
  destruct (indices_of key rows 0) as [|i found] eqn:Efound.
  - cbn [app] in E. injection E as -> _. exists c. rewrite <- Ht1.
    apply erase_found_sorted_nothing; [exact Hinv1|].
    destruct Hcases as [(_ & [(-> & [?|?])|(_ & ?)])|(Hr & _)]; auto.
    revert Hr. rewrite Ht1. cbn [set_cursor base]. revert Hmax. consts. lia.
  - cbn [app] in E. injection E as -> _.
    apply Forall_cons in Hrange as [Hi _].
    destruct Hcases as [(Hr & _)|(_ & Hc & Hs & Hk)];
      [revert Hr Hi Hmax; consts; lia|].
    subst t1. cbn [set_cursor hashcapacity hashcursor base] in *.
    unfold slot in Hs. cbn [hashmap] in Hs.
    pose proof (inv_cursor _ Hinv1) as Hc0. cbn [hashcursor set_cursor] in Hc0.
    assert (Hunfold : erase_found_sorted fuel' (set_cursor t c)
              = base' ← erase_shift i (base t);
                hashmap1 ← wr (hashmap t) c INDEXDEL;
                t' ← rehash fuel'
                       (mk_htable base' hashmap1 (hashcapacity t) c);
                Done (1, t')).
    { unfold erase_found_sorted. cbn [set_cursor hashcapacity hashcursor
                                          hashmap base].
      destruct (Z.leb_spec (hashcapacity t) c); [lia|].
      rewrite (proj2 (rd_Done (hashmap t) c i)) by (split; [lia|exact Hs]).
      cbn [mbind outcome_bind].
      destruct (Z.eqb_spec i INDEXNUL) as [E|_];
        [revert E Hi Hmax; consts; lia|].
      destruct (Z.eqb_spec i INDEXDEL) as [E|_];
        [revert E Hi Hmax; consts; lia|].
      reflexivity. }
    rewrite Hunfold. split.
    + intros Hfull. rewrite erase_shift_full by (assumption || lia).
      reflexivity.
    + intros Hroom.
      destruct (erase_shift_spec i (base t) Hst Hi Hroom)
        as (b' & Hshift & Hinv' & Hsize' & Hcap' & Hcols).
      rewrite Hshift. cbn [mbind outcome_bind].
      rewrite wr_Done by (split; [lia|apply lookup_lt_Some in Hs; lia]).
      cbn [mbind outcome_bind].
      set (t2' := mk_htable b' (<[Z.to_nat c := INDEXDEL]> (hashmap t))
                    (hashcapacity t) c).
      assert (Hshape : table_shape t2').
      { split; cbn [t2' base hashmap hashcapacity hashcursor].
        - exact Hinv'.
        - lia.
        - rewrite Hcap'. exact Hcap.
        - rewrite length_insert. exact Hhm.
        - lia. }
      destruct (rehash_shape fuel' t2' Hshape ltac:(cbn [t2' hashcapacity]; lia))
        as (t' & Hre & Hbase & Hhc & _ & Hins).
      rewrite Hre. cbn [mbind outcome_bind]. exists t'.
      split; [reflexivity|]. rewrite Hbase. cbn [t2' base].
      split; [exact Hsize'|]. split; [|split; [|split]].
      * intros K j v Hj. apply at_lookup; [lia|lia|].
        rewrite Hcols by lia. destruct (Z.ltb_spec j i); [reflexivity|lia].
      * intros K j v Hj. apply at_lookup; [lia|lia|].
        rewrite Hcols by lia.
        destruct (Z.ltb_spec (j - 1) i); [lia|]. f_equal. lia.
      * intros s Hs' E.
        destruct (placed_slots _ _ _ _ (ins_placed _ _ Hins) s Hs')
          as (v & Hv & Hv').
        unfold slot in E. rewrite Hv in E. injection E as ->.
        pose proof (ins_max _ _ Hins).
        pose proof (soa_size_le_capacity _ (ins_store _ _ Hins)).
        revert Hv'. consts. lia.
      * intros key'. cbv zeta.
        apply (inserted_find_sequence fuel' key' t' (delete (Z.to_nat i) rows));
          [|rewrite Hhc; cbn [t2' hashcapacity]; exact Hfuel].
        assert (Hdel : length (delete (Z.to_nat i) rows) = Z.to_nat (mysize b')).
        { rewrite length_delete; [lia|].
          apply lookup_lt_is_Some_2. lia. }
        apply (inserted_rows_ext t' (rows_of (base t2'))); [exact Hins| |].
        { cbn [t2' base]. pose proof (rows_of_length b' ltac:(lia)). lia. }
        intros n k items Hn. rewrite Hbase. cbn [t2' base].
        assert (Hnr : Z.of_nat n < mysize b').
        { apply lookup_lt_Some in Hn. lia. }
        assert (Hold : exists n', rows !! n' = Some (k, items) /\
                  forall K, column K b' !! n = column K (base t) !! n').
        { destruct (decide (n < Z.to_nat i)%nat) as [Hlt|Hge].
          - exists n. rewrite list_lookup_delete_lt in Hn by exact Hlt.
            split; [exact Hn|]. intros K.
            rewrite <- (Nat2Z.id n) at 1. rewrite Hcols by lia.
            destruct (Z.ltb_spec (Z.of_nat n) i); [|lia].
            rewrite Nat2Z.id. reflexivity.
          - exists (S n). rewrite list_lookup_delete_ge in Hn by lia.
            split; [exact Hn|]. intros K.
            rewrite <- (Nat2Z.id n) at 1. rewrite Hcols by lia.
            destruct (Z.ltb_spec (Z.of_nat n) i); [lia|].
            f_equal. lia. }
        destruct Hold as (n' & Hn' & Hsame).
        destruct (Hrows n' k items Hn') as [Hk' Hitems'].
        split.
        -- apply at_column. split; [lia|]. rewrite Nat2Z.id, Hsame.
           apply at_column in Hk' as [_ Hk']. rewrite Nat2Z.id in Hk'.
           exact Hk'.
        -- intros K v HK HKn. specialize (Hitems' K v HK HKn).
           apply at_column. split; [lia|]. rewrite Nat2Z.id, Hsame.
           apply at_column in Hitems' as [_ Hitems'].
           rewrite Nat2Z.id in Hitems'. exact Hitems'.
Qed.

(** ** [insert] into a table with tombstones *)




(** ** Reallocation of the table: [reserve] and [shrink_to_fit] *)

(** The block [reserve] and [shrink_to_fit] allocate for [N] rows, the
    copy of the rows into it and the [rehash] that follows, when [x] rows
    lie inside the block behind the slot array and the rows beyond [x] take
    less than [2 ^ 64] bytes. *)
Lemma reallocate_rehash (alloc : Z -> bool) (fuel : nat) (N x : Z)
    (t t' : htable) (cols : list (list val)) :
  table_shape t -> 0 < N < 2 ^ 64 -> N mod 16 = 0 -> mysize (base t) <= N ->
  0 <= x <= N -> size_per_entry * (N - x) < 2 ^ 64 ->
  let H0 := size_t (size_t (N + N) + 4) in
  let bytes := size_t (size_t (size_per_entry * N) + size_t (H0 * 4)) in
  aligned_malloc alloc bytes = true ->
  size_t (H0 * 4) + size_per_entry * x <= bytes ->
  divy_buffer bytes (size_t (H0 * 4)) N (mysize (base t)) Ts
    (mydata (base t)) = Done cols ->
  rehash fuel
    (mk_htable (mk_soa (mysize (base t)) N cols)
       (replicate (Z.to_nat (cells_inside bytes 0 (size_t (H0 * 4) / 4) 4))
          junk_slot)
       (size_t (H0 - 1)) (hashcursor t)) = Done t' ->
  inserted t' (rows_of (base t')) /\
  base t' = mk_soa (mysize (base t)) N cols /\
  rows_agree (base t) (base t') /\
  hashcapacity t' = 2 * N + 3 /\ hashcursor t' = SIZE_MAX.
Proof.
  intros Hshape HN H16 Hfit Hx Hshort H0 bytes Ea Hreach Hdivy Hre.
  pose proof Hshape as [Hst Hmax Hcap Hhm Hcur].
  pose proof (soa_size_le_capacity _ Hst) as Hsz.
  pose proof (rehash_fields _ _ _ Hre) as (Hbase & Hhc & Hcursor).
  cbn [base hashcapacity] in Hbase, Hhc.
  unfold rehash in Hre. cbn [base hashmap hashcapacity mysize] in Hre.
  apply bind_Done in Hre as (hm0 & Hset & Hre).
  apply memset_nul_Done in Hset as [Hlen0 ->].
  apply bind_Done in Hre as (hm' & Hrr & Hre).
  rewrite length_replicate, Z2Nat.id in Hlen0
    by (apply cells_inside_le, Z.div_pos; [apply size_t_range|lia]).
  destruct (table_block_spec N alloc x HN H16 Hx Hshort Ea Hreach Hlen0)
    as (HN61 & EB & EH & Ebytes & Hmaxb & Eslots).
  fold H0 in EB, EH, Ebytes, Hmaxb, Eslots.
  fold bytes in Ebytes, Hmaxb, Eslots.
  rewrite EH, Eslots in Hrr. rewrite EH in Hre, Hhc.
  apply reallocation_spec in Hdivy as [Hst' Hagree];
    [|exact Hst|lia|exact H16|lia|apply size_t_range|lia|exact Hmaxb].
  apply rehash_rows_placed in Hrr as [Hpl' Hlen'];
    [| pows; lia
     | replace (2 * N + 3) with (1 + 2 * (N + 1)) by lia;
       rewrite Z.odd_add_mul_2; reflexivity
     | apply placed_empty; lia | lia | lia | lia].
  rewrite Z.add_0_l, Z2Nat.id in Hpl' by lia.
  injection Hre as <-. cbn [base hashcapacity hashcursor].
  split; [|split; [reflexivity|split; [exact Hagree|split; reflexivity]]].
  apply (inserted_rows_of
           (mk_htable (mk_soa (mysize (base t)) N cols) hm' (2 * N + 3)
              SIZE_MAX)); [|exact Hpl'].
  split; cbn [base hashmap hashcapacity hashcursor mysize mycapacity].
  - exact Hst'.
  - exact Hmax.
  - right. split; [reflexivity|pows; lia].
  - rewrite Hlen', length_app, length_replicate, length_drop, length_replicate.
    lia.
  - consts. lia.
Qed.

Lemma indices_of_rows_agree (key : val) (s s' : soa) :
  soa_invariant s -> soa_invariant s' -> mysize s' = mysize s ->
  rows_agree s s' ->
  indices_of key (rows_of s') 0 = indices_of key (rows_of s) 0.
Proof.
  intros Hinv Hinv' Hsize Hagree. apply sorted_ext.
  - apply indices_of_sorted.
  - apply indices_of_sorted.
  - intros x. rewrite !indices_of_rows_of by assumption. rewrite Hsize.
    split; intros [Hx Hat]; (split; [exact Hx|]).
    + destruct (rows_present s 0 x Hinv key_column_exists Hx) as [v Hv].
      pose proof (Hagree _ _ _ Hx Hv) as Hv'. congruence.
    + apply (Hagree _ _ _ Hx Hat).
Qed.

Lemma htable_reserve_Done (alloc : Z -> bool) (fuel : nat) (n : Z)
    (t t' : htable) :
  table_shape t -> 0 <= n <= 2 ^ 64 - 16 ->
  htable_reserve alloc fuel n t = Done (true, t') ->
  (size_per_entry + 8) * mycapacity (base t') + 16 <= PTRDIFF_MAX ->
  n <= mycapacity (base t') /\
  (t' = t \/
   mycapacity (base t) < mycapacity (base t') /\
   inserted t' (rows_of (base t')) /\
   mysize (base t') = mysize (base t) /\
   rows_agree (base t) (base t') /\ hashcursor t' = SIZE_MAX).
Proof.
  intros Hshape Hn H Hblock. pose proof Hshape as [Hst Hmax Hcap Hhm Hcur].
  pose proof (soa_size_le_capacity _ Hst) as Hsz.
  pose proof (multiple_of_16_ge n Hn) as HM.
  destruct (multiple_of_16_spec n ltac:(pows; lia)) as [HMr HM16].
  unfold htable_reserve in H.
  set (N := if multiple_of_16 n =? 0 then 16 else multiple_of_16 n) in *.
  assert (HN : n <= N /\ 0 < N < 2 ^ 64 /\ N mod 16 = 0).
  { subst N. destruct (Z.eqb_spec (multiple_of_16 n) 0) as [E|E];
      [pows; split; [lia|split; [lia|reflexivity]]|].
    split; [lia|]. split; [lia|assumption]. }
  destruct (Z.leb_spec N (mycapacity (base t))) as [Hle|Hgt].
  { injection H as <-. split; [lia|]. left. reflexivity. }
  destruct (aligned_malloc alloc _) eqn:Ea; cbn [negb] in H; [|discriminate].
  apply bind_Done in H as (cols & Hdivy & H).
  apply bind_Done in H as (t1 & Hre & H). injection H as <-.
  pose proof (rehash_fields _ _ _ Hre) as (Hb1 & _).
  rewrite Hb1 in Hblock. cbn [base mycapacity] in Hblock.
  assert (Hreach : size_t (size_t (size_t (N + N) + 4) * 4)
                   + size_per_entry * N
                   <= size_t (size_t (size_per_entry * N)
                              + size_t (size_t (size_t (N + N) + 4) * 4))).
  { apply table_block_direct; [lia|].
    unfold PTRDIFF_MAX in Hblock. pows. lia. }
  destruct (reallocate_rehash alloc fuel N N t t1 cols Hshape ltac:(lia)
              ltac:(tauto) ltac:(lia) ltac:(lia)
              ltac:(rewrite Z.sub_diag; pows; lia) Ea Hreach Hdivy Hre)
    as (Hins & Hbase & Hagree & Hhc & Hcursor).
  rewrite Hbase. cbn [mycapacity mysize]. split; [lia|]. right.
  split; [lia|]. rewrite <- Hbase.
  split; [exact Hins|]. rewrite Hbase. cbn [mysize].
  split; [reflexivity|]. rewrite <- Hbase. auto.
Qed.

(** X22.  A successful [reserve(n)] of the table that leaves a capacity
    whose block (the slot array and the arrays) is one an allocation can
    return, of at most [PTRDIFF_MAX] bytes, so that no byte count has
    wrapped around, leaves a capacity of at least [n].  Either the capacity
    sufficed and nothing has changed, or the capacity has grown: the layout
    is the usual one, with [2 * capacity + 3] slots, the rows are the same,
    the cursor is reset, no slot is a tombstone and [find] enumerates the
    rows of every key in the order of their indices. *)
Theorem htable_reserve_keeps_rows (alloc : Z -> bool) (fuel : nat) (n : Z)
    (t t' : htable) :
  table_shape t -> 0 <= n <= 2 ^ 64 - 16 ->
  htable_reserve alloc fuel n t = Done (true, t') ->
  (size_per_entry + 8) * capacity (base t') + 16 <= PTRDIFF_MAX ->
  n <= capacity (base t') /\
  (t' = t \/
   capacity (base t) < capacity (base t') /\ table_shape t' /\
   size (base t') = size (base t) /\ rows_agree (base t) (base t') /\
   hashcursor t' = SIZE_MAX /\
   (forall s, 0 <= s < hashcapacity t' -> slot t' s <> Some INDEXDEL) /\
   forall key fuel',
     (Z.to_nat (hashcapacity t') < fuel')%nat ->
     let found := indices_of key (rows_of (base t)) 0 in
     exists t'', find_sequence fuel' key (length found) t'
                 = Done (found ++ [SIZE_MAX], t'')).
Proof.
  unfold size, capacity. intros Hshape Hn H Hblock.
  destruct (htable_reserve_Done alloc fuel n t t' Hshape Hn H Hblock)
    as [Hcap [ -> | (Hgrow & Hins & Hsize & Hagree & Hcursor) ]].
  - split; [exact Hcap|]. left. reflexivity.
  - split; [exact Hcap|]. right. split; [exact Hgrow|].
    split; [apply (inserted_shape _ _ Hins)|]. split; [exact Hsize|].
    split; [exact Hagree|]. split; [exact Hcursor|]. split.
    + intros s Hs E.
      destruct (placed_slots _ _ _ _ (ins_placed _ _ Hins) s Hs)
        as (v & Hv & Hv').
      unfold slot in E. rewrite Hv in E. injection E as ->.
      pose proof (ins_max _ _ Hins).
      revert Hv'. consts. lia.
    + intros key fuel' Hfuel. cbv zeta.
      rewrite <- (indices_of_rows_agree key (base t) (base t'));
        [|apply (shape_store _ Hshape)|apply (ins_store _ _ Hins)
         |exact Hsize|exact Hagree].
      apply (inserted_find_sequence fuel' key t' _ Hins Hfuel).
Qed.

(** X23.  A successful [shrink_to_fit()] of the table keeps the rows and
    leaves the least capacity that is a multiple of 16 and holds them.
    Either nothing has changed, or the block has been replaced: with no row
    left the table has no slots and no arrays, as when new; otherwise no
    slot is a tombstone and [find] enumerates the rows of every key in the
    order of their indices. *)
Theorem htable_shrink_to_fit_keeps_rows (alloc : Z -> bool) (fuel : nat)
    (t t' : htable) :
  table_shape t ->
  htable_shrink_to_fit alloc fuel t = Done (true, t') ->
  table_shape t' /\ size (base t') = size (base t) /\
  rows_agree (base t) (base t') /\
  capacity (base t') mod 16 = 0 /\
  size (base t) <= capacity (base t') < size (base t) + 16 /\
  (t' = t \/
   hashcursor t' = SIZE_MAX /\
   (size (base t) = 0 ->
    hashcapacity t' = 0 /\ hashmap t' = [] /\
    Forall (fun col => col = []) (mydata (base t'))) /\
   (forall s, 0 <= s < hashcapacity t' -> slot t' s <> Some INDEXDEL) /\
   forall key fuel',
     (Z.to_nat (hashcapacity t') < fuel')%nat ->
     let found := indices_of key (rows_of (base t)) 0 in
     exists t'', find_sequence fuel' key (length found) t'
                 = Done (found ++ [SIZE_MAX], t'')).
Proof.
  unfold size, capacity. intros Hshape H.
  pose proof Hshape as [Hst Hmax Hcap Hhm Hcur].
  pose proof (soa_size_le_capacity _ Hst) as Hsz.
  pose proof (soa_capacity_bound _ Hst) as Hcb.
  pose proof (multiple_of_16_ge (mysize (base t)) ltac:(lia)) as HM.
  destruct (multiple_of_16_spec (mysize (base t)) ltac:(pows; lia))
    as [HMr HM16].
  unfold htable_shrink_to_fit in H.
  set (N := multiple_of_16 (mysize (base t))) in *.
  destruct (Z.eqb_spec N (mycapacity (base t))) as [Esame|Hne].
  { injection H as <-. split; [exact Hshape|]. split; [reflexivity|].
    split; [intros K i v _ Hv; exact Hv|].
    split; [apply (soa_capacity_16 _ Hst)|]. split; [lia|].
    left. reflexivity. }
  assert (Hins : inserted t' (rows_of (base t')) /\
                 mysize (base t') = mysize (base t) /\
                 mycapacity (base t') = N /\
                 rows_agree (base t) (base t') /\
                 hashcursor t' = SIZE_MAX /\
                 (mysize (base t) = 0 ->
                  hashcapacity t' = 0 /\ hashmap t' = [] /\
                  Forall (fun col => col = []) (mydata (base t')))).
  { destruct (Z.ltb_spec 0 N) as [Hpos|Hzero].
    - destruct (aligned_malloc alloc _) eqn:Ea; cbn [negb] in H;
        [|discriminate].
      apply bind_Done in H as (cols & Hdivy & H).
      apply bind_Done in H as (t1 & Hre & H). injection H as <-.
      assert (Hrows : 0 < mysize (base t)).
      { destruct (Z.eq_dec (mysize (base t)) 0) as [E|E]; [|lia].
        subst N. rewrite E in Hpos. change (multiple_of_16 0) with 0 in Hpos.
        lia. }
      pose proof (reallocation_reach _ _ N (base t) cols Hst Hrows
                    ltac:(lia) Hdivy) as Hreach.
      assert (Hshort : size_per_entry * (N - mysize (base t)) < 2 ^ 64).
      { pose proof size_per_entry_pos. pose proof row_size as Hrow.
        unfold PTRDIFF_MAX in Hrow. pows. nia. }
      destruct (reallocate_rehash alloc fuel N (mysize (base t)) t t1 cols
                  Hshape ltac:(lia) HM16 ltac:(lia) ltac:(lia) Hshort Ea
                  Hreach Hdivy Hre)
        as (Hins & Hbase & Hagree & Hhc & Hcursor).
      split; [exact Hins|]. rewrite Hbase. cbn [mysize mycapacity].
      split; [reflexivity|]. split; [reflexivity|]. rewrite <- Hbase.
      split; [exact Hagree|]. split; [exact Hcursor|].
      intros Hempty. exfalso. subst N. rewrite Hempty in Hpos.
      change (multiple_of_16 0) with 0 in Hpos. lia.
    - assert (Hempty : mysize (base t) = 0) by lia.
      apply bind_Done in H as (t1 & Hre & H). injection H as <-.
      pose proof (rehash_fields _ _ _ Hre) as (Hbase & Hhc & Hcursor).
      cbn [base hashcapacity] in Hbase, Hhc.
      unfold rehash, memset_nul in Hre.
      cbn [base hashmap hashcapacity mysize length] in Hre.
      rewrite Hempty in Hre. cbn in Hre. injection Hre as <-.
      cbn [base hashmap hashcapacity hashcursor mysize mycapacity mydata].
      assert (Hnull : Forall (fun col : list val => col = [])
                        (nullify (mydata (base t)))).
      { unfold nullify. apply Forall_fmap. apply Forall_true. reflexivity. }
      split; [|split; [lia|split; [lia|split; [|split; [reflexivity|auto]]]]].
      + apply (inserted_rows_of
                 (mk_htable (mk_soa 0 0 (nullify (mydata (base t)))) [] 0
                    SIZE_MAX)).
        * split; cbn [base hashmap hashcapacity hashcursor mysize mycapacity].
          -- split; cbn [mysize mycapacity mydata];
               [lia|reflexivity|unfold PTRDIFF_MAX; pows; lia| |].
             ++ unfold nullify. rewrite length_map. apply (soa_columns _ Hst).
             ++ eapply Forall_impl; [exact Hnull|]. intros col ->. reflexivity.
          -- consts. lia.
          -- left. auto.
          -- simpl. lia.
          -- consts. lia.
        * split; cbn [base mysize]; intros; lia.
      + intros K i v Hi. lia. }
  destruct Hins as (Hins & Hsize & Hcap' & Hagree & Hcursor & Hnew).
  split; [apply (inserted_shape _ _ Hins)|]. split; [exact Hsize|].
  split; [exact Hagree|]. rewrite Hcap'. split; [exact HM16|].
  split; [lia|]. right. split; [exact Hcursor|]. split; [exact Hnew|]. split.
  - intros s Hs E.
    destruct (placed_slots _ _ _ _ (ins_placed _ _ Hins) s Hs)
      as (v & Hv & Hv').
    unfold slot in E. rewrite Hv in E. injection E as ->.
    pose proof (ins_max _ _ Hins).
    revert Hv'. consts. lia.
  - intros key fuel' Hfuel. cbv zeta.
    rewrite <- (indices_of_rows_agree key (base t) (base t'));
      [|exact Hst|apply (ins_store _ _ Hins)|exact Hsize|exact Hagree].
    apply (inserted_find_sequence fuel' key t' _ Hins Hfuel).
Qed.

(** ** Sorting *)

Lemma at_cell (K : nat) (s : soa) (i : Z) :
  soa_invariant s -> (K < length Ts)%nat -> 0 <= i < mycapacity s ->
  at_ K i s = Done (cell_at K s i).
Proof.
  intros Hs HK Hi. pose proof (column_length K s Hs HK) as Hlen.
  unfold at_, cell_at.
  destruct (lookup_lt_is_Some_2 (column K s) (Z.to_nat i)) as [v Hv]; [lia|].
  rewrite Hv. apply rd_Done. split; [lia|exact Hv].
Qed.

Lemma column_swapped (K : nat) (i j x n : Z) (s : soa) :
  soa_invariant s -> 0 <= i < mysize s -> 0 <= j < mysize s -> 0 <= x ->
  column K (mk_soa n (mycapacity s) (swapped i j <$> mydata s))
    !! Z.to_nat x
  = column K s
      !! Z.to_nat (if x =? j then i else if x =? i then j else x).
Proof.
  intros Hs Hi Hj Hx. pose proof (soa_size_le_capacity _ Hs) as Hsz.
  rewrite column_fmap by reflexivity.
  destruct (decide (K < length Ts)%nat) as [HK|HK].
  - pose proof (column_length K s Hs HK) as Hlen.
    rewrite swapped_lookup by lia.
    destruct (x =? j); [reflexivity|]. destruct (x =? i); reflexivity.
  - assert (Hnil : column K s = []).
    { unfold column. rewrite lookup_ge_None_2; [reflexivity|].
      rewrite (soa_columns _ Hs). lia. }
    rewrite Hnil. reflexivity.
Qed.

Lemma cell_at_swapped (K : nat) (i j x n : Z) (s : soa) :
  soa_invariant s -> 0 <= i < mysize s -> 0 <= j < mysize s -> 0 <= x ->
  cell_at K (mk_soa n (mycapacity s) (swapped i j <$> mydata s)) x
  = if x =? j then cell_at K s i
    else if x =? i then cell_at K s j else cell_at K s x.
Proof.
  intros Hs Hi Hj Hx. unfold cell_at.
  rewrite (column_swapped K i j x n s Hs Hi Hj Hx).
  destruct (x =? j); [reflexivity|]. destruct (x =? i); reflexivity.
Qed.

Lemma rearranged_refl (l h : Z) (s : soa) :
  soa_invariant s -> rearranged l h s s.
Proof.
  intros Hs. split; [exact Hs|]. split; [reflexivity|].
  split; [reflexivity|]. exists (fun i => i).
  split; [intros i Hi; exact Hi|]. split; [reflexivity|].
  split; [intros i j Hij; exact Hij|reflexivity].
Qed.

Lemma rearranged_trans (l h : Z) (s s1 s2 : soa) :
  0 <= l -> rearranged l h s s1 -> rearranged l h s1 s2 ->
  rearranged l h s s2.
Proof.
  intros Hl (_ & Hn1 & Hc1 & f1 & Hin1 & Hout1 & Hinj1 & Hcol1)
    (Hs2 & Hn2 & Hc2 & f2 & Hin2 & Hout2 & Hinj2 & Hcol2).
  split; [exact Hs2|]. split; [congruence|]. split; [congruence|].
  exists (fun i => f1 (f2 i)).
  split; [intros i Hi; apply Hin1, Hin2, Hi|].
  split; [intros i Hi; rewrite (Hout2 i Hi); apply Hout1, Hi|].
  split; [intros i j Hij; apply Hinj2, Hinj1, Hij|].
  intros K i Hi. rewrite Hcol2 by exact Hi. apply Hcol1.
  destruct (decide (l <= i <= h)) as [Hw|Hw].
  - pose proof (Hin2 i Hw). lia.
  - rewrite (Hout2 i Hw). exact Hi.
Qed.

Lemma rearranged_mono (l h l' h' : Z) (s s' : soa) :
  l' <= l -> h <= h' -> rearranged l h s s' -> rearranged l' h' s s'.
Proof.
  intros Hl Hh (Hs & Hn & Hc & f & Hin & Hout & Hinj & Hcol).
  split; [exact Hs|]. split; [exact Hn|]. split; [exact Hc|].
  exists f. split; [|split; [|split; [exact Hinj|exact Hcol]]].
  - intros i Hi. destruct (decide (l <= i <= h)) as [Hw|Hw].
    + pose proof (Hin i Hw). lia.
    + rewrite (Hout i Hw). exact Hi.
  - intros i Hi. apply Hout. lia.
Qed.

Lemma rearranged_swap (l h i j : Z) (s : soa) :
  soa_invariant s -> 0 <= l -> l <= i <= h -> l <= j <= h -> h < mysize s ->
  rearranged l h s
    (mk_soa (mysize s) (mycapacity s) (swapped i j <$> mydata s)).
Proof.
  intros Hs Hl Hi Hj Hh. pose proof (soa_size_le_capacity _ Hs) as Hsz.
  split; [apply swapped_shape; [exact Hs|lia]|].
  split; [reflexivity|]. split; [reflexivity|].
  exists (fun x => if x =? j then i else if x =? i then j else x).
  split; [|split; [|split]].
  - intros x Hx. destruct (x =? j); [lia|]. destruct (x =? i); lia.
  - intros x Hx. destruct (Z.eqb_spec x j); [lia|].
    destruct (Z.eqb_spec x i); [lia|reflexivity].
  - intros x y.
    destruct (Z.eqb_spec x j); destruct (Z.eqb_spec y j);
      destruct (Z.eqb_spec x i); destruct (Z.eqb_spec y i); lia.
  - intros K x Hx. apply column_swapped; [exact Hs|lia|lia|exact Hx].
Qed.

Lemma rearranged_outside (l h : Z) (s s' : soa) (K : nat) (x : Z) :
  rearranged l h s s' -> 0 <= x -> ~ l <= x <= h ->
  cell_at K s' x = cell_at K s x.
Proof.
  intros (_ & _ & _ & f & _ & Hout & _ & Hcol) Hx Hw.
  unfold cell_at. rewrite Hcol by exact Hx. rewrite (Hout x Hw). reflexivity.
Qed.

Lemma rearranged_inside (l h : Z) (s s' : soa) (x : Z) :
  rearranged l h s s' -> 0 <= l -> l <= x <= h ->
  exists y, l <= y <= h /\ forall K, cell_at K s' x = cell_at K s y.
Proof.
  intros (_ & _ & _ & f & Hin & _ & _ & Hcol) Hl Hx.
  exists (f x). split; [apply Hin, Hx|].
  intros K. unfold cell_at. rewrite Hcol by lia. reflexivity.
Qed.

Lemma partition_loop_spec (lt : val -> val -> bool) (K : nat) (h : Z)
    (trips : nat) :
  forall (i j ns : Z) (s : soa),
    soa_invariant s -> (K < length Ts)%nat ->
    0 <= i <= j -> j + Z.of_nat trips = h -> h < mysize s ->
    (forall x, i <= x < j -> lt (cell_at K s x) (cell_at K s h) = false) ->
    exists p ns' s',
      partition_loop lt K trips h i j ns s = Done (p, ns', s') /\
      i <= p <= h /\ rearranged i (h - 1) s s' /\
      (forall x, i <= x < p ->
         lt (cell_at K s' x) (cell_at K s' h) = true) /\
      (forall x, p <= x < h ->
         lt (cell_at K s' x) (cell_at K s' h) = false).
Proof.
  induction trips as [|trips IH]; intros i j ns s Hs HK Hij Hj Hh Hpre.
  - exists i, ns, s. split; [reflexivity|]. split; [lia|].
    split; [apply rearranged_refl, Hs|]. split; [intros x Hx; lia|].
    intros x Hx. apply Hpre. lia.
  - pose proof (soa_size_le_capacity _ Hs) as Hsz.
    pose proof (soa_capacity_range _ Hs) as Hcap.
    cbn [partition_loop].
    rewrite (at_cell K s j Hs HK) by lia.
    rewrite (at_cell K s h Hs HK) by lia. cbn [mbind outcome_bind].
    rewrite (size_t_small (j + 1)) by lia.
    destruct (lt (cell_at K s j) (cell_at K s h)) eqn:Hlt.
    + rewrite (swap_entries_spec i j s Hs) by lia. cbn [mbind outcome_bind].
      rewrite (size_t_small (i + 1)) by lia.
      set (s1 := mk_soa (mysize s) (mycapacity s) (swapped i j <$> mydata s)).
      assert (Hs1 : soa_invariant s1) by (apply swapped_shape; [exact Hs|lia]).
      assert (Hcell : forall x, 0 <= x ->
                cell_at K s1 x
                = if x =? j then cell_at K s i
                  else if x =? i then cell_at K s j else cell_at K s x).
      { intros x Hx. apply cell_at_swapped; [exact Hs|lia|lia|exact Hx]. }
      destruct (IH (i + 1) (j + 1) (size_t (ns + 1)) s1 Hs1 HK
                  ltac:(lia) ltac:(lia) Hh) as (p & ns' & s' & Hrun & Hp & Hre & Ht & Hf).
      { intros x Hx. rewrite (Hcell x) by lia. rewrite (Hcell h) by lia.
        destruct (Z.eqb_spec h j); [lia|]. destruct (Z.eqb_spec h i); [lia|].
        destruct (Z.eqb_spec x j).
        - apply Hpre. lia.
        - destruct (Z.eqb_spec x i); [lia|]. apply Hpre. lia. }
      exists p, ns', s'. split; [exact Hrun|]. split; [lia|].
      assert (Hh' : cell_at K s' h = cell_at K s h).
      { rewrite (rearranged_outside _ _ _ _ K h Hre) by lia.
        rewrite (Hcell h) by lia.
        destruct (Z.eqb_spec h j); [lia|].
        destruct (Z.eqb_spec h i); [lia|reflexivity]. }
      split; [|split].
      * apply (rearranged_trans _ _ _ s1); [lia| |].
        -- apply rearranged_swap; [exact Hs|lia|lia|lia|lia].
        -- apply (rearranged_mono (i + 1) (h - 1)); [lia|lia|exact Hre].
      * intros x Hx. destruct (Z.eq_dec x i) as [->|Hne].
        -- rewrite (rearranged_outside _ _ _ _ K i Hre) by lia.
           rewrite Hh', (Hcell i) by lia.
           destruct (Z.eqb_spec i j) as [->|Hne]; [exact Hlt|].
           rewrite Z.eqb_refl. exact Hlt.
        -- apply Ht. lia.
      * exact Hf.
    + destruct (IH i (j + 1) ns s Hs HK ltac:(lia) ltac:(lia) Hh)
        as (p & ns' & s' & Hrun & Hp & Hre & Ht & Hf).
      { intros x Hx. destruct (Z.eq_dec x j) as [->|Hne]; [exact Hlt|].
        apply Hpre. lia. }
      exists p, ns', s'. split; [exact Hrun|]. split; [lia|].
      split; [exact Hre|]. split; [exact Ht|exact Hf].
Qed.

Lemma partition_spec (lt : val -> val -> bool) (K : nat) (l h ns : Z)
    (s : soa) :
  soa_invariant s -> (K < length Ts)%nat -> 0 <= l <= h -> h < mysize s ->
  exists p ns' s',
    partition lt K l h ns s = Done (p, ns', s') /\
    l <= p <= h /\ rearranged l h s s' /\
    (forall x, l <= x < p -> lt (cell_at K s' x) (cell_at K s' p) = true) /\
    (forall x, p < x <= h -> lt (cell_at K s' x) (cell_at K s' p) = false).
Proof.
  intros Hs HK Hl Hh.
  destruct (partition_loop_spec lt K h (Z.to_nat (h - l)) l l ns s Hs HK
              ltac:(lia) ltac:(lia) Hh ltac:(intros; lia))
    as (p & ns' & s1 & Hrun & Hp & Hre & Ht & Hf).
  destruct Hre as (Hs1 & Hn1 & Hc1 & Hf1).
  assert (Hre : rearranged l (h - 1) s s1) by (split; [|split; [|split]]; assumption).
  unfold partition. rewrite Hrun. cbn [mbind outcome_bind].
  rewrite (swap_entries_spec p h s1 Hs1) by lia. cbn [mbind outcome_bind].
  rewrite Hn1, Hc1.
  set (s2 := mk_soa (mysize s) (mycapacity s) (swapped p h <$> mydata s1)).
  assert (Hcell : forall x, 0 <= x ->
            cell_at K s2 x
            = if x =? h then cell_at K s1 p
              else if x =? p then cell_at K s1 h else cell_at K s1 x).
  { intros x Hx. unfold s2. rewrite <- Hc1.
    apply cell_at_swapped; [exact Hs1|lia|lia|exact Hx]. }
  exists p, (size_t (ns' + 1)), s2. split; [reflexivity|]. split; [exact Hp|].
  split; [|split].
  - apply (rearranged_trans _ _ _ s1); [lia| |].
    + apply (rearranged_mono l (h - 1)); [lia|lia|exact Hre].
    + unfold s2. rewrite <- Hn1, <- Hc1.
      apply rearranged_swap; [exact Hs1|lia|lia|lia|lia].
  - intros x Hx. rewrite (Hcell x), (Hcell p) by lia.
    destruct (Z.eqb_spec x h); [lia|]. destruct (Z.eqb_spec x p); [lia|].
    destruct (Z.eqb_spec p h) as [->|Hne]; [apply Ht; lia|].
    rewrite Z.eqb_refl. apply Ht. lia.
  - intros x Hx. rewrite (Hcell x), (Hcell p) by lia.
    destruct (Z.eqb_spec p h); [lia|]. rewrite Z.eqb_refl.
    destruct (Z.eqb_spec x h) as [->|Hne]; [apply Hf; lia|].
    destruct (Z.eqb_spec x p); [lia|]. apply Hf. lia.
Qed.

Lemma flat_length (ranges : list (Z * Z)) :
  length (flat ranges) = (2 * length ranges)%nat.
Proof.
  induction ranges as [|[l h] rest IH]; [reflexivity|].
  cbn [flat]. rewrite length_app, IH. simpl. lia.
Qed.

Lemma chain_mono (b b' : Z) (ranges : list (Z * Z)) :
  b <= b' -> chain b ranges -> chain b' ranges.
Proof.
  destruct ranges as [|[l h] rest]; [intros; exact Logic.I|].
  cbn [chain]. intros Hb (Hl & Hlh & Hh & Hrest).
  split; [exact Hl|]. split; [exact Hlh|]. split; [lia|exact Hrest].
Qed.

Lemma chain_bound (ranges : list (Z * Z)) :
  forall b, 0 <= b -> chain b ranges ->
    2 * Z.of_nat (length ranges) <= b /\ 0 <= weight ranges <= b.
Proof.
  induction ranges as [|[l h] rest IH]; intros b Hb Hchain.
  - simpl. lia.
  - cbn [chain] in Hchain. destruct Hchain as (Hl & Hlh & Hh & Hrest).
    destruct (IH l Hl Hrest) as [Hlen Hw]. cbn [length weight]. lia.
Qed.

Lemma chain_elem (ranges : list (Z * Z)) :
  forall b l h, chain b ranges -> (l, h) ∈ ranges -> 0 <= l /\ l < h /\ h < b.
Proof.
  induction ranges as [|[l0 h0] rest IH]; intros b l h Hchain Hin.
  - apply elem_of_nil in Hin. destruct Hin.
  - cbn [chain] in Hchain. destruct Hchain as (Hl & Hlh & Hh & Hrest).
    apply elem_of_cons in Hin as [Heq|Hin].
    + injection Heq as -> ->. lia.
    + pose proof (IH l0 l h Hrest Hin). lia.
Qed.

Lemma chain_stack_ok (b n : Z) (ranges : list (Z * Z)) :
  b <= n -> chain b ranges -> stack_ok n ranges.
Proof.
  destruct ranges as [|[l h] rest]; [intros; exact Logic.I|].
  cbn [chain stack_ok]. intros Hb (Hl & Hlh & Hh & Hrest).
  split; [exact Hl|]. split; [lia|]. split; [lia|exact Hrest].
Qed.

Lemma push_spec (stack pre junk : list Z) (x v top : Z) :
  stack = pre ++ x :: junk -> top = Z.of_nat (length pre) - 1 ->
  top < INT_MAX ->
  push stack top v = Done (pre ++ v :: junk, top + 1).
Proof.
  intros -> Htop Hmax. unfold push, INT_MAX in *.
  destruct (Z.leb_spec (2 ^ 31 - 1) top) as [Hle|_]; [lia|].
  rewrite size_t_small by (pows; lia).
  rewrite wr_Done by (rewrite length_app; cbn [length]; lia).
  cbn [mbind outcome_bind]. f_equal. f_equal.
  replace (Z.to_nat (top + 1)) with (length pre + 0)%nat by lia.
  rewrite insert_app_r. reflexivity.
Qed.

Lemma pop_spec (stack pre junk : list Z) (v top : Z) :
  stack = pre ++ v :: junk -> top = Z.of_nat (length pre) ->
  top <= INT_MAX ->
  pop stack top = Done (v, top - 1).
Proof.
  intros -> Htop Hmax. unfold pop, INT_MAX in *.
  rewrite size_t_small by (pows; lia).
  assert (Hrd : rd (pre ++ v :: junk) top = Done v).
  { apply rd_Done. split; [lia|].
    replace (Z.to_nat top) with (length pre + 0)%nat by lia.
    rewrite lookup_app_r by lia.
    replace (length pre + 0 - length pre)%nat with 0%nat by lia.
    reflexivity. }
  rewrite Hrd. reflexivity.
Qed.

(** One round of the loop keeps the column in order outside the ranges. *)
Lemma partition_sorted_but (lt : val -> val -> bool) (K : nat) (l h p : Z)
    (rest ranges' : list (Z * Z)) (s s1 : soa) :
  (forall a b, lt a b = true -> lt b a = false) ->
  (forall a b c, lt a b = true -> lt b c = true -> lt a c = true) ->
  0 <= l -> l <= h -> h < mysize s -> chain l rest ->
  sorted_but lt K ((l, h) :: rest) s ->
  rearranged l h s s1 -> l <= p <= h ->
  (forall x, l <= x < p -> lt (cell_at K s1 x) (cell_at K s1 p) = true) ->
  (forall x, p < x <= h -> lt (cell_at K s1 x) (cell_at K s1 p) = false) ->
  (forall r, r ∈ rest -> r ∈ ranges') ->
  (l + 1 < p -> (l, p - 1) ∈ ranges') ->
  (p + 1 < h -> (p + 1, h) ∈ ranges') ->
  sorted_but lt K ranges' s1.
Proof.
  intros Hasym Htrans Hl Hlh Hh Hchain Hsorted Hre Hp Ht Hf Hrest Hleft
    Hright i j Hi Hij Hj Hno.
  assert (Hn : mysize s1 = mysize s) by (destruct Hre as (_ & ? & _); assumption).
  rewrite Hn in Hj.
  destruct (decide (l <= i /\ j <= h)) as [Hin|Hout].
  - destruct (decide (j < p)) as [Hjp|Hjp].
    { exfalso. apply (Hno l (p - 1)); [apply Hleft; lia|lia]. }
    destruct (decide (p < i)) as [Hpi|Hpi].
    { exfalso. apply (Hno (p + 1) h); [apply Hright; lia|lia]. }
    destruct (decide (i = p)) as [->|Hne]; [apply Hf; lia|].
    assert (Hip : lt (cell_at K s1 i) (cell_at K s1 p) = true)
      by (apply Ht; lia).
    destruct (decide (j = p)) as [->|Hne']; [apply Hasym, Hip|].
    destruct (lt (cell_at K s1 j) (cell_at K s1 i)) eqn:E; [|reflexivity].
    rewrite <- (Hf j ltac:(lia)). symmetry.
    apply (Htrans _ _ _ E Hip).
  - assert (Hold : forall i' j', 0 <= i' -> i' < j' -> j' < mysize s ->
              ~ (l <= i' /\ j' <= h) ->
              (forall l' h', (l', h') ∈ rest -> l' <= i' /\ j' <= h' ->
                 l' <= i /\ j <= h') ->
              lt (cell_at K s j') (cell_at K s i') = false).
    { intros i' j' Hi' Hij' Hj' Hw Hr. apply Hsorted; try assumption.
      intros l' h' Hin' Hboth. apply elem_of_cons in Hin' as [Heq|Hin'].
      - injection Heq as -> ->. exact (Hw Hboth).
      - apply (Hno l' h'); [apply Hrest, Hin'|exact (Hr l' h' Hin' Hboth)]. }
    destruct (decide (l <= i <= h)) as [Hwi|Hwi];
      destruct (decide (l <= j <= h)) as [Hwj|Hwj].
    + exfalso. apply Hout. lia.
    + destruct (rearranged_inside l h s s1 i Hre Hl Hwi) as (i' & Hi' & Ei).
      rewrite (Ei K), (rearranged_outside l h s s1 K j Hre) by lia.
      apply Hold; try lia.
      intros l' h' Hin' Hboth.
      pose proof (chain_elem rest l l' h' Hchain Hin'). lia.
    + destruct (rearranged_inside l h s s1 j Hre Hl Hwj) as (j' & Hj' & Ej).
      rewrite (Ej K), (rearranged_outside l h s s1 K i Hre) by lia.
      apply Hold; try lia.
      intros l' h' Hin' Hboth.
      pose proof (chain_elem rest l l' h' Hchain Hin'). lia.
    + rewrite (rearranged_outside l h s s1 K i Hre) by lia.
      rewrite (rearranged_outside l h s s1 K j Hre) by lia.
      apply Hold; lia.
Qed.

Lemma push_range (stack : list Z) (ranges : list (Z * Z)) (x y : Z)
    (junk : list Z) (a b top : Z) :
  stack = flat ranges ++ x :: y :: junk ->
  top = 2 * Z.of_nat (length ranges) - 1 -> top + 2 <= INT_MAX ->
  ('(stack, top) ← push stack top a; push stack top b)
  = Done (flat ((a, b) :: ranges) ++ junk, top + 1 + 1).
Proof.
  intros Hstack Htop Hmax. pose proof (flat_length ranges) as Hfl.
  rewrite (push_spec stack (flat ranges) (y :: junk) x a top Hstack) by lia.
  cbn [mbind outcome_bind].
  rewrite (push_spec (flat ranges ++ a :: y :: junk) (flat ranges ++ [a])
             junk y b (top + 1)).
  - cbn [flat]. rewrite <- !app_assoc. reflexivity.
  - rewrite <- app_assoc. reflexivity.
  - rewrite length_app. cbn [length]. lia.
  - lia.
Qed.

Lemma quicksort_loop_spec (lt : val -> val -> bool) (K : nat) (n : Z) :
  (forall a b, lt a b = true -> lt b a = false) ->
  (forall a b c, lt a b = true -> lt b c = true -> lt a c = true) ->
  (K < length Ts)%nat -> n <= INT_MAX ->
  forall (fuel : nat) (ranges : list (Z * Z)) (s : soa)
         (stack junk : list Z) (top ns : Z),
    soa_invariant s -> mysize s = n ->
    stack_ok n ranges -> sorted_but lt K ranges s ->
    stack = flat ranges ++ junk ->
    top = 2 * Z.of_nat (length ranges) - 1 ->
    n + 1 <= Z.of_nat (length stack) ->
    weight ranges <= Z.of_nat fuel ->
    exists ns' s',
      quicksort_loop lt K fuel stack top ns s = Done (ns', s') /\
      rearranged 0 (n - 1) s s' /\ sorted_but lt K [] s'.
Proof.
  intros Hasym Htrans HK Hmax.
  assert (Hnil : forall fuel s stack ns,
            soa_invariant s -> sorted_but lt K [] s ->
            exists ns' s',
              quicksort_loop lt K fuel stack (2 * Z.of_nat 0 - 1) ns s
              = Done (ns', s') /\
              rearranged 0 (n - 1) s s' /\ sorted_but lt K [] s').
  { intros fuel s stack ns Hs Hsorted. exists ns, s.
    split; [destruct fuel; reflexivity|].
    split; [apply rearranged_refl, Hs|exact Hsorted]. }
  induction fuel as [|fuel IH];
    intros ranges s stack junk top ns Hs Hn Hok Hsorted Hstack Htop Hlen Hw;
    (destruct ranges as [|[l h] rest];
     [subst top; apply Hnil; assumption|]);
    cbn [stack_ok] in Hok; destruct Hok as (Hl & Hlh & Hh & Hchain);
    destruct (chain_bound rest l Hl Hchain) as [Hlen_rest Hw_rest];
    cbn [weight] in Hw; [lia|].
  pose proof (flat_length rest) as Hfl. cbn [length] in Htop.
  assert (Hstack' : stack = flat rest ++ l :: h :: junk).
  { rewrite Hstack. cbn [flat]. rewrite <- app_assoc. reflexivity. }
  assert (Hlen' : n + 1 <= Z.of_nat (length (flat rest))
                           + 2 + Z.of_nat (length junk)).
  { rewrite Hstack' in Hlen. rewrite length_app in Hlen.
    cbn [length] in Hlen. lia. }
  cbn [quicksort_loop].
  destruct (Z.ltb_spec top 0) as [Hneg|_]; [lia|].
  rewrite (pop_spec stack (flat rest ++ [l]) junk h top);
    [|rewrite Hstack', <- app_assoc; reflexivity
     |rewrite length_app; cbn [length]; lia|lia].
  cbn [mbind outcome_bind].
  rewrite (pop_spec stack (flat rest) (h :: junk) l (top - 1) Hstack') by lia.
  cbn [mbind outcome_bind].
  destruct (partition_spec lt K l h ns s Hs HK ltac:(lia) ltac:(lia))
    as (p & ns1 & s1 & Hpart & Hp & Hre & Ht & Hf).
  rewrite Hpart. cbn [mbind outcome_bind].
  assert (Hs1 : soa_invariant s1) by (destruct Hre as (? & _); assumption).
  assert (Hn1 : mysize s1 = n) by (destruct Hre as (_ & ? & _); congruence).
  assert (Hpow : INT_MAX < 2 ^ 64) by reflexivity.
  rewrite (size_t_small (l + 1)), (size_t_small (p + 1)) by lia.
  assert (Hfinish : forall ranges' stack' junk' top',
            stack_ok n ranges' ->
            (forall r, r ∈ rest -> r ∈ ranges') ->
            (l + 1 < p -> (l, p - 1) ∈ ranges') ->
            (p + 1 < h -> (p + 1, h) ∈ ranges') ->
            stack' = flat ranges' ++ junk' ->
            top' = 2 * Z.of_nat (length ranges') - 1 ->
            length stack' = length stack ->
            weight ranges' <= weight rest + (h - l) ->
            exists ns' s',
              quicksort_loop lt K fuel stack' top' ns1 s1 = Done (ns', s') /\
              rearranged 0 (n - 1) s s' /\ sorted_but lt K [] s').
  { intros ranges' stack' junk' top' Hok' Hrest Hleft Hright Hst' Htop' Hlen2
      Hw'.
    destruct (IH ranges' s1 stack' junk' top' ns1 Hs1 Hn1 Hok')
      as (ns' & s' & Hrun & Hre' & Hsorted'); try assumption.
    - apply (partition_sorted_but lt K l h p rest ranges' s s1);
        try assumption; lia.
    - rewrite Hlen2. exact Hlen.
    - lia.
    - exists ns', s'. split; [exact Hrun|]. split; [|exact Hsorted'].
      apply (rearranged_trans _ _ _ s1); [lia| |].
      + apply (rearranged_mono l h); [lia|lia|exact Hre].
      + exact Hre'. }
  destruct (Z.ltb_spec (l + 1) p) as [Hc1|Hc1];
    destruct (Z.ltb_spec (p + 1) h) as [Hc2|Hc2].
  - rewrite (size_t_small (p - 1)) by lia.
    rewrite (push_range stack rest l h junk l (p - 1) (top - 1 - 1) Hstack')
      by lia.
    cbn [mbind outcome_bind].
    destruct junk as [|x [|y junk]]; [cbn [length] in Hlen'; lia..|].
    rewrite (push_range _ ((l, p - 1) :: rest) x y junk (p + 1) h
               (top - 1 - 1 + 1 + 1) eq_refl)
      by (cbn [length]; lia).
    cbn [mbind outcome_bind].
    apply (Hfinish ((p + 1, h) :: (l, p - 1) :: rest) _ junk).
    + cbn [stack_ok chain]. repeat split; try lia. exact Hchain.
    + intros r Hr. apply elem_of_cons. right. apply elem_of_cons. right.
      exact Hr.
    + intros _. apply elem_of_cons. right. apply elem_of_cons. left.
      reflexivity.
    + intros _. apply elem_of_cons. left. reflexivity.
    + reflexivity.
    + cbn [length]. lia.
    + rewrite Hstack'. rewrite !length_app. cbn [flat length].
      rewrite !length_app. cbn [length]. lia.
    + cbn [weight]. lia.
  - rewrite (size_t_small (p - 1)) by lia.
    rewrite (push_range stack rest l h junk l (p - 1) (top - 1 - 1) Hstack')
      by lia.
    cbn [mbind outcome_bind].
    apply (Hfinish ((l, p - 1) :: rest) _ junk).
    + cbn [stack_ok]. split; [lia|]. split; [lia|]. split; [lia|exact Hchain].
    + intros r Hr. apply elem_of_cons. right. exact Hr.
    + intros _. apply elem_of_cons. left. reflexivity.
    + intros Hlt. lia.
    + reflexivity.
    + cbn [length]. lia.
    + rewrite Hstack'. rewrite !length_app. cbn [flat length].
      rewrite !length_app. cbn [length]. lia.
    + cbn [weight]. lia.
  - cbn [mbind outcome_bind].
    rewrite (push_range stack rest l h junk (p + 1) h (top - 1 - 1) Hstack')
      by lia.
    cbn [mbind outcome_bind].
    apply (Hfinish ((p + 1, h) :: rest) _ junk).
    + cbn [stack_ok]. split; [lia|]. split; [lia|]. split; [lia|].
      apply (chain_mono l); [lia|exact Hchain].
    + intros r Hr. apply elem_of_cons. right. exact Hr.
    + intros Hlt. lia.
    + intros _. apply elem_of_cons. left. reflexivity.
    + reflexivity.
    + cbn [length]. lia.
    + rewrite Hstack'. rewrite !length_app. cbn [flat length].
      rewrite !length_app. cbn [length]. lia.
    + cbn [weight]. lia.
  - cbn [mbind outcome_bind].
    apply (Hfinish rest _ (l :: h :: junk)).
    + apply (chain_stack_ok l); [lia|exact Hchain].
    + intros r Hr. exact Hr.
    + intros Hlt. lia.
    + intros Hlt. lia.
    + exact Hstack'.
    + lia.
    + reflexivity.
    + lia.
Qed.

Lemma rearranged_rows (l h : Z) (s s' : soa) :
  rearranged l h s s' -> 0 <= l -> h < mysize s -> 0 <= mysize s ->
  rows_of s' ≡ₚ rows_of s.
Proof.
  intros (Hs' & Hn & Hc & f & Hin & Hout & Hinj & Hcol) Hl Hh Hsize.
  assert (Hpos : forall i, 0 <= i -> 0 <= f i).
  { intros i Hi. destruct (decide (l <= i <= h)) as [Hw|Hw].
    - pose proof (Hin i Hw). lia.
    - rewrite (Hout i Hw). exact Hi. }
  assert (Hlt : forall i, 0 <= i < mysize s -> f i < mysize s).
  { intros i Hi. destruct (decide (l <= i <= h)) as [Hw|Hw].
    - pose proof (Hin i Hw). lia.
    - rewrite (Hout i Hw). lia. }
  assert (Hrow : forall i, 0 <= i -> row_of s' i = row_of s (f i)).
  { intros i Hi. unfold row_of. rewrite Hcol by exact Hi. f_equal.
    apply list_fmap_ext. intros j K _. rewrite Hcol by exact Hi.
    reflexivity. }
  apply Permutation_inj. split.
  - apply Nat2Z.inj. rewrite !rows_of_length by lia. exact Hn.
  - exists (fun i => Z.to_nat (f (Z.of_nat i))). split.
    + intros i j Hij.
      pose proof (Hpos (Z.of_nat i) ltac:(lia)).
      pose proof (Hpos (Z.of_nat j) ltac:(lia)).
      apply Nat2Z.inj, Hinj. lia.
    + intros i. destruct (decide (Z.of_nat i < mysize s)) as [Hi|Hi].
      * rewrite rows_of_lookup by lia.
        pose proof (Hpos (Z.of_nat i) ltac:(lia)).
        pose proof (Hlt (Z.of_nat i) ltac:(lia)).
        rewrite rows_of_lookup by lia.
        rewrite Z2Nat.id by lia. rewrite Hrow by lia. reflexivity.
      * rewrite (Hout (Z.of_nat i)) by lia. rewrite Nat2Z.id.
        rewrite !lookup_ge_None_2; [reflexivity| |].
        -- pose proof (rows_of_length s Hsize). lia.
        -- pose proof (rows_of_length s' ltac:(lia)). lia.
Qed.

Lemma quicksort_spec (lt : val -> val -> bool) (fuel K : nat) (s : soa) :
  soa_invariant s -> (K < length Ts)%nat ->
  0 < mysize s <= INT_MAX -> (Z.to_nat (mysize s) <= fuel)%nat ->
  (forall a b, lt a b = true -> lt b a = false) ->
  (forall a b c, lt a b = true -> lt b c = true -> lt a c = true) ->
  exists n s',
    quicksort lt K fuel 0 (size_t (mysize s - 1)) s = Done (n, s') /\
    rearranged 0 (mysize s - 1) s s' /\ sorted_but lt K [] s'.
Proof.
  intros Hs HK Hsize Hfuel Hasym Htrans.
  assert (Hint : INT_MAX = 2147483647) by reflexivity.
  unfold quicksort. rewrite (size_t_small (mysize s - 1)) by (pows; lia).
  rewrite Z.sub_0_r. rewrite (size_t_small (mysize s - 1)) by (pows; lia).
  rewrite (size_t_small (mysize s - 1 + 2)) by (pows; lia).
  replace (Z.to_nat (mysize s - 1 + 2))
    with (S (S (Z.to_nat (mysize s - 1)))) by lia.
  cbn [replicate].
  set (junk := replicate (Z.to_nat (mysize s - 1)) 0).
  rewrite (push_spec (0 :: 0 :: junk) [] (0 :: junk) 0 0 (-1) eq_refl eq_refl)
    by lia.
  cbn [mbind outcome_bind app].
  rewrite (push_spec (0 :: 0 :: junk) [0] junk 0 (mysize s - 1) (-1 + 1)
             eq_refl eq_refl) by lia.
  cbn [mbind outcome_bind app].
  apply (quicksort_loop_spec lt K (mysize s) Hasym Htrans HK ltac:(lia) fuel
           [(0, mysize s - 1)] s _ junk); try reflexivity.
  - exact Hs.
  - cbn [stack_ok chain]. lia.
  - intros i j Hi Hij Hj Hno. exfalso.
    apply (Hno 0 (mysize s - 1)); [apply elem_of_cons; left; reflexivity|].
    lia.
  - cbn [length]. unfold junk. rewrite length_replicate. lia.
  - cbn [weight]. lia.
Qed.

Lemma sorted_but_nil_at (lt : val -> val -> bool) (K : nat) (s : soa) :
  soa_invariant s -> (K < length Ts)%nat ->
  (forall a b, lt a b = true -> lt b a = false) ->
  sorted_but lt K [] s ->
  forall i j x y, 0 <= i <= j -> j < mysize s ->
    at_ K i s = Done x -> at_ K j s = Done y -> lt y x = false.
Proof.
  intros Hs HK Hasym Hsorted i j x y Hij Hj Hx Hy.
  pose proof (soa_size_le_capacity _ Hs) as Hsz.
  rewrite (at_cell K s i Hs HK) in Hx by lia.
  rewrite (at_cell K s j Hs HK) in Hy by lia.
  injection Hx as <-. injection Hy as <-.
  destruct (decide (i = j)) as [->|Hne].
  - destruct (lt (cell_at K s j) (cell_at K s j)) eqn:E; [|reflexivity].
    pose proof (Hasym _ _ E) as E'. congruence.
  - apply Hsorted; [lia|lia|lia|].
    intros l h Hin. apply elem_of_nil in Hin. destruct Hin.
Qed.

Lemma sort_spec (lt : val -> val -> bool) (fuel K : nat) (s : soa) :
  soa_invariant s -> (K < length Ts)%nat -> 0 < mysize s <= INT_MAX ->
  (Z.to_nat (mysize s) <= fuel)%nat ->
  (forall a b, lt a b = true -> lt b a = false) ->
  (forall a b c, lt a b = true -> lt b c = true -> lt a c = true) ->
  exists n s', sort lt fuel K s = Done (n, s') /\
    soa_invariant s' /\ mysize s' = mysize s /\
    mycapacity s' = mycapacity s /\
    (rows_of s' ≡ₚ rows_of s) /\
    forall i j x y, 0 <= i <= j -> j < mysize s ->
      at_ K i s' = Done x -> at_ K j s' = Done y -> lt y x = false.
Proof.
  intros Hs HK Hsize Hfuel Hasym Htrans.
  destruct (quicksort_spec lt fuel K s Hs HK Hsize Hfuel Hasym Htrans)
    as (n & s' & Hrun & Hre & Hsorted).
  exists n, s'. split; [exact Hrun|].
  pose proof Hre as (Hs' & Hn & Hc & _).
  split; [exact Hs'|]. split; [exact Hn|]. split; [exact Hc|].
  split; [apply (rearranged_rows 0 (mysize s - 1)); [exact Hre|lia..]|].
  rewrite <- Hn. apply sorted_but_nil_at; assumption.
Qed.

Lemma sort_empty (lt : val -> val -> bool) (fuel K : nat) (s : soa) :
  mysize s = 0 -> sort lt fuel K s = OutOfBounds.
Proof. intros H0. unfold sort, quicksort. rewrite H0. reflexivity. Qed.

(** X24.  [sort<K>()] on a container of at least one and at most [INT_MAX]
    rows, for an order [<] that is asymmetric and transitive, returns (given
    fuel for one round per row) without leaving its stack or the arrays:
    the rows are the rows there were, in another order, and in column [K]
    no cell is less than a cell before it.  On an empty container the call
    writes past the end of its stack. *)
Theorem sort_orders_rows (lt : val -> val -> bool) (fuel K : nat) (s : soa) :
  soa_invariant s -> (K < length Ts)%nat -> size s <= INT_MAX ->
  (Z.to_nat (size s) <= fuel)%nat ->
  (forall a b, lt a b = true -> lt b a = false) ->
  (forall a b c, lt a b = true -> lt b c = true -> lt a c = true) ->
  (size s = 0 -> sort lt fuel K s = OutOfBounds) /\
  (0 < size s ->
   exists n s', sort lt fuel K s = Done (n, s') /\
     soa_invariant s' /\ size s' = size s /\ capacity s' = capacity s /\
     (rows_of s' ≡ₚ rows_of s) /\
     forall i j x y, 0 <= i <= j -> j < size s ->
       at_ K i s' = Done x -> at_ K j s' = Done y -> lt y x = false).
Proof.
  unfold size, capacity. intros Hs HK Hmax Hfuel Hasym Htrans. split.
  - apply sort_empty.
  - intros Hpos. apply sort_spec; try assumption. lia.
Qed.

(** X25.  [sort<K>()] of a table of the usual layout with at least one and
    at most [INT_MAX] rows, for an asymmetric and transitive [<], returns
    (given fuel for one round of the slots): the rows are the rows there
    were, in another order, column [K] is in order, the slot count is the
    same, the cursor is reset, no slot is a tombstone, and [find(key, true)]
    followed by [find(key, false)] calls returns the rows whose key is
    [key] at their new indices, each once, in the order of these indices,
    and then [SIZE_MAX].  On an empty table the call writes past the end of
    its stack. *)
Theorem htable_sort_rebuilds_index (lt : val -> val -> bool) (fuel K : nat)
    (t : htable) :
  table_shape t -> (K < length Ts)%nat -> size (base t) <= INT_MAX ->
  (Z.to_nat (hashcapacity t) < fuel)%nat ->
  (forall a b, lt a b = true -> lt b a = false) ->
  (forall a b c, lt a b = true -> lt b c = true -> lt a c = true) ->
  (size (base t) = 0 -> htable_sort lt fuel K t = OutOfBounds) /\
  (0 < size (base t) ->
   exists n t', htable_sort lt fuel K t = Done (n, t') /\
     table_shape t' /\ (rows_of (base t') ≡ₚ rows_of (base t)) /\
     (forall i j x y, 0 <= i <= j -> j < size (base t) ->
        at_ K i (base t') = Done x -> at_ K j (base t') = Done y ->
        lt y x = false) /\
     hashcapacity t' = hashcapacity t /\ hashcursor t' = SIZE_MAX /\
     (forall s, 0 <= s < hashcapacity t' -> slot t' s <> Some INDEXDEL) /\
     forall key,
       let found := indices_of key (rows_of (base t')) 0 in
       exists t'', find_sequence fuel key (length found) t'
                   = Done (found ++ [SIZE_MAX], t'')).
Proof.
  intros Hshape HK Hmax Hfuel Hasym Htrans.
  pose proof (shape_store _ Hshape) as Hs.
  pose proof (soa_size_le_capacity _ Hs) as Hsz.
  assert (Hfuel' : (Z.to_nat (size (base t)) <= fuel)%nat).
  { unfold size.
    destruct (shape_capacity _ Hshape) as [[? ?]|[? ?]]; lia. }
  unfold size in *. split.
  - intros H0. unfold htable_sort. fold (sort lt fuel K (base t)).
    rewrite (sort_empty lt fuel K (base t) H0). reflexivity.
  - intros Hpos.
    destruct (sort_spec lt fuel K (base t) Hs HK ltac:(lia) Hfuel' Hasym
                Htrans)
      as (n & s' & Hrun & Hs' & Hn & Hc & Hperm & Hsorted).
    set (t1 := mk_htable s' (hashmap t) (hashcapacity t) (hashcursor t)).
    assert (Hshape1 : table_shape t1).
    { split; cbn [base hashmap hashcapacity hashcursor t1].
      - exact Hs'.
      - rewrite Hn. apply (shape_max _ Hshape).
      - rewrite Hc. apply (shape_capacity _ Hshape).
      - apply (shape_hashmap _ Hshape).
      - apply (shape_cursor _ Hshape). }
    destruct (rehash_shape fuel t1 Hshape1 ltac:(cbn [hashcapacity t1]; lia))
      as (t' & Hre & Hbase & Hhc & _ & Hins).
    cbn [base hashcapacity t1] in Hbase, Hhc, Hins.
    exists n, t'. split.
    { unfold htable_sort. fold (sort lt fuel K (base t)). rewrite Hrun.
      cbn [mbind outcome_bind]. fold t1. rewrite Hre. reflexivity. }
    split; [apply (inserted_shape _ _ Hins)|].
    rewrite Hbase.
    split; [exact Hperm|]. split; [exact Hsorted|]. split; [exact Hhc|].
    split; [apply (rehash_fields _ _ _ Hre)|]. split.
    + intros x Hx E.
      destruct (placed_slots _ _ _ _ (ins_placed _ _ Hins) x Hx)
        as (v & Hv & Hv').
      unfold slot in E. rewrite Hv in E. injection E as ->.
      pose proof (ins_max _ _ Hins).
      revert Hv'. consts. lia.
    + intros key. cbv zeta.
      apply (inserted_find_sequence fuel key t' _ Hins). rewrite Hhc.
      exact Hfuel.
Qed.

(** ** [erase_all] *)

Lemma find_body_slot (key : val) (t : htable) (s v : Z) :
  slot_invariant t -> 0 <= s < hashcapacity t -> slot t s = Some v ->
  v = INDEXNUL /\ find_body key t s v = Done (Some (SIZE_MAX, s)) \/
  v = INDEXDEL /\ find_body key t s v = Done None \/
  0 <= v < mysize (base t) /\
  exists k, key_of t v = Some k /\
    find_body key t s v
    = Done (if val_eqb k key then Some (v, s) else None).
Proof.
  intros Hinv Hs Hv. destruct (inv_slots t Hinv s Hs) as (v' & Hv' & Hcase).
  rewrite Hv in Hv'. injection Hv' as <-.
  pose proof (inv_size t Hinv) as Hsize.
  destruct Hcase as [->|[->|(Hr & k & Hk & _)]].
  - left. split; reflexivity.
  - right. left. split; reflexivity.
  - right. right. split; [exact Hr|]. exists k. split; [exact Hk|].
    unfold find_body.
    destruct (Z.eqb_spec v INDEXNUL); [revert Hsize; consts; lia|].
    destruct (Z.eqb_spec v INDEXDEL); [revert Hsize; consts; lia|].
    cbn [negb].
    assert (Hat : at_ 0%nat v (base t) = Done k)
      by (apply rd_Done; split; [lia|exact Hk]).
    rewrite Hat. cbn [mbind outcome_bind]. destruct (val_eqb k key); reflexivity.
Qed.

Lemma passed_no_key (key : val) (t : htable) (c : Z) :
  slot_invariant t -> 0 <= c -> passed key t c ->
  slot t (probe (hashcapacity t) (hash key mod hashcapacity t) c)
  = Some INDEXNUL ->
  forall j, 0 <= j < mysize (base t) -> key_of t j <> Some key.
Proof.
  intros Hinv Hc Hpassed Hnul j Hj Hkey.
  destruct (live_row_slot t j Hinv Hj)
    as (s & k & Hs & Hslot & Hk & d & Hd & Hp & Hbefore).
  rewrite Hkey in Hk. injection Hk as <-.
  pose proof (inv_size t Hinv) as Hsize.
  destruct (Z.lt_trichotomy d c) as [Hlt|[->|Hgt]].
  - destruct (Hpassed d ltac:(lia)) as (v & Hv & Hbody).
    rewrite Hp in Hv, Hbody. unfold slot in Hslot. rewrite Hslot in Hv.
    injection Hv as <-.
    destruct (find_body_slot key t s j Hinv Hs Hslot)
      as [[-> _]|[[-> _]|(_ & k & Hk & Hb)]].
    + revert Hj Hsize. consts. lia.
    + revert Hj Hsize. consts. lia.
    + rewrite Hkey in Hk. injection Hk as <-. rewrite Hb in Hbody.
      rewrite (proj2 (val_eqb_eq key key) eq_refl) in Hbody. discriminate.
  - rewrite Hp in Hnul. unfold slot in *. rewrite Hslot in Hnul.
    injection Hnul. revert Hj Hsize. consts. lia.
  - apply (Hbefore c ltac:(lia)). exact Hnul.
Qed.

Lemma find_loop_from (fuel : nat) (key : val) (t : htable) (d0 D0 : Z) :
  slot_invariant t -> 0 <= d0 <= D0 -> D0 < hashcapacity t ->
  slot t (probe (hashcapacity t) (hash key mod hashcapacity t) D0)
  = Some INDEXNUL ->
  passed key t d0 ->
  (Z.to_nat (hashcapacity t) < fuel)%nat ->
  exists r c,
    find_loop fuel key t
      (probe (hashcapacity t) (hash key mod hashcapacity t) d0)
    = Done (r, probe (hashcapacity t) (hash key mod hashcapacity t) c) /\
    d0 <= c <= D0 /\ passed key t c /\
    (r = SIZE_MAX /\
     slot t (probe (hashcapacity t) (hash key mod hashcapacity t) c)
     = Some INDEXNUL \/
     0 <= r < mysize (base t) /\
     slot t (probe (hashcapacity t) (hash key mod hashcapacity t) c)
     = Some r /\
     key_of t r = Some key).
Proof.
  intros Hinv Hd0 HD0 Hnul Hpassed Hfuel.
  pose proof (inv_hashcapacity t Hinv) as Hhc.
  set (hc := hashcapacity t) in *. set (h := hash key mod hc) in *.
  assert (Hpos : 0 < hc) by lia.
  assert (Hmax : hc + 2 <= 2 ^ 64) by (pows; lia).
  set (Q := fun d =>
         match hashmap t !! Z.to_nat (probe hc h (d0 + d)) with
         | Some v =>
             if v =? INDEXNUL then True
             else if v =? INDEXDEL then False
             else match key_of t v with
                  | Some k => val_eqb k key = true
                  | None => False
                  end
         | None => False
         end).
  assert (Qdec : forall d, {Q d} + {~ Q d}).
  { intros d. unfold Q.
    destruct (hashmap t !! Z.to_nat (probe hc h (d0 + d))) as [v|];
      [|right; tauto].
    destruct (v =? INDEXNUL); [left; exact Logic.I|].
    destruct (v =? INDEXDEL); [right; tauto|].
    destruct (key_of t v) as [k|]; [|right; tauto].
    destruct (val_eqb k key); [left; reflexivity|right; discriminate]. }
  destruct (first_such Q Qdec (D0 - d0)) as (n & Hn & HQ & Hfirst); [lia| |].
  { unfold Q. replace (d0 + (D0 - d0)) with D0 by lia.
    unfold slot in Hnul. rewrite Hnul. reflexivity. }
  assert (Hpass : forall d', d0 <= d' < d0 + n ->
            passes hc (hashmap t) (find_body key t) h d').
  { intros d' Hd'.
    assert (Hs : 0 <= probe hc h d' < hc) by (apply probe_range; exact Hpos).
    destruct (slot_in_range t _ Hinv Hs) as (v & Hv).
    exists v. split; [exact Hv|].
    pose proof (Hfirst (d' - d0) ltac:(lia)) as HnQ. unfold Q in HnQ.
    replace (d0 + (d' - d0)) with d' in HnQ by lia.
    unfold slot in Hv. rewrite Hv in HnQ.
    destruct (find_body_slot key t _ v Hinv Hs Hv)
      as [[-> _]|[[-> Hb]|(Hr & k & Hk & Hb)]].
    - exfalso. apply HnQ. reflexivity.
    - exact Hb.
    - rewrite Hb. pose proof (inv_size t Hinv) as Hsize.
      destruct (Z.eqb_spec v INDEXNUL); [revert Hr Hsize; consts; lia|].
      destruct (Z.eqb_spec v INDEXDEL); [revert Hr Hsize; consts; lia|].
      rewrite Hk in HnQ. destruct (val_eqb k key); [|reflexivity].
      exfalso. apply HnQ. reflexivity. }
  assert (Hs : 0 <= probe hc h (d0 + n) < hc)
    by (apply probe_range; exact Hpos).
  destruct (slot_in_range t _ Hinv Hs) as (v & Hv).
  assert (Hwalk : forall r,
            find_body key t (probe hc h (d0 + n)) v
            = Done (Some (r, probe hc h (d0 + n))) ->
            find_loop fuel key t (probe hc h d0)
            = Done (r, probe hc h (d0 + n))).
  { intros r Hb. rewrite find_loop_walk. fold hc.
    apply (walk_reaches hc (hashmap t) (find_body key t) h Hpos Hmax
             (Z.to_nat n)); [lia|lia| |];
      replace (d0 + Z.of_nat (Z.to_nat n)) with (d0 + n) by lia.
    - exact Hpass.
    - exists v. split; [exact Hv|exact Hb]. }
  assert (Hpassed' : passed key t (d0 + n)).
  { intros d Hd. fold hc h. destruct (decide (d < d0)) as [Hlt|Hge].
    - apply Hpassed. lia.
    - apply Hpass. lia. }
  unfold Q in HQ. unfold slot in Hv. rewrite Hv in HQ.
  destruct (find_body_slot key t _ v Hinv Hs Hv)
    as [[-> Hb]|[[-> Hb]|(Hr & k & Hk & Hb)]].
  - exists SIZE_MAX, (d0 + n). split; [apply Hwalk, Hb|]. split; [lia|].
    split; [exact Hpassed'|]. left. split; [reflexivity|exact Hv].
  - exfalso. exact HQ.
  - pose proof (inv_size t Hinv) as Hsize.
    destruct (Z.eqb_spec v INDEXNUL); [revert Hr Hsize; consts; lia|].
    destruct (Z.eqb_spec v INDEXDEL); [revert Hr Hsize; consts; lia|].
    rewrite Hk in HQ. rewrite HQ in Hb.
    exists v, (d0 + n). split; [apply Hwalk, Hb|]. split; [lia|].
    split; [exact Hpassed'|]. right. split; [exact Hr|]. split; [exact Hv|].
    rewrite Hk. f_equal. apply val_eqb_eq. exact HQ.
Qed.





(** X27.  On a table that satisfies the slot invariant and has an EMPTY
    slot, whatever rows were erased before, [find(key, true)] and
    [find(key) const] return (given fuel for one round of the slots) the
    same index: [SIZE_MAX] exactly when no row has the key, and otherwise a
    row whose key is [key]; [find(key, true)] changes nothing but the
    cursor, which it leaves on the slot of that row. *)
Theorem find_with_tombstones (fuel : nat) (key : val) (t : htable) :
  slot_invariant t ->
  (exists s, 0 <= s < hashcapacity t /\ slot t s = Some INDEXNUL) ->
  (Z.to_nat (hashcapacity t) < fuel)%nat ->
  exists r t',
    find fuel key true t = Done (r, t') /\
    find_const fuel key t = Done r /\
    base t' = base t /\ hashmap t' = hashmap t /\
    hashcapacity t' = hashcapacity t /\
    (r = SIZE_MAX /\
     (forall j, 0 <= j < size (base t) -> at_ 0%nat j (base t) <> Done key) \/
     0 <= r < size (base t) /\ at_ 0%nat r (base t) = Done key /\
     slot t' (hashcursor t') = Some r).
Proof.
  unfold size. intros Hinv (s0 & Hs0 & Hnul) Hfuel.
  pose proof (inv_size t Hinv) as Hsize.
  pose proof (inv_hashcapacity t Hinv) as Hhc.
  pose proof (inv_odd t Hinv) as Hodd.
  unfold find, find_const.
  destruct (Z.eqb_spec (mysize (base t)) 0) as [H0|H0].
  { exists SIZE_MAX, t. repeat (split; [reflexivity|]).
    left. split; [reflexivity|]. intros j Hj. lia. }
  set (hc := hashcapacity t) in *. set (h := hash key mod hc).
  assert (Hpos : 0 < hc) by lia.
  destruct Hodd as [Hodd|Hodd]; [lia|].
  assert (Hh : 0 <= h < hc) by (apply Z.mod_pos_bound; exact Hpos).
  destruct (probe_surj hc h s0 Hpos Hodd Hs0) as (D0 & HD0 & Hp).
  rewrite <- Hp in Hnul.
  rewrite modulo_Done by lia. cbn [mbind outcome_bind]. fold h.
  destruct (find_loop_from fuel key t 0 D0 Hinv ltac:(lia) ltac:(lia)
              Hnul ltac:(intros d Hd; lia) Hfuel)
    as (r & c & Hfind & Hc & Hpassed & Hr).
  fold hc h in Hfind, Hr. rewrite probe_0 in Hfind by exact Hh.
  rewrite Hfind. cbn [mbind outcome_bind].
  exists r, (mk_htable (base t) (hashmap t) hc (probe hc h c)).
  repeat (split; [reflexivity|]).
  destruct Hr as [[-> Hr]|(Hr & Hs & Hk)].
  - left. split; [reflexivity|]. intros j Hj Hat.
    apply (passed_no_key key t c Hinv ltac:(lia) Hpassed Hr j Hj).
    apply rd_Done in Hat. apply Hat.
  - right. split; [exact Hr|]. split; [|exact Hs].
    apply rd_Done. split; [lia|exact Hk].
Qed.

(** ** Byte counts of [serialize] and [deserialize] of the table *)

Lemma block_arithmetic (N : Z) :
  0 < N < 2 ^ 60 ->
  size_t (size_t (N + N) + 4) = 2 * N + 4 /\
  size_t (size_t (size_t (N + N) + 4) * 4) = 8 * N + 16 /\
  size_t (size_t (size_t (N + N) + 4) - 1) = 2 * N + 3.
Proof.
  intros HN.
  assert (Hpow : 2 ^ 60 = 1152921504606846976) by reflexivity.
  rewrite (size_t_small (N + N)) by (pows; lia).
  rewrite (size_t_small (N + N + 4)) by (pows; lia).
  rewrite (size_t_small ((N + N + 4) * 4)) by (pows; lia).
  rewrite (size_t_small (N + N + 4 - 1)) by (pows; lia). lia.
Qed.

Lemma byte_count_short (X N : Z) :
  0 < N < 2 ^ 60 ->
  size_t (size_t (X + size_t (4 * (2 * N + 3))) + 4)
  = size_t (X + (8 * N + 16)).
Proof.
  intros HN.
  assert (Hpow : 2 ^ 60 = 1152921504606846976) by reflexivity.
  rewrite (size_t_small (4 * (2 * N + 3))) by (pows; lia).
  unfold size_t. rewrite Z.add_mod_idemp_l by (pows; lia).
  f_equal. lia.
Qed.

(** X28.  For a table of the usual layout with at least one row whose
    [shrink_to_fit()] succeeds, [serialize] and a successful
    [deserialize(size())] on a new table report the same number of bytes,
    for the same capacity and slot count; and that number is 4 less than
    the size of the block [deserialize] asks of the allocator, which holds
    the slots and the column arrays. *)
Theorem htable_serialize_reports_four_bytes_less (alloc1 alloc2 : Z -> bool)
    (fuel1 fuel2 : nat) (t t1 t2 : htable) (B nb : Z) :
  table_shape t -> 0 < size (base t) ->
  htable_shrink_to_fit alloc1 fuel1 t = Done (true, t1) ->
  (forall b, alloc2 b = true -> b = B) ->
  htable_deserialize alloc2 fuel2 (size (base t)) htable_new = Done (nb, t2) ->
  0 < capacity (base t2) ->
  htable_serialize alloc1 fuel1 t = Done (nb, t1) /\
  capacity (base t2) = capacity (base t1) /\
  hashcapacity t2 = hashcapacity t1 /\
  hashcapacity t1 = 2 * capacity (base t1) + 3 /\
  size (base t2) = size (base t) /\
  size_t (nb + 4) = B.
Proof.
  unfold size, capacity. intros Hshape Hpos Hshrink Hgrant Hde Hcap2.
  pose proof Hshape as [Hst Hmax Hcap Hhm Hcur].
  pose proof (soa_size_le_capacity _ Hst) as Hsz.
  set (n := mysize (base t)) in *.
  assert (Hn : 0 <= n <= 2 ^ 64 - 16) by (revert Hmax; consts; lia).
  pose proof (multiple_of_16_ge n Hn) as HM.
  set (N := multiple_of_16 n) in *.
  assert (HN : 0 < N < 2 ^ 60).
  { assert (Hpow : 2 ^ 60 = 1152921504606846976) by reflexivity.
    revert Hmax. consts. lia. }
  destruct (block_arithmetic N HN) as (EH0 & Ehs & Ehc).
  (* the table after [shrink_to_fit] *)
  assert (H1 : mycapacity (base t1) = N /\ hashcapacity t1 = 2 * N + 3).
  { unfold htable_shrink_to_fit in Hshrink. fold n N in Hshrink.
    destruct (Z.eqb_spec N (mycapacity (base t))) as [E|E].
    - injection Hshrink as <-. split; [symmetry; exact E|].
      destruct Hcap as [[_ Hc]|[Hc _]]; lia.
    - destruct (Z.ltb_spec 0 N) as [_|Hle]; [|lia].
      cbv zeta in Hshrink.
      destruct (negb (aligned_malloc alloc1 _)); [discriminate Hshrink|].
      apply bind_Done in Hshrink as (cols & _ & Hshrink).
      apply bind_Done in Hshrink as (t' & Hre & Hshrink).
      injection Hshrink as <-.
      destruct (rehash_fields _ _ _ Hre) as (Hb & Hh & _).
      rewrite Hb, Hh. cbn [base mycapacity hashcapacity].
      split; [reflexivity|exact Ehc]. }
  destruct H1 as [Hc1 Hh1].
  (* the new table after [deserialize] *)
  unfold htable_deserialize, htable_reserve in Hde. fold N in Hde.
  cbn [base htable_new soa_new mycapacity mysize hashmap hashcursor] in Hde.
  destruct (Z.eqb_spec N 0) as [E|_]; [lia|].
  destruct (Z.leb_spec N 0) as [Hle|_]; [lia|].
  cbv zeta in Hde. rewrite Ehs, Ehc in Hde.
  destruct (aligned_malloc alloc2
              (size_t (size_t (size_per_entry * N) + (8 * N + 16)))) eqn:Ha.
  2:{ cbn [negb mbind outcome_bind] in Hde. injection Hde as <- <-.
      cbn [base mycapacity] in Hcap2. lia. }
  cbn [negb] in Hde.
  apply bind_Done in Hde as ([ok t'] & Hde' & Hde).
  apply bind_Done in Hde' as (cols & _ & Hde').
  apply bind_Done in Hde' as (t'' & Hre & Hde').
  injection Hde' as <- <-. injection Hde as <- <-.
  destruct (rehash_fields _ _ _ Hre) as (Hb & Hh & _).
  cbn [base hashcapacity mycapacity mysize] in *.
  rewrite Hb, Hh. cbn [base hashcapacity mycapacity mysize].
  split.
  { unfold htable_serialize. rewrite Hshrink. cbn [mbind outcome_bind].
    rewrite Hc1, Hh1. reflexivity. }
  split; [symmetry; exact Hc1|]. split; [symmetry; exact Hh1|].
  split; [lia|]. split; [reflexivity|].
  rewrite byte_count_short by exact HN.
  apply Hgrant.
  unfold aligned_malloc in Ha. apply andb_true_iff in Ha as [_ Ha]. exact Ha.
Qed.

End Properties.

(** ** The instantiations satisfy the laws *)

Lemma string_hash_range (s : string) (h : Z) :
  0 <= h < 2 ^ 64 -> 0 <= string_hash s h < 2 ^ 64.
Proof.
  revert h. induction s as [|c s IH]; intros h Hh; simpl; [exact Hh|].
  apply IH. apply Z.mod_pos_bound. lia.
Qed.

Lemma int_int_laws : InstantiationLaws int_int.
Proof.
  split.
  - intros a b. apply Z.eqb_eq.
  - intros k. apply Z.mod_pos_bound. lia.
  - repeat constructor.
  - discriminate.
  - vm_compute. discriminate.
Qed.

Lemma string_view_int_laws : InstantiationLaws string_view_int.
Proof.
  split.
  - intros [x|x] [y|y]; simpl; try (split; discriminate).
    + rewrite Z.eqb_eq. split; congruence.
    + destruct (string_dec x y); split; congruence.
  - intros [z|s]; simpl.
    + apply Z.mod_pos_bound. lia.
    + apply string_hash_range. pows. lia.
  - repeat constructor.
  - discriminate.
  - vm_compute. discriminate.
Qed.

(** ** Defects of the source, at concrete inputs *)

(** C3.  [swap_entries(0, 1)] on the table that holds the keys 0 and 1: the
    table satisfies the slot invariant, yet after the rows are exchanged the
    scan for the slot of row 0 starts from the hash of the key that is now
    in row 0 (the key 1), meets an EMPTY slot first and leaves
    [first_hashpos] at [SIZE_MAX]; the store [hashmap[first_hashpos]] then
    lies outside the slot array. *)
Theorem swap_entries_writes_outside_slot_array :
  insert_all (I := int_int) grant 36 [(0, [10]); (1, [11])] htable_new
    = Done (true, two_rows) /\
  slot_invariant two_rows /\
  mysize (base two_rows) = 2 /\
  (exists base',
     swap_entries 0 1 (base two_rows) = Done base' /\
     at_ 0 0 base' = Done 1 /\
     locate 36 (hashcapacity two_rows) (hashmap two_rows) 0
       (@hash int_int 1 mod hashcapacity two_rows) = Done SIZE_MAX) /\
  forall fuel, (2 <= fuel)%nat ->
    htable_swap_entries fuel 0 1 two_rows = OutOfBounds.
Proof.
  split; [reflexivity|].
  split; [apply slot_invariant_b_sound; vm_compute; reflexivity|].
  split; [reflexivity|].
  split.
  - eexists. split; [reflexivity|].
    split; reflexivity.
  - intros [|[|fuel]] Hfuel; [lia|lia|]. reflexivity.
Qed.

(** C4.  [resize(3, 7, 8)] on an empty [soa<int, int>] returns [true] and
    constructs three rows from the fill values, but [size()] is still 0;
    [resize(3)] sets it to 3. *)
Theorem resize_with_fill_leaves_size :
  (exists s,
     resize_with (I := int_int) grant 3 [7; 8] soa_new = Done (true, s) /\
     size s = 0 /\
     at_ 0 2 s = Done 7 /\ at_ 1 2 s = Done 8) /\
  (exists s,
     resize (I := int_int) grant 3 soa_new = Done (true, s) /\ size s = 3).
Proof.
  split; eexists; (split; [reflexivity|]); repeat split.
Qed.

(** C5.  [deserialize] sets [mysize] whatever [reserve] did: on an empty
    [soa<int, int>], [deserialize(17)] under a failing allocation leaves
    size 17 with capacity 0, and [deserialize(SIZE_MAX)], whose rounding
    wraps to 0 and then reserves 16 rows, leaves size [SIZE_MAX] with
    capacity 16; the same holds for the table. *)
Theorem deserialize_breaks_size_le_capacity :
  (exists nb s,
     deserialize (I := int_int) refuse 17 soa_new = Done (nb, s) /\
     size s = 17 /\ capacity s = 0) /\
  (exists nb s,
     deserialize (I := int_int) grant SIZE_MAX soa_new = Done (nb, s) /\
     size s = SIZE_MAX /\ capacity s = 16) /\
  (exists nb t,
     htable_deserialize (I := int_int) refuse 36 17 htable_new = Done (nb, t) /\
     size (base t) = 17 /\ capacity (base t) = 0).
Proof.
  repeat split; do 2 eexists; (split; [reflexivity|]); split; reflexivity.
Qed.

(** C6.  [reserve(17)] on the one-row table under a failing allocation
    returns [false], but [hashcapacity] has gone from 35 to 67 while the
    slot array is the old one of 36 slots; the key 40, found before the
    call, is then looked up at slot 40, outside that array. *)
Theorem htable_reserve_failure_changes_hashcapacity :
  insert_all (I := int_int) grant 36 [(40, [7])] htable_new
    = Done (true, one_row) /\
  hashcapacity one_row = 35 /\
  (exists t1, find (I := int_int) 36 40 true one_row = Done (0, t1)) /\
  exists t',
    htable_reserve (I := int_int) refuse 36 17 one_row = Done (false, t') /\
    hashcapacity t' = 67 /\
    hashmap t' = hashmap one_row /\ length (hashmap t') = 36%nat /\
    base t' = base one_row /\
    forall fuel, (1 <= fuel)%nat ->
      find (I := int_int) fuel 40 true t' = OutOfBounds.
Proof.
  split; [reflexivity|].
  split; [reflexivity|].
  split; [eexists; reflexivity|].
  eexists. split; [reflexivity|].
  repeat split.
  intros [|fuel] Hfuel; [lia|]. reflexivity.
Qed.

(** C9.  [erase_shift] on a full [soa<int, int>] (sixteen rows, capacity
    16): [_soa_base::erase_shift] moves [mysize - location] cells from
    [location + 1] on, one more than the rows in [[location + 1, mysize)], and
    so reads the cell at index 16, past the end of the array, whatever the
    erased position is. *)
Theorem erase_shift_reads_past_full_array :
  push_back_all (I := int_int) grant ((fun i => [i; - i]) <$> seqZ 0 16) soa_new
    = Done sixteen_rows /\
  size sixteen_rows = 16 /\ capacity sixteen_rows = 16 /\
  Forall (fun at_ => erase_shift at_ sixteen_rows = OutOfBounds) (seqZ 0 16).
Proof.
  split; [reflexivity|].
  split; [reflexivity|]. split; [reflexivity|].
  repeat constructor.
Qed.

(** The byte count of [soa::reserve] wraps around as well:
    [reserve(2 ^ 61)] on a new [soa<int, int>] asks for [8 * 2 ^ 61] bytes,
    which is 0 as a [size_t], and returns [true] with the capacity
    [2 ^ 61]; no cell of the arrays lies inside the block, the store
    invariant is lost and the [push_back] that follows writes outside the
    block. *)
Lemma reserve_wraps_around :
  exists s' : @soa int_int,
    reserve (I := int_int) grant (2 ^ 61) soa_new = Done (true, s') /\
    size_t (size_per_entry (I := int_int) * 2 ^ 61) = 0 /\
    capacity s' = 2 ^ 61 /\ mydata s' = [[]; []] /\
    soa_invariant (I := int_int) soa_new /\ soa_step soa_new s' /\
    ~ soa_invariant s' /\
    push_back (I := int_int) grant [1; 2] s' = OutOfBounds.
Proof.
  eexists. split; [reflexivity|]. split; [reflexivity|].
  split; [reflexivity|]. split; [reflexivity|].
  split; [apply (soa_new_invariant (I := int_int))|]. split.
  - apply (step_reserve (I := int_int) soa_new grant (2 ^ 61) true);
      [split; [apply Z.leb_le|apply Z.ltb_lt]; reflexivity|reflexivity].
  - split; [|reflexivity].
    intros Hinv. pose proof (soa_column_length _ Hinv) as Hl.
    apply Forall_cons in Hl as [Hl _]. discriminate Hl.
Qed.

(** C7.  [reserve(2 ^ 63)] on a new [htable<int, int>]:
    [newsize + newsize + 4] wraps around to 4 and leaves [hashcapacity] at
    3; the byte count [8 * 2 ^ 63 + 16] wraps around to 16, the allocation
    of 16 bytes succeeds and [reserve] returns [true] with the row capacity
    [2 ^ 63].  [hashcapacity] is neither [2 * c + 3] nor above [2 * c]; the
    slot array has four slots, no cell of the arrays lies inside the block,
    and the [insert] that follows writes outside it. *)
Theorem reserve_wraps_hashcapacity :
  exists t' : @htable int_int,
    htable_reserve (I := int_int) grant 36 (2 ^ 63) htable_new
    = Done (true, t') /\
    capacity (base t') = 2 ^ 63 /\ hashcapacity t' = 3 /\
    hashcapacity t' <> 2 * capacity (base t') + 3 /\
    ~ 2 * capacity (base t') < hashcapacity t' /\
    length (hashmap t') = 4%nat /\ mydata (base t') = [[]; []] /\
    htable_insert (I := int_int) grant 36 7 [70] t' = OutOfBounds.
Proof.
  eexists. split; [reflexivity|].
  split; [reflexivity|]. split; [reflexivity|].
  split; [discriminate|]. split; [intros H; discriminate H|].
  split; [reflexivity|]. split; reflexivity.
Qed.

(** ** [find] on a table without an empty slot *)

Lemma alternate_rows (n : nat) :
  forall a b, (a = 0 \/ a = 1) -> (b = 0 \/ b = 1) ->
    Forall (fun r => r = 0 \/ r = 1) (alternate a b n).
Proof.
  induction n as [|n IH]; intros a b Ha Hb; simpl; constructor; auto.
Qed.

Lemma find_next_cycles (k n : nat) :
  (exists t', find_next (I := int_int) (36 + k) 34 n
                (set_cursor saturated_twice 34)
              = Done (alternate 1 0 n, t')) /\
  (exists t', find_next (I := int_int) (36 + k) 34 n
                (set_cursor saturated_twice 1)
              = Done (alternate 0 1 n, t')).
Proof.
  induction n as [|n [[ta IHa] [tb IHb]]]; [split; eexists; reflexivity|].
  assert (HA : find (I := int_int) (36 + k) 34 false
                 (set_cursor saturated_twice 34)
               = Done (1, set_cursor saturated_twice 1)) by reflexivity.
  assert (HB : find (I := int_int) (36 + k) 34 false
                 (set_cursor saturated_twice 1)
               = Done (0, set_cursor saturated_twice 34)) by reflexivity.
  split; cbn [find_next alternate].
  - rewrite HA. cbn [mbind outcome_bind]. rewrite IHb.
    eexists. reflexivity.
  - rewrite HB. cbn [mbind outcome_bind]. rewrite IHa.
    eexists. reflexivity.
Qed.

(** C1.  [find] on [saturated_twice] never returns [SIZE_MAX].  The table
    is [saturated] after [insert(34, 35)]: it is reached through [insert],
    [erase] and [find], the two rows of the key 34 were inserted last, with
    no [erase], [sort] or reallocation after them, and it satisfies the
    slot invariant; but every slot that held one of the keys 0, ..., 33 is
    a TOMBSTONE and no slot is EMPTY.  [find(34, true)] returns the row 0,
    and the calls [find(34, false)] that follow return the rows 1, 0, 1, 0,
    ... without end, whatever the fuel from 36 on: the tombstones are
    skipped and the probe sequence comes round to the rows again. *)
Theorem find_cycles_without_empty_slot :
  htable_insert (I := int_int) grant 36 34 [35] saturated
  = Done (true, saturated_twice) /\
  slot_invariant saturated_twice /\
  rows_of (base saturated_twice) = [(34, [34]); (34, [35])] /\
  (forall s, 0 <= s < hashcapacity saturated_twice ->
     slot saturated_twice s <> Some INDEXNUL) /\
  forall k n : nat,
    exists t',
      find_sequence (I := int_int) (36 + k) 34 n saturated_twice
      = Done (alternate 0 1 (S n), t') /\
      Forall (fun r => r = 0 \/ r = 1) (alternate 0 1 (S n)) /\
      SIZE_MAX ∉ alternate 0 1 (S n).
Proof.
  split; [reflexivity|].
  split; [apply slot_invariant_b_sound; vm_compute; reflexivity|].
  split; [reflexivity|]. split.
  - intros s Hs. change (hashcapacity saturated_twice) with 35 in Hs.
    unfold slot.
    change (hashmap saturated_twice)
      with ([INDEXDEL; 1] ++ (replicate 32 INDEXDEL ++ [0; 0])).
    destruct (Z.eq_dec s 0) as [->|H0]; [discriminate|].
    destruct (Z.eq_dec s 1) as [->|H1]; [discriminate|].
    destruct (Z.eq_dec s 34) as [->|H34]; [discriminate|].
    rewrite lookup_app_r by (simpl; lia).
    rewrite lookup_app_l by (rewrite length_replicate; simpl; lia).
    rewrite lookup_replicate_2 by (simpl; lia). discriminate.
  - intros k n. destruct (find_next_cycles k n) as [[ta Ha] _].
    assert (H0 : find (I := int_int) (36 + k) 34 true saturated_twice
                 = Done (0, set_cursor saturated_twice 34)) by reflexivity.
    exists ta. split.
    + unfold find_sequence. rewrite H0. cbn [mbind outcome_bind].
      rewrite Ha. reflexivity.
    + pose proof (alternate_rows (S n) 0 1 ltac:(auto) ltac:(auto)) as Hall.
      split; [exact Hall|]. intros Hin.
      rewrite Forall_forall in Hall. destruct (Hall _ Hin); discriminate.
Qed.


(** ** Witnesses *)

Lemma find_on_empty_table_witness :
  size (base (@htable_new string_view_int)) = 0 /\
  hashcapacity (@htable_new string_view_int) = 0 /\
  find (I := string_view_int) 0 banana true htable_new = Done (SIZE_MAX, htable_new) /\
  find_const (I := string_view_int) 0 banana htable_new = Done SIZE_MAX /\
  find_const_cursor (I := string_view_int) 0 banana true 7 htable_new
    = Done (SIZE_MAX, 7).
Proof.
  split; [reflexivity|]. split; [reflexivity|].
  apply (find_on_empty_table (I := string_view_int) 0 banana true 7 htable_new).
  reflexivity.
Defined.

Lemma three_rows_invariant : soa_invariant three_rows.
Proof. split; simpl; try lia; try reflexivity;
    [split; [reflexivity|vm_compute; discriminate]|repeat constructor]. Qed.


(** ** [erase_found] on a table without an empty slot *)

Lemma repair_saturated (fuel : nat) (h : Z) :
  0 <= h < 35 ->
  repair fuel 35 0 0 (replicate 35 INDEXDEL ++ [0]) h = Timeout.
Proof.
  revert h. induction fuel as [|fuel IH]; intros h Hh; [reflexivity|].
  cbn [repair].
  assert (Hrd : rd (replicate 35 INDEXDEL ++ [0]) h = Done INDEXDEL).
  { apply rd_Done. split; [lia|].
    rewrite lookup_app_l by (rewrite length_replicate; lia).
    apply lookup_replicate_2. lia. }
  rewrite Hrd. cbn [mbind outcome_bind].
  change (INDEXDEL =? 0) with false. change (INDEXDEL =? INDEXNUL) with false.
  cbv iota. unfold hash_inc. rewrite size_t_small by (pows; lia).
  rewrite modulo_Done by lia. cbn [mbind outcome_bind].
  apply IH. apply Z.mod_pos_bound. lia.
Qed.

(** C2.  [erase_found()] on [saturated] does not return, whatever the
    fuel.  The table is reached through [insert], [erase] and [find], it
    satisfies the slot invariant and its cursor rests on the occupied slot
    of the row 0, which is the last row: no row is relocated, the slot of
    the cursor has already been overwritten with the TOMBSTONE mark, and the
    scan that repairs the slot of a relocated row looks for an index no slot
    holds; it can only end at an EMPTY slot, of which there is none. *)
Theorem erase_found_diverges_without_empty_slot :
  (t ← insert_then_erase_each (I := int_int) grant 36
         ((fun k => (k, [k])) <$> seqZ 0 34) htable_new;
   '(_, t1) ← htable_insert (I := int_int) grant 36 34 [34] t;
   '(_, t2) ← find (I := int_int) 36 34 true t1;
   Done t2) = Done saturated /\
  slot_invariant saturated /\
  size (base saturated) = 1 /\
  hashcursor saturated < hashcapacity saturated /\
  slot saturated (hashcursor saturated) = Some 0 /\
  (forall s, 0 <= s < hashcapacity saturated ->
     slot saturated s <> Some INDEXNUL) /\
  forall fuel, erase_found fuel saturated = Timeout.
Proof.
  split; [reflexivity|].
  split; [apply slot_invariant_b_sound; vm_compute; reflexivity|].
  split; [reflexivity|]. split; [reflexivity|]. split; [reflexivity|].
  split.
  - intros s Hs. change (hashcapacity saturated) with 35 in Hs.
    unfold slot. change (hashmap saturated) with (replicate 34 INDEXDEL ++ [0; 0]).
    destruct (Z.eq_dec s 34) as [->|Hne]; [discriminate|].
    rewrite lookup_app_l by (rewrite length_replicate; lia).
    rewrite lookup_replicate_2 by lia. discriminate.
  - intros fuel.
    change (erase_found fuel saturated)
      with (hm2 ← repair fuel 35 0 0 (replicate 35 INDEXDEL ++ [0])
                    (@hash int_int 34 mod 35);
            Done (1, erased saturated 0 hm2)).
    rewrite repair_saturated; [reflexivity|].
    apply Z.mod_pos_bound. lia.
Qed.

(** The cursor of [two_rows] on the slot of the row 0, as [find(0)] leaves
    it. *)
Lemma erase_found_spec_witness :
  exists t' : @htable int_int,
    find (I := int_int) 36 0 true two_rows = Done (0, set_cursor two_rows 0) /\
    erase_found 36 (set_cursor two_rows 0) = Done (1, t') /\
    size (base t') = 1 /\
    at_ 0 0 (base t') = at_ 0 1 (base two_rows) /\
    slot t' 0 = Some INDEXDEL /\
    slot_invariant t'.
Proof.
  destruct (proj1 (erase_found_spec (L := int_int_laws)) 36%nat
              (set_cursor two_rows 0) 0)
    as (t' & H1 & _ & H2 & _ & H3 & H4 & _ & _ & H5).
  - apply slot_invariant_b_sound. vm_compute. reflexivity.
  - apply Z.ltb_lt. reflexivity.
  - reflexivity.
  - discriminate.
  - discriminate.
  - intros E. discriminate E.
  - apply Nat.leb_le. reflexivity.
  - exists t'. split; [reflexivity|]. split; [exact H1|]. split; [exact H2|].
    split; [apply H3; apply Z.ltb_lt; reflexivity|].
    split; [exact H4|exact H5].
Defined.

(** Three rows of the key [banana]: [find] returns the rows 0, 1 and 2 with
    the payloads 12, 42 and 9001, then [SIZE_MAX]. *)
Lemma find_enumerates_rows_of_key_witness :
  insert_all (I := string_view_int) grant 36 bananas htable_new
  = Done (true, three_bananas) /\
  (exists t' : @htable string_view_int,
     find_sequence (I := string_view_int) 36 banana 3 three_bananas
     = Done ([0; 1; 2; SIZE_MAX], t')) /\
  at_ (I := string_view_int) 1 0 (base three_bananas) = Done (Int 12) /\
  at_ (I := string_view_int) 1 1 (base three_bananas) = Done (Int 42) /\
  at_ (I := string_view_int) 1 2 (base three_bananas) = Done (Int 9001).
Proof.
  destruct (find_enumerates_rows_of_key (L := string_view_int_laws) grant 36%nat
              36%nat bananas three_bananas banana)
    as (_ & _ & Hrows & _ & t' & Hseq).
  - reflexivity.
  - apply Nat.ltb_lt. reflexivity.
  - split; [reflexivity|]. split; [exists t'; exact Hseq|].
    split; [|split].
    + apply (proj2 (Hrows 0 [Int 12] ltac:(lia) eq_refl) 0%nat); [reflexivity|].
      simpl. lia.
    + apply (proj2 (Hrows 1 [Int 42] ltac:(lia) eq_refl) 0%nat); [reflexivity|].
      simpl. lia.
    + apply (proj2 (Hrows 2 [Int 9001] ltac:(lia) eq_refl) 0%nat);
        [reflexivity|]. simpl. lia.
Defined.

(** ** Examples for the column store *)

Lemma sixteen_rows_invariant : soa_invariant sixteen_rows.
Proof. split; simpl; try lia; try reflexivity;
    [split; [reflexivity|vm_compute; discriminate]|repeat constructor]. Qed.

Lemma push_back_appends_witness :
  exists s', push_back (I := int_int) refuse [4; 40] three_rows
             = Done (true, s').
Proof.
  destruct (push_back_appends (L := int_int_laws) refuse [4; 40] three_rows
              three_rows_invariant eq_refl) as [H _].
  apply H. reflexivity.
Defined.

Lemma reserve_then_push_back_never_allocates_witness :
  exists s2 : @soa int_int,
    reserve (I := int_int) grant 40 three_rows = Done (true, reserved_rows) /\
    capacity three_rows = 32 /\ capacity reserved_rows = 48 /\
    push_back_all (I := int_int) refuse [[4; 40]; [5; 50]] reserved_rows
    = Done s2 /\
    size s2 = 5 /\ capacity s2 = 48.
Proof.
  destruct (reserve_then_push_back_never_allocates (L := int_int_laws) grant
              40 three_rows reserved_rows [[4; 40]; [5; 50]]
              three_rows_invariant)
    as (_ & Hpush).
  - split; [apply Z.leb_le|apply Z.leb_le]; reflexivity.
  - reflexivity.
  - destruct Hpush as (s2 & H & _ & Hsize & Hcap & _).
    + apply Z.leb_le. reflexivity.
    + apply Z.leb_le. reflexivity.
    + exists s2. split; [reflexivity|]. split; [reflexivity|].
      split; [reflexivity|]. split; [exact H|]. split; [exact Hsize|exact Hcap].
Defined.

Lemma pop_back_undoes_push_back_witness :
  exists s', pop_back (I := int_int) three_rows = Done s' /\ size s' = 2.
Proof.
  destruct (pop_back_undoes_push_back (L := int_int_laws) three_rows
              three_rows_invariant) as [(s' & H & _ & Hsize & _) _].
  exists s'. split; [exact H|exact Hsize].
Defined.

Lemma erase_shift_keeps_order_below_capacity_witness :
  exists s', erase_shift (I := int_int) 1 three_rows = Done s' /\
    size s' = 2 /\ at_ 0 0 s' = Done 1 /\ at_ 0 1 s' = Done 3.
Proof.
  destruct (erase_shift_keeps_order_below_capacity (L := int_int_laws) 1
              three_rows three_rows_invariant
              ltac:(apply Z.leb_le; reflexivity))
    as (_ & H & _).
  destruct H as (s' & H & _ & Hsize & _ & Hbefore & Hafter);
    [reflexivity|reflexivity|].
  exists s'. split; [exact H|]. split; [exact Hsize|]. split.
  - apply (Hbefore 0%nat 0 1); [|reflexivity].
    split; [apply Z.leb_le|apply Z.ltb_lt]; reflexivity.
  - apply (Hafter 0%nat 2 3); [|reflexivity].
    split; apply Z.ltb_lt; reflexivity.
Defined.


Lemma insert_then_erase_shift_witness :
  exists s2, erase_shift (I := int_int) 1 four_rows = Done s2 /\
    size s2 = 3 /\ rows_agree three_rows s2.
Proof.
  destruct (insert_then_erase_shift (L := int_int_laws) grant 1 [9; 90]
              three_rows four_rows three_rows_invariant eq_refl
              ltac:(apply Z.leb_le; reflexivity) eq_refl
              ltac:(apply Z.ltb_lt; reflexivity))
    as (s2 & H & _ & Hsize & _ & Hrows).
  exists s2. split; [exact H|]. split; [exact Hsize|exact Hrows].
Defined.

Lemma swap_entries_exchanges_rows_witness :
  exists s', swap_entries (I := int_int) 0 2 three_rows = Done s' /\
    at_ 0 0 s' = Done 3 /\ at_ 0 2 s' = Done 1 /\
    swap_entries 0 2 s' = Done three_rows.
Proof.
  destruct (swap_entries_exchanges_rows (I := int_int) 0 2 three_rows
              three_rows_invariant ltac:(apply Z.leb_le; reflexivity)
              ltac:(apply Z.leb_le; reflexivity)) as [_ H].
  destruct H as (s' & H & _ & _ & _ & Hex & _ & Hback);
    [reflexivity|reflexivity|].
  exists s'. split; [exact H|].
  split; [rewrite (proj1 (Hex 0%nat)); reflexivity|].
  split; [rewrite (proj2 (Hex 0%nat)); reflexivity|exact Hback].
Defined.

Lemma erase_swap_moves_last_row_witness :
  exists s', erase_swap (I := int_int) 0 three_rows = Done s' /\
    size s' = 2 /\ at_ 0 0 s' = Done 3 /\ at_ 0 1 s' = Done 2.
Proof.
  destruct (erase_swap_moves_last_row (I := int_int) 0 three_rows
              three_rows_invariant ltac:(apply Z.leb_le; reflexivity))
    as [_ H].
  destruct H as (s' & H & _ & Hsize & _ & Hmoved & Hother); [reflexivity|].
  exists s'. split; [exact H|]. split; [exact Hsize|]. split.
  - rewrite Hmoved by reflexivity. reflexivity.
  - rewrite Hother; [reflexivity| |discriminate].
    split; [apply Z.leb_le|apply Z.ltb_lt]; reflexivity.
Defined.

Lemma resize_sets_size_witness :
  exists s', resize (I := int_int) refuse 5 three_rows = Done (true, s') /\
    size s' = 5 /\ at_ 0 0 s' = Done 1 /\ at_ 1 4 s' = Done 0.
Proof.
  eexists. split; [reflexivity|].
  destruct (resize_sets_size (L := int_int_laws) refuse 5 three_rows _ true
              three_rows_invariant
              ltac:(split; [apply Z.leb_le|apply Z.ltb_lt]; reflexivity)
              eq_refl)
    as (_ & (Hsize & Hold & Hnew) & _).
  split; [exact Hsize|]. split.
  - apply (Hold 0%nat 0 1); [| |reflexivity].
    + split; [apply Z.leb_le|apply Z.ltb_lt]; reflexivity.
    + reflexivity.
  - apply (Hnew 1%nat int_column 4); [reflexivity|].
    split; [apply Z.leb_le|apply Z.ltb_lt]; reflexivity.
Defined.

Lemma shrink_to_fit_is_minimal_witness :
  exists s1, shrink_to_fit (I := int_int) grant three_rows = Done (true, s1) /\
    capacity s1 = 16 /\ size s1 = 3 /\
    shrink_to_fit refuse s1 = Done (true, s1).
Proof.
  eexists. split; [reflexivity|].
  destruct (shrink_to_fit_is_minimal (L := int_int_laws) grant three_rows _
              three_rows_invariant eq_refl)
    as (_ & Hsize & _ & _ & _ & _ & Hagain).
  split; [reflexivity|]. split; [exact Hsize|exact Hagain].
Defined.

Lemma bound_search_partition_point_witness :
  lower_bound (I := int_int) Z.ltb 65 0 2 three_rows = Done 1 /\
  upper_bound (I := int_int) Z.ltb 65 0 2 three_rows = Done 2 /\
  exists p, lower_bound (I := int_int) Z.ltb 65 0 4 three_rows = Done p /\
    0 <= p <= 3.
Proof.
  split; [reflexivity|]. split; [reflexivity|].
  destruct (bound_search_partition_point (I := int_int) Z.ltb 0 4
              three_rows 65 three_rows_invariant
              ltac:(apply Z.leb_le; reflexivity)
              ltac:(apply Nat.ltb_lt; reflexivity)
              ltac:(apply Nat.leb_le; reflexivity))
    as [(p & H & Hrange & _) _].
  exists p. split; [exact H|exact Hrange].
Defined.

Lemma equal_range_of_sorted_column_witness :
  exists lo hi,
    lower_bound (I := int_int) Z.ltb 65 0 2 three_rows = Done lo /\
    upper_bound (I := int_int) Z.ltb 65 0 2 three_rows = Done hi /\
    0 <= lo <= hi /\ hi <= size three_rows /\
    forall i x, 0 <= i < size three_rows ->
      at_ 0%nat i three_rows = Done x ->
      (lo <= i < hi <-> (x <? 2) = false /\ (2 <? x) = false).
Proof.
  apply (equal_range_of_sorted_column (I := int_int) Z.ltb 0 2 three_rows 65
           three_rows_invariant).
  - apply Z.leb_le. reflexivity.
  - apply Nat.ltb_lt. reflexivity.
  - apply Nat.leb_le. reflexivity.
  - intros a b H. apply Z.ltb_lt in H. apply Z.ltb_ge. lia.
  - intros a b c H. apply Z.ltb_lt in H.
    destruct (Z.ltb_spec a b); [left; reflexivity|right; apply Z.ltb_lt; lia].
  - intros i j x y Hij Hj Hx Hy. change (size three_rows) with 3 in Hj.
    assert (Hi : i = 0 \/ i = 1 \/ i = 2) by lia.
    assert (Hj' : j = 0 \/ j = 1 \/ j = 2) by lia.
    destruct Hi as [-> | [-> | ->]]; destruct Hj' as [-> | [-> | ->]];
      try lia; injection Hx as <-; injection Hy as <-; reflexivity.
Defined.

(** ** Examples for the table *)

Lemma two_rows_inserted : inserted two_rows [(0, [10]); (1, [11])].
Proof.
  apply (insert_all_inserted (L := int_int_laws) grant 36
           [(0, [10]); (1, [11])] htable_new two_rows []
           htable_new_inserted).
  reflexivity.
Qed.

Lemma one_row_inserted : inserted one_row [(40, [7])].
Proof.
  apply (insert_all_inserted (L := int_int_laws) grant 36 [(40, [7])]
           htable_new one_row [] htable_new_inserted).
  reflexivity.
Qed.

Lemma saturated_shape : table_shape saturated.
Proof.
  split.
  - split; simpl; try lia; try reflexivity;
    [split; [reflexivity|vm_compute; discriminate]|repeat constructor].
  - apply Z.leb_le. reflexivity.
  - right. split; [reflexivity|].
    split; apply Z.ltb_lt; reflexivity.
  - apply Z.leb_le. reflexivity.
  - split; [apply Z.leb_le|apply Z.ltb_lt]; reflexivity.
Qed.


Lemma rehash_rebuilds_index_witness :
  exists (t' t'' : @htable int_int),
    rehash (I := int_int) 36 saturated = Done t' /\
    slot t' 34 = Some 0 /\
    find_sequence (I := int_int) 36 34 1 t' = Done ([0; SIZE_MAX], t'').
Proof.
  pose proof (rehash_rebuilds_index (L := int_int_laws) 36 saturated 34
                saturated_shape ltac:(apply Nat.ltb_lt; reflexivity)) as H.
  cbv zeta in H.
  destruct H as (t' & H & _ & _ & _ & _ & _ & _ & _ & t'' & Hfind).
  exists t', t''. split; [exact H|]. split; [|exact Hfind].
  injection H as <-. reflexivity.
Defined.

Lemma count_after_inserts_witness :
  count (I := string_view_int) 36 3 banana three_bananas = Done 3 /\
  find_const (I := string_view_int) 36 banana three_bananas = Done 0.
Proof.
  apply (count_after_inserts (L := string_view_int_laws) grant 36 36 3 bananas
           three_bananas banana eq_refl).
  - apply Nat.ltb_lt. reflexivity.
  - apply Nat.leb_le. reflexivity.
Defined.

Lemma clear_empties_table_witness :
  exists t', htable_clear (I := int_int) two_rows = Done t' /\
    size (base t') = 0 /\ capacity (base t') = 16 /\
    find (I := int_int) 36 0 true t' = Done (SIZE_MAX, t').
Proof.
  destruct (clear_empties_table (L := int_int_laws) two_rows
              (inserted_shape _ _ two_rows_inserted))
    as (t' & H & _ & Hsize & Hcap & _ & _ & Hfind & _).
  exists t'. split; [exact H|]. split; [exact Hsize|].
  split; [exact Hcap|apply Hfind].
Defined.

Lemma insert_then_find_witness :
  exists t', htable_insert (I := int_int) refuse 36 5 [50] two_rows
             = Done (true, t') /\
    size (base t') = 3 /\ find_const (I := int_int) 36 5 t' = Done 2 /\
    find_const (I := int_int) 36 1 t' = Done 1.
Proof.
  destruct (insert_then_find (L := int_int_laws) grant refuse 36 36
              [(0, [10]); (1, [11])] two_rows 5 [50] eq_refl)
    as (t' & H & Hsize & _ & _ & _ & Hfind & Hother).
  - apply Z.ltb_lt. reflexivity.
  - apply Z.ltb_lt. reflexivity.
  - apply Nat.ltb_lt. reflexivity.
  - exists t'. split; [exact H|]. split; [exact Hsize|].
    split; [exact Hfind|]. rewrite Hother by discriminate. reflexivity.
Defined.

Lemma erase_after_inserts_witness :
  exists t', erase (I := string_view_int) 36 banana three_bananas = Done (1, t') /\
    slot_invariant t' /\ size (base t') = 2 /\
    at_ 1%nat 0 (base t') = Done (Int 9001).
Proof.
  destruct (erase_after_inserts (L := string_view_int_laws) grant 36 36 bananas
              three_bananas banana eq_refl
              ltac:(apply Nat.ltb_lt; reflexivity)) as [_ H].
  change (indices_of (I := string_view_int) banana bananas 0) with [0; 1; 2] in H.
  destruct H as (t' & H & Hinv & _ & Hsize & _ & Hmoved & _).
  exists t'. split; [exact H|]. split; [exact Hinv|].
  split; [exact Hsize|].
  rewrite Hmoved by (apply Z.ltb_lt; reflexivity). reflexivity.
Defined.

Lemma erase_sorted_after_inserts_witness :
  exists (t' t'' : @htable int_int),
    erase_sorted (I := int_int) 36 0 unsorted_table = Done (1, t') /\
    size (base t') = 2 /\
    at_ 0%nat 1 (base t') = Done 1 /\ at_ 1%nat 1 (base t') = Done 11 /\
    find_sequence (I := int_int) 36 1 1 t' = Done ([1; SIZE_MAX], t'').
Proof.
  pose proof (erase_sorted_after_inserts (L := int_int_laws) grant 36 36
                [(2, [20]); (0, [10]); (1, [11])] unsorted_table 0 eq_refl
                ltac:(apply Nat.ltb_lt; reflexivity)) as H.
  change (indices_of (I := int_int) 0 [(2, [20]); (0, [10]); (1, [11])] 0)
    with [1] in H.
  destruct H as [_ H].
  destruct H as (t' & H & Hsize & _ & Hafter & _ & Hfind);
    [apply Z.ltb_lt; reflexivity|].
  destruct (Hfind 1) as (t'' & Hseq).
  exists t', t''. split; [exact H|]. split; [exact Hsize|].
  split; [|split; [|exact Hseq]].
  - apply (Hafter 0%nat 2 1); [|reflexivity].
    split; apply Z.ltb_lt; reflexivity.
  - apply (Hafter 1%nat 2 11); [|reflexivity].
    split; apply Z.ltb_lt; reflexivity.
Defined.


Lemma htable_reserve_keeps_rows_witness :
  exists (t' t'' : @htable int_int),
    htable_reserve (I := int_int) grant 36 17 one_row = Done (true, t') /\
    capacity (base t') = 32 /\ size (base t') = 1 /\
    find_sequence (I := int_int) 68 40 1 t' = Done ([0; SIZE_MAX], t'').
Proof.
  eexists.
  destruct (htable_reserve_keeps_rows (L := int_int_laws) grant 36 17 one_row
              _ (inserted_shape _ _ one_row_inserted)
              ltac:(split; apply Z.leb_le; reflexivity) eq_refl)
    as [_ Hcases].
  - apply Z.leb_le. reflexivity.
  - destruct Hcases as [Heq|(_ & _ & Hsize & _ & _ & _ & Hfind)];
      [discriminate Heq|].
    destruct (Hfind 40 68%nat ltac:(apply Nat.ltb_lt; reflexivity))
      as (t'' & Hseq).
    exists t''. split; [reflexivity|]. split; [reflexivity|].
    split; [exact Hsize|exact Hseq].
Defined.

Lemma roomy_row_shape : table_shape roomy_row.
Proof.
  split.
  - split; simpl; try lia; try reflexivity;
    [split; [reflexivity|vm_compute; discriminate]|repeat constructor].
  - apply Z.leb_le. reflexivity.
  - right. split; [reflexivity|].
    split; apply Z.ltb_lt; reflexivity.
  - apply Z.leb_le. reflexivity.
  - split; [apply Z.leb_le|apply Z.ltb_lt]; reflexivity.
Qed.

Lemma htable_shrink_to_fit_keeps_rows_witness :
  exists (t' t'' : @htable int_int),
    htable_shrink_to_fit (I := int_int) grant 36 roomy_row
    = Done (true, t') /\
    capacity (base t') = 16 /\ size (base t') = 1 /\
    find_sequence (I := int_int) 36 40 1 t' = Done ([0; SIZE_MAX], t'').
Proof.
  eexists.
  destruct (htable_shrink_to_fit_keeps_rows (L := int_int_laws) grant 36
              roomy_row _ roomy_row_shape eq_refl)
    as (_ & Hsize & _ & _ & _ & [Heq|(_ & _ & _ & Hfind)]);
    [discriminate Heq|].
  destruct (Hfind 40 36%nat ltac:(apply Nat.ltb_lt; reflexivity))
    as (t'' & Hseq).
  exists t''. split; [reflexivity|]. split; [reflexivity|].
  split; [exact Hsize|exact Hseq].
Defined.

Lemma three_rows_reachable : soa_reachable three_rows.
Proof.
  eapply reach_step;
    [eapply reach_step;
       [eapply reach_step;
          [eapply reach_step; [apply reach_new|]|]|]|].
  - eapply (step_reserve (I := int_int) _ grant 20);
      [split; [apply Z.leb_le|apply Z.ltb_lt]; reflexivity|reflexivity].
  - eapply (step_push_back (I := int_int) _ grant [1; 10]); reflexivity.
  - eapply (step_push_back (I := int_int) _ grant [2; 20]); reflexivity.
  - eapply (step_push_back (I := int_int) _ grant [3; 30]); reflexivity.
Qed.

Lemma soa_operations_keep_invariant_witness :
  (capacity three_rows mod 16 = 0 /\
   0 <= size three_rows <= capacity three_rows) /\
  soa_step three_rows reserved_rows /\ soa_invariant reserved_rows.
Proof.
  assert (Hstep : soa_step three_rows reserved_rows).
  { apply (step_reserve (I := int_int) three_rows grant 40 true);
      [split; [apply Z.leb_le|apply Z.ltb_lt]; reflexivity|reflexivity]. }
  split; [|split; [exact Hstep|]].
  - apply (proj2 (soa_operations_keep_invariant (L := int_int_laws))).
    exact three_rows_reachable.
  - apply (proj1 (soa_operations_keep_invariant (L := int_int_laws))
             three_rows reserved_rows three_rows_invariant Hstep).
    apply Z.leb_le. reflexivity.
Defined.

(** ** Examples for sorting *)

Lemma unsorted_rows_invariant : soa_invariant unsorted_rows.
Proof. split; simpl; try lia; try reflexivity;
    [split; [reflexivity|vm_compute; discriminate]|repeat constructor]. Qed.

Lemma unsorted_table_inserted :
  inserted unsorted_table [(2, [20]); (0, [10]); (1, [11])].
Proof.
  apply (insert_all_inserted (L := int_int_laws) grant 36
           [(2, [20]); (0, [10]); (1, [11])] htable_new unsorted_table []
           htable_new_inserted).
  reflexivity.
Qed.

Lemma ltb_asymmetric (a b : Z) : (a <? b) = true -> (b <? a) = false.
Proof. intros H. apply Z.ltb_lt in H. apply Z.ltb_ge. lia. Qed.

Lemma ltb_transitive (a b c : Z) :
  (a <? b) = true -> (b <? c) = true -> (a <? c) = true.
Proof.
  intros H1 H2. apply Z.ltb_lt in H1. apply Z.ltb_lt in H2.
  apply Z.ltb_lt. lia.
Qed.

Lemma sort_orders_rows_witness :
  exists s' : @soa int_int,
    sort (I := int_int) Z.ltb 3 0 unsorted_rows = Done (2, s') /\
    size s' = 3 /\ rows_of s' ≡ₚ rows_of unsorted_rows /\
    at_ 0%nat 0 s' = Done 1 /\ at_ 1%nat 0 s' = Done 10 /\
    at_ 0%nat 2 s' = Done 3.
Proof.
  eexists. split; [reflexivity|].
  destruct (sort_orders_rows (I := int_int) Z.ltb 3 0 unsorted_rows
              unsorted_rows_invariant
              ltac:(apply Nat.ltb_lt; reflexivity)
              ltac:(apply Z.leb_le; reflexivity)
              ltac:(apply Nat.leb_le; reflexivity)
              ltb_asymmetric ltb_transitive) as [_ H].
  destruct H as (n & s' & Hrun & _ & Hsize & _ & Hperm & _);
    [reflexivity|].
  injection Hrun as <- <-.
  split; [exact Hsize|]. split; [exact Hperm|].
  split; [reflexivity|]. split; reflexivity.
Defined.

Lemma htable_sort_rebuilds_index_witness :
  exists (n : Z) (t' t'' : @htable int_int),
    htable_sort (I := int_int) Z.ltb 36 0 unsorted_table = Done (n, t') /\
    at_ 0%nat 0 (base t') = Done 0 /\ at_ 1%nat 0 (base t') = Done 10 /\
    find_sequence (I := int_int) 36 2 1 t' = Done ([2; SIZE_MAX], t'').
Proof.
  destruct (htable_sort_rebuilds_index (L := int_int_laws) Z.ltb 36 0
              unsorted_table (inserted_shape _ _ unsorted_table_inserted)
              ltac:(apply Nat.ltb_lt; reflexivity)
              ltac:(apply Z.leb_le; reflexivity)
              ltac:(apply Nat.ltb_lt; reflexivity)
              ltb_asymmetric ltb_transitive) as [_ H].
  destruct H as (n & t' & Hrun & _ & _ & _ & _ & _ & _ & Hfind);
    [reflexivity|].
  destruct (Hfind 2) as (t'' & Hseq).
  exists n, t', t''. split; [exact Hrun|].
  injection Hrun as <- <-.
  split; [reflexivity|]. split; [reflexivity|exact Hseq].
Defined.


Lemma collided_slot_invariant : slot_invariant collided.
Proof. apply slot_invariant_b_sound. vm_compute. reflexivity. Qed.

Lemma find_with_tombstones_witness :
  slot collided 0 = Some INDEXDEL /\
  exists t' : @htable int_int,
    find (I := int_int) 36 35 true collided = Done (0, t') /\
    find_const (I := int_int) 36 35 collided = Done 0 /\
    at_ 0%nat 0 (base collided) = Done 35 /\
    slot t' (hashcursor t') = Some 0.
Proof.
  split; [reflexivity|].
  destruct (find_with_tombstones (L := int_int_laws) 36 35 collided
              collided_slot_invariant
              ltac:(exists 1; split; [split; [apply Z.leb_le|apply Z.ltb_lt]|];
                    reflexivity)
              ltac:(apply Nat.ltb_lt; reflexivity))
    as (r & t' & Hfind & Hconst & _ & _ & _ & Hcase).
  assert (E : find_const (I := int_int) 36 35 collided = Done 0)
    by reflexivity.
  rewrite E in Hconst. injection Hconst as <-.
  exists t'. split; [exact Hfind|]. split; [exact E|].
  destruct Hcase as [[Hr _]|(_ & Hat & Hslot)]; [discriminate Hr|].
  split; [exact Hat|exact Hslot].
Defined.

Lemma htable_serialize_reports_four_bytes_less_witness :
  exists t1 t2 : @htable int_int,
    htable_serialize (I := int_int) grant 36 roomy_row = Done (268, t1) /\
    htable_deserialize (I := int_int) (fun b => b =? 272) 36 1 htable_new
    = Done (268, t2) /\
    capacity (base t2) = 16 /\ hashcapacity t2 = 35 /\
    size_t (268 + 4) = 272.
Proof.
  eexists. eexists.
  destruct (htable_serialize_reports_four_bytes_less (I := int_int)
              grant (fun b => b =? 272) 36 36 roomy_row _ _ 272 268
              roomy_row_shape ltac:(apply Z.ltb_lt; reflexivity) eq_refl
              ltac:(intros b Hb; apply Z.eqb_eq; exact Hb) eq_refl
              ltac:(apply Z.ltb_lt; reflexivity))
    as (Hser & _ & _ & _ & _ & Hshort).
  split; [exact Hser|]. split; [reflexivity|].
  split; [reflexivity|]. split; [reflexivity|exact Hshort].
Defined.
